(** * Edge sampling for differentiable rendering: a shallow embedding of edge.cpp

    The development follows the layout of the source file: edge extraction
    and merging, the distribution builder, the primary edge sampler, the
    edge tree with its importance and descent, the secondary edge sampler
    and the post-intersection weight updates.

    Numeric conventions.  [int] is modelled as [Z]; all indices that occur
    are far from the bounds of the machine type, where signed overflow would
    be undefined behaviour anyway.  [Real] is modelled as the real numbers
    [R] of the standard library: every arithmetic operation is exact, so
    statements about rounding, overflow, infinities and NaN are outside of
    this model.  Where the outcome depends on them, in the importance of a
    node of the edge tree and in the descent over the tree, the code is
    embedded a second time over the binary64 format, in [Binary64].  Raw
    pointers into buffers are total functions from [Z]. *)

From Stdlib Require Import Reals ZArith List Bool Lia Lra.
From Stdlib Require Import Sorting.Permutation Sorting.Sorted Sorting.Mergesort Orders.
From Stdlib Require PrimFloat FloatOps SpecFloat.
Import ListNotations.

(* ================================================================= *)
(** * Part I: definitions *)
(* ================================================================= *)

(** ** Integers, buffers and data-parallel maps *)

Local Open Scope Z_scope.

(** A raw pointer [T *] is a total map from offsets to values; a store
    through the pointer is a functional update. *)
Definition Buffer (A : Type) : Type := Z -> A.

Definition store {A : Type} (b : Buffer A) (i : Z) (v : A) : Buffer A :=
  fun j => if Z.eqb j i then v else b j.

(** [0, 1, ..., n-1] as machine indices. *)
Definition index_range (n : Z) : list Z :=
  map Z.of_nat (seq 0 (Z.to_nat n)).

(** [parallel_for(functor, count, use_gpu)] for a functor that transforms a
    state: every index in [0, count) is visited once.  All functors below
    write only to slots owned by their index, so the order is immaterial and
    the ascending order of the CPU loop is taken. *)
Definition parallel_for {S : Type} (functor : Z -> S -> S) (count : Z) (s : S) : S :=
  fold_left (fun acc idx => functor idx acc) (index_range count) s.

(** Modelled from the spec: [clamp] of the numeric utilities, which do not
    belong to this file; the value is forced into [[lo, hi]], the lower
    bound being tested first. *)
Definition clampZ (v lo hi : Z) : Z :=
  if v <? lo then lo else if v >? hi then hi else v.

(** ** Reals and vectors *)

Section Numeric.

Local Open Scope R_scope.

(** Comparisons of [Real] values as they occur in conditions. *)
Definition Rltb (a b : R) : bool := if Rlt_dec a b then true else false.
Definition Rleb (a b : R) : bool := if Rle_dec a b then true else false.

(** Modelled from the spec: [square] and [modulo] of the numeric
    utilities, which do not belong to this file.  [modulo a b] is the
    remainder of [a] in [[0, b)], used to wrap a sample back into the unit
    interval. *)
Definition square (a : R) : R := a * a.

Definition modulo (a b : R) : R := a - IZR (Int_part (a / b)) * b.

(** Conversion [int(x)] of a real to an integer: truncation toward zero. *)
Definition truncate (a : R) : Z :=
  if Rleb 0 a then Int_part a else (- Int_part (- a))%Z.

Record Vector2 : Type := mkVector2 { v2x : R; v2y : R }.
Record Vector3 : Type := mkVector3 { vx : R; vy : R; vz : R }.

(** Modelled from the spec: the vector algebra ([+], [-], scaling, [dot],
    [cross], [length], [normalize], [distance]) is declared with the
    vector types, outside of this file; it has its usual meaning. *)
Definition add2 (a b : Vector2) := mkVector2 (v2x a + v2x b) (v2y a + v2y b).
Definition sub2 (a b : Vector2) := mkVector2 (v2x a - v2x b) (v2y a - v2y b).
Definition scale2 (s : R) (a : Vector2) := mkVector2 (s * v2x a) (s * v2y a).
Definition div2 (a : Vector2) (s : R) := mkVector2 (v2x a / s) (v2y a / s).
Definition length2 (a : Vector2) : R := sqrt (v2x a * v2x a + v2y a * v2y a).
Definition distance2 (a b : Vector2) : R := length2 (sub2 a b).
Definition normalize2 (a : Vector2) : Vector2 := div2 a (length2 a).

Definition zero3 : Vector3 := mkVector3 0 0 0.
Definition add3 (a b : Vector3) :=
  mkVector3 (vx a + vx b) (vy a + vy b) (vz a + vz b).
Definition sub3 (a b : Vector3) :=
  mkVector3 (vx a - vx b) (vy a - vy b) (vz a - vz b).
Definition neg3 (a : Vector3) := mkVector3 (- vx a) (- vy a) (- vz a).
Definition scale3 (s : R) (a : Vector3) :=
  mkVector3 (s * vx a) (s * vy a) (s * vz a).
Definition div3 (a : Vector3) (s : R) := mkVector3 (vx a / s) (vy a / s) (vz a / s).
Definition dot3 (a b : Vector3) : R := vx a * vx b + vy a * vy b + vz a * vz b.
Definition cross (a b : Vector3) : Vector3 :=
  mkVector3 (vy a * vz b - vz a * vy b)
            (vz a * vx b - vx a * vz b)
            (vx a * vy b - vy a * vx b).
Definition length_squared (a : Vector3) : R := dot3 a a.
Definition length3 (a : Vector3) : R := sqrt (length_squared a).
Definition normalize (a : Vector3) : Vector3 := div3 a (length3 a).
Definition distance_squared (a b : Vector3) : R := length_squared (sub3 a b).
Definition distance (a b : Vector3) : R := length3 (sub3 a b).

(** A 3x3 matrix by its rows, and its product with a column vector. *)
Record Matrix3x3 : Type := mkMatrix3x3 { row0 : Vector3; row1 : Vector3; row2 : Vector3 }.

Definition mulMv (m : Matrix3x3) (v : Vector3) : Vector3 :=
  mkVector3 (dot3 (row0 m) v) (dot3 (row1 m) v) (dot3 (row2 m) v).

Definition identity3 : Matrix3x3 :=
  mkMatrix3x3 (mkVector3 1 0 0) (mkVector3 0 1 0) (mkVector3 0 0 1).

(** A shading frame: tangent, bitangent and normal; [frame[2]] is the
    normal. *)
Record Frame : Type := mkFrame { frame_x : Vector3; frame_y : Vector3; frame_n : Vector3 }.

(** Modelled from the spec: [to_local(frame, v)] expresses [v] in the
    coordinates of the frame. *)
Definition to_local (f : Frame) (v : Vector3) : Vector3 :=
  mkVector3 (dot3 v (frame_x f)) (dot3 v (frame_y f)) (dot3 v (frame_n f)).

End Numeric.

(** ** Edges (section "Edge Extraction & Merge") *)

Record Edge : Type := mkEdge {
  edge_shape_id : Z;
  edge_v0 : Z;
  edge_v1 : Z;
  edge_f0 : Z;
  edge_f1 : Z
}.

(** Three vertex indices of a triangle, [Vector3i]. *)
Record Vector3i : Type := mkVector3i { ind0 : Z; ind1 : Z; ind2 : Z }.

(** A triangle mesh: vertex positions, triangle index buffer, number of
    triangles and material. *)
Record Shape : Type := mkShape {
  shape_vertices : Buffer Vector3;
  shape_indices : Buffer Vector3i;
  num_triangles : Z;
  material_id : Z
}.

(** Modelled from the spec: [get_indices(shape, i)] is declared with the
    shapes, outside of this file; it reads the three vertex indices of
    triangle [i] from the immutable triangle list. *)
Definition get_indices (shape : Shape) (i : Z) : Vector3i := shape_indices shape i.

(** Modelled from the spec: [get_v0(shapes, edge)] and [get_v1(shapes, edge)]
    are declared with the edge type, outside of this file; they read the
    positions of the two end points of the edge from its shape. *)
Definition get_v0 (shapes : Buffer Shape) (edge : Edge) : Vector3 :=
  shape_vertices (shapes (edge_shape_id edge)) (edge_v0 edge).

Definition get_v1 (shapes : Buffer Shape) (edge : Edge) : Vector3 :=
  shape_vertices (shapes (edge_shape_id edge)) (edge_v1 edge).

(** [edge_collector::operator()]: the edge stored at [edges[idx]].  [idx / 3]
    and [idx % 3] are the truncating C operators. *)
Definition edge_collector (shape_id : Z) (shape : Shape) (idx : Z) : Edge :=
  let ind := get_indices shape (Z.quot idx 3) in
  if Z.rem idx 3 =? 0 then
    mkEdge shape_id (Z.min (ind0 ind) (ind1 ind)) (Z.max (ind0 ind) (ind1 ind))
           (Z.quot idx 3) (-1)
  else if Z.rem idx 3 =? 1 then
    mkEdge shape_id (Z.min (ind1 ind) (ind2 ind)) (Z.max (ind1 ind) (ind2 ind))
           (Z.quot idx 3) (-1)
  else
    mkEdge shape_id (Z.min (ind2 ind) (ind0 ind)) (Z.max (ind2 ind) (ind0 ind))
           (Z.quot idx 3) (-1).

Definition edge_less_comparer (e0 e1 : Edge) : bool :=
  if edge_v0 e0 =? edge_v0 e1 then edge_v1 e0 <? edge_v1 e1
  else edge_v0 e0 <? edge_v0 e1.

Definition edge_equal_comparer (e0 e1 : Edge) : bool :=
  (edge_v0 e0 =? edge_v0 e1) && (edge_v1 e0 =? edge_v1 e1).

Definition edge_merger (e0 e1 : Edge) : Edge :=
  mkEdge (edge_shape_id e0) (edge_v0 e0) (edge_v1 e0) (edge_f0 e0) (edge_f0 e1).

(** The edges written by the collector pass over one shape:
    [parallel_for(edge_collector{...}, 3 * num_triangles)]. *)
Definition collect_edges (shape_id : Z) (shape : Shape) : list Edge :=
  map (edge_collector shape_id shape) (index_range (3 * num_triangles shape)).

(** The collector as the task that [parallel_for] runs for index [idx], and
    the whole pass when the tasks are run in the order [schedule]. *)
Definition edge_collector_task (shape_id : Z) (shape : Shape) (idx : Z)
    (edges : Buffer Edge) : Buffer Edge :=
  store edges idx (edge_collector shape_id shape idx).

Definition collect_pass (shape_id : Z) (shape : Shape) (schedule : list Z)
    (edges : Buffer Edge) : Buffer Edge :=
  fold_left (fun edges idx => edge_collector_task shape_id shape idx edges)
            schedule edges.

(** [thrust::reduce_by_key] in its sequential form.  [key] and [value] are
    the key and the partial reduction of the run being read; a run ends at
    the first key that the predicate separates from the key the run began
    with.  Keys and values are read from the same range here. *)
Fixpoint reduce_run (key value : Edge) (l : list Edge) : list (Edge * Edge) :=
  match l with
  | [] => [(key, value)]
  | e :: l' =>
      if edge_equal_comparer key e
      then reduce_run key (edge_merger value e) l'
      else (key, value) :: reduce_run e e l'
  end.

Definition reduce_by_key (l : list Edge) : list (Edge * Edge) :=
  match l with
  | [] => []
  | e :: l' => reduce_run e e l'
  end.

(** The constructor passes the same pointer as output for keys and for
    values: slot [j] receives the key of run [j] and then its reduced value,
    so the buffer ends up holding the reduced values. *)
Definition write_aliased (kv : Edge * Edge) : Edge :=
  let slot := fst kv in
  let slot := snd kv in
  slot.

Section EdgeExtraction.

(** [thrust::sort] with [edge_less_comparer]; it is not a stable sort, so
    nothing but its result being an ordered rearrangement is used. *)
Variable sort : list Edge -> list Edge.

(** One round of the loop over shapes in [EdgeSampler::EdgeSampler]:
    collect, sort, merge, copy back. *)
Definition shape_edges (shape_id : Z) (shape : Shape) : list Edge :=
  map write_aliased (reduce_by_key (sort (collect_edges shape_id shape))).

(** The whole loop: the merged edges of the shapes, one after the other;
    [edges.count] is the length of the result. *)
Fixpoint EdgeSampler_edges_from (shape_id : Z) (shapes : list Shape) : list Edge :=
  match shapes with
  | [] => []
  | shape :: rest =>
      shape_edges shape_id shape ++ EdgeSampler_edges_from (shape_id + 1) rest
  end.

Definition EdgeSampler_edges (shapes : list Shape) : list Edge :=
  EdgeSampler_edges_from 0 shapes.

End EdgeExtraction.

(** The vertex pair that identifies an edge. *)
Definition edge_key (e : Edge) : Z * Z := (edge_v0 e, edge_v1 e).

(** The edges of a list that carry the same vertex pair as [k]. *)
Definition occurrences (k : Edge) (l : list Edge) : list Edge :=
  filter (edge_equal_comparer k) l.

(** The edges of a list that do not carry the vertex pair of [k]. *)
Definition other_edges (k : Edge) (l : list Edge) : list Edge :=
  filter (fun e => negb (edge_equal_comparer k e)) l.

(** Order in which [edge_less_comparer] leaves a sorted range: no element is
    less than an earlier one. *)
Definition edge_le (a b : Edge) : Prop := edge_less_comparer b a = false.

(** A comparison sort, seen from outside. *)
Definition sorts_edges (sort : list Edge -> list Edge) : Prop :=
  forall l, Permutation l (sort l) /\ StronglySorted edge_le (sort l).

(** A concrete sort for running the pipeline: merge sort of the standard
    library on the total preorder of [edge_less_comparer]. *)
Module EdgeOrder <: TotalLeBool.
Definition t := Edge.
Definition leb (a b : Edge) : bool := negb (edge_less_comparer b a).
Lemma leb_total : forall a b, leb a b = true \/ leb b a = true.
Proof.
  intros a b. unfold leb, edge_less_comparer.
  destruct (edge_v0 b =? edge_v0 a) eqn:E1;
    destruct (edge_v0 a =? edge_v0 b) eqn:E2;
    destruct (edge_v1 b <? edge_v1 a) eqn:E3;
    destruct (edge_v1 a <? edge_v1 b) eqn:E4;
    destruct (edge_v0 b <? edge_v0 a) eqn:E5;
    destruct (edge_v0 a <? edge_v0 b) eqn:E6;
    simpl; auto; lia.
Qed.
End EdgeOrder.

Module EdgeSort := Sort EdgeOrder.

(** A quad made of the triangles (0,1,2) and (2,1,3), and a mesh whose only
    triangle repeats a vertex index. *)
Definition quad_vertices : Buffer Vector3 :=
  fun i => if i =? 0 then mkVector3 0 0 0
           else if i =? 1 then mkVector3 1 0 0
           else if i =? 2 then mkVector3 0 1 0
           else mkVector3 1 1 0.

Definition quad_mesh : Shape :=
  mkShape quad_vertices
          (fun i => if i =? 0 then mkVector3i 0 1 2 else mkVector3i 2 1 3) 2 0.

Definition degenerate_mesh : Shape :=
  mkShape quad_vertices (fun _ => mkVector3i 0 0 1) 1 0.


(** What an output slot of the reduction holds when the range is ordered:
    the first edge of a run as key, and the fold of the merger over the rest
    of the run as value. *)
Definition run_of (l : list Edge) (kv : Edge * Edge) : Prop :=
  exists g gs, occurrences (fst kv) l = g :: gs /\ fst kv = g /\
               snd kv = fold_left edge_merger gs g.

(** The pair of vertex indices on side [r] of a triangle, in the order the
    collector reads them. *)
Definition triangle_side (ind : Vector3i) (r : Z) : Z * Z :=
  if r =? 0 then (ind0 ind, ind1 ind)
  else if r =? 1 then (ind1 ind, ind2 ind)
  else (ind2 ind, ind0 ind).

(** A triangle whose three vertex indices differ. *)
Definition nondegenerate (ind : Vector3i) : Prop :=
  ind0 ind <> ind1 ind /\ ind1 ind <> ind2 ind /\ ind2 ind <> ind0 ind.

(** Lexicographic order on vertex pairs. *)
Definition key_le (a b : Z * Z) : Prop :=
  fst a < fst b \/ (fst a = fst b /\ snd a <= snd b).

(** ** Records exchanged with the renderer

    The types below are declared in headers that accompany this file; only
    the fields that the code of this file reads or writes are kept. *)

Record Intersection : Type := mkIntersection { isect_shape_id : Z; isect_tri_id : Z }.

(** Modelled from the spec: [Intersection::valid()] is declared with the
    intersection record, outside of this file; a probe ray that hit no
    surface carries no shape and no triangle. *)
Definition valid (isect : Intersection) : bool :=
  (isect_shape_id isect >=? 0) && (isect_tri_id isect >=? 0).

Record SurfacePoint : Type := mkSurfacePoint {
  position : Vector3;
  geom_normal : Vector3;
  shading_frame : Frame
}.

Record RayDifferential : Type := mkRayDifferential {
  org_dx : Vector3; org_dy : Vector3; dir_dx : Vector3; dir_dy : Vector3
}.

Record ChannelInfo : Type := mkChannelInfo {
  num_total_dimensions : Z;
  radiance_dimension : Z
}.

Record PrimaryEdgeSample : Type := mkPrimaryEdgeSample {
  primary_edge_sel : R;
  primary_t : R
}.

Record PrimaryEdgeRecord : Type := mkPrimaryEdgeRecord {
  primary_edge : Edge;
  primary_edge_pt : Vector2
}.

Record SecondaryEdgeSample : Type := mkSecondaryEdgeSample {
  edge_sel : R;
  resample_sel : R;
  bsdf_component : R;
  secondary_t : R
}.

Record SecondaryEdgeRecord : Type := mkSecondaryEdgeRecord {
  secondary_edge : Edge;
  secondary_edge_pt : Vector3;
  mwt : Vector3
}.

(** ** External collaborators

    Camera, clipping and silhouette tests are consumed from other parts of
    the renderer; this file only calls them.  They are kept abstract. *)

Class Collaborators : Type := {
  Camera : Type;
  camera_width : Camera -> Z;
  camera_height : Camera -> Z;
  camera_fisheye : Camera -> bool;
  (** [xfm_point(camera.cam_to_world, Vector3{0, 0, 0})] *)
  camera_origin : Camera -> Vector3;
  (** [xfm_point(camera.world_to_cam, v)] *)
  world_to_camera : Camera -> Vector3 -> Vector3;
  (** [project(camera, v0, v1, v0p, v1p)]: the two projected end points, or
      failure *)
  project : Camera -> Vector3 -> Vector3 -> option (Vector2 * Vector2);
  in_screen : Camera -> Vector2 -> bool;
  screen_to_camera : Camera -> Vector2 -> Vector3;
  camera_to_screen : Camera -> Vector3 -> Vector2;
  (** [d_screen_to_camera(camera, p, dx, dy)]: the two derivatives *)
  d_screen_to_camera : Camera -> Vector2 -> Vector3 * Vector3;
  Ray : Type;
  (** [Ray(org, dir)] *)
  make_ray : Vector3 -> Vector3 -> Ray;
  ray_org : Ray -> Vector3;
  ray_dir : Ray -> Vector3;
  sample_primary : Camera -> Vector2 -> Ray;
  (** [clip_line(v0p, v1p, v0c, v1c)]: the clipped segment, or failure *)
  clip_line : Vector2 -> Vector2 -> option (Vector2 * Vector2);
  is_silhouette : Buffer Shape -> Vector3 -> Edge -> bool;
  compute_exterior_dihedral_angle : Buffer Shape -> Edge -> R;
  (** [get_normal(v)]: a vector perpendicular to the 2D vector [v] *)
  get_normal : Vector2 -> Vector2;
  (** the value-initialised records [PrimaryEdgeRecord{}] and
      [SecondaryEdgeRecord{}] *)
  PrimaryEdgeRecord_init : PrimaryEdgeRecord;
  SecondaryEdgeRecord_init : SecondaryEdgeRecord;
  EnvironmentMap : Type
}.

(** ** Edge weights and the distribution builder *)

(** [constexpr bool c_use_edge_tree = true] *)
Definition c_use_edge_tree : bool := true.

(** A buffer filled from a list. *)
Definition buffer_of_list {A : Type} (d : A) (l : list A) : Buffer A :=
  fun i => nth (Z.to_nat i) l d.

Section DistributionBuilder.

Local Open Scope R_scope.
Context `{Collaborators}.

(** [primary_edge_weighter::operator()]: the value left in
    [primary_edge_weights[idx]]. *)
Definition primary_edge_weighter (camera : Camera) (shapes : Buffer Shape)
    (edges : Buffer Edge) (idx : Z) : R :=
  let edge := edges idx in
  let v0 := get_v0 shapes edge in
  let v1 := get_v1 shapes edge in
  let primary_edge_weight := 0 in
  match project camera v0 v1 with
  | Some (v0p, v1p) =>
      match clip_line v0p v1p with
      | Some (v0c, v1c) =>
          let org := camera_origin camera in
          if is_silhouette shapes org edge then distance2 v0c v1c
          else primary_edge_weight
      | None => primary_edge_weight
      end
  | None => primary_edge_weight
  end.

(** [secondary_edge_weighter::operator()]: the value left in
    [secondary_edge_weights[idx]]. *)
Definition secondary_edge_weighter (shapes : Buffer Shape)
    (edges : Buffer Edge) (idx : Z) : R :=
  let edge := edges idx in
  let exterior_dihedral := compute_exterior_dihedral_angle shapes edge in
  let v0 := get_v0 shapes edge in
  let v1 := get_v1 shapes edge in
  distance v0 v1 * exterior_dihedral.

(** [thrust::reduce(first, last, init, thrust::plus<Real>())] *)
Definition thrust_reduce (l : list R) (init : R) : R := fold_left Rplus l init.

(** [thrust::transform] with a constant second operand and
    [thrust::divides<Real>()] *)
Definition thrust_transform_divides (l : list R) (c : R) : list R :=
  map (fun w => w / c) l.

(** [thrust::transform_exclusive_scan] with the identity, an initial value
    and [thrust::plus<Real>()] *)
Fixpoint thrust_exclusive_scan (l : list R) (init : R) : list R :=
  match l with
  | [] => []
  | w :: l' => init :: thrust_exclusive_scan l' (init + w)
  end.

(** "Compute PMF & CDF": normalise the weights by their sum, then take the
    prefix sum. *)
Definition build_distribution (weights : list R) : list R * list R :=
  let total_length := thrust_reduce weights 0 in
  let pmf := thrust_transform_divides weights total_length in
  let cdf := thrust_exclusive_scan pmf 0 in
  (pmf, cdf).

Record EdgeSampler : Type := mkEdgeSampler {
  edges : list Edge;
  primary_edges_pmf : list R;
  primary_edges_cdf : list R;
  secondary_edges_pmf : list R;
  secondary_edges_cdf : list R
}.

Definition shapes_buffer (shapes : list Shape) : Buffer Shape :=
  buffer_of_list (mkShape (fun _ => zero3) (fun _ => mkVector3i 0 0 0) 0 0) shapes.

(** The content of [primary_edges_pmf] after the weighter pass and before
    normalisation: the screen-space length of every edge. *)
Definition primary_edge_weights (sort : list Edge -> list Edge)
    (shapes : list Shape) (camera : Camera) : list R :=
  let edges := EdgeSampler_edges sort shapes in
  map (primary_edge_weighter camera (shapes_buffer shapes)
         (buffer_of_list (mkEdge 0 0 0 0 0) edges))
      (index_range (Z.of_nat (length edges))).

(** [EdgeSampler::EdgeSampler], up to the construction of the edge tree,
    which is done by a constructor that is not part of this file. *)
Definition EdgeSampler_new (sort : list Edge -> list Edge)
    (shapes : list Shape) (camera : Camera) : EdgeSampler :=
  let shapes_buffer := shapes_buffer shapes in
  let edges := EdgeSampler_edges sort shapes in
  let edges_buffer := buffer_of_list (mkEdge 0 0 0 0 0) edges in
  let count := Z.of_nat (length edges) in
  let primary := build_distribution (primary_edge_weights sort shapes camera) in
  let secondary :=
    if negb c_use_edge_tree then
      build_distribution
        (map (secondary_edge_weighter shapes_buffer edges_buffer)
             (index_range count))
    else ([], []) in
  mkEdgeSampler edges (fst primary) (snd primary) (fst secondary) (snd secondary).

End DistributionBuilder.

(** ** Primary edge sampler *)

Section PrimaryEdgeSampler.

Local Open Scope R_scope.
Context `{Collaborators}.

(** [thrust::upper_bound(thrust::seq, first, first + n, x)]: the offset of
    the first element greater than [x], or [n]; on the ordered ranges it is
    meant for, the binary search returns what this scan returns. *)
Fixpoint upper_bound_from (first : Buffer R) (x : R) (i : Z) (remaining : nat) : Z :=
  match remaining with
  | O => i
  | S remaining' =>
      if Rltb x (first i) then i
      else upper_bound_from first x (i + 1)%Z remaining'
  end.

Definition thrust_upper_bound (first : Buffer R) (n : Z) (x : R) : Z :=
  upper_bound_from first x 0%Z (Z.to_nat n).

(** The output buffers of the primary edge sampler. *)
Record PrimaryOutputs : Type := mkPrimaryOutputs {
  edge_records : Buffer PrimaryEdgeRecord;
  rays : Buffer Ray;
  primary_ray_differentials : Buffer RayDifferential;
  throughputs : Buffer Vector3;
  channel_multipliers : Buffer R
}.

Definition set_edge_record (o : PrimaryOutputs) (i : Z) (r : PrimaryEdgeRecord) :=
  mkPrimaryOutputs (store (edge_records o) i r) (rays o)
    (primary_ray_differentials o) (throughputs o) (channel_multipliers o).
Definition set_ray (o : PrimaryOutputs) (i : Z) (r : Ray) :=
  mkPrimaryOutputs (edge_records o) (store (rays o) i r)
    (primary_ray_differentials o) (throughputs o) (channel_multipliers o).
Definition set_ray_differential (o : PrimaryOutputs) (i : Z) (r : RayDifferential) :=
  mkPrimaryOutputs (edge_records o) (rays o)
    (store (primary_ray_differentials o) i r) (throughputs o) (channel_multipliers o).
Definition set_throughput (o : PrimaryOutputs) (i : Z) (v : Vector3) :=
  mkPrimaryOutputs (edge_records o) (rays o)
    (primary_ray_differentials o) (store (throughputs o) i v) (channel_multipliers o).
Definition set_channel_multiplier (o : PrimaryOutputs) (i : Z) (v : R) :=
  mkPrimaryOutputs (edge_records o) (rays o)
    (primary_ray_differentials o) (throughputs o) (store (channel_multipliers o) i v).

(** [for (int d = 0; d < nd; d++) { upper(d); lower(d) }] on the channel
    multipliers of sample [idx]. *)
Definition write_channel (nd idx : Z) (upper lower : Z -> R)
    (o : PrimaryOutputs) (d : Z) : PrimaryOutputs :=
  let o := set_channel_multiplier o (2 * nd * idx + d)%Z (upper d) in
  set_channel_multiplier o (2 * nd * idx + d + nd)%Z (lower d).

Definition write_channel_multipliers (nd idx : Z) (upper lower : Z -> R)
    (o : PrimaryOutputs) : PrimaryOutputs :=
  fold_left (write_channel nd idx upper lower) (index_range nd) o.

(** "Initialize output" *)
Definition primary_initialize (channel_info : ChannelInfo) (idx : Z)
    (o : PrimaryOutputs) : PrimaryOutputs :=
  let o := set_edge_record o idx PrimaryEdgeRecord_init in
  let o := set_throughput o (2 * idx + 0)%Z zero3 in
  let o := set_throughput o (2 * idx + 1)%Z zero3 in
  let nd := num_total_dimensions channel_info in
  let o := write_channel_multipliers nd idx (fun _ => 0) (fun _ => 0) o in
  let o := set_ray o (2 * idx + 0)%Z (make_ray zero3 zero3) in
  set_ray o (2 * idx + 1)%Z (make_ray zero3 zero3).

(** "Ray differential computation", the tail shared by both camera
    models. *)
Definition primary_ray_differential (camera : Camera) (idx : Z)
    (o : PrimaryOutputs) : PrimaryOutputs :=
  let screen_pos := primary_edge_pt (edge_records o idx) in
  let ray := sample_primary camera screen_pos in
  let delta := 1e-3 in
  let screen_pos_dx := add2 screen_pos (mkVector2 delta 0) in
  let ray_dx := sample_primary camera screen_pos_dx in
  let screen_pos_dy := add2 screen_pos (mkVector2 0 delta) in
  let ray_dy := sample_primary camera screen_pos_dy in
  let pixel_size_x := 0.5 / IZR (camera_width camera) in
  let pixel_size_y := 0.5 / IZR (camera_height camera) in
  let org_dx := div3 (scale3 pixel_size_x (sub3 (ray_org ray_dx) (ray_org ray))) delta in
  let org_dy := div3 (scale3 pixel_size_y (sub3 (ray_org ray_dy) (ray_org ray))) delta in
  let dir_dx := div3 (scale3 pixel_size_x (sub3 (ray_dir ray_dx) (ray_dir ray))) delta in
  let dir_dy := div3 (scale3 pixel_size_y (sub3 (ray_dir ray_dy) (ray_dir ray))) delta in
  set_ray_differential o idx (mkRayDifferential org_dx org_dy dir_dx dir_dy).

(** [primary_edge_sampler::operator()] *)
Definition primary_edge_sampler (camera : Camera) (shapes : Buffer Shape)
    (edges : Buffer Edge) (num_edges : Z) (edges_pmf edges_cdf : Buffer R)
    (samples : Buffer PrimaryEdgeSample) (d_rendered_image : Buffer R)
    (channel_info : ChannelInfo) (idx : Z) (o : PrimaryOutputs) : PrimaryOutputs :=
  let o := primary_initialize channel_info idx o in
  let nd := num_total_dimensions channel_info in
  let sample := samples idx in
  let edge_ptr := thrust_upper_bound edges_cdf num_edges (primary_edge_sel sample) in
  let edge_id := clampZ (edge_ptr - 1) 0 (num_edges - 1) in
  let edge := edges edge_id in
  let v0 := get_v0 shapes edge in
  let v1 := get_v1 shapes edge in
  match project camera v0 v1 with
  | None => o
  | Some (v0_ss, v1_ss) =>
    if Rleb (edges_pmf edge_id) 0 then o
    else if negb (camera_fisheye camera) then
      let edge_pt := add2 v0_ss (scale2 (primary_t sample) (sub2 v1_ss v0_ss)) in
      if negb (in_screen camera edge_pt) then o
      else
        let o := set_edge_record o idx (mkPrimaryEdgeRecord edge edge_pt) in
        let half_space_normal := get_normal (normalize2 (sub2 v0_ss v1_ss)) in
        let offset := 1e-6 in
        let upper_pt := add2 edge_pt (scale2 offset half_space_normal) in
        let upper_ray := sample_primary camera upper_pt in
        let lower_pt := sub2 edge_pt (scale2 offset half_space_normal) in
        let lower_ray := sample_primary camera lower_pt in
        let o := set_ray o (2 * idx + 0)%Z upper_ray in
        let o := set_ray o (2 * idx + 1)%Z lower_ray in
        let xi := clampZ (truncate (v2x edge_pt * IZR (camera_width camera)))
                         0 (camera_width camera - 1) in
        let yi := clampZ (truncate (v2y edge_pt * IZR (camera_height camera)))
                         0 (camera_height camera - 1) in
        let rd := radiance_dimension channel_info in
        let pixel := (nd * (yi * camera_width camera + xi))%Z in
        let d_color := mkVector3 (d_rendered_image (pixel + rd + 0)%Z)
                                 (d_rendered_image (pixel + rd + 1)%Z)
                                 (d_rendered_image (pixel + rd + 2)%Z) in
        let upper_weight := div3 d_color (edges_pmf edge_id) in
        let lower_weight := div3 (neg3 d_color) (edges_pmf edge_id) in
        let o := set_throughput o (2 * idx + 0)%Z upper_weight in
        let o := set_throughput o (2 * idx + 1)%Z lower_weight in
        let o := write_channel_multipliers nd idx
                   (fun d => d_rendered_image (pixel + d)%Z / edges_pmf edge_id)
                   (fun d => - d_rendered_image (pixel + d)%Z / edges_pmf edge_id) o in
        primary_ray_differential camera idx o
    else
      let v0_dir := screen_to_camera camera v0_ss in
      let v1_dir := screen_to_camera camera v1_ss in
      let v_dir3 := sub3 v1_dir v0_dir in
      let edge_pt3 := add3 v0_dir (scale3 (primary_t sample) v_dir3) in
      let edge_pt := camera_to_screen camera edge_pt3 in
      if negb (in_screen camera edge_pt) then o
      else
        let o := set_edge_record o idx (mkPrimaryEdgeRecord edge edge_pt) in
        let half_space_normal := normalize (cross v0_dir v1_dir) in
        let v0_local := world_to_camera camera v0 in
        let v1_local := world_to_camera camera v1 in
        let edge_local := add3 v0_local (scale3 (primary_t sample) v1_local) in
        let offset := 1e-5 / length3 edge_local in
        let upper_dir := normalize (add3 edge_pt3 (scale3 offset half_space_normal)) in
        let upper_pt := camera_to_screen camera upper_dir in
        let upper_ray := sample_primary camera upper_pt in
        let lower_dir := normalize (sub3 edge_pt3 (scale3 offset half_space_normal)) in
        let lower_pt := camera_to_screen camera lower_dir in
        let lower_ray := sample_primary camera lower_pt in
        let o := set_ray o (2 * idx + 0)%Z upper_ray in
        let o := set_ray o (2 * idx + 1)%Z lower_ray in
        let xi := truncate (v2x edge_pt * IZR (camera_width camera)) in
        let yi := truncate (v2y edge_pt * IZR (camera_height camera)) in
        let rd := radiance_dimension channel_info in
        let pixel := (nd * (yi * camera_width camera + xi))%Z in
        let d_color := mkVector3 (d_rendered_image (pixel + rd + 0)%Z)
                                 (d_rendered_image (pixel + rd + 1)%Z)
                                 (d_rendered_image (pixel + rd + 2)%Z) in
        let upper_weight := div3 d_color (edges_pmf edge_id) in
        let lower_weight := div3 (neg3 d_color) (edges_pmf edge_id) in
        let d_edge_dir := d_screen_to_camera camera edge_pt in
        let d_alpha_dx := dot3 (fst d_edge_dir) (cross v0_dir v1_dir) in
        let d_alpha_dy := dot3 (snd d_edge_dir) (cross v0_dir v1_dir) in
        let dirac_jacobian := 1 / sqrt (square d_alpha_dx + square d_alpha_dy) in
        let jac_offset := 1e-6 in
        let edge_pt3_delta :=
          add3 v0_dir (scale3 (primary_t sample + jac_offset) v_dir3) in
        let edge_pt_delta := camera_to_screen camera edge_pt3_delta in
        let line_jacobian := length2 (div2 (sub2 edge_pt_delta edge_pt) offset) in
        let jacobian := line_jacobian * dirac_jacobian in
        let upper_weight := scale3 jacobian upper_weight in
        let lower_weight := scale3 jacobian lower_weight in
        let o := set_throughput o (2 * idx + 0)%Z upper_weight in
        let o := set_throughput o (2 * idx + 1)%Z lower_weight in
        let o := write_channel_multipliers nd idx
                   (fun d => d_rendered_image (pixel + d)%Z * jacobian
                             / edges_pmf edge_id)
                   (fun d => - d_rendered_image (pixel + d)%Z * jacobian
                             / edges_pmf edge_id) o in
        primary_ray_differential camera idx o
  end.

(** [sample_primary_edges]: one task per sample. *)
Definition sample_primary_edges (camera : Camera) (shapes : Buffer Shape)
    (edges : Buffer Edge) (num_edges : Z) (edges_pmf edges_cdf : Buffer R)
    (samples : Buffer PrimaryEdgeSample) (num_samples : Z)
    (d_rendered_image : Buffer R) (channel_info : ChannelInfo)
    (o : PrimaryOutputs) : PrimaryOutputs :=
  parallel_for
    (primary_edge_sampler camera shapes edges num_edges edges_pmf edges_cdf
       samples d_rendered_image channel_info)
    num_samples o.

(** The three ways in which sample [idx] fails before any ray is made. *)
Definition primary_sample_fails (camera : Camera) (shapes : Buffer Shape)
    (edges : Buffer Edge) (num_edges : Z) (edges_pmf edges_cdf : Buffer R)
    (samples : Buffer PrimaryEdgeSample) (idx : Z) : Prop :=
  let sample := samples idx in
  let edge_id :=
    clampZ (thrust_upper_bound edges_cdf num_edges (primary_edge_sel sample) - 1)
           0 (num_edges - 1) in
  let edge := edges edge_id in
  match project camera (get_v0 shapes edge) (get_v1 shapes edge) with
  | None => True
  | Some (v0_ss, v1_ss) =>
      edges_pmf edge_id <= 0 \/
      in_screen camera
        (if camera_fisheye camera
         then camera_to_screen camera
                (add3 (screen_to_camera camera v0_ss)
                      (scale3 (primary_t sample)
                              (sub3 (screen_to_camera camera v1_ss)
                                    (screen_to_camera camera v0_ss))))
         else add2 v0_ss (scale2 (primary_t sample) (sub2 v1_ss v0_ss))) = false
  end.

End PrimaryEdgeSampler.

(** ** Post-intersection weight updates *)

Section WeightUpdates.

Local Open Scope R_scope.
Context `{Collaborators}.

(** [primary_edge_weights_updater::operator()], acting on the pair of
    buffers [throughputs] and [channel_multipliers]. *)
Definition primary_edge_weights_updater (edge_records : Buffer PrimaryEdgeRecord)
    (shading_isects : Buffer Intersection) (channel_info : ChannelInfo)
    (idx : Z) (bufs : Buffer Vector3 * Buffer R) : Buffer Vector3 * Buffer R :=
  let '(throughputs, channel_multipliers) := bufs in
  let edge_record := edge_records idx in
  let isect_upper := shading_isects (2 * idx + 0)%Z in
  let isect_lower := shading_isects (2 * idx + 1)%Z in
  let edge := primary_edge edge_record in
  let upper_connected :=
    (isect_shape_id isect_upper =? edge_shape_id edge)%Z &&
    ((isect_tri_id isect_upper =? edge_f0 edge)%Z ||
     (isect_tri_id isect_upper =? edge_f1 edge)%Z) in
  let lower_connected :=
    (isect_shape_id isect_lower =? edge_shape_id edge)%Z &&
    ((isect_tri_id isect_lower =? edge_f0 edge)%Z ||
     (isect_tri_id isect_lower =? edge_f1 edge)%Z) in
  if negb upper_connected && negb lower_connected then
    let throughputs := store throughputs (2 * idx + 0)%Z zero3 in
    let throughputs := store throughputs (2 * idx + 1)%Z zero3 in
    let nd := num_total_dimensions channel_info in
    let channel_multipliers :=
      fold_left
        (fun cm d =>
           let cm := store cm (2 * nd * idx + d)%Z 0 in
           store cm (2 * nd * idx + d + nd)%Z 0)
        (index_range nd) channel_multipliers in
    (throughputs, channel_multipliers)
  else (throughputs, channel_multipliers).

(** [update_primary_edge_weights]: the call of the updater is commented
    out ("Disable this at the moment"), the body is empty. *)
Definition update_primary_edge_weights (use_gpu : bool)
    (edge_records : Buffer PrimaryEdgeRecord) (num_records : Z)
    (edge_isects : Buffer Intersection) (channel_info : ChannelInfo)
    (bufs : Buffer Vector3 * Buffer R) : Buffer Vector3 * Buffer R :=
  bufs.

(** [intersect_jacobian]: derivative of the ray-plane intersection point
    with respect to the line parameter. *)
Definition intersect_jacobian (org dir p n l : Vector3) : Vector3 :=
  let dir_dot_n := dot3 dir n in
  if Rltb (Rabs dir_dot_n) 1e-10 then zero3
  else
    let d := - dot3 p n in
    let t := - (dot3 org n + d) / dir_dot_n in
    if Rleb t 0 then zero3
    else scale3 t (sub3 l (scale3 (dot3 l n / dot3 dir n) dir)).

(** What the updater reads from the flattened scene. *)
Record FlattenScene : Type := mkFlattenScene {
  scene_shapes : Buffer Shape;
  scene_envmap : option EnvironmentMap
}.

(** [secondary_edge_weights_updater::update_throughput]: the new content
    of the throughput slot passed by reference. *)
Definition update_throughput (scene : FlattenScene) (edge_isect : Intersection)
    (edge_surface_point shading_point : SurfacePoint)
    (edge_record : SecondaryEdgeRecord) (edge_throughput : Vector3) : Vector3 :=
  if valid edge_isect then
    let dir := sub3 (position edge_surface_point) (position shading_point) in
    let dist_sq := length_squared dir in
    if Rltb dist_sq 1e-8 then zero3
    else
      let n_dir := div3 dir (sqrt dist_sq) in
      let geometry_term :=
        Rabs (dot3 (geom_normal edge_surface_point) n_dir) / dist_sq in
      let isect_jacobian :=
        intersect_jacobian (position shading_point)
                           (secondary_edge_pt edge_record)
                           (position edge_surface_point)
                           (geom_normal edge_surface_point)
                           (mwt edge_record) in
      let v0 := get_v0 (scene_shapes scene) (secondary_edge edge_record) in
      let v1 := get_v1 (scene_shapes scene) (secondary_edge edge_record) in
      let half_plane_normal :=
        normalize (cross (sub3 v0 (position shading_point))
                         (sub3 v1 (position shading_point))) in
      let line_jacobian :=
        length3 isect_jacobian /
        length3 (cross (geom_normal edge_surface_point) half_plane_normal) in
      let p := position shading_point in
      let d0 := sub3 v0 p in
      let d1 := sub3 v1 p in
      let dirac_jacobian := length3 (cross d0 d1) in
      let w := line_jacobian / dirac_jacobian in
      scale3 (geometry_term * w) edge_throughput
  else
    match scene_envmap scene with
    | Some _ =>
        let p := position shading_point in
        let v0 := get_v0 (scene_shapes scene) (secondary_edge edge_record) in
        let v1 := get_v1 (scene_shapes scene) (secondary_edge edge_record) in
        let d0 := sub3 v0 p in
        let d1 := sub3 v1 p in
        let dirac_jacobian := length3 (cross d0 d1) in
        let line_jacobian :=
          1 / length_squared (sub3 (secondary_edge_pt edge_record) p) in
        let w := line_jacobian / dirac_jacobian in
        scale3 w edge_throughput
    | None => edge_throughput
    end.

(** [secondary_edge_weights_updater::operator()] *)
Definition secondary_edge_weights_updater (scene : FlattenScene)
    (active_pixels : Buffer Z) (shading_points : Buffer SurfacePoint)
    (edge_isects : Buffer Intersection) (edge_surface_points : Buffer SurfacePoint)
    (edge_records : Buffer SecondaryEdgeRecord)
    (idx : Z) (edge_throughputs : Buffer Vector3) : Buffer Vector3 :=
  let pixel_id := active_pixels idx in
  let shading_point := shading_points pixel_id in
  let edge_isect0 := edge_isects (2 * idx + 0)%Z in
  let edge_surface_point0 := edge_surface_points (2 * idx + 0)%Z in
  let edge_isect1 := edge_isects (2 * idx + 1)%Z in
  let edge_surface_point1 := edge_surface_points (2 * idx + 1)%Z in
  let edge_record := edge_records idx in
  if (edge_shape_id (secondary_edge edge_record) <? 0)%Z then edge_throughputs
  else
    let edge_throughputs :=
      store edge_throughputs (2 * idx + 0)%Z
        (update_throughput scene edge_isect0 edge_surface_point0 shading_point
           edge_record (edge_throughputs (2 * idx + 0)%Z)) in
    store edge_throughputs (2 * idx + 1)%Z
      (update_throughput scene edge_isect1 edge_surface_point1 shading_point
         edge_record (edge_throughputs (2 * idx + 1)%Z)).

(** [update_secondary_edge_weights]: one task per active pixel. *)
Definition update_secondary_edge_weights (scene : FlattenScene)
    (active_pixels : Buffer Z) (num_active_pixels : Z)
    (shading_points : Buffer SurfacePoint)
    (edge_isects : Buffer Intersection) (edge_surface_points : Buffer SurfacePoint)
    (edge_records : Buffer SecondaryEdgeRecord)
    (edge_throughputs : Buffer Vector3) : Buffer Vector3 :=
  parallel_for
    (secondary_edge_weights_updater scene active_pixels shading_points
       edge_isects edge_surface_points edge_records)
    num_active_pixels edge_throughputs.

End WeightUpdates.

(** ** Edge tree: importance and descent *)

Record AABB3 : Type := mkAABB3 { p_min : Vector3; p_max : Vector3 }.

Record AABB6 : Type := mkAABB6 {
  p_min6 : Vector3; d_min : Vector3; p_max6 : Vector3; d_max : Vector3
}.

Record Sphere : Type := mkSphere { center : Vector3; radius : R }.

(** A node of the edge tree over bounds of type [B] ([AABB3] for
    [BVHNode3], [AABB6] for [BVHNode6]).  The two child pointers are both
    null ([Leaf]) or both set ([Inner]); [edge_id] is a field of every
    node, and is [-1] on the nodes that the tree builder leaves without an
    edge. *)
Inductive BVHNode (B : Type) : Type :=
| Leaf (bounds : B) (weighted_total_length : R) (edge_id : Z)
| Inner (bounds : B) (weighted_total_length : R) (edge_id : Z)
        (child0 child1 : BVHNode B).

Arguments Leaf {B} bounds weighted_total_length edge_id.
Arguments Inner {B} bounds weighted_total_length edge_id child0 child1.

Definition node_bounds {B : Type} (node : BVHNode B) : B :=
  match node with Leaf b _ _ => b | Inner b _ _ _ _ => b end.

Definition node_weighted_total_length {B : Type} (node : BVHNode B) : R :=
  match node with Leaf _ w _ => w | Inner _ w _ _ _ => w end.

Definition node_edge_id {B : Type} (node : BVHNode B) : Z :=
  match node with Leaf _ _ e => e | Inner _ _ e _ _ => e end.

Definition BVHNode3 : Type := BVHNode AABB3.
Definition BVHNode6 : Type := BVHNode AABB6.

(** The two roots; a null root is [None]. *)
Record EdgeTreeRoots : Type := mkEdgeTreeRoots {
  cs_bvh_root : option BVHNode3;
  ncs_bvh_root : option BVHNode6
}.

(** Bounding volumes and the sphere table of the LTC approximation come
    from other files. *)
Class TreeCollaborators : Type := {
  compute_bounding_sphere : AABB3 -> Sphere;
  (** [inside(sphere, p)] *)
  inside : Sphere -> Vector3 -> bool;
  (** [intersect(sphere, bounds)] *)
  intersect : Sphere -> AABB3 -> bool;
  (** [coordinate_system(n, x, y)]: two vectors that complete [n] to a
      frame *)
  coordinate_system : Vector3 -> Vector3 * Vector3;
  (** [ltc::tab_sphere_size] and [ltc::tabSphere] *)
  tab_sphere_size : Z;
  tabSphere : Buffer R
}.

Section EdgeTree.

Local Open Scope R_scope.
Context `{TreeCollaborators}.

(** Modelled from the spec: [corner(bounds, i)] is declared with the
    bounding boxes, outside of this file; for [i] in [0, 8) it enumerates
    the eight corners of the axis-aligned box, bit [k] of [i] choosing
    between the minimum and the maximum on axis [k]. *)
Definition corner (bounds : AABB3) (i : Z) : Vector3 :=
  mkVector3
    (if Z.testbit i 0 then vx (p_max bounds) else vx (p_min bounds))
    (if Z.testbit i 1 then vy (p_max bounds) else vy (p_min bounds))
    (if Z.testbit i 2 then vz (p_max bounds) else vz (p_min bounds)).

(** Modelled from the spec: [atan2] of the C library, on reals. *)
Definition atan2 (y x : R) : R :=
  if Rltb 0 x then atan (y / x)
  else if Rltb x 0 then (if Rleb 0 y then atan (y / x) + PI else atan (y / x) - PI)
  else if Rltb 0 y then PI / 2
  else if Rltb y 0 then - PI / 2
  else 0.

(** [secondary_edge_sampler::get_sphere_tab] *)
Definition get_sphere_tab (cos_theta form_factor : R) : R :=
  let N := tab_sphere_size in
  let uid := clampZ (truncate (cos_theta * 0.5 + 0.5 * IZR (N - 1))) 0 (N - 1) in
  let vid := clampZ (truncate (form_factor * IZR (N - 1))) 0 (N - 1) in
  tabSphere (uid + vid * N)%Z.

(** [secondary_edge_sampler::solve_cubic], over the reals: the square root
    of a negative number and a quotient by 0 are 0 here, where the code
    computes a NaN or an infinity; [Binary64.solve_cubic] has these
    cases. *)
Definition solve_cubic (c0 c1 c2 c3 : R) : Vector3 :=
  let inv_c3 := 1 / c3 in
  let c0 := c0 * inv_c3 in
  let c1 := c1 * inv_c3 in
  let c2 := c2 * inv_c3 in
  let c1 := c1 / 3 in
  let c2 := c2 / 3 in
  let A := c3 in
  let B := c2 in
  let C := c1 in
  let D := c0 in
  let delta := mkVector3 (- square c2 + c1) (- c1 * c2 + c0)
                         (c2 * c0 + (- c1) * c1) in
  let discriminant := (4 * vx delta) * vz delta + (- vy delta) * vy delta in
  let xlc :=
    let C_a := vx delta in
    let D_a := -2 * B * vx delta + vy delta in
    let theta := atan2 (sqrt discriminant) (- D_a) / 3 in
    let x_1a := 2 * sqrt (- C_a) * cos theta in
    let x_3a := 2 * sqrt (- C_a) * cos (theta + (2 / 3) * PI) in
    let xl := if Rltb (2 * B) (x_1a + x_3a) then x_1a else x_3a in
    mkVector2 (xl - B) A in
  let xsc :=
    let C_d := vz delta in
    let D_d := - D * vy delta + 2 * C * vz delta in
    let theta := atan2 (D * sqrt discriminant) (- D_d) / 3 in
    let x_1d := 2 * sqrt (- C_d) * cos theta in
    let x_3d := 2 * sqrt (- C_d) * cos (theta + (2 / 3) * PI) in
    let xs := if Rltb (x_1d + x_3d) (2 * C) then x_1d else x_3d in
    mkVector2 (- D) (xs + C) in
  let E := v2y xlc * v2y xsc in
  let F := - v2x xlc * v2y xsc - v2y xlc * v2x xsc in
  let G := v2x xlc * v2x xsc in
  let xmc := mkVector2 (C * F - B * G) (- B * F + C * E) in
  let root := mkVector3 (v2x xsc / v2y xsc) (v2x xmc / v2y xmc) (v2x xlc / v2y xlc) in
  if Rltb (vx root) (vy root) && Rltb (vx root) (vz root) then
    mkVector3 (vy root) (vx root) (vz root)
  else if Rltb (vz root) (vx root) && Rltb (vz root) (vy root) then
    mkVector3 (vx root) (vz root) (vy root)
  else root.

(** [secondary_edge_sampler::ltc_sphere_integral], over the reals, with
    the same reading of square roots and quotients;
    [Binary64.ltc_sphere_integral] is the function with NaN. *)
Definition ltc_sphere_integral (b_sphere : Sphere) (p : SurfacePoint)
    (m_inv : Matrix3x3) : R :=
  let C := to_local (shading_frame p) (center b_sphere) in
  let '(V1, V2) := coordinate_system C in
  let V1 := scale3 (radius b_sphere) V1 in
  let V2 := scale3 (radius b_sphere) V2 in
  let C := mulMv m_inv C in
  let V1 := mulMv m_inv V1 in
  let V2 := mulMv m_inv V2 in
  if Rleb (dot3 (cross V1 V2) C) 0 then 0
  else
    let d11 := dot3 V1 V1 in
    let d22 := dot3 V2 V2 in
    let d12 := dot3 V1 V2 in
    let '(a, b, V1, V2) :=
      if Rltb 1e-4 (Rabs d12 / sqrt (d11 * d22)) then
        let tr := d11 + d22 in
        let det := - d12 * d12 + d11 * d22 in
        let det := sqrt det in
        let u := 0.5 * sqrt (tr - 2 * det) in
        let v := 0.5 * sqrt (tr + 2 * det) in
        let e_max := square (u + v) in
        let e_min := square (u - v) in
        let '(V1_, V2_) :=
          if Rltb d22 d11 then
            (add3 (scale3 d12 V1) (scale3 (e_max - d11) V2),
             add3 (scale3 d12 V1) (scale3 (e_min - d11) V2))
          else
            (add3 (scale3 d12 V2) (scale3 (e_max - d22) V1),
             add3 (scale3 d12 V2) (scale3 (e_min - d22) V1)) in
        (1 / e_max, 1 / e_min, normalize V1_, normalize V2_)
      else
        let a := 1 / d11 in
        let b := 1 / d22 in
        (a, b, scale3 (sqrt a) V1, scale3 (sqrt b) V2) in
    let V3 := cross V1 V2 in
    let V3 := if Rltb (dot3 C V3) 0 then neg3 V3 else V3 in
    let L := dot3 V3 C in
    let x0 := dot3 V1 C / L in
    let y0 := dot3 V2 C / L in
    let a := a * square L in
    let b := b * square L in
    let c0 := a * b in
    let c1 := a * b * (1 + square x0 + square y0) - a - b in
    let c2 := 1 - a * (1 + square x0) - b * (1 + square y0) in
    let c3 := 1 in
    let roots := solve_cubic c0 c1 c2 c3 in
    let e1 := vx roots in
    let e2 := vy roots in
    let e3 := vz roots in
    let avg_dir := mkVector3 (a * x0 / (a - e2)) (b * y0 / (b - e2)) 1 in
    let rotate := mkMatrix3x3 (mkVector3 (vx V1) (vx V2) (vx V3))
                              (mkVector3 (vy V1) (vy V2) (vy V3))
                              (mkVector3 (vz V1) (vz V2) (vz V3)) in
    let avg_dir := normalize (mulMv rotate avg_dir) in
    let L1 := sqrt (- e2 / e3) in
    let L2 := sqrt (- e2 / e1) in
    let form_factor := L1 * L2 / sqrt ((1 + square L1) * (1 + square L2)) in
    get_sphere_tab (vz avg_dir) form_factor * form_factor.

(** [secondary_edge_sampler::is_bound_below_surface]: the loop over the
    eight corners returns [false] at the first corner above the tangent
    plane. *)
Definition is_bound_below_surface (bounds : AABB3) (p : SurfacePoint) : bool :=
  forallb
    (fun i => negb (Rltb 0 (dot3 (frame_n (shading_frame p))
                                 (sub3 (corner bounds i) (position p)))))
    (index_range 8).

(** The tail shared by the two [importance] overloads. *)
Definition importance_of_bounds (p_bounds : AABB3) (weighted_total_length : R)
    (p : SurfacePoint) (m_inv : Matrix3x3) : R :=
  let b_sphere := compute_bounding_sphere p_bounds in
  let brdf_term :=
    if negb (inside b_sphere (position p))
    then ltc_sphere_integral b_sphere p m_inv
    else PI in
  brdf_term * weighted_total_length
  / Rmax (distance_squared (center b_sphere) (position p)) 1e-6.

(** [secondary_edge_sampler::importance(const BVHNode3 &, ...)]; the
    diagnostic output to [std::cerr] is left out here and below. *)
Definition importance3 (node : BVHNode3) (p : SurfacePoint) (m_inv : Matrix3x3) : R :=
  if is_bound_below_surface (node_bounds node) p then 0
  else importance_of_bounds (node_bounds node) (node_weighted_total_length node)
                            p m_inv.

(** [secondary_edge_sampler::importance(const BVHNode6 &, ...)]; [cam_org]
    is a member of the sampler. *)
Definition importance6 (cam_org : Vector3) (node : BVHNode6) (p : SurfacePoint)
    (m_inv : Matrix3x3) : R :=
  let p_bounds := mkAABB3 (p_min6 (node_bounds node)) (p_max6 (node_bounds node)) in
  if is_bound_below_surface p_bounds p then 0
  else
    let d_bounds := mkAABB3 (d_min (node_bounds node)) (d_max (node_bounds node)) in
    if negb (intersect (mkSphere (scale3 0.5 (add3 (position p) cam_org))
                                 (0.5 * distance (position p) cam_org))
                       d_bounds)
    then 0
    else importance_of_bounds p_bounds (node_weighted_total_length node) p m_inv.

(** [secondary_edge_sampler::sample_edge(const BVHNodeType &, ...)], for
    the node type over [B] and its [importance] overload.  The result is the
    returned edge id together with the final content of [pmf]; [None] stands
    for the dereference of a null child, which the assertions exclude.
    Over the reals the rescaled sample stays in [0, 1);
    [Binary64.sample_edge] is the descent with every operation rounded,
    where it does not. *)
Fixpoint sample_edge {B : Type}
    (importance : BVHNode B -> SurfacePoint -> Matrix3x3 -> R)
    (node : BVHNode B) (p : SurfacePoint) (m_inv : Matrix3x3)
    (sample pmf : R) : option (Z * R) :=
  if negb (node_edge_id node =? -1)%Z then Some (node_edge_id node, pmf)
  else
    match node with
    | Leaf _ _ _ => None
    | Inner _ _ _ child0 child1 =>
        let imp0 := importance child0 p m_inv in
        let imp1 := importance child1 p m_inv in
        if Rleb imp0 0 && Rleb imp1 0 then Some ((-1)%Z, pmf)
        else
          let prob_0 := imp0 / (imp0 + imp1) in
          if Rltb sample prob_0 then
            let pmf := pmf * prob_0 in
            let sample := sample * (imp0 + imp1) / imp0 in
            sample_edge importance child0 p m_inv sample pmf
          else
            let prob_1 := 1 - prob_0 in
            let pmf := pmf * prob_1 in
            let sample := (sample * (imp0 + imp1) - imp0) / imp1 in
            sample_edge importance child1 p m_inv sample pmf
    end.

(** [secondary_edge_sampler::sample_edge(const EdgeTreeRoots &, ...)], over
    the reals; [Binary64.sample_edge_roots] is the same with every operation
    rounded. *)
Definition sample_edge_roots (cam_org : Vector3) (edge_tree_roots : EdgeTreeRoots)
    (p : SurfacePoint) (m_inv : Matrix3x3) (sample pmf : R) : option (Z * R) :=
  let imp_cs :=
    match cs_bvh_root edge_tree_roots with
    | Some root => importance3 root p m_inv
    | None => 0
    end in
  let imp_ncs :=
    match ncs_bvh_root edge_tree_roots with
    | Some root => importance6 cam_org root p m_inv
    | None => 0
    end in
  if Rleb imp_cs 0 && Rleb imp_ncs 0 then Some ((-1)%Z, pmf)
  else
    let prob_cs := imp_cs / (imp_cs + imp_ncs) in
    if Rltb sample prob_cs then
      let pmf := prob_cs in
      let sample := sample * (imp_cs + imp_ncs) / imp_cs in
      match cs_bvh_root edge_tree_roots with
      | Some root => sample_edge importance3 root p m_inv sample pmf
      | None => None
      end
    else
      let pmf := 1 - prob_cs in
      let sample := (sample * (imp_cs + imp_ncs) - imp_cs) / imp_ncs in
      match ncs_bvh_root edge_tree_roots with
      | Some root => sample_edge (importance6 cam_org) root p m_inv sample pmf
      | None => None
      end.

End EdgeTree.

(** *** Notions used to state the properties of the edge tree *)

Section EdgeTreeNotions.

Local Open Scope R_scope.
Context `{TreeCollaborators}.

(** All eight corners of the box are on or below the tangent plane at
    [p]. *)
Definition corners_below (bounds : AABB3) (p : SurfacePoint) : Prop :=
  forall i, (0 <= i < 8)%Z ->
    dot3 (frame_n (shading_frame p)) (sub3 (corner bounds i) (position p)) <= 0.




(** A tree as its builder leaves it, for an edge buffer of [num_edges]
    entries: every leaf holds the id of an edge, every inner node holds
    [-1], and the weighted total lengths are sums of lengths, hence not
    negative. *)
Inductive well_formed {B : Type} (num_edges : Z) : BVHNode B -> Prop :=
| well_formed_leaf bounds w e :
    0 <= w -> (0 <= e < num_edges)%Z ->
    well_formed num_edges (Leaf bounds w e)
| well_formed_inner bounds w child0 child1 :
    0 <= w ->
    well_formed num_edges child0 -> well_formed num_edges child1 ->
    well_formed num_edges (Inner bounds w (-1) child0 child1).

Definition well_formed_roots (num_edges : Z) (roots : EdgeTreeRoots) : Prop :=
  (forall root, cs_bvh_root roots = Some root -> well_formed num_edges root) /\
  (forall root, ncs_bvh_root roots = Some root -> well_formed num_edges root).

(** The edge ids stored in the leaves of a tree. *)
Fixpoint leaf_ids {B : Type} (node : BVHNode B) : list Z :=
  match node with
  | Leaf _ _ e => [e]
  | Inner _ _ _ child0 child1 => leaf_ids child0 ++ leaf_ids child1
  end.

Definition roots_leaf_ids (roots : EdgeTreeRoots) : list Z :=
  match cs_bvh_root roots with Some root => leaf_ids root | None => [] end ++
  match ncs_bvh_root roots with Some root => leaf_ids root | None => [] end.

(** The descent from [node] with [sample] comes to an inner node whose two
    children both have importance at most 0.  The descent moves to child 0
    when the sample is below the share of child 0 in the sum of the two
    importances, and to child 1 otherwise, with the sample rescaled. *)
Inductive descent_blocked {B : Type}
    (importance : BVHNode B -> SurfacePoint -> Matrix3x3 -> R)
    (p : SurfacePoint) (m_inv : Matrix3x3) : BVHNode B -> R -> Prop :=
| blocked_here bounds w e child0 child1 sample :
    importance child0 p m_inv <= 0 -> importance child1 p m_inv <= 0 ->
    descent_blocked importance p m_inv (Inner bounds w e child0 child1) sample
| blocked_below0 bounds w e child0 child1 sample :
    let imp0 := importance child0 p m_inv in
    let imp1 := importance child1 p m_inv in
    ~ (imp0 <= 0 /\ imp1 <= 0) ->
    sample < imp0 / (imp0 + imp1) ->
    descent_blocked importance p m_inv child0 (sample * (imp0 + imp1) / imp0) ->
    descent_blocked importance p m_inv (Inner bounds w e child0 child1) sample
| blocked_below1 bounds w e child0 child1 sample :
    let imp0 := importance child0 p m_inv in
    let imp1 := importance child1 p m_inv in
    ~ (imp0 <= 0 /\ imp1 <= 0) ->
    ~ sample < imp0 / (imp0 + imp1) ->
    descent_blocked importance p m_inv child1
      ((sample * (imp0 + imp1) - imp0) / imp1) ->
    descent_blocked importance p m_inv (Inner bounds w e child0 child1) sample.

(** The same for the choice between the two roots, a null root having
    importance 0. *)
Definition root_importances (cam_org : Vector3) (roots : EdgeTreeRoots)
    (p : SurfacePoint) (m_inv : Matrix3x3) : R * R :=
  (match cs_bvh_root roots with
   | Some root => importance3 root p m_inv
   | None => 0
   end,
   match ncs_bvh_root roots with
   | Some root => importance6 cam_org root p m_inv
   | None => 0
   end).

Definition roots_blocked (cam_org : Vector3) (roots : EdgeTreeRoots)
    (p : SurfacePoint) (m_inv : Matrix3x3) (sample : R) : Prop :=
  let imp_cs := fst (root_importances cam_org roots p m_inv) in
  let imp_ncs := snd (root_importances cam_org roots p m_inv) in
  (imp_cs <= 0 /\ imp_ncs <= 0) \/
  (~ (imp_cs <= 0 /\ imp_ncs <= 0) /\
   ((sample < imp_cs / (imp_cs + imp_ncs) /\
     exists root, cs_bvh_root roots = Some root /\
       descent_blocked importance3 p m_inv root
         (sample * (imp_cs + imp_ncs) / imp_cs)) \/
    (~ sample < imp_cs / (imp_cs + imp_ncs) /\
     exists root, ncs_bvh_root roots = Some root /\
       descent_blocked (importance6 cam_org) p m_inv root
         ((sample * (imp_cs + imp_ncs) - imp_cs) / imp_ncs)))).

End EdgeTreeNotions.

(** ** Secondary edge sampler: edge selection by resampling, and the
    inversion of the line cdf

    Of [secondary_edge_sampler::operator()] the two parts that the
    properties below speak about are embedded: the resampled importance
    sampling of an edge (taken when [edges_pmf] is not null) and the sampling
    of a point on the chosen edge. *)

Section SecondaryEdgeSampler.

Local Open Scope R_scope.
Context `{Collaborators}.

(** The frame around the shading normal [n] that the sampler builds from
    the direction [wi] towards the origin of the incoming ray. *)
Definition isotropic_frame (wi n : Vector3) : Frame :=
  let frame_x := normalize (sub3 wi (scale3 (dot3 wi n) n)) in
  let frame_y := cross n frame_x in
  mkFrame frame_x frame_y n.

(** Modelled from the spec: [Matrix3x3(frame)] is declared with the
    matrices, outside of this file; applied to a vector it yields the
    coordinates of the vector in the frame (the sampler transforms "the
    vertices to local coordinates" with it), so its rows are the vectors of
    the frame. *)
Definition Matrix3x3_of_frame (f : Frame) : Matrix3x3 :=
  mkMatrix3x3 (frame_x f) (frame_y f) (frame_n f).

(** The lambda [I]: the LTC line integral up to parameter [l], for the line
    at distance [d] with closest point [vo] and direction [wt]. *)
Definition line_integral (d : R) (vo wt : Vector3) (l : R) : R :=
  (l / (d * (d * d + l * l)) + atan (l / d) / (d * d)) * vz vo +
  (l * l / (d * (d * d + l * l))) * vz wt.

(** "Clip to the surface tangent plane" *)
Definition clip_to_tangent_plane (v0o v1o : Vector3) : Vector3 * Vector3 :=
  let v0o :=
    if Rltb (vz v0o) 0
    then div3 (sub3 (scale3 (vz v1o) v0o) (scale3 (vz v0o) v1o)) (vz v1o - vz v0o)
    else v0o in
  let v1o :=
    if Rltb (vz v1o) 0
    then div3 (sub3 (scale3 (vz v1o) v0o) (scale3 (vz v0o) v1o)) (vz v1o - vz v0o)
    else v1o in
  (v0o, v1o).

(** The test written for "the edge lies on the same triangle of shading
    isects". *)
Definition same_tri (edge : Edge) (shading_isect : Intersection) : bool :=
  (edge_shape_id edge =? isect_shape_id shading_isect)%Z &&
  ((edge_v0 edge =? isect_tri_id shading_isect)%Z ||
   (edge_v1 edge =? isect_tri_id shading_isect)%Z).

(** The body of the loop over the candidates, for the candidate that fell on
    [edge_id]: the value left in [edge_weights[sample_id]]. *)
Definition candidate_weight (shapes : Buffer Shape) (edges : Buffer Edge)
    (edges_pmf : Buffer R) (shading_isect : Intersection)
    (shading_point : SurfacePoint) (m_inv : Matrix3x3) (edge_id : Z) : R :=
  let edge := edges edge_id in
  if Rltb 0 (edges_pmf edge_id) &&
     is_silhouette shapes (position shading_point) edge &&
     negb (same_tri edge shading_isect)
  then
    let v0 := get_v0 shapes edge in
    let v1 := get_v1 shapes edge in
    if Rltb 1e-10 (length_squared (sub3 v1 v0)) then
      let v0o := mulMv m_inv (sub3 v0 (position shading_point)) in
      let v1o := mulMv m_inv (sub3 v1 (position shading_point)) in
      if Rltb 0 (vz v0o) || Rltb 0 (vz v1o) then
        let '(v0o, v1o) := clip_to_tangent_plane v0o v1o in
        let vodir := sub3 v1o v0o in
        let wt := normalize vodir in
        let l0 := dot3 v0o wt in
        let l1 := dot3 v1o wt in
        let vo := sub3 v0o (scale3 l0 wt) in
        let d := length3 vo in
        let Il0 := line_integral d vo wt l0 in
        let Il1 := line_integral d vo wt l1 in
        Rmax ((Il1 - Il0) / edges_pmf edge_id) 0
      else 0
    else 0
  else 0.

(** [constexpr int M = 64] *)
Definition M : Z := 64.

(** The edge on which candidate [sample_id] falls: binary search of the
    stratified sample in the global cdf. *)
Definition candidate_edge_id (edges_cdf : Buffer R) (num_edges : Z)
    (edge_sample : SecondaryEdgeSample) (sample_id : Z) : Z :=
  let edge_ptr :=
    thrust_upper_bound edges_cdf num_edges
      (modulo (edge_sel edge_sample + IZR sample_id / IZR M) 1) in
  clampZ (edge_ptr - 1) 0 (num_edges - 1).

(** [resample_cdf]: the running sums of the candidate weights. *)
Fixpoint running_sum (previous : R) (weights : list R) : list R :=
  match weights with
  | [] => []
  | w :: rest => (previous + w) :: running_sum (previous + w) rest
  end.

(** "Use resample_cdf to pick one edge": the first candidate whose running
    sum reaches [resample_u], or [-1]. *)
Fixpoint pick_candidate (resample_u : R) (resample_cdf : list R) (sample_id : Z) : Z :=
  match resample_cdf with
  | [] => (-1)%Z
  | c :: rest =>
      if Rleb resample_u c then sample_id
      else pick_candidate resample_u rest (sample_id + 1)%Z
  end.

(** The branch [edges_pmf != nullptr]: the chosen edge and
    [edge_sample_weight], or [None] where the sampler returns without a
    sample.  The source tests [edge_weights[resample_id] <= 0] before
    [resample_id == -1]; with [resample_id = -1] the first test reads outside
    of the array, and whatever it reads the sampler returns, so the order of
    the two tests is swapped here. *)
Definition resample_edge (shapes : Buffer Shape) (edges : Buffer Edge)
    (num_edges : Z) (edges_pmf edges_cdf : Buffer R)
    (edge_sample : SecondaryEdgeSample) (shading_isect : Intersection)
    (shading_point : SurfacePoint) (m_inv : Matrix3x3) : option (Z * R) :=
  let edge_ids :=
    map (candidate_edge_id edges_cdf num_edges edge_sample) (index_range M) in
  let edge_weights :=
    map (candidate_weight shapes edges edges_pmf shading_isect shading_point m_inv)
        edge_ids in
  let resample_cdf := running_sum 0 edge_weights in
  let total := nth (Z.to_nat (M - 1)) resample_cdf 0 in
  if Rleb total 0 then None
  else
    let resample_u := resample_sel edge_sample * total in
    let resample_id := pick_candidate resample_u resample_cdf 0 in
    if (resample_id =? -1)%Z then None
    else if Rleb (nth (Z.to_nat resample_id) edge_weights 0) 0 then None
    else
      let chosen := nth (Z.to_nat resample_id) edge_ids 0%Z in
      Some (chosen,
            (total / IZR M) /
            (nth (Z.to_nat resample_id) edge_weights 0 * edges_pmf chosen)).

(** The claim's notion of a candidate that shares a triangle with the
    shading intersection: same shape, and one of the two faces next to the
    edge is the intersected triangle. *)
Definition shares_triangle (edge : Edge) (shading_isect : Intersection) : bool :=
  (edge_shape_id edge =? isect_shape_id shading_isect)%Z &&
  ((edge_f0 edge =? isect_tri_id shading_isect)%Z ||
   (edge_f1 edge =? isect_tri_id shading_isect)%Z).

End SecondaryEdgeSampler.

Section LineSampling.

Local Open Scope R_scope.

(** The three variables of "Hybrid bisection & Newton iteration". *)
Record SolverState : Type := mkSolverState { lb : R; ub : R; l : R }.

(** [if (!(l >= lb && l <= ub)) l = 0.5f * (lb + ub);] *)
Definition reset_iterate (s : SolverState) : SolverState :=
  if negb (Rleb (lb s) (l s) && Rleb (l s) (ub s))
  then mkSolverState (lb s) (ub s) (0.5 * (lb s + ub s))
  else s.

(** [for (int it = 0; it < 20; it++) { ... }] with [remaining = 20 - it]
    rounds still allowed by the loop bound.  The result is the state at the
    exit of the loop, together with the states in which the successive
    iterations evaluated [line_cdf], that is, after the test that resets
    [l]. *)
Fixpoint newton_bisection (line_cdf line_pdf : R -> R) (t : R)
    (remaining : nat) (it : Z) (s : SolverState) : SolverState * list SolverState :=
  match remaining with
  | O => (s, [])
  | S remaining' =>
      let s := reset_iterate s in
      let value := line_cdf (l s) - t in
      if Rltb (Rabs value) 1e-5 || (it =? 19)%Z then (s, [s])
      else
        let s' :=
          if Rltb 0 value
          then mkSolverState (lb s) (l s) (l s)
          else mkSolverState (l s) (ub s) (l s) in
        let derivative := line_pdf (l s) in
        let s' := mkSolverState (lb s') (ub s') (l s' - value / derivative) in
        let '(final, visited) :=
          newton_bisection line_cdf line_pdf t remaining' (it + 1)%Z s' in
        (final, s :: visited)
  end.

(** The line through the clipped edge in the local frame: closest point
    [vo], direction [wt], distance [d], and the parameters [l0] and [l1] of
    the two end points. *)
Definition edge_line (v0o v1o : Vector3) : Vector3 * Vector3 * R * R * R :=
  let vodir := sub3 v1o v0o in
  let wt := normalize vodir in
  let l0 := dot3 v0o wt in
  let l1 := dot3 v1o wt in
  let vo := sub3 v0o (scale3 l0 wt) in
  let d := length3 vo in
  (vo, wt, d, l0, l1).

(** The state before the first iteration: the bracket is [[l0, l1]] put in
    order, the iterate its midpoint. *)
Definition initial_bracket (l0 l1 : R) : SolverState :=
  let lb := l0 in
  let ub := l1 in
  let '(lb, ub) := if Rltb ub lb then (ub, lb) else (lb, ub) in
  mkSolverState lb ub (0.5 * (lb + ub)).

(** From "Clip to the surface tangent plane" to the test of the solved pdf:
    the parameter [l] of the sampled point and its pdf, or [None] where the
    sampler returns ("Numerical issue"); next to it the final state of the
    solver and the states it went through. *)
Definition sample_on_edge (v0o v1o : Vector3) (t : R)
    : option (R * R) * SolverState * list SolverState :=
  let '(v0o, v1o) := clip_to_tangent_plane v0o v1o in
  let '(vo, wt, d, l0, l1) := edge_line v0o v1o in
  let I := line_integral d vo wt in
  let Il0 := I l0 in
  let Il1 := I l1 in
  let normalization := Il1 - Il0 in
  let line_cdf := fun l => (I l - Il0) / normalization in
  let line_pdf := fun l =>
    let dist_sq := d * d + l * l in
    2 * d * vz (add3 vo (scale3 l wt)) / (normalization * dist_sq * dist_sq) in
  let '(final, visited) :=
    newton_bisection line_cdf line_pdf t 20 0 (initial_bracket l0 l1) in
  (if Rleb (line_pdf (l final)) 0 then None
   else Some (l final, line_pdf (l final)),
   final, visited).

(** The bracket of a state lies between the two end parameters, and the
    iterate lies in the bracket. *)
Definition bracket_between (lo hi : R) (s : SolverState) : Prop :=
  lo <= lb s /\ lb s <= ub s /\ ub s <= hi.

Definition bracket_within (l0 l1 : R) (s : SolverState) : Prop :=
  bracket_between (Rmin l0 l1) (Rmax l0 l1) s.

Definition iterate_in_bracket (s : SolverState) : Prop :=
  lb s <= l s <= ub s.

End LineSampling.

(** ** A small concrete world

    An orthographic camera looking down the z axis at the unit quad: a point
    projects to its x and y coordinates, the whole plane is on screen, every
    edge counts as a silhouette.  The two triangles of the quad are coplanar,
    so the exterior dihedral angle of the shared edge is 0; for an edge with
    a single face it is taken to be pi. *)
#[local] Instance flat_world : Collaborators := {|
  Camera := unit;
  camera_width := fun _ => 4;
  camera_height := fun _ => 4;
  camera_fisheye := fun _ => false;
  camera_origin := fun _ => mkVector3 0 0 1;
  world_to_camera := fun _ v => v;
  project := fun _ v0 v1 =>
    Some (mkVector2 (vx v0) (vy v0), mkVector2 (vx v1) (vy v1));
  in_screen := fun _ _ => true;
  screen_to_camera := fun _ p => mkVector3 (v2x p) (v2y p) 1;
  camera_to_screen := fun _ v => mkVector2 (vx v) (vy v);
  d_screen_to_camera := fun _ _ => (mkVector3 1 0 0, mkVector3 0 1 0);
  Ray := Vector3 * Vector3;
  make_ray := fun org dir => (org, dir);
  ray_org := fst;
  ray_dir := snd;
  sample_primary := fun _ p => (mkVector3 (v2x p) (v2y p) 1, mkVector3 0 0 (-1));
  clip_line := fun p q => Some (p, q);
  is_silhouette := fun _ _ _ => true;
  compute_exterior_dihedral_angle := fun _ e => if edge_f1 e =? -1 then PI else 0%R;
  get_normal := fun v => mkVector2 (v2y v) (- v2x v);
  PrimaryEdgeRecord_init :=
    mkPrimaryEdgeRecord (mkEdge (-1) (-1) (-1) (-1) (-1)) (mkVector2 0 0);
  SecondaryEdgeRecord_init :=
    mkSecondaryEdgeRecord (mkEdge (-1) (-1) (-1) (-1) (-1))
                          (mkVector3 0 0 0) (mkVector3 0 0 0);
  EnvironmentMap := unit
|}.

(** Output buffers as a previous pass may have left them: every slot holds
    a non-zero value. *)
Definition stale_outputs : @PrimaryOutputs flat_world :=
  let one := mkVector3 1 1 1 in
  mkPrimaryOutputs
    (fun _ => mkPrimaryEdgeRecord (mkEdge 0 0 1 0 (-1)) (mkVector2 1 1))
    (fun _ => (one, one))
    (fun _ => mkRayDifferential one one one one)
    (fun _ => one)
    (fun _ => 1%R).

(** A scene without environment map whose probe rays all missed. *)
Definition dark_scene : @FlattenScene flat_world :=
  mkFlattenScene (fun _ => quad_mesh) None.

Definition missed : Intersection := mkIntersection (-1) (-1).

(** Bounding spheres around the box centre, the plain sphere tests, and a
    constant sphere table. *)
#[local] Instance flat_tree_world : TreeCollaborators := {|
  compute_bounding_sphere := fun b =>
    mkSphere (scale3 0.5 (add3 (p_min b) (p_max b)))
             (0.5 * distance (p_min b) (p_max b));
  inside := fun s q => Rleb (distance_squared (center s) q) (radius s * radius s);
  intersect := fun _ _ => true;
  coordinate_system := fun _ => (mkVector3 1 0 0, mkVector3 0 1 0);
  tab_sphere_size := 1;
  tabSphere := fun _ => 1%R
|}.

(** A shading point at the origin of the plane z = 0 with normal +z, a box
    under that plane and a box above it. *)
Definition origin_point : SurfacePoint :=
  mkSurfacePoint zero3 (mkVector3 0 0 1)
    (mkFrame (mkVector3 1 0 0) (mkVector3 0 1 0) (mkVector3 0 0 1)).

Definition box_over : AABB3 := mkAABB3 (mkVector3 0 0 1) (mkVector3 1 1 2).

(** A tree with one edge above the surface in its convex-silhouette part. *)
Definition one_leaf_roots : EdgeTreeRoots :=
  mkEdgeTreeRoots (Some (Leaf box_over 1 0)) None.

(** A triangle in the plane z = 0 that is shaded with a normal tilted
    towards +x, as interpolated vertex normals do; the shading point is the
    origin, inside the triangle; the candidate is the boundary edge of that
    very triangle between its vertices 1 and 2. *)
Definition tilted_triangle : Shape :=
  mkShape (fun i => if i =? 0 then mkVector3 (-1) 0 0
                    else if i =? 1 then mkVector3 1 (-1) 0
                    else mkVector3 1 1 0)
          (fun _ => mkVector3i 0 1 2) 1 0.

Definition far_edge : Edge := mkEdge 0 1 2 0 (-1).

Definition hit_triangle_0 : Intersection := mkIntersection 0 0.

Definition tilted_frame : Frame :=
  mkFrame (mkVector3 (4 / 5) 0 (- 3 / 5)) (mkVector3 0 1 0) (mkVector3 (3 / 5) 0 (4 / 5)).

Definition tilted_point : SurfacePoint :=
  mkSurfacePoint zero3 (mkVector3 0 0 1) tilted_frame.

(** The direction towards the origin of the incoming ray, a unit vector
    above the triangle, and the [m_inv] of the diffuse lobe,
    [Matrix3x3(isotropic_frame)]. *)
Definition tilted_wi : Vector3 := scale3 (/ sqrt 5) (mkVector3 2 0 1).

Definition tilted_m_inv : Matrix3x3 :=
  Matrix3x3_of_frame (isotropic_frame tilted_wi (frame_n tilted_frame)).

(** The secondary distribution of a scene whose only edge is [far_edge]:
    pmf 1, cdf 0; and a sample with all selectors at 0. *)
Definition first_sample : SecondaryEdgeSample := mkSecondaryEdgeSample 0 0 0 0.

(** A box around the shading point, and the tree whose only leaf it
    bounds. *)
Definition box_around : AABB3 := mkAABB3 (mkVector3 (-1) (-1) (-1)) (mkVector3 1 1 1).

Definition around_roots : EdgeTreeRoots :=
  mkEdgeTreeRoots (Some (Leaf box_around 1 0)) None.

(* ================================================================= *)
(** * Part I, continued: the rest of the file *)
(* ================================================================= *)

(** ** Edge extraction over all shapes *)

(** What identifies an edge in the buffer of all shapes. *)
Definition global_key (e : Edge) : Z * (Z * Z) := (edge_shape_id e, edge_key e).

(** [num_total_triangles]: the loop that sizes the edge buffer. *)
Definition num_total_triangles (shapes : list Shape) : Z :=
  fold_left (fun total shape => total + num_triangles shape) shapes 0.

(** ** Selection of an edge by binary search in a cdf *)

Section EdgeSelection.

Local Open Scope R_scope.

(** "Sample an edge by binary search on cdf": the expression that both
    samplers evaluate, [clamp((int)(edge_ptr - edges_cdf - 1), 0,
    num_edges - 1)]. *)
Definition select_edge (edges_cdf : Buffer R) (num_edges : Z) (u : R) : Z :=
  clampZ (thrust_upper_bound edges_cdf num_edges u - 1) 0 (num_edges - 1).

(** A range in ascending order, as the binary search expects it. *)
Definition ascending (first : Buffer R) (n : Z) : Prop :=
  forall i j, (0 <= i <= j)%Z -> (j < n)%Z -> first i <= first j.

End EdgeSelection.

(** A cdf with the three steps 0, 1/4 and 3/4 (pmf 1/4, 1/2, 1/4). *)
Definition three_step_cdf : Buffer R :=
  fun i => if i =? 0 then 0%R else if i =? 1 then (1 / 4)%R else (3 / 4)%R.

(** ** Slots written by one task of the primary edge sampler *)

Section PrimaryTaskSlots.

Local Open Scope Z_scope.
Context `{Collaborators}.

(** The outputs [o'] are the outputs [o] with the slots of sample [idx]
    overwritten: its edge record, its two rays, its two throughputs, the
    [nd] upper and the [nd] lower channel multipliers and, when [rd] is
    given, its ray differential. *)
Definition primary_task_writes (nd idx : Z) (record : PrimaryEdgeRecord)
    (ray_u ray_l : Ray) (w_u w_l : Vector3) (upper lower : Z -> R)
    (rd : option RayDifferential) (o o' : PrimaryOutputs) : Prop :=
  (forall i, edge_records o' i = if i =? idx then record else edge_records o i) /\
  (forall i, rays o' i =
     if i =? 2 * idx + 0 then ray_u
     else if i =? 2 * idx + 1 then ray_l else rays o i) /\
  (forall i, throughputs o' i =
     if i =? 2 * idx + 0 then w_u
     else if i =? 2 * idx + 1 then w_l else throughputs o i) /\
  (forall i, channel_multipliers o' i =
     let d := i - 2 * nd * idx in
     if (0 <=? d) && (d <? nd) then upper d
     else if (nd <=? d) && (d <? 2 * nd) then lower (d - nd)
     else channel_multipliers o i) /\
  (forall i, primary_ray_differentials o' i =
     match rd with
     | Some r => if i =? idx then r else primary_ray_differentials o i
     | None => primary_ray_differentials o i
     end).

(** The slots of sample [idx] hold the same values in [o1] and [o2]. *)
Definition same_primary_slots (nd idx : Z) (o1 o2 : PrimaryOutputs) : Prop :=
  edge_records o1 idx = edge_records o2 idx /\
  rays o1 (2 * idx + 0) = rays o2 (2 * idx + 0) /\
  rays o1 (2 * idx + 1) = rays o2 (2 * idx + 1) /\
  throughputs o1 (2 * idx + 0) = throughputs o2 (2 * idx + 0) /\
  throughputs o1 (2 * idx + 1) = throughputs o2 (2 * idx + 1) /\
  (forall d, 0 <= d < 2 * nd ->
     channel_multipliers o1 (2 * nd * idx + d) =
     channel_multipliers o2 (2 * nd * idx + d)) /\
  primary_ray_differentials o1 idx = primary_ray_differentials o2 idx.

End PrimaryTaskSlots.

(** ** The cdf and the pdf along an edge *)

Section LineDistribution.

Local Open Scope R_scope.

(** The lambda [line_cdf] of the sampler, for the line at distance [d] with
    closest point [vo] and direction [wt], between the parameters [l0] and
    [l1]. *)
Definition line_cdf (d : R) (vo wt : Vector3) (l0 l1 : R) (l : R) : R :=
  let I := line_integral d vo wt in
  let Il0 := I l0 in
  let Il1 := I l1 in
  let normalization := Il1 - Il0 in
  (I l - Il0) / normalization.

(** The lambda [line_pdf] of the sampler. *)
Definition line_pdf (d : R) (vo wt : Vector3) (l0 l1 : R) (l : R) : R :=
  let I := line_integral d vo wt in
  let Il0 := I l0 in
  let Il1 := I l1 in
  let normalization := Il1 - Il0 in
  let dist_sq := d * d + l * l in
  2 * d * vz (add3 vo (scale3 l wt)) / (normalization * dist_sq * dist_sq).

End LineDistribution.

(** ** Importance resampling of a secondary edge *)

Section Resampling.

Local Open Scope R_scope.
Context `{Collaborators}.

(** [resample_cdf[M - 1]]: the sum of the weights of the [M] candidates. *)
Definition resample_total (shapes : Buffer Shape) (edges : Buffer Edge)
    (num_edges : Z) (edges_pmf edges_cdf : Buffer R)
    (edge_sample : SecondaryEdgeSample) (shading_isect : Intersection)
    (shading_point : SurfacePoint) (m_inv : Matrix3x3) : R :=
  let edge_ids :=
    map (candidate_edge_id edges_cdf num_edges edge_sample) (index_range M) in
  let edge_weights :=
    map (candidate_weight shapes edges edges_pmf shading_isect shading_point m_inv)
        edge_ids in
  let resample_cdf := running_sum 0 edge_weights in
  nth (Z.to_nat (M - 1)) resample_cdf 0.

End Resampling.

(** A sample like [first_sample] with the resampling selector in the
    middle. *)
Definition middle_sample : SecondaryEdgeSample := mkSecondaryEdgeSample 0 (1 / 2) 0 0.

(** ** Ray-plane intersection *)

Section RayPlane.

Local Open Scope R_scope.

(** The intersection that [intersect_jacobian] differentiates, as its
    comment gives it: [d = -(p dot n)], [t = -(org dot n + d) / (dir dot n)],
    [p = org + t * dir]. *)
Definition ray_plane_t (org dir p n : Vector3) : R :=
  let d := - dot3 p n in
  - (dot3 org n + d) / dot3 dir n.

Definition ray_plane_intersection (org dir p n : Vector3) : Vector3 :=
  add3 org (scale3 (ray_plane_t org dir p n) dir).

End RayPlane.

(** ** Derivatives of the secondary edges *)

(** The members of [DVertex] that this file assigns: the vertex the
    derivative belongs to and the derivative of its position.  [DVertex] is
    declared with the shapes, outside of this file; its other members are
    kept as one opaque value. *)
Record DVertex (Other : Type) : Type := mkDVertex {
  dv_shape_id : Z;
  dv_vertex_id : Z;
  d_v : Vector3;
  dv_other : Other
}.

Arguments mkDVertex {Other} _ _ _ _.
Arguments dv_shape_id {Other} _.
Arguments dv_vertex_id {Other} _.
Arguments d_v {Other} _.
Arguments dv_other {Other} _.

(** The value-initialised [DVertex{}] is consumed from the declaration of
    the type. *)
Class DerivativeCollaborators : Type := {
  DVertexOther : Type;
  DVertex_init : DVertex DVertexOther
}.

Section SecondaryDerivatives.

Local Open Scope R_scope.
Context `{DerivativeCollaborators}.

(** [edge_contrib == 0] *)
Definition Reqb (a b : R) : bool := if Req_dec_T a b then true else false.

(** The lambda [grad] of the accumulator, acting on the three sums
    [dcolor_dp], [dcolor_dv0] and [dcolor_dv1] that it captures by
    reference. *)
Definition grad (v0 v1 : Vector3) (p x : Vector3) (edge_contrib : R)
    (sums : Vector3 * Vector3 * Vector3) : Vector3 * Vector3 * Vector3 :=
  let '(dcolor_dp, dcolor_dv0, dcolor_dv1) := sums in
  if Reqb edge_contrib 0 then sums
  else
    let d0 := sub3 v0 p in
    let d1 := sub3 v1 p in
    let dp := add3 (add3 (cross d1 d0) (cross (sub3 x p) d1))
                   (cross d0 (sub3 x p)) in
    let dv0 := cross d1 (sub3 x p) in
    let dv1 := cross (sub3 x p) d0 in
    (add3 dcolor_dp (scale3 edge_contrib dp),
     add3 dcolor_dv0 (scale3 edge_contrib dv0),
     add3 dcolor_dv1 (scale3 edge_contrib dv1)).

(** The three sums of sample [idx] after the two calls of [grad]. *)
Definition secondary_edge_gradients (shapes : Buffer Shape)
    (active_pixels : Buffer Z) (shading_points : Buffer SurfacePoint)
    (edge_records : Buffer SecondaryEdgeRecord)
    (edge_surface_points : Buffer Vector3) (edge_contribs : Buffer R)
    (idx : Z) : Vector3 * Vector3 * Vector3 :=
  let pixel_id := active_pixels idx in
  let shading_point := shading_points pixel_id in
  let edge_record := edge_records idx in
  let edge_contrib0 := edge_contribs (2 * idx + 0)%Z in
  let edge_contrib1 := edge_contribs (2 * idx + 1)%Z in
  let edge_surface_point0 := edge_surface_points (2 * idx + 0)%Z in
  let edge_surface_point1 := edge_surface_points (2 * idx + 1)%Z in
  let sums := (zero3, zero3, zero3) in
  let v0 := get_v0 shapes (secondary_edge edge_record) in
  let v1 := get_v1 shapes (secondary_edge edge_record) in
  let sums := grad v0 v1 (position shading_point) edge_surface_point0
                edge_contrib0 sums in
  grad v0 v1 (position shading_point) edge_surface_point1 edge_contrib1 sums.

(** [d_points[pixel_id].position += dcolor_dp] *)
Definition add_to_position (point : SurfacePoint) (dcolor_dp : Vector3) : SurfacePoint :=
  mkSurfacePoint (add3 (position point) dcolor_dp) (geom_normal point)
    (shading_frame point).

(** [secondary_edge_derivatives_accumulator::operator()], acting on the
    pair of buffers [d_points] and [d_vertices]. *)
Definition secondary_edge_derivatives_accumulator (shapes : Buffer Shape)
    (active_pixels : Buffer Z) (shading_points : Buffer SurfacePoint)
    (edge_records : Buffer SecondaryEdgeRecord)
    (edge_surface_points : Buffer Vector3) (edge_contribs : Buffer R)
    (idx : Z) (bufs : Buffer SurfacePoint * Buffer (DVertex DVertexOther))
    : Buffer SurfacePoint * Buffer (DVertex DVertexOther) :=
  let '(d_points, d_vertices) := bufs in
  let pixel_id := active_pixels idx in
  let edge_record := edge_records idx in
  let d_vertices := store d_vertices (2 * idx + 0)%Z DVertex_init in
  let d_vertices := store d_vertices (2 * idx + 1)%Z DVertex_init in
  if (edge_shape_id (secondary_edge edge_record) <? 0)%Z then (d_points, d_vertices)
  else
    let '(dcolor_dp, dcolor_dv0, dcolor_dv1) :=
      secondary_edge_gradients shapes active_pixels shading_points edge_records
        edge_surface_points edge_contribs idx in
    let d_points :=
      store d_points pixel_id (add_to_position (d_points pixel_id) dcolor_dp) in
    let d_vertices :=
      store d_vertices (2 * idx + 0)%Z
        (mkDVertex (edge_shape_id (secondary_edge edge_record))
                   (edge_v0 (secondary_edge edge_record))
                   dcolor_dv0
                   (dv_other (d_vertices (2 * idx + 0)%Z))) in
    let d_vertices :=
      store d_vertices (2 * idx + 1)%Z
        (mkDVertex (edge_shape_id (secondary_edge edge_record))
                   (edge_v1 (secondary_edge edge_record))
                   dcolor_dv1
                   (dv_other (d_vertices (2 * idx + 1)%Z))) in
    (d_points, d_vertices).

(** [accumulate_secondary_edge_derivatives]: one task per active pixel. *)
Definition accumulate_secondary_edge_derivatives (shapes : Buffer Shape)
    (active_pixels : Buffer Z) (num_active_pixels : Z)
    (shading_points : Buffer SurfacePoint)
    (edge_records : Buffer SecondaryEdgeRecord)
    (edge_surface_points : Buffer Vector3) (edge_contribs : Buffer R)
    (bufs : Buffer SurfacePoint * Buffer (DVertex DVertexOther))
    : Buffer SurfacePoint * Buffer (DVertex DVertexOther) :=
  parallel_for
    (secondary_edge_derivatives_accumulator shapes active_pixels shading_points
       edge_records edge_surface_points edge_contribs)
    num_active_pixels bufs.

(** The edge function of a secondary edge: the signed volume spanned by
    the point [x] and the two end points of the edge, seen from [p]; it
    vanishes when [x] is in the plane through [p] and the edge. *)
Definition edge_volume (p v0 v1 x : Vector3) : R :=
  dot3 (sub3 x p) (cross (sub3 v0 p) (sub3 v1 p)).

(** The sum of a list of vectors. *)
Definition sum3 (vs : list Vector3) : Vector3 := fold_right add3 zero3 vs.

(** The contribution of sample [idx] to the derivative of the position of
    its shading point: [dcolor_dp] for a sample with an edge, nothing
    otherwise. *)
Definition position_contribution (shapes : Buffer Shape)
    (active_pixels : Buffer Z) (shading_points : Buffer SurfacePoint)
    (edge_records : Buffer SecondaryEdgeRecord)
    (edge_surface_points : Buffer Vector3) (edge_contribs : Buffer R)
    (idx : Z) : Vector3 :=
  if (edge_shape_id (secondary_edge (edge_records idx)) <? 0)%Z then zero3
  else fst (fst (secondary_edge_gradients shapes active_pixels shading_points
                   edge_records edge_surface_points edge_contribs idx)).

End SecondaryDerivatives.

Section SecondaryDerivativesNotions.

Local Open Scope Z_scope.
Context `{DerivativeCollaborators}.

(** What the accumulator leaves in slot [slot] of [d_vertices] when the
    sample [slot / 2] is one of its tasks: the value-initialised [DVertex{}]
    for a sample without edge; otherwise the shape of the edge, its first
    (even slot) or second (odd slot) vertex, and the sum [dcolor_dv0] or
    [dcolor_dv1]. *)
Definition accumulated_vertex (shapes : Buffer Shape)
    (active_pixels : Buffer Z) (shading_points : Buffer SurfacePoint)
    (edge_records : Buffer SecondaryEdgeRecord)
    (edge_surface_points : Buffer Vector3) (edge_contribs : Buffer R)
    (slot : Z) : DVertex DVertexOther :=
  let idx := slot / 2 in
  let edge := secondary_edge (edge_records idx) in
  if edge_shape_id edge <? 0 then DVertex_init
  else
    let sums := secondary_edge_gradients shapes active_pixels shading_points
                  edge_records edge_surface_points edge_contribs idx in
    if slot =? 2 * idx + 0
    then mkDVertex (edge_shape_id edge) (edge_v0 edge) (snd (fst sums))
                   (dv_other DVertex_init)
    else mkDVertex (edge_shape_id edge) (edge_v1 edge) (snd sums)
                   (dv_other DVertex_init).

End SecondaryDerivativesNotions.

(** ** Derivatives of the primary edges *)

(** [DCameraInst] and [d_project] are consumed from the camera; [d_project]
    receives the derivatives with respect to the two projected end points
    and adds to the three derivatives passed by reference. *)
Class PrimaryDerivativeCollaborators `{Collaborators} `{DerivativeCollaborators}
    : Type := {
  DCameraInst : Type;
  DCameraInst_init : DCameraInst;
  d_project : Camera -> Vector3 -> Vector3 -> R -> R -> R -> R ->
              DCameraInst -> Vector3 -> Vector3 ->
              DCameraInst * Vector3 * Vector3
}.

Section PrimaryDerivatives.

Local Open Scope R_scope.
Context `{PrimaryDerivativeCollaborators}.

(** From "Equation 8 in the paper" to [d_v1_ss *= edge_contrib]: the
    derivatives with respect to the projected end points that are passed to
    [d_project]. *)
Definition screen_space_derivatives (camera : Camera) (v0_ss v1_ss edge_pt : Vector2)
    (edge_contrib : R) : Vector2 * Vector2 :=
  let '(d_v0_ss, d_v1_ss) :=
    if negb (camera_fisheye camera) then
      (mkVector2 (v2y v1_ss - v2y edge_pt) (v2x edge_pt - v2x v1_ss),
       mkVector2 (v2y edge_pt - v2y v0_ss) (v2x v0_ss - v2x edge_pt))
    else
      let v0_dir := screen_to_camera camera v0_ss in
      let v1_dir := screen_to_camera camera v1_ss in
      let edge_dir := screen_to_camera camera edge_pt in
      let '(d_v0_dir_x, d_v0_dir_y) := d_screen_to_camera camera v0_ss in
      let '(d_v1_dir_x, d_v1_dir_y) := d_screen_to_camera camera v1_ss in
      (mkVector2 (dot3 (cross v1_dir edge_dir) d_v0_dir_x)
                 (dot3 (cross v1_dir edge_dir) d_v0_dir_y),
       mkVector2 (dot3 (cross edge_dir v0_dir) d_v1_dir_x)
                 (dot3 (cross edge_dir v0_dir) d_v1_dir_y)) in
  (scale2 edge_contrib d_v0_ss, scale2 edge_contrib d_v1_ss).

(** [primary_edge_derivatives_computer::operator()], acting on the pair of
    buffers [d_vertices] and [d_cameras]. *)
Definition primary_edge_derivatives_computer (camera : Camera)
    (shapes : Buffer Shape) (edge_records : Buffer PrimaryEdgeRecord)
    (edge_contribs : Buffer R) (idx : Z)
    (bufs : Buffer (DVertex DVertexOther) * Buffer DCameraInst)
    : Buffer (DVertex DVertexOther) * Buffer DCameraInst :=
  let '(d_vertices, d_cameras) := bufs in
  let edge_record := edge_records idx in
  let edge_contrib_upper := edge_contribs (2 * idx + 0)%Z in
  let edge_contrib_lower := edge_contribs (2 * idx + 1)%Z in
  let edge_contrib := edge_contrib_upper + edge_contrib_lower in
  let d_v0 := DVertex_init in
  let d_v1 := DVertex_init in
  let d_camera := DCameraInst_init in
  let edge := primary_edge edge_record in
  if (edge_shape_id edge <? 0)%Z then
    (store (store d_vertices (2 * idx + 0)%Z d_v0) (2 * idx + 1)%Z d_v1,
     store d_cameras idx d_camera)
  else
    let d_v0 := mkDVertex (edge_shape_id edge) (edge_v0 edge) (d_v d_v0)
                          (dv_other d_v0) in
    let d_v1 := mkDVertex (edge_shape_id edge) (edge_v1 edge) (d_v d_v1)
                          (dv_other d_v1) in
    let v0 := get_v0 shapes edge in
    let v1 := get_v1 shapes edge in
    match project camera v0 v1 with
    | None =>
        (store (store d_vertices (2 * idx + 0)%Z d_v0) (2 * idx + 1)%Z d_v1,
         store d_cameras idx d_camera)
    | Some (v0_ss, v1_ss) =>
        let edge_pt := primary_edge_pt edge_record in
        let '(d_v0_ss, d_v1_ss) :=
          screen_space_derivatives camera v0_ss v1_ss edge_pt edge_contrib in
        let '(d_camera, d_v0_v, d_v1_v) :=
          d_project camera v0 v1 (v2x d_v0_ss) (v2y d_v0_ss)
                    (v2x d_v1_ss) (v2y d_v1_ss) d_camera (d_v d_v0) (d_v d_v1) in
        let d_v0 := mkDVertex (dv_shape_id d_v0) (dv_vertex_id d_v0) d_v0_v
                              (dv_other d_v0) in
        let d_v1 := mkDVertex (dv_shape_id d_v1) (dv_vertex_id d_v1) d_v1_v
                              (dv_other d_v1) in
        (store (store d_vertices (2 * idx + 0)%Z d_v0) (2 * idx + 1)%Z d_v1,
         store d_cameras idx d_camera)
    end.

(** [compute_primary_edge_derivatives]: one task per edge record. *)
Definition compute_primary_edge_derivatives (camera : Camera)
    (shapes : Buffer Shape) (edge_records : Buffer PrimaryEdgeRecord)
    (num_records : Z) (edge_contribs : Buffer R)
    (bufs : Buffer (DVertex DVertexOther) * Buffer DCameraInst)
    : Buffer (DVertex DVertexOther) * Buffer DCameraInst :=
  parallel_for
    (primary_edge_derivatives_computer camera shapes edge_records edge_contribs)
    num_records bufs.

(** The edge function of a primary edge on the screen: twice the signed
    area of the triangle of the point [pt] and the two projected end
    points; it vanishes on the line through the edge. *)
Definition edge_function (v0_ss v1_ss pt : Vector2) : R :=
  (v2x v0_ss - v2x pt) * (v2y v1_ss - v2y pt) -
  (v2y v0_ss - v2y pt) * (v2x v1_ss - v2x pt).

End PrimaryDerivatives.

(** ** A concrete setting for the derivatives

    [DVertex{}] with no vertex and a zero derivative, a camera derivative
    that counts nothing, and the [d_project] of the orthographic camera of
    [flat_world], whose projection keeps [x] and [y]. *)
#[local] Instance flat_derivatives : DerivativeCollaborators := {|
  DVertexOther := unit;
  DVertex_init := mkDVertex (-1) (-1) zero3 tt
|}.

#[local] Instance flat_primary_derivatives
    : @PrimaryDerivativeCollaborators flat_world flat_derivatives := {|
  DCameraInst := unit;
  DCameraInst_init := tt;
  d_project := fun _ _ _ dx0 dy0 dx1 dy1 d_camera d_v0 d_v1 =>
    (d_camera, add3 d_v0 (mkVector3 dx0 dy0 0), add3 d_v1 (mkVector3 dx1 dy1 0))
|}.

(** ** The secondary edge sampler as a whole *)

(** Materials, the BSDF, the LTC table, matrix inversion and product, the
    ray with a minimal distance, the screen-space derivatives of the
    shading normal and the component-wise product and the sum of the
    components of a vector are consumed from other parts of the renderer. *)
Class MaterialCollaborators `{Collaborators} : Type := {
  Material : Type;
  get_roughness : Material -> SurfacePoint -> R;
  get_diffuse_reflectance : Material -> SurfacePoint -> Vector3;
  get_specular_reflectance : Material -> SurfacePoint -> Vector3;
  luminance : Vector3 -> R;
  (** [bsdf(material, shading_point, wi, wo, min_rough)] *)
  bsdf : Material -> SurfacePoint -> Vector3 -> Vector3 -> R -> Vector3;
  (** [ltc::size] and [ltc::tabM], an entry being read through
      [Matrix3x3(...)] *)
  ltc_size : Z;
  tabM : Buffer Matrix3x3;
  inverse : Matrix3x3 -> Matrix3x3;
  (** the product of two matrices *)
  mulMM : Matrix3x3 -> Matrix3x3 -> Matrix3x3;
  (** [Ray(org, dir, tmin)] *)
  make_ray_tmin : Vector3 -> Vector3 -> R -> Ray;
  (** the members [dn_dx] and [dn_dy] of a surface point *)
  dn_dx : SurfacePoint -> Vector3;
  dn_dy : SurfacePoint -> Vector3;
  (** [v * w] on two vectors, and [sum(v)] *)
  mul3 : Vector3 -> Vector3 -> Vector3;
  sum : Vector3 -> R
}.

Section SecondarySampler.

Local Open Scope R_scope.
Context `{MaterialCollaborators}.
Context `{TreeCollaborators}.

(** The index read in [ltc::tabM]. *)
Definition ltc_matrix_index (material : Material) (surface_point : SurfacePoint)
    (wi : Vector3) (min_rough : R) : Z :=
  let roughness := Rmax (get_roughness material surface_point) min_rough in
  let cos_theta := dot3 wi (frame_n (shading_frame surface_point)) in
  let theta := acos cos_theta in
  let rid := clampZ (truncate (roughness * IZR (ltc_size - 1))) 0 (ltc_size - 1) in
  let tid := clampZ (truncate ((theta / (PI / 2)) * IZR (ltc_size - 1)))
                    0 (ltc_size - 1) in
  (rid + tid * ltc_size)%Z.

(** [get_ltc_matrix] *)
Definition get_ltc_matrix (material : Material) (surface_point : SurfacePoint)
    (wi : Vector3) (min_rough : R) : Matrix3x3 :=
  tabM (ltc_matrix_index material surface_point wi min_rough).

(** The index read in [ltc::tabSphere] by [get_sphere_tab]. *)
Definition sphere_tab_index (cos_theta form_factor : R) : Z :=
  let N := tab_sphere_size in
  let uid := clampZ (truncate (cos_theta * 0.5 + 0.5 * IZR (N - 1))) 0 (N - 1) in
  let vid := clampZ (truncate (form_factor * IZR (N - 1))) 0 (N - 1) in
  (uid + vid * N)%Z.

(** The output buffers of the secondary edge sampler. *)
Record SecondaryOutputs : Type := mkSecondaryOutputs {
  sec_edge_records : Buffer SecondaryEdgeRecord;
  sec_rays : Buffer Ray;
  sec_bsdf_differentials : Buffer RayDifferential;
  sec_new_throughputs : Buffer Vector3;
  sec_edge_min_roughness : Buffer R
}.

(** "Initialize output" *)
Definition secondary_initialize (idx : Z) (min_rough : R) (o : SecondaryOutputs)
    : SecondaryOutputs :=
  let edge_records := store (sec_edge_records o) idx SecondaryEdgeRecord_init in
  let new_throughputs := store (sec_new_throughputs o) (2 * idx + 0)%Z zero3 in
  let new_throughputs := store new_throughputs (2 * idx + 1)%Z zero3 in
  let rays := store (sec_rays o) (2 * idx + 0)%Z (make_ray zero3 zero3) in
  let rays := store rays (2 * idx + 1)%Z (make_ray zero3 zero3) in
  let edge_min_roughness := store (sec_edge_min_roughness o) (2 * idx + 0)%Z min_rough in
  let edge_min_roughness := store edge_min_roughness (2 * idx + 1)%Z min_rough in
  mkSecondaryOutputs edge_records rays (sec_bsdf_differentials o) new_throughputs
    edge_min_roughness.

(** "Setup the Linearly Transformed Cosine Distribution", from the two
    reflectances to [m], [m_inv] and [m_pmf]; [None] for a black material. *)
Definition ltc_setup (material : Material) (shading_point : SurfacePoint)
    (wi : Vector3) (min_rough : R) (bsdf_component : R)
    : option (Matrix3x3 * Matrix3x3 * R) :=
  let diffuse_reflectance := get_diffuse_reflectance material shading_point in
  let specular_reflectance := get_specular_reflectance material shading_point in
  let diffuse_weight := luminance diffuse_reflectance in
  let specular_weight := luminance specular_reflectance in
  let weight_sum := diffuse_weight + specular_weight in
  if Rleb weight_sum 0 then None
  else
    let diffuse_pmf := diffuse_weight / weight_sum in
    let specular_pmf := specular_weight / weight_sum in
    let n := frame_n (shading_frame shading_point) in
    let isotropic_frame := isotropic_frame wi n in
    if Rleb bsdf_component diffuse_pmf then
      let m_inv := Matrix3x3_of_frame isotropic_frame in
      let m := inverse m_inv in
      Some (m, m_inv, diffuse_pmf)
    else
      let m_inv := mulMM (inverse (get_ltc_matrix material shading_point wi min_rough))
                         (Matrix3x3_of_frame isotropic_frame) in
      let m := inverse m_inv in
      Some (m, m_inv, specular_pmf).

(** The choice of the edge: importance resampling when [edges_pmf] is not
    null, the descent over the edge tree otherwise; the edge id and
    [edge_sample_weight], or [None] where the sampler returns.  A descent
    that would dereference a null child has no defined result and is counted
    as a return. *)
Definition select_secondary_edge (shapes : Buffer Shape) (edges : Buffer Edge)
    (num_edges : Z) (cam_org : Vector3) (edges_pmf : option (Buffer R))
    (edges_cdf : Buffer R) (edge_tree_roots : EdgeTreeRoots)
    (edge_sample : SecondaryEdgeSample) (shading_isect : Intersection)
    (shading_point : SurfacePoint) (m_inv : Matrix3x3) : option (Z * R) :=
  match edges_pmf with
  | Some edges_pmf =>
      resample_edge shapes edges num_edges edges_pmf edges_cdf edge_sample
        shading_isect shading_point m_inv
  | None =>
      let pmf := 0 in
      match sample_edge_roots cam_org edge_tree_roots shading_point m_inv
              (edge_sel edge_sample) pmf with
      | Some (edge_id, pmf) =>
          if (edge_id =? -1)%Z then None else Some (edge_id, 1 / pmf)
      | None => None
      end
  end.

(** "Propagate ray differentials" *)
Definition bsdf_ray_differential (shading_point : SurfacePoint)
    (wi sample_dir : Vector3) (incoming_ray_differential : RayDifferential)
    (diffuse : bool) : RayDifferential :=
  if diffuse then
    mkRayDifferential (org_dx incoming_ray_differential)
                      (org_dy incoming_ray_differential)
                      (mkVector3 0.03 0.03 0.03) (mkVector3 0.03 0.03 0.03)
  else
    let m := normalize (add3 wi sample_dir) in
    let m_local2 := dot3 m (frame_n (shading_frame shading_point)) in
    let dmdx := scale3 m_local2 (dn_dx shading_point) in
    let dmdy := scale3 m_local2 (dn_dy shading_point) in
    let dir_dx := dir_dx incoming_ray_differential in
    let dir_dy := dir_dy incoming_ray_differential in
    let ddotn_dx := sub3 (mul3 dir_dx m) (mul3 wi dmdx) in
    let ddotn_dy := sub3 (mul3 dir_dy m) (mul3 wi dmdy) in
    mkRayDifferential
      (org_dx incoming_ray_differential)
      (org_dy incoming_ray_differential)
      (sub3 dir_dx
         (scale3 2 (add3 (scale3 (- dot3 wi m) (dn_dx shading_point))
                         (mul3 ddotn_dx m))))
      (sub3 dir_dy
         (scale3 2 (add3 (scale3 (- dot3 wi m) (dn_dy shading_point))
                         (mul3 ddotn_dy m)))).

(** [secondary_edge_sampler::operator()]; the output to [std::cerr] is left
    out. *)
Definition secondary_edge_sampler (shapes : Buffer Shape)
    (materials : Buffer Material) (edges : Buffer Edge) (num_edges : Z)
    (cam_org : Vector3) (edges_pmf : option (Buffer R)) (edges_cdf : Buffer R)
    (edge_tree_roots : EdgeTreeRoots) (active_pixels : Buffer Z)
    (edge_samples : Buffer SecondaryEdgeSample) (incoming_rays : Buffer Ray)
    (incoming_ray_differentials : Buffer RayDifferential)
    (shading_isects : Buffer Intersection) (shading_points : Buffer SurfacePoint)
    (throughputs : Buffer Vector3) (min_roughness : Buffer R)
    (d_rendered_image : Buffer R) (channel_info : ChannelInfo)
    (idx : Z) (o : SecondaryOutputs) : SecondaryOutputs :=
  let pixel_id := active_pixels idx in
  let edge_sample := edge_samples idx in
  let wi := neg3 (ray_dir (incoming_rays pixel_id)) in
  let shading_isect := shading_isects pixel_id in
  let shading_point := shading_points pixel_id in
  let throughput := throughputs pixel_id in
  let min_rough := min_roughness pixel_id in
  let o := secondary_initialize idx min_rough o in
  if Rltb 1e-2 min_rough then o
  else
    let shape := shapes (isect_shape_id shading_isect) in
    let material := materials (material_id shape) in
    let diffuse_pmf :=
      luminance (get_diffuse_reflectance material shading_point) /
      (luminance (get_diffuse_reflectance material shading_point) +
       luminance (get_specular_reflectance material shading_point)) in
    match ltc_setup material shading_point wi min_rough
            (bsdf_component edge_sample) with
    | None => o
    | Some (m, m_inv, m_pmf) =>
      match select_secondary_edge shapes edges num_edges cam_org edges_pmf
              edges_cdf edge_tree_roots edge_sample shading_isect shading_point
              m_inv with
      | None => o
      | Some (edge_id, edge_sample_weight) =>
        let edge := edges edge_id in
        if negb (is_silhouette shapes (position shading_point) edge) then o
        else
          let v0 := get_v0 shapes edge in
          let v1 := get_v1 shapes edge in
          let v0o := mulMv m_inv (sub3 v0 (position shading_point)) in
          let v1o := mulMv m_inv (sub3 v1 (position shading_point)) in
          if Rleb (vz v0o) 0 && Rleb (vz v1o) 0 then o
          else
            let '(v0c, v1c) := clip_to_tangent_plane v0o v1o in
            let '(vo, wt, d, l0, l1) := edge_line v0c v1c in
            match fst (fst (sample_on_edge v0o v1o (secondary_t edge_sample))) with
            | None => o
            | Some (l, line_pdf_l) =>
              let sample_p := mulMv m (add3 vo (scale3 l wt)) in
              let half_plane_normal :=
                normalize (cross (sub3 v0 (position shading_point))
                                 (sub3 v1 (position shading_point))) in
              let offset := 1e-5 / length3 sample_p in
              let sample_dir := normalize sample_p in
              let v_upper_dir :=
                normalize (add3 sample_dir (scale3 offset half_plane_normal)) in
              let v_lower_dir :=
                normalize (sub3 sample_dir (scale3 offset half_plane_normal)) in
              let eval_bsdf := bsdf material shading_point wi sample_dir min_rough in
              if Rltb (sum eval_bsdf) 1e-6 then o
              else
                let nd := num_total_dimensions channel_info in
                let rd := radiance_dimension channel_info in
                let d_color :=
                  mkVector3 (d_rendered_image (nd * pixel_id + rd + 0)%Z)
                            (d_rendered_image (nd * pixel_id + rd + 1)%Z)
                            (d_rendered_image (nd * pixel_id + rd + 2)%Z) in
                let edge_records :=
                  store (sec_edge_records o) idx
                    (mkSecondaryEdgeRecord edge sample_p (mulMv m wt)) in
                let rays :=
                  store (sec_rays o) (2 * idx + 0)%Z
                    (make_ray_tmin (position shading_point) v_upper_dir
                       (1e-3 * length3 sample_p)) in
                let rays :=
                  store rays (2 * idx + 1)%Z
                    (make_ray_tmin (position shading_point) v_lower_dir
                       (1e-3 * length3 sample_p)) in
                let incoming_ray_differential :=
                  incoming_ray_differentials pixel_id in
                let bsdf_ray_differential :=
                  bsdf_ray_differential shading_point wi sample_dir
                    incoming_ray_differential
                    (Rleb (bsdf_component edge_sample) diffuse_pmf) in
                let bsdf_differentials :=
                  store (sec_bsdf_differentials o) (2 * idx + 0)%Z
                    bsdf_ray_differential in
                let bsdf_differentials :=
                  store bsdf_differentials (2 * idx + 1)%Z bsdf_ray_differential in
                let edge_weight := edge_sample_weight / (m_pmf * line_pdf_l) in
                let nt :=
                  scale3 edge_weight (mul3 (mul3 throughput eval_bsdf) d_color) in
                let new_throughputs :=
                  store (sec_new_throughputs o) (2 * idx + 0)%Z nt in
                let new_throughputs :=
                  store new_throughputs (2 * idx + 1)%Z (neg3 nt) in
                mkSecondaryOutputs edge_records rays bsdf_differentials
                  new_throughputs (sec_edge_min_roughness o)
            end
      end
    end.

(** [sample_secondary_edges]: one task per active pixel. *)
Definition sample_secondary_edges (shapes : Buffer Shape)
    (materials : Buffer Material) (edges : Buffer Edge) (num_edges : Z)
    (cam_org : Vector3) (edges_pmf : option (Buffer R)) (edges_cdf : Buffer R)
    (edge_tree_roots : EdgeTreeRoots) (active_pixels : Buffer Z)
    (num_active_pixels : Z)
    (edge_samples : Buffer SecondaryEdgeSample) (incoming_rays : Buffer Ray)
    (incoming_ray_differentials : Buffer RayDifferential)
    (shading_isects : Buffer Intersection) (shading_points : Buffer SurfacePoint)
    (throughputs : Buffer Vector3) (min_roughness : Buffer R)
    (d_rendered_image : Buffer R) (channel_info : ChannelInfo)
    (o : SecondaryOutputs) : SecondaryOutputs :=
  parallel_for
    (secondary_edge_sampler shapes materials edges num_edges cam_org edges_pmf
       edges_cdf edge_tree_roots active_pixels edge_samples incoming_rays
       incoming_ray_differentials shading_isects shading_points throughputs
       min_roughness d_rendered_image channel_info)
    num_active_pixels o.

End SecondarySampler.

(** ** A concrete setting for the secondary sampler

    One grey diffuse material without specular lobe, a BSDF that is
    constant, an LTC table with the identity as its only entry; the matrices
    of the examples are orthonormal frames, which the transposition
    inverts. *)
Definition transpose (m : Matrix3x3) : Matrix3x3 :=
  mkMatrix3x3 (mkVector3 (vx (row0 m)) (vx (row1 m)) (vx (row2 m)))
              (mkVector3 (vy (row0 m)) (vy (row1 m)) (vy (row2 m)))
              (mkVector3 (vz (row0 m)) (vz (row1 m)) (vz (row2 m))).

#[local] Instance flat_materials : @MaterialCollaborators flat_world := {|
  Material := unit;
  get_roughness := fun _ _ => 1%R;
  get_diffuse_reflectance := fun _ _ => mkVector3 (1 / 2) (1 / 2) (1 / 2);
  get_specular_reflectance := fun _ _ => zero3;
  luminance := fun v => ((vx v + vy v + vz v) / 3)%R;
  bsdf := fun _ _ _ _ _ => mkVector3 (1 / 2) (1 / 2) (1 / 2);
  ltc_size := 1;
  tabM := fun _ => identity3;
  inverse := transpose;
  mulMM := fun a b =>
    mkMatrix3x3 (mulMv (transpose b) (row0 a)) (mulMv (transpose b) (row1 a))
                (mulMv (transpose b) (row2 a));
  make_ray_tmin := fun org dir _ => (org, dir);
  dn_dx := fun _ => zero3;
  dn_dy := fun _ => zero3;
  mul3 := fun a b => mkVector3 (vx a * vx b) (vy a * vy b) (vz a * vz b);
  sum := fun v => (vx v + vy v + vz v)%R
|}.

(** ** Slots written by one task of the secondary edge sampler *)

Section SecondaryTaskSlots.

Local Open Scope Z_scope.
Context `{MaterialCollaborators}.

(** The outputs [o'] are the outputs [o] with the slots of sample [idx]
    overwritten: its edge record, its two rays, its two throughputs, its
    two minimal roughnesses and, when [bd] is given, its two ray
    differentials. *)
Definition secondary_task_writes (idx : Z) (record : SecondaryEdgeRecord)
    (ray_u ray_l : Ray) (nt_u nt_l : Vector3) (min_rough : R)
    (bd : option RayDifferential) (o o' : SecondaryOutputs) : Prop :=
  (forall i, sec_edge_records o' i =
     if i =? idx then record else sec_edge_records o i) /\
  (forall i, sec_rays o' i =
     if i =? 2 * idx + 0 then ray_u
     else if i =? 2 * idx + 1 then ray_l else sec_rays o i) /\
  (forall i, sec_new_throughputs o' i =
     if i =? 2 * idx + 0 then nt_u
     else if i =? 2 * idx + 1 then nt_l else sec_new_throughputs o i) /\
  (forall i, sec_edge_min_roughness o' i =
     if (i =? 2 * idx + 0) || (i =? 2 * idx + 1) then min_rough
     else sec_edge_min_roughness o i) /\
  (forall i, sec_bsdf_differentials o' i =
     match bd with
     | Some b =>
         if (i =? 2 * idx + 0) || (i =? 2 * idx + 1) then b
         else sec_bsdf_differentials o i
     | None => sec_bsdf_differentials o i
     end).

(** The slots of sample [idx] hold the same values in [o1] and [o2]. *)
Definition same_secondary_slots (idx : Z) (o1 o2 : SecondaryOutputs) : Prop :=
  sec_edge_records o1 idx = sec_edge_records o2 idx /\
  (forall r, 0 <= r < 2 ->
     sec_rays o1 (2 * idx + r) = sec_rays o2 (2 * idx + r) /\
     sec_new_throughputs o1 (2 * idx + r) = sec_new_throughputs o2 (2 * idx + r) /\
     sec_edge_min_roughness o1 (2 * idx + r) =
       sec_edge_min_roughness o2 (2 * idx + r) /\
     sec_bsdf_differentials o1 (2 * idx + r) =
       sec_bsdf_differentials o2 (2 * idx + r)).

End SecondaryTaskSlots.

(** ** The solver and the solution it looks for *)

(** The target [t] lies between the values of the cdf at the two ends of
    the bracket of a state. *)
Definition brackets_target (line_cdf : R -> R) (t : R) (s : SolverState) : Prop :=
  (line_cdf (lb s) <= t <= line_cdf (ub s))%R.

(** ** The edge tree in binary64 arithmetic

    Which child the descent over the edge tree enters, what the rescaled
    sample and the accumulated pmf are, and whether the square roots of the
    sphere integral are defined, all depend on how each operation is
    rounded.  The importance and the descent are therefore embedded a second
    time, with [Real] as the binary64 format: every operation rounds to
    nearest, ties to even, on its own (no fused multiply-add, no extended
    intermediate precision), square roots of negative numbers and [0 / 0]
    are NaN, and a comparison with a NaN is false.  The integer parts are
    as before. *)

Module Binary64.

Import PrimFloat.
Local Open Scope float_scope.

(** Modelled from the spec: the type [Real] is declared outside of this
    file; it is taken to be [double]. *)
Definition Real : Type := float.

(** [Real(M_PI)], and the constants written with the suffix [f], which are
    single precision values converted to [Real]: [1e-6f], [1e-4f] and the
    quotient [2.0f / 3.0f]; [2.0 / 3.0] is a quotient of doubles. *)
Definition M_PI : Real := 0x1.921fb54442d18p+1.
Definition float_1e_6 : Real := 0x1.0c6f7ap-20.
Definition float_1e_4 : Real := 0x1.a36e2ep-14.
Definition float_two_thirds : Real := 0x1.555556p-1.
Definition double_two_thirds : Real := 2 / 3.

(** Modelled from the spec: [square] and [max] of the numeric utilities,
    which do not belong to this file; [max(a, b)] is [b] when [a < b] and
    [a] otherwise. *)
Definition square (a : Real) : Real := a * a.

Definition max (a b : Real) : Real := if a <? b then b else a.

(** Conversion of an [int] to [Real], exact for every [int]. *)
Definition Real_of_int (n : Z) : Real :=
  FloatOps.SF2Prim (SpecFloat.binary_normalize FloatOps.prec FloatOps.emax n 0 false).

Record Vector2 : Type := mkVector2 { v2x : Real; v2y : Real }.
Record Vector3 : Type := mkVector3 { vx : Real; vy : Real; vz : Real }.

(** Modelled from the spec: the vector algebra is declared with the vector
    types, outside of this file; it works component by component, and the
    three products of [dot] are added from left to right. *)
Definition add3 (a b : Vector3) : Vector3 :=
  mkVector3 (vx a + vx b) (vy a + vy b) (vz a + vz b).
Definition sub3 (a b : Vector3) : Vector3 :=
  mkVector3 (vx a - vx b) (vy a - vy b) (vz a - vz b).
Definition neg3 (a : Vector3) : Vector3 := mkVector3 (- vx a) (- vy a) (- vz a).
Definition scale3 (s : Real) (a : Vector3) : Vector3 :=
  mkVector3 (s * vx a) (s * vy a) (s * vz a).
Definition div3 (a : Vector3) (s : Real) : Vector3 :=
  mkVector3 (vx a / s) (vy a / s) (vz a / s).
Definition dot2 (a b : Vector2) : Real := v2x a * v2x b + v2y a * v2y b.
Definition dot3 (a b : Vector3) : Real := vx a * vx b + vy a * vy b + vz a * vz b.
Definition cross (a b : Vector3) : Vector3 :=
  mkVector3 (vy a * vz b - vz a * vy b)
            (vz a * vx b - vx a * vz b)
            (vx a * vy b - vy a * vx b).
Definition length_squared (a : Vector3) : Real := dot3 a a.
Definition length3 (a : Vector3) : Real := sqrt (length_squared a).
Definition normalize (a : Vector3) : Vector3 := div3 a (length3 a).
Definition distance_squared (a b : Vector3) : Real := length_squared (sub3 b a).
Definition distance (a b : Vector3) : Real := length3 (sub3 b a).

Record Matrix3x3 : Type :=
  mkMatrix3x3 { row0 : Vector3; row1 : Vector3; row2 : Vector3 }.

Definition mulMv (m : Matrix3x3) (v : Vector3) : Vector3 :=
  mkVector3 (dot3 (row0 m) v) (dot3 (row1 m) v) (dot3 (row2 m) v).

Definition identity3 : Matrix3x3 :=
  mkMatrix3x3 (mkVector3 1 0 0) (mkVector3 0 1 0) (mkVector3 0 0 1).

Record Frame : Type :=
  mkFrame { frame_x : Vector3; frame_y : Vector3; frame_n : Vector3 }.

(** Modelled from the spec: [to_local(frame, v)] expresses [v] in the
    coordinates of the frame. *)
Definition to_local (f : Frame) (v : Vector3) : Vector3 :=
  mkVector3 (dot3 v (frame_x f)) (dot3 v (frame_y f)) (dot3 v (frame_n f)).

Record SurfacePoint : Type := mkSurfacePoint {
  position : Vector3;
  geom_normal : Vector3;
  shading_frame : Frame
}.

Record AABB3 : Type := mkAABB3 { p_min : Vector3; p_max : Vector3 }.

Record AABB6 : Type := mkAABB6 {
  p_min6 : Vector3; d_min : Vector3; p_max6 : Vector3; d_max : Vector3
}.

Record Sphere : Type := mkSphere { center : Vector3; radius : Real }.

(** The nodes of the edge tree, as in the first embedding. *)
Inductive BVHNode (B : Type) : Type :=
| Leaf (bounds : B) (weighted_total_length : Real) (edge_id : Z)
| Inner (bounds : B) (weighted_total_length : Real) (edge_id : Z)
        (child0 child1 : BVHNode B).

Arguments Leaf {B} bounds weighted_total_length edge_id.
Arguments Inner {B} bounds weighted_total_length edge_id child0 child1.

Definition node_bounds {B : Type} (node : BVHNode B) : B :=
  match node with Leaf b _ _ => b | Inner b _ _ _ _ => b end.

Definition node_weighted_total_length {B : Type} (node : BVHNode B) : Real :=
  match node with Leaf _ w _ => w | Inner _ w _ _ _ => w end.

Definition node_edge_id {B : Type} (node : BVHNode B) : Z :=
  match node with Leaf _ _ e => e | Inner _ _ e _ _ => e end.

Definition BVHNode3 : Type := BVHNode AABB3.
Definition BVHNode6 : Type := BVHNode AABB6.

Record EdgeTreeRoots : Type := mkEdgeTreeRoots {
  cs_bvh_root : option BVHNode3;
  ncs_bvh_root : option BVHNode6
}.

(** What the importance takes from outside of this file: the bounding
    volumes, the sphere table, the functions [cos] and [atan2] of the C
    library, and the result of a conversion [int(x)] that the language
    leaves undefined (NaN, infinities, values outside of the range of
    [int]). *)
Class TreeCollaborators : Type := {
  compute_bounding_sphere : AABB3 -> Sphere;
  inside : Sphere -> Vector3 -> bool;
  intersect : Sphere -> AABB3 -> bool;
  coordinate_system : Vector3 -> Vector3 * Vector3;
  tab_sphere_size : Z;
  tabSphere : Buffer Real;
  cos : Real -> Real;
  atan2 : Real -> Real -> Real;
  int_of_unrepresentable : Real -> Z
}.

Section EdgeTree.

Context `{TreeCollaborators}.

(** Conversion [int(x)]: truncation toward zero where the result is an
    [int]. *)
Definition int_of_Real (x : Real) : Z :=
  match FloatOps.Prim2SF x with
  | SpecFloat.S754_zero _ => 0%Z
  | SpecFloat.S754_finite s m e =>
      let magnitude :=
        if (0 <=? e)%Z then Z.shiftl (Z.pos m) e else Z.shiftr (Z.pos m) (- e) in
      let n := if s then (- magnitude)%Z else magnitude in
      if ((-2147483648 <=? n) && (n <=? 2147483647))%Z then n
      else int_of_unrepresentable x
  | _ => int_of_unrepresentable x
  end.

(** Modelled from the spec: [corner(bounds, i)], as in the first
    embedding. *)
Definition corner (bounds : AABB3) (i : Z) : Vector3 :=
  mkVector3
    (if Z.testbit i 0 then vx (p_max bounds) else vx (p_min bounds))
    (if Z.testbit i 1 then vy (p_max bounds) else vy (p_min bounds))
    (if Z.testbit i 2 then vz (p_max bounds) else vz (p_min bounds)).

(** [secondary_edge_sampler::get_sphere_tab]; the product [0.5f * (N - 1)]
    of a single precision value and an [int] is exact for a table of fewer
    than 2^24 rows. *)
Definition get_sphere_tab (cos_theta form_factor : Real) : Real :=
  let N := tab_sphere_size in
  let uid := clampZ (int_of_Real (cos_theta * 0.5 + 0.5 * Real_of_int (N - 1)))
                    0 (N - 1) in
  let vid := clampZ (int_of_Real (form_factor * Real_of_int (N - 1))) 0 (N - 1) in
  tabSphere (uid + vid * N)%Z.

(** [secondary_edge_sampler::solve_cubic] *)
Definition solve_cubic (c0 c1 c2 c3 : Real) : Vector3 :=
  let inv_c3 := 1 / c3 in
  let c0 := c0 * inv_c3 in
  let c1 := c1 * inv_c3 in
  let c2 := c2 * inv_c3 in
  let c1 := c1 / 3 in
  let c2 := c2 / 3 in
  let A := c3 in
  let B := c2 in
  let C := c1 in
  let D := c0 in
  let delta := mkVector3 (- square c2 + c1) (- c1 * c2 + c0)
                         (dot2 (mkVector2 c2 (- c1)) (mkVector2 c0 c1)) in
  let discriminant :=
    dot2 (mkVector2 (4 * vx delta) (- vy delta)) (mkVector2 (vz delta) (vy delta)) in
  let xlc :=
    let C_a := vx delta in
    let D_a := -2 * B * vx delta + vy delta in
    let theta := atan2 (sqrt discriminant) (- D_a) / 3 in
    let x_1a := 2 * sqrt (- C_a) * cos theta in
    let x_3a := 2 * sqrt (- C_a) * cos (theta + double_two_thirds * M_PI) in
    let xl := if 2 * B <? x_1a + x_3a then x_1a else x_3a in
    mkVector2 (xl - B) A in
  let xsc :=
    let C_d := vz delta in
    let D_d := - D * vy delta + 2 * C * vz delta in
    let theta := atan2 (D * sqrt discriminant) (- D_d) / 3 in
    let x_1d := 2 * sqrt (- C_d) * cos theta in
    let x_3d := 2 * sqrt (- C_d) * cos (theta + float_two_thirds * M_PI) in
    let xs := if x_1d + x_3d <? 2 * C then x_1d else x_3d in
    mkVector2 (- D) (xs + C) in
  let E := v2y xlc * v2y xsc in
  let F := - v2x xlc * v2y xsc - v2y xlc * v2x xsc in
  let G := v2x xlc * v2x xsc in
  let xmc := mkVector2 (C * F - B * G) (- B * F + C * E) in
  let root := mkVector3 (v2x xsc / v2y xsc) (v2x xmc / v2y xmc) (v2x xlc / v2y xlc) in
  if (vx root <? vy root) && (vx root <? vz root) then
    mkVector3 (vy root) (vx root) (vz root)
  else if (vz root <? vx root) && (vz root <? vy root) then
    mkVector3 (vx root) (vz root) (vy root)
  else root.

(** [secondary_edge_sampler::ltc_sphere_integral]; the assertion that the
    form factor is finite is left out, so that a NaN is returned as a build
    without assertions returns it. *)
Definition ltc_sphere_integral (b_sphere : Sphere) (p : SurfacePoint)
    (m_inv : Matrix3x3) : Real :=
  let C := to_local (shading_frame p) (center b_sphere) in
  let '(V1, V2) := coordinate_system C in
  let V1 := scale3 (radius b_sphere) V1 in
  let V2 := scale3 (radius b_sphere) V2 in
  let C := mulMv m_inv C in
  let V1 := mulMv m_inv V1 in
  let V2 := mulMv m_inv V2 in
  if dot3 (cross V1 V2) C <=? 0 then 0
  else
    let d11 := dot3 V1 V1 in
    let d22 := dot3 V2 V2 in
    let d12 := dot3 V1 V2 in
    let '(a, b, V1, V2) :=
      if float_1e_4 <? abs d12 / sqrt (d11 * d22) then
        let tr := d11 + d22 in
        let det := - d12 * d12 + d11 * d22 in
        let det := sqrt det in
        let u := 0.5 * sqrt (tr - 2 * det) in
        let v := 0.5 * sqrt (tr + 2 * det) in
        let e_max := square (u + v) in
        let e_min := square (u - v) in
        let '(V1_, V2_) :=
          if d22 <? d11 then
            (add3 (scale3 d12 V1) (scale3 (e_max - d11) V2),
             add3 (scale3 d12 V1) (scale3 (e_min - d11) V2))
          else
            (add3 (scale3 d12 V2) (scale3 (e_max - d22) V1),
             add3 (scale3 d12 V2) (scale3 (e_min - d22) V1)) in
        (1 / e_max, 1 / e_min, normalize V1_, normalize V2_)
      else
        let a := 1 / d11 in
        let b := 1 / d22 in
        (a, b, scale3 (sqrt a) V1, scale3 (sqrt b) V2) in
    let V3 := cross V1 V2 in
    let V3 := if dot3 C V3 <? 0 then neg3 V3 else V3 in
    let L := dot3 V3 C in
    let x0 := dot3 V1 C / L in
    let y0 := dot3 V2 C / L in
    let a := a * square L in
    let b := b * square L in
    let c0 := a * b in
    let c1 := a * b * (1 + square x0 + square y0) - a - b in
    let c2 := 1 - a * (1 + square x0) - b * (1 + square y0) in
    let c3 := 1 in
    let roots := solve_cubic c0 c1 c2 c3 in
    let e1 := vx roots in
    let e2 := vy roots in
    let e3 := vz roots in
    let avg_dir := mkVector3 (a * x0 / (a - e2)) (b * y0 / (b - e2)) 1 in
    let rotate := mkMatrix3x3 (mkVector3 (vx V1) (vx V2) (vx V3))
                              (mkVector3 (vy V1) (vy V2) (vy V3))
                              (mkVector3 (vz V1) (vz V2) (vz V3)) in
    let avg_dir := normalize (mulMv rotate avg_dir) in
    let L1 := sqrt (- e2 / e3) in
    let L2 := sqrt (- e2 / e1) in
    let form_factor := L1 * L2 / sqrt ((1 + square L1) * (1 + square L2)) in
    get_sphere_tab (vz avg_dir) form_factor * form_factor.

(** [secondary_edge_sampler::is_bound_below_surface] *)
Definition is_bound_below_surface (bounds : AABB3) (p : SurfacePoint) : bool :=
  forallb
    (fun i => negb (0 <? dot3 (frame_n (shading_frame p))
                              (sub3 (corner bounds i) (position p))))
    (index_range 8).

(** The tail shared by the two [importance] overloads. *)
Definition importance_of_bounds (p_bounds : AABB3) (weighted_total_length : Real)
    (p : SurfacePoint) (m_inv : Matrix3x3) : Real :=
  let b_sphere := compute_bounding_sphere p_bounds in
  let brdf_term :=
    if negb (inside b_sphere (position p))
    then ltc_sphere_integral b_sphere p m_inv
    else M_PI in
  brdf_term * weighted_total_length
  / max (distance_squared (center b_sphere) (position p)) float_1e_6.

(** [secondary_edge_sampler::importance(const BVHNode3 &, ...)] *)
Definition importance3 (node : BVHNode3) (p : SurfacePoint) (m_inv : Matrix3x3)
    : Real :=
  if is_bound_below_surface (node_bounds node) p then 0
  else importance_of_bounds (node_bounds node) (node_weighted_total_length node)
                            p m_inv.

(** [secondary_edge_sampler::importance(const BVHNode6 &, ...)] *)
Definition importance6 (cam_org : Vector3) (node : BVHNode6) (p : SurfacePoint)
    (m_inv : Matrix3x3) : Real :=
  let p_bounds := mkAABB3 (p_min6 (node_bounds node)) (p_max6 (node_bounds node)) in
  if is_bound_below_surface p_bounds p then 0
  else
    let d_bounds := mkAABB3 (d_min (node_bounds node)) (d_max (node_bounds node)) in
    if negb (intersect (mkSphere (scale3 0.5 (add3 (position p) cam_org))
                                 (0.5 * distance (position p) cam_org))
                       d_bounds)
    then 0
    else importance_of_bounds p_bounds (node_weighted_total_length node) p m_inv.

(** [secondary_edge_sampler::sample_edge(const BVHNodeType &, ...)]: the
    returned edge id with the final content of [pmf]; [None] stands for the
    dereference of a null child. *)
Fixpoint sample_edge {B : Type}
    (importance : BVHNode B -> SurfacePoint -> Matrix3x3 -> Real)
    (node : BVHNode B) (p : SurfacePoint) (m_inv : Matrix3x3)
    (sample pmf : Real) : option (Z * Real) :=
  if negb (node_edge_id node =? -1)%Z then Some (node_edge_id node, pmf)
  else
    match node with
    | Leaf _ _ _ => None
    | Inner _ _ _ child0 child1 =>
        let imp0 := importance child0 p m_inv in
        let imp1 := importance child1 p m_inv in
        if (imp0 <=? 0) && (imp1 <=? 0) then Some ((-1)%Z, pmf)
        else
          let prob_0 := imp0 / (imp0 + imp1) in
          if sample <? prob_0 then
            let pmf := pmf * prob_0 in
            let sample := sample * (imp0 + imp1) / imp0 in
            sample_edge importance child0 p m_inv sample pmf
          else
            let prob_1 := 1 - prob_0 in
            let pmf := pmf * prob_1 in
            let sample := (sample * (imp0 + imp1) - imp0) / imp1 in
            sample_edge importance child1 p m_inv sample pmf
    end.

(** [secondary_edge_sampler::sample_edge(const EdgeTreeRoots &, ...)] *)
Definition sample_edge_roots (cam_org : Vector3) (edge_tree_roots : EdgeTreeRoots)
    (p : SurfacePoint) (m_inv : Matrix3x3) (sample pmf : Real)
    : option (Z * Real) :=
  let imp_cs :=
    match cs_bvh_root edge_tree_roots with
    | Some root => importance3 root p m_inv
    | None => 0
    end in
  let imp_ncs :=
    match ncs_bvh_root edge_tree_roots with
    | Some root => importance6 cam_org root p m_inv
    | None => 0
    end in
  if (imp_cs <=? 0) && (imp_ncs <=? 0) then Some ((-1)%Z, pmf)
  else
    let prob_cs := imp_cs / (imp_cs + imp_ncs) in
    if sample <? prob_cs then
      let pmf := prob_cs in
      let sample := sample * (imp_cs + imp_ncs) / imp_cs in
      match cs_bvh_root edge_tree_roots with
      | Some root => sample_edge importance3 root p m_inv sample pmf
      | None => None
      end
    else
      let pmf := 1 - prob_cs in
      let sample := (sample * (imp_cs + imp_ncs) - imp_cs) / imp_ncs in
      match ncs_bvh_root edge_tree_roots with
      | Some root => sample_edge (importance6 cam_org) root p m_inv sample pmf
      | None => None
      end.

End EdgeTree.

(** A tree as its builder leaves it, as far as the edge ids go: every leaf
    holds the id of an edge of the buffer, every inner node holds [-1]. *)
Inductive leaves_in_range {B : Type} (num_edges : Z) : BVHNode B -> Prop :=
| leaf_in_range bounds w e :
    (0 <= e < num_edges)%Z -> leaves_in_range num_edges (Leaf bounds w e)
| inner_in_range bounds w child0 child1 :
    leaves_in_range num_edges child0 -> leaves_in_range num_edges child1 ->
    leaves_in_range num_edges (Inner bounds w (-1) child0 child1).

Definition roots_in_range (num_edges : Z) (roots : EdgeTreeRoots) : Prop :=
  (forall root, cs_bvh_root roots = Some root -> leaves_in_range num_edges root) /\
  (forall root, ncs_bvh_root roots = Some root -> leaves_in_range num_edges root).

(** The edge ids stored in the leaves of a tree. *)
Fixpoint leaf_ids {B : Type} (node : BVHNode B) : list Z :=
  match node with
  | Leaf _ _ e => [e]
  | Inner _ _ _ child0 child1 => leaf_ids child0 ++ leaf_ids child1
  end.

Definition roots_leaf_ids (roots : EdgeTreeRoots) : list Z :=
  match cs_bvh_root roots with Some root => leaf_ids root | None => [] end ++
  match ncs_bvh_root roots with Some root => leaf_ids root | None => [] end.

(** *** A scene with three edges

    The bounding sphere of a box is centred at the middle of the box and
    passes through its corners; the functions of the C library, the
    sphere table, the other bounding volumes and the undefined conversions
    are left open. *)
Definition midpoint_spheres (cos : Real -> Real) (atan2 : Real -> Real -> Real)
    (intersect : Sphere -> AABB3 -> bool)
    (coordinate_system : Vector3 -> Vector3 * Vector3)
    (tab_sphere_size : Z) (tabSphere : Buffer Real)
    (int_of_unrepresentable : Real -> Z) : TreeCollaborators := {|
  compute_bounding_sphere := fun b =>
    let c := scale3 0.5 (add3 (p_max b) (p_min b)) in
    mkSphere c (distance c (p_max b));
  inside := fun s q => distance q (center s) <? radius s;
  intersect := intersect;
  coordinate_system := coordinate_system;
  tab_sphere_size := tab_sphere_size;
  tabSphere := tabSphere;
  cos := cos;
  atan2 := atan2;
  int_of_unrepresentable := int_of_unrepresentable
|}.

(** A shading point at the origin of the plane z = 0 with normal +z. *)
Definition origin_point : SurfacePoint :=
  mkSurfacePoint (mkVector3 0 0 0) (mkVector3 0 0 1)
    (mkFrame (mkVector3 1 0 0) (mkVector3 0 1 0) (mkVector3 0 0 1)).

(** Three edges and the tree over them, each leaf bounded by the box of its
    edge, each inner node by the union of the boxes of its children and
    weighted by the sum of their weights: edge 0 from (-1,-1,0) to (1,1,1),
    edge 1 from (-1,-1,-2) to (1,1,-1), which lies under the tangent plane
    of the shading point, and edge 2 from (-2,-2,0) to (2,2,2). *)
Definition edge_0_leaf : BVHNode3 :=
  Leaf (mkAABB3 (mkVector3 (-1) (-1) 0) (mkVector3 1 1 1)) 1 0.

Definition edge_1_leaf : BVHNode3 :=
  Leaf (mkAABB3 (mkVector3 (-1) (-1) (-2)) (mkVector3 1 1 (-1))) 1 1.

Definition edge_2_leaf : BVHNode3 :=
  Leaf (mkAABB3 (mkVector3 (-2) (-2) 0) (mkVector3 2 2 2)) 0.5 2.

Definition near_edges : BVHNode3 :=
  Inner (mkAABB3 (mkVector3 (-1) (-1) (-2)) (mkVector3 1 1 1)) 2 (-1)
        edge_0_leaf edge_1_leaf.

Definition three_edges : BVHNode3 :=
  Inner (mkAABB3 (mkVector3 (-2) (-2) (-2)) (mkVector3 2 2 2)) 2.5 (-1)
        near_edges edge_2_leaf.

Definition three_edge_roots : EdgeTreeRoots :=
  mkEdgeTreeRoots (Some three_edges) None.

(** The largest [Real] below 16/17, the share of [near_edges] in the
    importance of the two children of the root. *)
Definition sample_below_share : Real := 0x1.e1e1e1e1e1e1dp-1.

(** The open parts of the collaborators closed by placeholders that the
    descent over the three edges does not reach. *)
Definition bare_tree_world : TreeCollaborators :=
  midpoint_spheres (fun x => x) (fun y _ => y) (fun _ _ => true)
    (fun _ => (mkVector3 1 0 0, mkVector3 0 1 0)) 1 (fun _ => 1) (fun _ => 0%Z).

End Binary64.
(* ================================================================= *)
(** * Part II: properties *)
(* ================================================================= *)

Local Open Scope Z_scope.

Example quad_edges :
  shape_edges EdgeSort.sort 0 quad_mesh =
  [ mkEdge 0 0 1 0 (-1); mkEdge 0 0 2 0 (-1); mkEdge 0 1 2 0 1;
    mkEdge 0 1 3 1 (-1); mkEdge 0 2 3 1 (-1) ].
Proof. vm_compute. reflexivity. Qed.

(** ** Edge extraction and merging *)

Section EdgeOrderFacts.

Lemma edge_equal_iff (a b : Edge) :
  edge_equal_comparer a b = true <-> edge_key a = edge_key b.
Proof.
  unfold edge_equal_comparer, edge_key. rewrite andb_true_iff, !Z.eqb_eq.
  split; [intros [-> ->]; reflexivity | intros H; inversion H; auto].
Qed.

Lemma edge_equal_refl (a : Edge) : edge_equal_comparer a a = true.
Proof. apply edge_equal_iff. reflexivity. Qed.

Lemma edge_le_iff (a b : Edge) :
  edge_le a b <->
  edge_v0 a < edge_v0 b \/ (edge_v0 a = edge_v0 b /\ edge_v1 a <= edge_v1 b).
Proof.
  unfold edge_le, edge_less_comparer.
  destruct (edge_v0 b =? edge_v0 a) eqn:E.
  - apply Z.eqb_eq in E. rewrite Z.ltb_ge. lia.
  - apply Z.eqb_neq in E. rewrite Z.ltb_ge. lia.
Qed.

Lemma edge_le_trans (a b c : Edge) : edge_le a b -> edge_le b c -> edge_le a c.
Proof. rewrite !edge_le_iff. lia. Qed.

(** Two ordered edges with different keys cannot carry the key of a
    third one that lies beyond them. *)
Lemma edge_le_separates (k e x : Edge) :
  edge_le k e -> edge_equal_comparer k e = false -> edge_le e x ->
  edge_equal_comparer k x = false.
Proof.
  intros Hke Hne Hex. apply not_true_is_false. intros Heq.
  apply edge_equal_iff in Heq. unfold edge_key in Heq. inversion Heq.
  assert (Hn : edge_key k <> edge_key e).
  { intros H. apply edge_equal_iff in H. congruence. }
  apply Hn. unfold edge_key. apply edge_le_iff in Hke. apply edge_le_iff in Hex.
  f_equal; lia.
Qed.

End EdgeOrderFacts.

Section ListFacts.

Context {A : Type}.

Lemma Permutation_filter (f : A -> bool) (l l' : list A) :
  Permutation l l' -> Permutation (filter f l) (filter f l').
Proof.
  induction 1 as [| x l l' _ IH | x y l | l l' l'' _ IH1 _ IH2]; simpl.
  - constructor.
  - destruct (f x); [constructor |]; exact IH.
  - destruct (f x), (f y); try reflexivity. constructor.
  - etransitivity; eassumption.
Qed.

Lemma StronglySorted_filter (R : A -> A -> Prop) (f : A -> bool) (l : list A) :
  StronglySorted R l -> StronglySorted R (filter f l).
Proof.
  induction 1 as [| a l _ IH Hall]; simpl; [constructor |].
  destruct (f a); [| exact IH].
  constructor; [exact IH |].
  rewrite Forall_forall in *. intros x Hx. apply filter_In in Hx. apply Hall, Hx.
Qed.

Lemma filter_length_le (f : A -> bool) (l : list A) :
  (length (filter f l) <= length l)%nat.
Proof. induction l as [| a l IH]; simpl; [| destruct (f a); simpl]; lia. Qed.

Lemma filter_all_false (f : A -> bool) (l : list A) :
  (forall x, In x l -> f x = false) -> filter f l = [].
Proof.
  induction l as [| a l IH]; simpl; intros H; [reflexivity |].
  rewrite (H a (or_introl eq_refl)). apply IH. intros x Hx. apply H. now right.
Qed.

Lemma filter_all_true (f : A -> bool) (l : list A) :
  (forall x, In x l -> f x = true) -> filter f l = l.
Proof.
  induction l as [| a l IH]; simpl; intros H; [reflexivity |].
  rewrite (H a (or_introl eq_refl)). f_equal. apply IH. intros x Hx. apply H. now right.
Qed.

End ListFacts.

Section ReduceByKey.

(** On an ordered range the run that starts at [k] is made of all the
    occurrences of [k]'s key, and the remaining runs are those of the
    other edges. *)
Lemma reduce_run_sorted (l : list Edge) :
  forall k v, StronglySorted edge_le (k :: l) ->
  reduce_run k v l =
  (k, fold_left edge_merger (occurrences k l) v) :: reduce_by_key (other_edges k l).
Proof.
  induction l as [| e l IH]; intros k v Hs; [reflexivity |].
  apply StronglySorted_inv in Hs as [Hs Hk].
  pose proof (StronglySorted_inv Hs) as [Hl He].
  inversion Hk as [| ? ? Hke Hkl]; subst.
  unfold occurrences, other_edges. simpl.
  destruct (edge_equal_comparer k e) eqn:Heq; simpl.
  - apply IH. constructor; assumption.
  - assert (Hsep : forall x, In x l -> edge_equal_comparer k x = false).
    { intros x Hx. rewrite Forall_forall in He.
      eapply edge_le_separates; eauto. }
    rewrite (filter_all_false _ l Hsep).
    rewrite (filter_all_true (fun e0 => negb (edge_equal_comparer k e0)) l).
    + reflexivity.
    + intros x Hx. now rewrite (Hsep x Hx).
Qed.

Lemma reduce_by_key_sorted (k : Edge) (l : list Edge) :
  StronglySorted edge_le (k :: l) ->
  reduce_by_key (k :: l) =
  (k, fold_left edge_merger (occurrences k l) k) :: reduce_by_key (other_edges k l).
Proof. intros Hs. simpl. now apply reduce_run_sorted. Qed.

Lemma occurrences_others (m k : Edge) (l : list Edge) :
  edge_equal_comparer k m = false ->
  occurrences m (other_edges k l) = occurrences m l.
Proof.
  intros Hne. unfold occurrences, other_edges.
  induction l as [| e l IH]; simpl; [reflexivity |].
  destruct (edge_equal_comparer k e) eqn:Hke; simpl.
  - destruct (edge_equal_comparer m e) eqn:Hme; [| exact IH].
    exfalso. apply edge_equal_iff in Hke. apply edge_equal_iff in Hme.
    assert (H : edge_equal_comparer k m = true) by (apply edge_equal_iff; congruence).
    congruence.
  - destruct (edge_equal_comparer m e); [f_equal |]; exact IH.
Qed.

Lemma reduce_by_key_runs_bounded (n : nat) :
  forall l, (length l <= n)%nat -> StronglySorted edge_le l ->
  Forall (run_of l) (reduce_by_key l) /\
  NoDup (map (fun kv => edge_key (fst kv)) (reduce_by_key l)) /\
  (forall kv, In kv (reduce_by_key l) -> In (fst kv) l) /\
  (forall e, In e l -> exists kv, In kv (reduce_by_key l) /\
                                  edge_key (fst kv) = edge_key e).
Proof.
  induction n as [| n IH]; intros l Hlen Hs.
  - destruct l; [| simpl in Hlen; lia]. simpl.
    repeat split; [constructor | constructor | intros ? [] | intros ? []].
  - destruct l as [| k l]; [simpl; repeat split;
      [constructor | constructor | intros ? [] | intros ? []] |].
    rewrite (reduce_by_key_sorted k l Hs).
    pose proof (StronglySorted_inv Hs) as [Hl Hk].
    assert (Hlen' : (length (other_edges k l) <= n)%nat).
    { pose proof (filter_length_le (fun e => negb (edge_equal_comparer k e)) l).
      unfold other_edges. simpl in Hlen. lia. }
    destruct (IH (other_edges k l) Hlen' (StronglySorted_filter _ _ _ Hl))
      as (Hruns & Hnd & Hin & Hcov).
    assert (Hother : forall kv, In kv (reduce_by_key (other_edges k l)) ->
              edge_equal_comparer k (fst kv) = false).
    { intros kv Hkv. apply Hin in Hkv. apply filter_In in Hkv as [_ Hkv].
      now apply negb_true_iff in Hkv. }
    repeat split.
    + constructor.
      * exists k, (occurrences k l). simpl. unfold occurrences. simpl.
        rewrite edge_equal_refl. auto.
      * rewrite Forall_forall in *. intros kv Hkv.
        destruct (Hruns kv Hkv) as (g & gs & Hocc & Hg & Hval).
        exists g, gs. repeat split; auto.
        rewrite <- Hocc, (occurrences_others _ k l (Hother kv Hkv)).
        unfold occurrences. simpl.
        destruct (edge_equal_comparer (fst kv) k) eqn:E; [| reflexivity].
        exfalso. apply edge_equal_iff in E.
        assert (H : edge_equal_comparer k (fst kv) = true)
          by (apply edge_equal_iff; congruence).
        rewrite (Hother kv Hkv) in H. discriminate.
    + simpl. constructor; [| exact Hnd].
      intros Hk'. apply in_map_iff in Hk' as (kv & Hkey & Hkv).
      assert (H : edge_equal_comparer k (fst kv) = true)
        by (apply edge_equal_iff; congruence).
      rewrite (Hother kv Hkv) in H. discriminate.
    + intros kv [<- | Hkv]; [now left |].
      right. apply Hin in Hkv. apply filter_In in Hkv. tauto.
    + intros e [<- | He]; [eexists; split; [now left | reflexivity] |].
      destruct (edge_equal_comparer k e) eqn:Hke.
      * eexists; split; [now left |]. simpl. now apply edge_equal_iff.
      * destruct (Hcov e) as (kv & Hkv & Hkey).
        { apply filter_In. split; [exact He | now rewrite Hke]. }
        exists kv. split; [now right | exact Hkey].
Qed.

Lemma reduce_by_key_runs (l : list Edge) :
  StronglySorted edge_le l ->
  Forall (run_of l) (reduce_by_key l) /\
  NoDup (map (fun kv => edge_key (fst kv)) (reduce_by_key l)) /\
  (forall kv, In kv (reduce_by_key l) -> In (fst kv) l) /\
  (forall e, In e l -> exists kv, In kv (reduce_by_key l) /\
                                  edge_key (fst kv) = edge_key e).
Proof. apply (reduce_by_key_runs_bounded (length l)). lia. Qed.

(** The merger never touches the key. *)
Lemma fold_merger_key (gs : list Edge) :
  forall g, edge_key (fold_left edge_merger gs g) = edge_key g.
Proof. induction gs as [| e gs IH]; intros g; simpl; [reflexivity |]. now rewrite IH. Qed.

End ReduceByKey.

Section ExtractionFacts.

Lemma index_range_In (n i : Z) : In i (index_range n) <-> 0 <= i < n.
Proof.
  unfold index_range. rewrite in_map_iff. split.
  - intros (k & <- & Hk). apply in_seq in Hk. lia.
  - intros H. exists (Z.to_nat i). split; [lia |]. apply in_seq. lia.
Qed.

Lemma index_range_length (n : Z) : length (index_range n) = Z.to_nat n.
Proof. unfold index_range. now rewrite length_map, length_seq. Qed.

Lemma index_range_nth (n i : Z) :
  0 <= i < n -> nth (Z.to_nat i) (index_range n) 0 = i.
Proof.
  intros H. unfold index_range.
  change 0 with (Z.of_nat 0). rewrite map_nth, seq_nth; lia.
Qed.

(** The collector at slot [3 t + r]. *)
Lemma edge_collector_slot (shape_id : Z) (shape : Shape) (t r : Z) :
  0 <= t -> 0 <= r < 3 ->
  edge_collector shape_id shape (3 * t + r) =
  mkEdge shape_id
         (Z.min (fst (triangle_side (get_indices shape t) r))
                (snd (triangle_side (get_indices shape t) r)))
         (Z.max (fst (triangle_side (get_indices shape t) r))
                (snd (triangle_side (get_indices shape t) r)))
         t (-1).
Proof.
  intros Ht Hr. unfold edge_collector, triangle_side.
  assert (Hq : Z.quot (3 * t + r) 3 = t).
  { rewrite Z.quot_div_nonneg by lia.
    rewrite (Z.mul_comm 3 t), Z.div_add_l by lia. rewrite Z.div_small; lia. }
  assert (Hm : Z.rem (3 * t + r) 3 = r).
  { rewrite Z.rem_mod_nonneg by lia.
    rewrite (Z.mul_comm 3 t), Z.add_comm, Z.mod_add by lia. apply Z.mod_small; lia. }
  rewrite Hq, Hm.
  destruct (r =? 0); [reflexivity |]. destruct (r =? 1); reflexivity.
Qed.

Lemma collect_edges_In (shape_id : Z) (shape : Shape) (e : Edge) :
  In e (collect_edges shape_id shape) <->
  exists t r, 0 <= t < num_triangles shape /\ 0 <= r < 3 /\
              e = edge_collector shape_id shape (3 * t + r).
Proof.
  unfold collect_edges. rewrite in_map_iff. split.
  - intros (idx & <- & Hidx). apply index_range_In in Hidx.
    exists (idx / 3), (idx mod 3).
    pose proof (Z.mod_pos_bound idx 3 ltac:(lia)).
    pose proof (Z.div_mod idx 3 ltac:(lia)).
    assert (0 <= idx / 3) by (apply Z.div_pos; lia).
    assert (idx / 3 < num_triangles shape) by (apply Z.div_lt_upper_bound; lia).
    split; [lia |]. split; [lia |]. f_equal. lia.
  - intros (t & r & Ht & Hr & ->). eexists. split; [reflexivity |].
    apply index_range_In. lia.
Qed.

Lemma triangle_side_distinct (ind : Vector3i) (r : Z) :
  nondegenerate ind -> fst (triangle_side ind r) <> snd (triangle_side ind r).
Proof.
  intros (H01 & H12 & H20). unfold triangle_side.
  destruct (r =? 0); [exact H01 |]. destruct (r =? 1); simpl; assumption.
Qed.

(** A slot that holds its edge keeps it, and a scheduled slot receives its
    edge, whatever the order of the tasks. *)
Lemma collect_pass_keeps (shape_id : Z) (shape : Shape) (schedule : list Z) :
  forall edges j,
  edges j = edge_collector shape_id shape j ->
  collect_pass shape_id shape schedule edges j = edge_collector shape_id shape j.
Proof.
  induction schedule as [| idx schedule IH]; intros edges j Hj; [exact Hj |].
  unfold collect_pass in *. cbn [fold_left]. apply IH.
  unfold edge_collector_task, store. destruct (j =? idx) eqn:E; [| exact Hj].
  apply Z.eqb_eq in E. now subst.
Qed.

Lemma collect_pass_writes (shape_id : Z) (shape : Shape) (schedule : list Z) :
  forall edges j, In j schedule ->
  collect_pass shape_id shape schedule edges j = edge_collector shape_id shape j.
Proof.
  induction schedule as [| idx schedule IH]; intros edges j Hin; [contradiction |].
  destruct Hin as [-> | Hin].
  - unfold collect_pass. cbn [fold_left]. apply collect_pass_keeps.
    unfold edge_collector_task, store. now rewrite Z.eqb_refl.
  - unfold collect_pass in *. cbn [fold_left]. now apply IH.
Qed.

End ExtractionFacts.

Section MergedKeys.

Lemma reduce_by_key_keys_sorted_bounded (n : nat) :
  forall l, (length l <= n)%nat -> StronglySorted edge_le l ->
  StronglySorted edge_le (map fst (reduce_by_key l)).
Proof.
  induction n as [| n IH]; intros l Hlen Hs.
  - destruct l; [constructor | simpl in Hlen; lia].
  - destruct l as [| k l]; [constructor |].
    rewrite (reduce_by_key_sorted k l Hs). simpl.
    pose proof (StronglySorted_inv Hs) as [Hl Hk].
    set (rest := filter (fun e => negb (edge_equal_comparer k e)) l).
    assert (Hrest : StronglySorted edge_le rest)
      by (apply StronglySorted_filter; exact Hl).
    assert (Hlen' : (length rest <= n)%nat).
    { pose proof (filter_length_le (fun e => negb (edge_equal_comparer k e)) l).
      unfold rest. simpl in Hlen. lia. }
    constructor; [apply IH; assumption |].
    rewrite Forall_forall in *. intros e He.
    apply in_map_iff in He as (kv & <- & Hkv).
    destruct (reduce_by_key_runs rest Hrest) as (_ & _ & Hin & _).
    apply Hin in Hkv. apply filter_In in Hkv. apply Hk, Hkv.
Qed.

Lemma reduce_by_key_keys_sorted (l : list Edge) :
  StronglySorted edge_le l ->
  StronglySorted key_le (map (fun kv => edge_key (fst kv)) (reduce_by_key l)).
Proof.
  intros Hs.
  pose proof (reduce_by_key_keys_sorted_bounded (length l) l (le_n _) Hs) as H.
  rewrite <- (map_map fst edge_key).
  induction H as [| a m _ IH Ha]; simpl; constructor; [exact IH |].
  rewrite Forall_forall in *. intros k Hk.
  apply in_map_iff in Hk as (e & <- & He).
  apply Ha in He. apply edge_le_iff in He. exact He.
Qed.

(** An ordered list without repetition is determined by its members. *)
Lemma key_sorted_unique (l1 : list (Z * Z)) :
  forall l2,
  StronglySorted key_le l1 -> StronglySorted key_le l2 ->
  NoDup l1 -> NoDup l2 -> (forall k, In k l1 <-> In k l2) -> l1 = l2.
Proof.
  induction l1 as [| a l1 IH]; intros l2 Hs1 Hs2 Hn1 Hn2 Hmem.
  - destruct l2 as [| b l2]; [reflexivity |].
    exfalso. apply (proj2 (Hmem b)). now left.
  - destruct l2 as [| b l2]; [exfalso; apply (proj1 (Hmem a)); now left |].
    apply StronglySorted_inv in Hs1 as [Hs1 Ha].
    apply StronglySorted_inv in Hs2 as [Hs2 Hb].
    inversion Hn1 as [| ? ? Ha1 Hn1']; subst.
    inversion Hn2 as [| ? ? Hb2 Hn2']; subst.
    rewrite Forall_forall in Ha, Hb.
    assert (Hab : a = b).
    { destruct (proj1 (Hmem a) (or_introl eq_refl)) as [-> | Hin]; [reflexivity |].
      destruct (proj2 (Hmem b) (or_introl eq_refl)) as [-> | Hin']; [reflexivity |].
      apply Hb in Hin. apply Ha in Hin'. unfold key_le in *.
      destruct a, b; simpl in *. f_equal; lia. }
    subst b. f_equal. apply IH; try assumption.
    intros k. split; intros Hk.
    + destruct (proj1 (Hmem k) (or_intror Hk)) as [<- | H]; [contradiction | exact H].
    + destruct (proj2 (Hmem k) (or_intror Hk)) as [<- | H]; [contradiction | exact H].
Qed.

Lemma occurrences_key_ext (a b : Edge) (l : list Edge) :
  edge_key a = edge_key b -> occurrences a l = occurrences b l.
Proof.
  intros Hk. unfold occurrences. apply filter_ext. intros e.
  unfold edge_equal_comparer, edge_key in *. inversion Hk. reflexivity.
Qed.

(** Keys of the merged edges of an ordered range. *)
Lemma merged_keys (l : list Edge) :
  StronglySorted edge_le l ->
  map edge_key (map write_aliased (reduce_by_key l)) =
  map (fun kv => edge_key (fst kv)) (reduce_by_key l).
Proof.
  intros Hs. rewrite map_map. apply map_ext_in. intros kv Hkv.
  destruct (reduce_by_key_runs l Hs) as (Hruns & _).
  rewrite Forall_forall in Hruns.
  destruct (Hruns kv Hkv) as (g & gs & _ & Hg & Hval).
  unfold write_aliased. rewrite Hval, fold_merger_key. now rewrite Hg.
Qed.

Lemma mergesort_sorts_edges : sorts_edges EdgeSort.sort.
Proof.
  intros l. split; [apply EdgeSort.Permuted_sort |].
  assert (Htr : Transitive (fun a b => is_true (EdgeOrder.leb a b))).
  { intros a b c. unfold EdgeOrder.leb, is_true. rewrite !negb_true_iff.
    apply edge_le_trans. }
  pose proof (EdgeSort.StronglySorted_sort l Htr) as H.
  induction H as [| a m _ IH Ha]; constructor; [exact IH |].
  rewrite Forall_forall in *. intros e He. apply Ha in He.
  unfold EdgeOrder.leb, is_true in He. now apply negb_true_iff in He.
Qed.

End MergedKeys.

(** C4 (as amended).  For every shape and every comparison sort standing for
    [thrust::sort]: slot [3 t + r] of the collected range holds side [r] of
    triangle [t] with its two vertex indices in ascending order
    ([v0 <= v1], and [v0 < v1] when the three indices of the triangle
    differ), tagged with [f0 = t] and [f1 = -1], in whatever order the
    collector tasks run; the range is then ordered by [(v0, v1)]; after
    merging, every vertex pair of the shape is carried by exactly one edge,
    an edge whose pair occurs once is the collected edge itself (so
    [f1 = -1]), and an edge whose pair occurs exactly twice has [f0] and [f1]
    set to the triangle indices of the two occurrences.  The list of merged
    vertex pairs does not depend on how the sort orders equal keys. *)
Theorem edge_extraction_merge (sort : list Edge -> list Edge)
    (Hsort : sorts_edges sort) (shape_id : Z) (shape : Shape) :
  let collected := collect_edges shape_id shape in
  let merged := shape_edges sort shape_id shape in
  (forall t r, 0 <= t < num_triangles shape -> 0 <= r < 3 ->
     let side := triangle_side (get_indices shape t) r in
     let e := edge_collector shape_id shape (3 * t + r) in
     nth (Z.to_nat (3 * t + r)) collected (mkEdge 0 0 0 0 0) = e /\
     e = mkEdge shape_id (Z.min (fst side) (snd side))
                (Z.max (fst side) (snd side)) t (-1) /\
     edge_v0 e <= edge_v1 e /\
     (nondegenerate (get_indices shape t) -> edge_v0 e < edge_v1 e)) /\
  length collected = Z.to_nat (3 * num_triangles shape) /\
  (forall schedule edges,
     Permutation (index_range (3 * num_triangles shape)) schedule ->
     map (collect_pass shape_id shape schedule edges)
         (index_range (3 * num_triangles shape)) = collected) /\
  Permutation collected (sort collected) /\
  StronglySorted edge_le (sort collected) /\
  NoDup (map edge_key merged) /\
  (forall k, In k (map edge_key merged) <-> In k (map edge_key collected)) /\
  (forall m, In m merged ->
     (forall a, occurrences m collected = [a] -> m = a /\ edge_f1 m = -1) /\
     (forall a b, occurrences m collected = [a; b] ->
        m = edge_merger a b \/ m = edge_merger b a)) /\
  (forall sort', sorts_edges sort' ->
     map edge_key (shape_edges sort' shape_id shape) = map edge_key merged).
Proof.
  intros collected merged.
  assert (Hspec : forall s, sorts_edges s ->
            let out := reduce_by_key (s collected) in
            NoDup (map edge_key (map write_aliased out)) /\
            StronglySorted key_le (map edge_key (map write_aliased out)) /\
            (forall k, In k (map edge_key (map write_aliased out)) <->
                       In k (map edge_key collected))).
  { intros s Hs out. destruct (Hs collected) as [Hperm Hsorted].
    destruct (reduce_by_key_runs _ Hsorted) as (_ & Hnd & Hin & Hcov).
    unfold out. rewrite (merged_keys _ Hsorted).
    split; [exact Hnd |]. split; [now apply reduce_by_key_keys_sorted |].
    intros k. rewrite !in_map_iff. split.
    - intros (kv & <- & Hkv). exists (fst kv). split; [reflexivity |].
      eapply Permutation_in; [symmetry; exact Hperm | now apply Hin].
    - intros (e & <- & He).
      destruct (Hcov e) as (kv & Hkv & Hkey);
        [eapply Permutation_in; eassumption |].
      exists kv. split; assumption. }
  destruct (Hsort collected) as [Hperm Hsorted].
  destruct (Hspec sort Hsort) as (Hnd & Hks & Hmem).
  split; [| split; [| split; [| split; [| split; [| split; [| split; [| split]]]]]]].
  - intros t r Ht Hr side e.
    assert (He : e = mkEdge shape_id (Z.min (fst side) (snd side))
                            (Z.max (fst side) (snd side)) t (-1))
      by (apply edge_collector_slot; lia).
    split.
    { unfold collected, collect_edges.
      rewrite (nth_indep _ _ (edge_collector shape_id shape 0))
        by (rewrite length_map, index_range_length; lia).
      rewrite map_nth, index_range_nth by lia. reflexivity. }
    split; [exact He |]. rewrite He. simpl. split; [lia |].
    intros Hnd'. pose proof (triangle_side_distinct _ r Hnd'). fold side in H. lia.
  - unfold collected, collect_edges. now rewrite length_map, index_range_length.
  - intros schedule edges Hsched. unfold collected, collect_edges.
    apply map_ext_in. intros j Hj. apply collect_pass_writes.
    eapply Permutation_in; eassumption.
  - exact Hperm.
  - exact Hsorted.
  - exact Hnd.
  - exact Hmem.
  - intros m Hm. unfold merged, shape_edges in Hm.
    apply in_map_iff in Hm as (kv & <- & Hkv).
    destruct (reduce_by_key_runs _ Hsorted) as (Hruns & _).
    rewrite Forall_forall in Hruns.
    destruct (Hruns kv Hkv) as (g & gs & Hocc & Hg & Hval).
    fold collected in Hocc.
    assert (Hkey : edge_key (write_aliased kv) = edge_key g).
    { unfold write_aliased. now rewrite Hval, fold_merger_key. }
    assert (Hp : Permutation (occurrences (write_aliased kv) collected) (g :: gs)).
    { rewrite (occurrences_key_ext _ g _ Hkey), <- Hocc, Hg.
      apply Permutation_filter, Hperm. }
    unfold write_aliased in *. split.
    + intros a Ha. rewrite Ha in Hp. apply Permutation_length_1_inv in Hp.
      injection Hp as Hga Hgs. rewrite Hval, Hgs, Hga. simpl. split; [reflexivity |].
      assert (Hin : In a collected).
      { assert (H : In a (occurrences (snd kv) collected)) by (rewrite Ha; now left).
        apply filter_In in H. tauto. }
      apply collect_edges_In in Hin as (t & r & Ht & Hr & ->).
      rewrite edge_collector_slot by lia. reflexivity.
    + intros a b Hab. rewrite Hab in Hp.
      apply Permutation_length_2_inv in Hp as [Hp | Hp];
        injection Hp as Hga Hgs; rewrite Hval, Hgs, Hga; simpl; auto.
  - intros sort' Hsort'. destruct (Hspec sort' Hsort') as (Hnd' & Hks' & Hmem').
    apply key_sorted_unique; try assumption.
    intros k. unfold merged, shape_edges. fold collected.
    rewrite Hmem'. symmetry. apply Hmem.
Qed.

(** The theorem above applied to the quad and the library merge sort. *)
Lemma edge_extraction_merge_witness :
  sorts_edges EdgeSort.sort /\
  NoDup (map edge_key (shape_edges EdgeSort.sort 0 quad_mesh)).
Proof.
  split; [exact mergesort_sorts_edges |].
  apply (edge_extraction_merge EdgeSort.sort mergesort_sorts_edges 0 quad_mesh).
Defined.

(** C4 as it is written asks for [v0 < v1] on every emitted edge of every
    shape; a triangle that repeats a vertex index yields an edge with
    [v0 = v1]. *)
Lemma edge_collector_not_strict :
  ~ (forall shape_id shape idx, 0 <= idx < 3 * num_triangles shape ->
       edge_v0 (edge_collector shape_id shape idx) <
       edge_v1 (edge_collector shape_id shape idx)).
Proof.
  intros H. specialize (H 0 degenerate_mesh 0). simpl in H.
  assert (0 < 0) by (apply H; lia). lia.
Qed.

(** ** Edge weights and the distribution builder *)

Section DistributionFacts.

Local Open Scope R_scope.
Context `{Collaborators}.

Lemma thrust_reduce_init (l : list R) (init : R) :
  thrust_reduce l init = init + thrust_reduce l 0.
Proof.
  unfold thrust_reduce. revert init.
  induction l as [| w l IH]; intros init; simpl; [lra |].
  rewrite (IH (init + w)), (IH (0 + w)). lra.
Qed.

Lemma thrust_reduce_cons (w : R) (l : list R) :
  thrust_reduce (w :: l) 0 = w + thrust_reduce l 0.
Proof.
  change (thrust_reduce (w :: l) 0) with (thrust_reduce l (0 + w)).
  rewrite thrust_reduce_init. lra.
Qed.

Lemma thrust_reduce_nonneg (l : list R) :
  Forall (fun w => 0 <= w) l -> 0 <= thrust_reduce l 0.
Proof.
  induction 1 as [| w l Hw _ IH]; [unfold thrust_reduce; simpl; lra |].
  rewrite thrust_reduce_cons. lra.
Qed.

Lemma thrust_reduce_divides (l : list R) (c : R) :
  thrust_reduce (thrust_transform_divides l c) 0 = thrust_reduce l 0 / c.
Proof.
  induction l as [| w l IH]; [unfold thrust_reduce; simpl; lra |].
  unfold thrust_transform_divides in *. simpl map.
  rewrite !thrust_reduce_cons, IH. lra.
Qed.

Lemma thrust_exclusive_scan_length (l : list R) :
  forall init, length (thrust_exclusive_scan l init) = length l.
Proof. induction l as [| w l IH]; intros init; simpl; [| rewrite IH]; reflexivity. Qed.

(** Entry [i] of the scan is the initial value plus the sum of the [i]
    entries before it. *)
Lemma thrust_exclusive_scan_nth (l : list R) :
  forall init i, (i < length l)%nat ->
  nth i (thrust_exclusive_scan l init) 0 = init + thrust_reduce (firstn i l) 0.
Proof.
  induction l as [| w l IH]; intros init i Hi; simpl in Hi; [lia |].
  destruct i as [| i].
  - unfold thrust_reduce. simpl. lra.
  - change (nth (S i) (thrust_exclusive_scan (w :: l) init) 0)
      with (nth i (thrust_exclusive_scan l (init + w)) 0).
    change (firstn (S i) (w :: l)) with (w :: firstn i l).
    rewrite IH by lia. rewrite thrust_reduce_cons. lra.
Qed.

Lemma thrust_reduce_firstn_S (l : list R) :
  forall i, (i < length l)%nat ->
  thrust_reduce (firstn (S i) l) 0 = thrust_reduce (firstn i l) 0 + nth i l 0.
Proof.
  induction l as [| w l IH]; intros i Hi; simpl in Hi; [lia |].
  destruct i as [| i].
  - simpl. unfold thrust_reduce. simpl. lra.
  - change (firstn (S (S i)) (w :: l)) with (w :: firstn (S i) l).
    change (firstn (S i) (w :: l)) with (w :: firstn i l).
    rewrite !thrust_reduce_cons, IH by lia. simpl. lra.
Qed.

Lemma length2_nonneg (a : Vector2) : 0 <= length2 a.
Proof. apply sqrt_pos. Qed.

Lemma primary_edge_weighter_nonneg camera shapes edges idx :
  0 <= primary_edge_weighter camera shapes edges idx.
Proof.
  unfold primary_edge_weighter.
  destruct (project _ _ _) as [[v0p v1p] |]; [| lra].
  destruct (clip_line _ _) as [[v0c v1c] |]; [| lra].
  destruct (is_silhouette _ _ _); [apply length2_nonneg | lra].
Qed.

(** The builder on non-negative weights with a positive sum. *)
Lemma build_distribution_spec (weights : list R) :
  Forall (fun w => 0 <= w) weights ->
  0 < thrust_reduce weights 0 ->
  let pmf := fst (build_distribution weights) in
  let cdf := snd (build_distribution weights) in
  Forall (fun p => 0 <= p) pmf /\
  thrust_reduce pmf 0 = 1 /\
  length pmf = length weights /\
  length cdf = length pmf /\
  (forall i, (i < length pmf)%nat ->
     nth i cdf 0 = thrust_reduce (firstn i pmf) 0) /\
  (0 < length cdf)%nat /\
  nth 0 cdf 0 = 0 /\
  (forall i, (S i < length cdf)%nat -> nth i cdf 0 <= nth (S i) cdf 0).
Proof.
  intros Hw Htot. unfold build_distribution. simpl.
  set (total := thrust_reduce weights 0) in *.
  set (pmf := thrust_transform_divides weights total).
  assert (Hpmf : Forall (fun p => 0 <= p) pmf).
  { unfold pmf, thrust_transform_divides. apply Forall_map.
    eapply Forall_impl; [| exact Hw]. intros w H0. simpl.
    apply Rmult_le_pos; [exact H0 |]. left. now apply Rinv_0_lt_compat. }
  assert (Hlen : length pmf = length weights)
    by (unfold pmf, thrust_transform_divides; apply length_map).
  assert (Hne : (0 < length weights)%nat).
  { destruct weights; [unfold total, thrust_reduce in Htot; simpl in Htot; lra |].
    simpl. lia. }
  assert (Hnth : forall i, (i < length pmf)%nat ->
            nth i (thrust_exclusive_scan pmf 0) 0 = thrust_reduce (firstn i pmf) 0).
  { intros i Hi. rewrite thrust_exclusive_scan_nth by exact Hi. lra. }
  repeat split.
  - exact Hpmf.
  - unfold pmf. rewrite thrust_reduce_divides. fold total. field. lra.
  - exact Hlen.
  - apply thrust_exclusive_scan_length.
  - exact Hnth.
  - rewrite thrust_exclusive_scan_length. lia.
  - rewrite Hnth by lia. reflexivity.
  - intros i Hi. rewrite thrust_exclusive_scan_length in Hi.
    rewrite !Hnth by lia. rewrite thrust_reduce_firstn_S by lia.
    assert (0 <= nth i pmf 0).
    { rewrite Forall_forall in Hpmf. apply Hpmf, nth_In. lia. }
    lra.
Qed.

End DistributionFacts.

(** C5.  Whenever the sum of the primary edge weights is strictly positive,
    the distribution built by the constructor has a pmf that is
    non-negative and sums to 1 (in exact arithmetic), with one entry per
    edge, and a cdf that is the exclusive prefix sum of the pmf; hence
    [cdf[0] = 0] and [cdf[i] <= cdf[i+1]] for every [i]. *)
Theorem primary_distribution_normalized `{Collaborators}
    (sort : list Edge -> list Edge) (shapes : list Shape) (camera : Camera) :
  (0 < thrust_reduce (primary_edge_weights sort shapes camera) 0)%R ->
  let sampler := EdgeSampler_new sort shapes camera in
  let pmf := primary_edges_pmf sampler in
  let cdf := primary_edges_cdf sampler in
  Forall (fun p => (0 <= p)%R) pmf /\
  thrust_reduce pmf 0 = 1%R /\
  length pmf = length (edges sampler) /\
  length cdf = length pmf /\
  (forall i, (i < length pmf)%nat ->
     nth i cdf 0%R = thrust_reduce (firstn i pmf) 0) /\
  nth 0 cdf 0%R = 0%R /\
  (forall i, (S i < length cdf)%nat -> (nth i cdf 0 <= nth (S i) cdf 0)%R).
Proof.
  intros Htot sampler pmf cdf.
  assert (Hw : Forall (fun w => (0 <= w)%R) (primary_edge_weights sort shapes camera)).
  { unfold primary_edge_weights. apply Forall_map, Forall_forall.
    intros idx _. apply primary_edge_weighter_nonneg. }
  destruct (build_distribution_spec _ Hw Htot)
    as (Hpos & Hsum & Hlen & Hlen' & Hnth & _ & H0 & Hmono).
  unfold pmf, cdf, sampler, EdgeSampler_new. simpl.
  repeat split; try assumption.
  simpl in Hlen. rewrite Hlen. unfold primary_edge_weights.
  rewrite length_map, index_range_length. lia.
Qed.

Lemma flat_world_quad_edges :
  EdgeSampler_edges EdgeSort.sort [quad_mesh] =
  [ mkEdge 0 0 1 0 (-1); mkEdge 0 0 2 0 (-1); mkEdge 0 1 2 0 1;
    mkEdge 0 1 3 1 (-1); mkEdge 0 2 3 1 (-1) ].
Proof. vm_compute. reflexivity. Qed.

Lemma flat_world_total_positive :
  (0 < thrust_reduce (primary_edge_weights EdgeSort.sort [quad_mesh] tt) 0)%R.
Proof.
  unfold primary_edge_weights. rewrite flat_world_quad_edges.
  simpl length. change (index_range (Z.of_nat 5)) with [0; 1; 2; 3; 4].
  cbn [map]. rewrite thrust_reduce_cons.
  match goal with |- (0 < ?w + thrust_reduce ?l 0)%R =>
    assert (Hrest : (0 <= thrust_reduce l 0)%R);
    [ apply thrust_reduce_nonneg;
      repeat (constructor; [apply primary_edge_weighter_nonneg |]); constructor
    | assert (Hw : w = 1%R) ]
  end.
  - unfold primary_edge_weighter, distance2, length2, sub2. simpl.
    replace ((0 - 1) * (0 - 1) + (0 - 0) * (0 - 0))%R with 1%R by lra.
    apply sqrt_1.
  - rewrite Hw. lra.
Qed.

(** The theorem above on the quad seen by the orthographic camera. *)
Lemma primary_distribution_normalized_witness :
  (0 < thrust_reduce (primary_edge_weights EdgeSort.sort [quad_mesh] tt) 0)%R /\
  thrust_reduce
    (primary_edges_pmf (EdgeSampler_new EdgeSort.sort [quad_mesh] tt)) 0 = 1%R.
Proof.
  split; [exact flat_world_total_positive |].
  apply (@primary_distribution_normalized flat_world EdgeSort.sort [quad_mesh] tt
           flat_world_total_positive).
Defined.

(** C7 (as amended).  The weight left by the secondary edge weighter is
    the length of the edge times its exterior dihedral angle; an edge whose
    exterior dihedral angle is 0 (coplanar faces) gets weight 0. *)
Theorem secondary_edge_weight_formula `{Collaborators}
    (shapes : Buffer Shape) (edges : Buffer Edge) (idx : Z) :
  let edge := edges idx in
  let len := distance (get_v0 shapes edge) (get_v1 shapes edge) in
  let exterior := compute_exterior_dihedral_angle shapes edge in
  secondary_edge_weighter shapes edges idx = (len * exterior)%R /\
  (exterior = 0%R -> secondary_edge_weighter shapes edges idx = 0%R) /\
  (secondary_edge_weighter shapes edges idx = (len * (PI - exterior))%R <->
   len = 0%R \/ exterior = (PI / 2)%R).
Proof.
  intros edge len exterior. unfold secondary_edge_weighter.
  fold edge. fold len. fold exterior.
  split; [reflexivity |]. split; [intros ->; lra |].
  split.
  - intros Heq. destruct (Req_dec len 0) as [H0 | H0]; [now left |].
    right. assert (Hm : (len * (exterior - (PI - exterior)) = 0)%R) by lra.
    apply Rmult_integral in Hm. destruct Hm; [contradiction | lra].
  - intros [-> | ->]; lra.
Qed.

(** C7 as it is written: weight = length * (pi - exterior dihedral angle).
    On the shared edge of the flat quad the exterior dihedral angle is 0 and
    the code yields weight 0, not [sqrt 2 * pi]. *)
Lemma secondary_edge_weight_not_pi_minus :
  ~ (forall (W : Collaborators) (shapes : Buffer Shape) (edges : Buffer Edge)
            (idx : Z),
       secondary_edge_weighter shapes edges idx =
       (distance (get_v0 shapes (edges idx)) (get_v1 shapes (edges idx)) *
        (PI - compute_exterior_dihedral_angle shapes (edges idx)))%R).
Proof.
  intros Hclaim.
  specialize (Hclaim flat_world (fun _ => quad_mesh)
                (fun _ => mkEdge 0 1 2 0 1) 0).
  unfold secondary_edge_weighter in Hclaim. simpl in Hclaim.
  assert (Hlen : (0 < distance (get_v0 (fun _ => quad_mesh) (mkEdge 0 1 2 0 1))
                               (get_v1 (fun _ => quad_mesh) (mkEdge 0 1 2 0 1)))%R).
  { unfold distance, length3, length_squared, dot3, sub3, get_v0, get_v1. simpl.
    apply sqrt_lt_R0. lra. }
  pose proof PI_RGT_0. nra.
Qed.

(** ** Primary edge sampler *)

Section PrimarySamplerFacts.

Context `{Collaborators}.

Lemma store_same {A : Type} (b : Buffer A) (i : Z) (v : A) : store b i v i = v.
Proof. unfold store. now rewrite Z.eqb_refl. Qed.

Lemma store_other {A : Type} (b : Buffer A) (i j : Z) (v : A) :
  j <> i -> store b i v j = b j.
Proof. intros Hne. unfold store. apply Z.eqb_neq in Hne. now rewrite Hne. Qed.

(** The channel loop with zero values: it touches no other buffer, leaves
    zeros where it finds them, and zeroes the two slots of every channel
    it visits. *)
Lemma write_zero_multipliers (nd idx : Z) (ds : list Z) :
  forall o,
  let o' := fold_left (write_channel nd idx (fun _ => 0%R) (fun _ => 0%R)) ds o in
  edge_records o' = edge_records o /\
  rays o' = rays o /\
  primary_ray_differentials o' = primary_ray_differentials o /\
  throughputs o' = throughputs o /\
  (forall j, channel_multipliers o j = 0%R -> channel_multipliers o' j = 0%R) /\
  (forall d, In d ds ->
     channel_multipliers o' (2 * nd * idx + d) = 0%R /\
     channel_multipliers o' (2 * nd * idx + d + nd) = 0%R).
Proof.
  induction ds as [| d ds IH]; intros o.
  - cbn. repeat split; auto; contradiction.
  - cbv zeta. cbn [fold_left].
    pose proof (IH (write_channel nd idx (fun _ => 0%R) (fun _ => 0%R) o d))
      as (Her & Hr & Hd & Ht & Hz & Hw).
    set (o1 := write_channel nd idx (fun _ => 0%R) (fun _ => 0%R) o d) in *.
    assert (Hz1 : forall j, channel_multipliers o j = 0%R ->
                             channel_multipliers o1 j = 0%R).
    { intros j Hj. unfold o1, write_channel, set_channel_multiplier, store.
      cbn [channel_multipliers].
      destruct (j =? 2 * nd * idx + d + nd); [reflexivity |].
      destruct (j =? 2 * nd * idx + d); [reflexivity | exact Hj]. }
    split; [rewrite Her; reflexivity |]. split; [rewrite Hr; reflexivity |].
    split; [rewrite Hd; reflexivity |]. split; [rewrite Ht; reflexivity |].
    split; [intros j Hj; apply Hz, Hz1, Hj |].
    intros d' [<- | Hin]; [| now apply Hw].
    split; apply Hz; unfold o1, write_channel, set_channel_multiplier, store;
      cbn [channel_multipliers].
    * destruct (_ =? _); [reflexivity |]. now rewrite Z.eqb_refl.
    * now rewrite Z.eqb_refl.
Qed.

(** What "Initialize output" leaves behind. *)
Lemma primary_initialize_spec (channel_info : ChannelInfo) (idx : Z)
    (o : PrimaryOutputs) :
  let nd := num_total_dimensions channel_info in
  let o' := primary_initialize channel_info idx o in
  edge_records o' idx = PrimaryEdgeRecord_init /\
  rays o' (2 * idx + 0) = make_ray zero3 zero3 /\
  rays o' (2 * idx + 1) = make_ray zero3 zero3 /\
  throughputs o' (2 * idx + 0) = zero3 /\
  throughputs o' (2 * idx + 1) = zero3 /\
  (forall d, 0 <= d < 2 * nd ->
     channel_multipliers o' (2 * nd * idx + d) = 0%R) /\
  primary_ray_differentials o' = primary_ray_differentials o.
Proof.
  intros nd o'. unfold o', primary_initialize, write_channel_multipliers.
  fold nd.
  set (o1 := set_throughput
               (set_throughput (set_edge_record o idx PrimaryEdgeRecord_init)
                  (2 * idx + 0) zero3) (2 * idx + 1) zero3).
  destruct (write_zero_multipliers nd idx (index_range nd) o1)
    as (Her & Hr & Hd & Ht & _ & Hw).
  cbv zeta in Her, Hr, Hd, Ht, Hw.
  unfold set_ray.
  cbn [edge_records rays primary_ray_differentials throughputs channel_multipliers].
  rewrite Her, Hd, Ht. unfold o1, set_throughput, set_edge_record.
  cbn [edge_records rays primary_ray_differentials throughputs channel_multipliers].
  repeat split.
  - apply store_same.
  - rewrite store_other by lia. apply store_same.
  - apply store_same.
  - rewrite store_other by lia. apply store_same.
  - apply store_same.
  - intros d Hd'. destruct (Z_lt_ge_dec d nd) as [Hlt | Hge].
    + apply (Hw d). apply index_range_In. lia.
    + replace (2 * nd * idx + d) with (2 * nd * idx + (d - nd) + nd) by lia.
      apply (Hw (d - nd)). apply index_range_In. lia.
Qed.

End PrimarySamplerFacts.

(** A failing sample returns right after "Initialize output". *)
Lemma primary_sampler_failure_initial `{Collaborators}
    (camera : Camera) (shapes : Buffer Shape) (edges : Buffer Edge)
    (num_edges : Z) (edges_pmf edges_cdf : Buffer R)
    (samples : Buffer PrimaryEdgeSample) (d_rendered_image : Buffer R)
    (channel_info : ChannelInfo) (idx : Z) (o : PrimaryOutputs) :
  primary_sample_fails camera shapes edges num_edges edges_pmf edges_cdf samples idx ->
  primary_edge_sampler camera shapes edges num_edges edges_pmf edges_cdf
    samples d_rendered_image channel_info idx o =
  primary_initialize channel_info idx o.
Proof.
  intros Hfail. unfold primary_edge_sampler. unfold primary_sample_fails in Hfail.
  cbv zeta in *.
  destruct (project camera _ _) as [[v0_ss v1_ss] |]; [| reflexivity].
  unfold Rleb. destruct (Rle_dec _ 0) as [Hle | Hgt]; [reflexivity |].
  destruct Hfail as [Hpmf | Hscreen]; [contradiction |].
  destruct (camera_fisheye camera); simpl in *; now rewrite Hscreen.
Qed.

(** C6 (as amended).  When sample [idx] fails (the projection of the
    selected edge fails, the pmf of the edge is not positive, or the sampled
    point is outside of the screen), its edge record is the initial record,
    both rays are the zero ray, both throughputs are zero and all its channel
    multipliers are zero; the primary ray differentials are not written: the
    buffer is what it was before the call. *)
Theorem primary_sampler_failure_outputs `{Collaborators}
    (camera : Camera) (shapes : Buffer Shape) (edges : Buffer Edge)
    (num_edges : Z) (edges_pmf edges_cdf : Buffer R)
    (samples : Buffer PrimaryEdgeSample) (d_rendered_image : Buffer R)
    (channel_info : ChannelInfo) (idx : Z) (o : PrimaryOutputs) :
  primary_sample_fails camera shapes edges num_edges edges_pmf edges_cdf samples idx ->
  let nd := num_total_dimensions channel_info in
  let o' := primary_edge_sampler camera shapes edges num_edges edges_pmf edges_cdf
              samples d_rendered_image channel_info idx o in
  edge_records o' idx = PrimaryEdgeRecord_init /\
  rays o' (2 * idx + 0) = make_ray zero3 zero3 /\
  rays o' (2 * idx + 1) = make_ray zero3 zero3 /\
  throughputs o' (2 * idx + 0) = zero3 /\
  throughputs o' (2 * idx + 1) = zero3 /\
  (forall d, 0 <= d < 2 * nd -> channel_multipliers o' (2 * nd * idx + d) = 0%R) /\
  primary_ray_differentials o' = primary_ray_differentials o.
Proof.
  intros Hfail nd o'. unfold o'.
  rewrite primary_sampler_failure_initial by exact Hfail.
  apply primary_initialize_spec.
Qed.

(** The theorem above for a sample whose edge has pmf 0. *)
Lemma primary_sampler_failure_outputs_witness :
  let o' := @primary_edge_sampler flat_world tt (fun _ => quad_mesh)
              (fun _ => mkEdge 0 0 1 0 (-1)) 1 (fun _ => 0%R) (fun _ => 0%R)
              (fun _ => mkPrimaryEdgeSample 0 0) (fun _ => 1%R)
              (mkChannelInfo 3 0) 0 stale_outputs in
  throughputs o' 0 = zero3 /\ throughputs o' 1 = zero3.
Proof.
  assert (Hfail : @primary_sample_fails flat_world tt (fun _ => quad_mesh)
            (fun _ => mkEdge 0 0 1 0 (-1)) 1 (fun _ => 0%R) (fun _ => 0%R)
            (fun _ => mkPrimaryEdgeSample 0 0) 0).
  { unfold primary_sample_fails. simpl. left. apply Rle_refl. }
  pose proof (@primary_sampler_failure_outputs flat_world tt (fun _ => quad_mesh)
                (fun _ => mkEdge 0 0 1 0 (-1)) 1 (fun _ => 0%R) (fun _ => 0%R)
                (fun _ => mkPrimaryEdgeSample 0 0) (fun _ => 1%R)
                (mkChannelInfo 3 0) 0 stale_outputs Hfail) as Hout.
  cbv zeta in Hout. cbv zeta. tauto.
Defined.

(** C6 as it is written also asks for a zero ray differential after a
    failure.  With a buffer that holds the differential of an earlier pass,
    a failing sample leaves that differential in place. *)
Lemma primary_failure_keeps_ray_differential :
  ~ (forall (W : Collaborators) camera shapes edges num_edges edges_pmf edges_cdf
            samples d_rendered_image channel_info idx (o : PrimaryOutputs),
       primary_sample_fails camera shapes edges num_edges edges_pmf edges_cdf
         samples idx ->
       primary_ray_differentials
         (primary_edge_sampler camera shapes edges num_edges edges_pmf edges_cdf
            samples d_rendered_image channel_info idx o) idx =
       mkRayDifferential zero3 zero3 zero3 zero3).
Proof.
  intros Hclaim.
  specialize (Hclaim flat_world tt (fun _ => quad_mesh)
                (fun _ => mkEdge 0 0 1 0 (-1)) 1 (fun _ => 0%R) (fun _ => 0%R)
                (fun _ => mkPrimaryEdgeSample 0 0) (fun _ => 1%R)
                (mkChannelInfo 3 0) 0 stale_outputs).
  assert (Hfail : @primary_sample_fails flat_world tt (fun _ => quad_mesh)
            (fun _ => mkEdge 0 0 1 0 (-1)) 1 (fun _ => 0%R) (fun _ => 0%R)
            (fun _ => mkPrimaryEdgeSample 0 0) 0).
  { unfold primary_sample_fails. simpl. left. apply Rle_refl. }
  specialize (Hclaim Hfail).
  rewrite (@primary_sampler_failure_initial flat_world) in Hclaim by exact Hfail.
  destruct (@primary_initialize_spec flat_world (mkChannelInfo 3 0) 0 stale_outputs)
    as (_ & _ & _ & _ & _ & _ & Hkeep).
  cbv zeta in Hkeep. rewrite Hkeep in Hclaim. simpl in Hclaim.
  assert (H1 : vx (org_dx (mkRayDifferential (mkVector3 1 1 1) (mkVector3 1 1 1)
                             (mkVector3 1 1 1) (mkVector3 1 1 1))) = 0%R)
    by (rewrite Hclaim; reflexivity).
  simpl in H1. lra.
Qed.

(** ** Post-intersection weight updates *)

(** C9.  [update_primary_edge_weights] passes contributions through
    unchanged: whatever the records, intersections and channel layout, the
    throughputs and the channel multipliers after the call are the buffers
    that were passed in. *)
Theorem update_primary_edge_weights_identity
    (use_gpu : bool) (edge_records : Buffer PrimaryEdgeRecord) (num_records : Z)
    (edge_isects : Buffer Intersection) (channel_info : ChannelInfo)
    (throughputs : Buffer Vector3) (channel_multipliers : Buffer R) :
  update_primary_edge_weights use_gpu edge_records num_records edge_isects
    channel_info (throughputs, channel_multipliers) =
  (throughputs, channel_multipliers).
Proof. reflexivity. Qed.

(** The pass that is switched off is not the identity: a sample whose two
    probe rays both missed the faces of its edge would lose its
    throughput. *)
Lemma primary_edge_weights_updater_zeroes :
  fst (primary_edge_weights_updater
         (fun _ => mkPrimaryEdgeRecord (mkEdge 0 0 1 0 (-1)) (mkVector2 0 0))
         (fun _ => mkIntersection 0 7) (mkChannelInfo 3 0) 0
         (fun _ => mkVector3 1 1 1, fun _ => 1%R)) 0 = zero3.
Proof. reflexivity. Qed.

Section SecondaryUpdateFacts.

Context `{Collaborators}.

(** A probe ray that hit nothing, in a scene without environment map,
    leaves the throughput it is given. *)
Lemma update_throughput_miss (scene : FlattenScene) (edge_isect : Intersection)
    (edge_surface_point shading_point : SurfacePoint)
    (edge_record : SecondaryEdgeRecord) (edge_throughput : Vector3) :
  valid edge_isect = false -> scene_envmap scene = None ->
  update_throughput scene edge_isect edge_surface_point shading_point
    edge_record edge_throughput = edge_throughput.
Proof. intros Hv He. unfold update_throughput. now rewrite Hv, He. Qed.

(** One task writes the two slots of its own sample only. *)
Lemma secondary_edge_weights_updater_frame scene active_pixels shading_points
    edge_isects edge_surface_points edge_records idx edge_throughputs slot :
  slot <> 2 * idx + 0 -> slot <> 2 * idx + 1 ->
  secondary_edge_weights_updater scene active_pixels shading_points edge_isects
    edge_surface_points edge_records idx edge_throughputs slot =
  edge_throughputs slot.
Proof.
  intros H0 H1. unfold secondary_edge_weights_updater.
  destruct (_ <? 0); [reflexivity |]. now rewrite !store_other.
Qed.

Lemma secondary_edge_weights_updater_miss scene active_pixels shading_points
    edge_isects edge_surface_points edge_records idx edge_throughputs slot :
  valid (edge_isects slot) = false -> scene_envmap scene = None ->
  secondary_edge_weights_updater scene active_pixels shading_points edge_isects
    edge_surface_points edge_records idx edge_throughputs slot =
  edge_throughputs slot.
Proof.
  intros Hv He.
  destruct (Z.eq_dec slot (2 * idx + 1)) as [-> | H1].
  - unfold secondary_edge_weights_updater.
    destruct (_ <? 0); [reflexivity |]. rewrite store_same.
    rewrite update_throughput_miss by assumption.
    apply store_other. lia.
  - destruct (Z.eq_dec slot (2 * idx + 0)) as [-> | H0].
    + unfold secondary_edge_weights_updater.
      destruct (_ <? 0); [reflexivity |]. rewrite store_other by lia.
      rewrite store_same. now apply update_throughput_miss.
    + now apply secondary_edge_weights_updater_frame.
Qed.

End SecondaryUpdateFacts.

(** C10.  In [update_secondary_edge_weights], a throughput slot whose probe
    ray hit no surface, in a scene without environment map, holds after the
    pass exactly what it held before: it is neither zeroed nor rescaled.
    Hence a slot whose content changed belongs to a ray that hit a surface,
    or the scene has an environment map. *)
Theorem update_secondary_edge_weights_miss `{Collaborators}
    (scene : FlattenScene) (active_pixels : Buffer Z) (num_active_pixels : Z)
    (shading_points : Buffer SurfacePoint) (edge_isects : Buffer Intersection)
    (edge_surface_points : Buffer SurfacePoint)
    (edge_records : Buffer SecondaryEdgeRecord)
    (edge_throughputs : Buffer Vector3) (slot : Z) :
  valid (edge_isects slot) = false ->
  scene_envmap scene = None ->
  update_secondary_edge_weights scene active_pixels num_active_pixels
    shading_points edge_isects edge_surface_points edge_records
    edge_throughputs slot = edge_throughputs slot.
Proof.
  intros Hv He. unfold update_secondary_edge_weights, parallel_for.
  generalize (index_range num_active_pixels) as tasks.
  intros tasks. revert edge_throughputs.
  induction tasks as [| idx tasks IH]; intros edge_throughputs; [reflexivity |].
  cbn [fold_left]. rewrite IH.
  now apply secondary_edge_weights_updater_miss.
Qed.

(** The theorem above on a scene without environment map where every probe
    ray missed. *)
Lemma update_secondary_edge_weights_miss_witness :
  valid missed = false /\
  @update_secondary_edge_weights flat_world dark_scene (fun i => i) 4
    (fun _ => mkSurfacePoint zero3 zero3 (mkFrame zero3 zero3 zero3))
    (fun _ => missed)
    (fun _ => mkSurfacePoint zero3 zero3 (mkFrame zero3 zero3 zero3))
    (fun _ => mkSecondaryEdgeRecord (mkEdge 0 0 1 0 (-1)) zero3 zero3)
    (fun _ => mkVector3 1 1 1) 3 = mkVector3 1 1 1.
Proof.
  split; [reflexivity |].
  apply (@update_secondary_edge_weights_miss flat_world dark_scene (fun i => i) 4
           (fun _ => mkSurfacePoint zero3 zero3 (mkFrame zero3 zero3 zero3))
           (fun _ => missed)
           (fun _ => mkSurfacePoint zero3 zero3 (mkFrame zero3 zero3 zero3))
           (fun _ => mkSecondaryEdgeRecord (mkEdge 0 0 1 0 (-1)) zero3 zero3)
           (fun _ => mkVector3 1 1 1) 3); reflexivity.
Defined.

(** ** Edge tree: importance *)

Section ComparisonFacts.

Local Open Scope R_scope.

Lemma Rltb_true (a b : R) : Rltb a b = true <-> a < b.
Proof. unfold Rltb. destruct (Rlt_dec a b); split; intros; try easy. Qed.

Lemma Rltb_false (a b : R) : Rltb a b = false <-> b <= a.
Proof.
  unfold Rltb. destruct (Rlt_dec a b); split; intros; try easy; lra.
Qed.

Lemma Rleb_true (a b : R) : Rleb a b = true <-> a <= b.
Proof. unfold Rleb. destruct (Rle_dec a b); split; intros; try easy. Qed.

Lemma Rleb_false (a b : R) : Rleb a b = false <-> b < a.
Proof.
  unfold Rleb. destruct (Rle_dec a b); split; intros; try easy; lra.
Qed.

Lemma Rdiv_nonneg (a b : R) : 0 <= a -> 0 <= b -> 0 <= a / b.
Proof.
  intros Ha Hb. unfold Rdiv. apply Rmult_le_pos; [exact Ha |].
  destruct Hb as [Hb | <-]; [left; now apply Rinv_0_lt_compat |].
  rewrite Rinv_0. lra.
Qed.

End ComparisonFacts.

Section ImportanceFacts.

Local Open Scope R_scope.
Context `{TreeCollaborators}.

Lemma is_bound_below_surface_iff (bounds : AABB3) (p : SurfacePoint) :
  is_bound_below_surface bounds p = true <-> corners_below bounds p.
Proof.
  unfold is_bound_below_surface, corners_below. rewrite forallb_forall.
  split; intros Hall i Hi.
  - apply index_range_In in Hi. apply Hall in Hi.
    apply negb_true_iff, Rltb_false in Hi. exact Hi.
  - apply index_range_In in Hi. apply negb_true_iff, Rltb_false. now apply Hall.
Qed.





End ImportanceFacts.




(** ** Edge tree: descent *)

Section ShareFacts.

Local Open Scope R_scope.

Lemma div_lt_1 (a b : R) : 0 < b -> a < b -> a / b < 1.
Proof.
  intros Hb Hab. unfold Rdiv. apply (Rmult_lt_reg_r b); [exact Hb |].
  rewrite Rmult_assoc, Rinv_l by lra. lra.
Qed.

(** The branch towards the first child: its importance is positive, so is
    its share, and the rescaled sample is again in [[0, 1)]. *)
Lemma share_first (imp0 imp1 sample : R) :
  0 <= imp0 -> 0 <= imp1 -> 0 < imp0 + imp1 -> 0 <= sample ->
  sample < imp0 / (imp0 + imp1) ->
  0 < imp0 / (imp0 + imp1) /\
  0 <= sample * (imp0 + imp1) / imp0 < 1.
Proof.
  intros H0 H1 Hs Hlo Hlt. set (s := imp0 + imp1) in *.
  assert (Hq : imp0 = imp0 / s * s) by (field; lra).
  assert (Hq0 : 0 < imp0 / s) by lra.
  assert (Hi0 : 0 < imp0 / s * s) by (now apply Rmult_lt_0_compat).
  rewrite <- Hq in Hi0.
  assert (Hlt' : sample * s < imp0 / s * s) by (apply Rmult_lt_compat_r; lra).
  rewrite <- Hq in Hlt'.
  split; [exact Hq0 |]. split.
  - apply Rdiv_nonneg; [| lra]. apply Rmult_le_pos; lra.
  - now apply div_lt_1.
Qed.

(** The branch towards the second child. *)
Lemma share_second (imp0 imp1 sample : R) :
  0 <= imp0 -> 0 <= imp1 -> 0 < imp0 + imp1 -> sample < 1 ->
  ~ sample < imp0 / (imp0 + imp1) ->
  0 < 1 - imp0 / (imp0 + imp1) /\
  0 <= (sample * (imp0 + imp1) - imp0) / imp1 < 1.
Proof.
  intros H0 H1 Hs Hhi Hge. set (s := imp0 + imp1) in *.
  assert (Hq : imp0 = imp0 / s * s) by (field; lra).
  assert (Hq1 : imp0 / s <= sample) by lra.
  assert (Hle : imp0 / s * s <= sample * s) by (apply Rmult_le_compat_r; lra).
  rewrite <- Hq in Hle.
  assert (Hlt : sample * s < s).
  { rewrite <- (Rmult_1_l s) at 2. apply Rmult_lt_compat_r; lra. }
  assert (Hi1 : 0 < imp1) by (unfold s in *; lra).
  split; [lra |]. split.
  - apply Rdiv_nonneg; lra.
  - apply div_lt_1; [exact Hi1 |]. unfold s in *. lra.
Qed.

End ShareFacts.

Section ImportanceSign.

Local Open Scope R_scope.
Context `{TreeCollaborators}.
Hypothesis tabSphere_nonneg : forall i, 0 <= tabSphere i.

Lemma get_sphere_tab_nonneg (cos_theta form_factor : R) :
  0 <= get_sphere_tab cos_theta form_factor.
Proof. unfold get_sphere_tab. apply tabSphere_nonneg. Qed.

(** The sphere integral is 0 or a table entry times a form factor, itself
    a quotient of square roots. *)
Lemma ltc_sphere_integral_nonneg (b_sphere : Sphere) (p : SurfacePoint)
    (m_inv : Matrix3x3) :
  0 <= ltc_sphere_integral b_sphere p m_inv.
Proof.
  unfold ltc_sphere_integral.
  destruct (coordinate_system _) as [V1 V2]. cbv zeta.
  destruct (Rleb _ 0); [lra |].
  destruct (Rltb 1e-4 _); [destruct (Rltb _ _) |];
    (apply Rmult_le_pos; [apply get_sphere_tab_nonneg |];
     apply Rdiv_nonneg; [apply Rmult_le_pos; apply sqrt_pos | apply sqrt_pos]).
Qed.

Lemma importance_of_bounds_nonneg (p_bounds : AABB3) (w : R) (p : SurfacePoint)
    (m_inv : Matrix3x3) :
  0 <= w -> 0 <= importance_of_bounds p_bounds w p m_inv.
Proof.
  intros Hw. unfold importance_of_bounds. cbv zeta.
  apply Rdiv_nonneg.
  - apply Rmult_le_pos; [| exact Hw].
    destruct (negb _); [apply ltc_sphere_integral_nonneg |].
    pose proof PI_RGT_0. lra.
  - eapply Rle_trans; [| apply Rmax_r]. lra.
Qed.

Lemma well_formed_length {B : Type} (n : Z) (node : BVHNode B) :
  well_formed n node -> 0 <= node_weighted_total_length node.
Proof. intros [b w e Hw _ | b w c0 c1 Hw _ _]; exact Hw. Qed.

Lemma importance3_nonneg (n : Z) (node : BVHNode3) (p : SurfacePoint)
    (m_inv : Matrix3x3) :
  well_formed n node -> 0 <= importance3 node p m_inv.
Proof.
  intros Hwf. unfold importance3. destruct (is_bound_below_surface _ _); [lra |].
  apply importance_of_bounds_nonneg. eapply well_formed_length; eassumption.
Qed.

Lemma importance6_nonneg (cam_org : Vector3) (n : Z) (node : BVHNode6)
    (p : SurfacePoint) (m_inv : Matrix3x3) :
  well_formed n node -> 0 <= importance6 cam_org node p m_inv.
Proof.
  intros Hwf. unfold importance6. cbv zeta.
  destruct (is_bound_below_surface _ _); [lra |].
  destruct (negb _); [lra |].
  apply importance_of_bounds_nonneg. eapply well_formed_length; eassumption.
Qed.

End ImportanceSign.

Section DescentFacts.

Local Open Scope R_scope.
Context {B : Type}.
Variable importance : BVHNode B -> SurfacePoint -> Matrix3x3 -> R.
Variable p : SurfacePoint.
Variable m_inv : Matrix3x3.
Variable num_edges : Z.
Hypothesis importance_nonneg :
  forall node, well_formed num_edges node -> 0 <= importance node p m_inv.

(** The descent below one node: it always returns, the result is [-1] or
    the id of a leaf below the node with a positive pmf, and it is [-1]
    exactly when the descent is blocked. *)
Lemma sample_edge_descent (node : BVHNode B) :
  well_formed num_edges node ->
  forall sample pmf, 0 <= sample < 1 -> 0 < pmf ->
  exists id pmf',
    sample_edge importance node p m_inv sample pmf = Some (id, pmf') /\
    (id = (-1)%Z \/
     (In id (leaf_ids node) /\ (0 <= id < num_edges)%Z /\ 0 < pmf')) /\
    (id = (-1)%Z <-> descent_blocked importance p m_inv node sample).
Proof.
  induction 1 as [bounds w e Hw He | bounds w child0 child1 Hw Hwf0 IH0 Hwf1 IH1];
    intros sample pmf Hsample Hpmf.
  - exists e, pmf. simpl.
    assert (Hne : (e =? -1)%Z = false) by (apply Z.eqb_neq; lia).
    rewrite Hne. simpl. split; [reflexivity |]. split.
    + right. repeat split; auto; lia.
    + split; [lia | intros Hb; inversion Hb].
  - cbn [sample_edge node_edge_id]. rewrite Z.eqb_refl. cbn [negb]. cbv zeta.
    pose proof (importance_nonneg child0 Hwf0) as H0.
    pose proof (importance_nonneg child1 Hwf1) as H1.
    set (imp0 := importance child0 p m_inv) in *.
    set (imp1 := importance child1 p m_inv) in *.
    destruct (Rleb imp0 0 && Rleb imp1 0) eqn:Hboth.
    + apply andb_true_iff in Hboth as [Hb0 Hb1].
      apply Rleb_true in Hb0, Hb1.
      exists (-1)%Z, pmf. split; [reflexivity |]. split; [now left |].
      split; [intros _; now apply blocked_here | reflexivity].
    + assert (Hnot : ~ (imp0 <= 0 /\ imp1 <= 0)).
      { intros [Hb0 Hb1]. apply Rleb_true in Hb0, Hb1.
        rewrite Hb0, Hb1 in Hboth. discriminate. }
      assert (Hsum : 0 < imp0 + imp1) by lra.
      destruct (Rltb sample (imp0 / (imp0 + imp1))) eqn:Hbranch.
      * apply Rltb_true in Hbranch.
        destruct (share_first imp0 imp1 sample H0 H1 Hsum (proj1 Hsample) Hbranch)
          as (Hshare & Hsample').
        destruct (IH0 (sample * (imp0 + imp1) / imp0) (pmf * (imp0 / (imp0 + imp1)))
                      Hsample' (Rmult_lt_0_compat _ _ Hpmf Hshare))
          as (id & pmf' & Heq & Hres & Hiff).
        exists id, pmf'. split; [exact Heq |]. split.
        -- destruct Hres as [-> | (Hin & Hid & Hpos)]; [now left |].
           right. split; [| now split]. simpl. apply in_or_app. now left.
        -- rewrite Hiff. split.
           ++ intros Hb. now apply blocked_below0.
           ++ intros Hb. inversion Hb; subst; try assumption.
              ** exfalso. apply Hnot. now split.
              ** contradiction.
      * apply Rltb_false in Hbranch.
        assert (Hbranch' : ~ sample < imp0 / (imp0 + imp1)) by lra.
        destruct (share_second imp0 imp1 sample H0 H1 Hsum (proj2 Hsample) Hbranch')
          as (Hshare & Hsample').
        destruct (IH1 ((sample * (imp0 + imp1) - imp0) / imp1)
                      (pmf * (1 - imp0 / (imp0 + imp1)))
                      Hsample' (Rmult_lt_0_compat _ _ Hpmf Hshare))
          as (id & pmf' & Heq & Hres & Hiff).
        exists id, pmf'. split; [exact Heq |]. split.
        -- destruct Hres as [-> | (Hin & Hid & Hpos)]; [now left |].
           right. split; [| now split]. simpl. apply in_or_app. now right.
        -- rewrite Hiff. split.
           ++ intros Hb. now apply blocked_below1.
           ++ intros Hb. inversion Hb; subst; try assumption.
              ** exfalso. apply Hnot. now split.
              ** contradiction.
Qed.

End DescentFacts.

(** The descent over the reals.  In exact arithmetic, with a sphere table
    without negative entries and a tree as the builder leaves it, for every
    shading point, inverse LTC transform and sample in [[0, 1)], the descent
    over the two roots returns; it returns either [-1], or the id of an edge
    stored in a leaf (a valid index into the edge buffer) together with a
    strictly positive pmf; and it returns [-1] exactly when the two root
    importances, or at some node reached by the descent the two child
    importances, are both at most 0.  The positive pmf rests on the rescaled
    sample staying below 1, which rounding does not keep: see the descent
    in binary64 arithmetic at the end of this development. *)
Theorem sample_edge_roots_sound `{TreeCollaborators}
    (cam_org : Vector3) (roots : EdgeTreeRoots) (p : SurfacePoint)
    (m_inv : Matrix3x3) (num_edges : Z) (sample pmf0 : R) :
  (forall i, (0 <= tabSphere i)%R) ->
  well_formed_roots num_edges roots ->
  (0 <= sample < 1)%R ->
  exists id pmf,
    sample_edge_roots cam_org roots p m_inv sample pmf0 = Some (id, pmf) /\
    (id = -1 \/
     (In id (roots_leaf_ids roots) /\ 0 <= id < num_edges /\ (0 < pmf)%R)) /\
    (id = -1 <-> roots_blocked cam_org roots p m_inv sample).
Proof.
  intros Htab [Hcs Hncs] Hsample.
  unfold sample_edge_roots, roots_blocked, root_importances, roots_leaf_ids.
  cbv zeta. cbn [fst snd].
  set (imp_cs := match cs_bvh_root roots with
                 | Some root => importance3 root p m_inv
                 | None => 0%R
                 end).
  set (imp_ncs := match ncs_bvh_root roots with
                  | Some root => importance6 cam_org root p m_inv
                  | None => 0%R
                  end).
  assert (H0 : (0 <= imp_cs)%R).
  { unfold imp_cs. destruct (cs_bvh_root roots) as [root |]; [| lra].
    eapply importance3_nonneg; eauto. }
  assert (H1 : (0 <= imp_ncs)%R).
  { unfold imp_ncs. destruct (ncs_bvh_root roots) as [root |]; [| lra].
    eapply importance6_nonneg; eauto. }
  destruct (Rleb imp_cs 0 && Rleb imp_ncs 0) eqn:Hboth.
  - apply andb_true_iff in Hboth as [Hb0 Hb1]. apply Rleb_true in Hb0, Hb1.
    exists (-1), pmf0. split; [reflexivity |]. split; [now left |].
    split; [intros _; left; now split | reflexivity].
  - assert (Hnot : ~ (imp_cs <= 0 /\ imp_ncs <= 0)%R).
    { intros [Hb0 Hb1]. apply Rleb_true in Hb0, Hb1.
      rewrite Hb0, Hb1 in Hboth. discriminate. }
    assert (Hsum : (0 < imp_cs + imp_ncs)%R) by lra.
    destruct (Rltb sample (imp_cs / (imp_cs + imp_ncs))) eqn:Hbranch.
    + apply Rltb_true in Hbranch.
      destruct (share_first imp_cs imp_ncs sample H0 H1 Hsum (proj1 Hsample) Hbranch)
        as (Hshare & Hsample').
      assert (Hpos : (0 < imp_cs)%R).
      { destruct (Rle_lt_or_eq_dec _ _ H0) as [Hlt | Heq]; [exact Hlt |].
        rewrite <- Heq in Hbranch. unfold Rdiv in Hbranch.
        rewrite Rmult_0_l in Hbranch. lra. }
      destruct (cs_bvh_root roots) as [root |] eqn:Hroot;
        [| unfold imp_cs in Hpos; lra].
      destruct (sample_edge_descent importance3 p m_inv num_edges
                  (fun node Hwf => importance3_nonneg Htab num_edges node p m_inv Hwf)
                  root (Hcs root eq_refl) _ _ Hsample' Hshare)
        as (id & pmf & Heq & Hres & Hiff).
      exists id, pmf. split; [exact Heq |]. split.
      * destruct Hres as [-> | (Hin & Hid & Hp)]; [now left |].
        right. split; [| now split]. apply in_or_app. now left.
      * rewrite Hiff. split.
        -- intros Hb. right. split; [exact Hnot |]. left. split; [exact Hbranch |].
           exists root. now split.
        -- intros [Hb | (_ & [(_ & r & Hr & Hb) | (Hn & _)])].
           ++ contradiction.
           ++ injection Hr as <-. exact Hb.
           ++ contradiction.
    + apply Rltb_false in Hbranch.
      assert (Hbranch' : ~ (sample < imp_cs / (imp_cs + imp_ncs))%R) by lra.
      destruct (share_second imp_cs imp_ncs sample H0 H1 Hsum (proj2 Hsample) Hbranch')
        as (Hshare & Hsample').
      assert (Hpos : (0 < imp_ncs)%R).
      { destruct (Rle_lt_or_eq_dec _ _ H1) as [Hlt | Heq]; [exact Hlt |].
        exfalso. rewrite <- Heq in Hshare.
        replace (imp_cs / (imp_cs + 0))%R with 1%R in Hshare by (field; lra).
        lra. }
      destruct (ncs_bvh_root roots) as [root |] eqn:Hroot;
        [| unfold imp_ncs in Hpos; lra].
      destruct (sample_edge_descent (importance6 cam_org) p m_inv num_edges
                  (fun node Hwf =>
                     importance6_nonneg Htab cam_org num_edges node p m_inv Hwf)
                  root (Hncs root eq_refl) _ _ Hsample' Hshare)
        as (id & pmf & Heq & Hres & Hiff).
      exists id, pmf. split; [exact Heq |]. split.
      * destruct Hres as [-> | (Hin & Hid & Hp)]; [now left |].
        right. split; [| now split]. apply in_or_app. now right.
      * rewrite Hiff. split.
        -- intros Hb. right. split; [exact Hnot |]. right. split; [exact Hbranch' |].
           exists root. now split.
        -- intros [Hb | (_ & [(Hn & _) | (_ & r & Hr & Hb)])].
           ++ contradiction.
           ++ contradiction.
           ++ injection Hr as <-. exact Hb.
Qed.

Lemma one_leaf_roots_well_formed : well_formed_roots 1 one_leaf_roots.
Proof.
  split; intros root Hroot; simpl in Hroot; [| discriminate].
  injection Hroot as <-. constructor; [lra | lia].
Qed.

(** The theorem above on the tree with one leaf, at the middle sample. *)
Lemma sample_edge_roots_sound_witness :
  exists id pmf,
    @sample_edge_roots flat_tree_world zero3 one_leaf_roots origin_point
      identity3 (1 / 2) 0 = Some (id, pmf) /\
    (id = -1 \/ (In id (roots_leaf_ids one_leaf_roots) /\ 0 <= id < 1 /\ (0 < pmf)%R)).
Proof.
  destruct (@sample_edge_roots_sound flat_tree_world zero3 one_leaf_roots
              origin_point identity3 1 (1 / 2) 0)
    as (id & pmf & Heq & Hres & _).
  - intros i. simpl. lra.
  - exact one_leaf_roots_well_formed.
  - lra.
  - exists id, pmf. split; assumption.
Defined.

(** ** Secondary edge sampler: inversion of the line cdf *)

Section SolverFacts.

Local Open Scope R_scope.
Variables line_cdf line_pdf : R -> R.
Variable t : R.
Variables lo hi : R.

Lemma reset_iterate_bracket (s : SolverState) :
  bracket_between lo hi s -> bracket_between lo hi (reset_iterate s) /\ iterate_in_bracket (reset_iterate s).
Proof.
  intros (Hlo & Hord & Hhi). unfold reset_iterate, iterate_in_bracket, bracket_between in *.
  destruct (Rleb (lb s) (l s)) eqn:E1; destruct (Rleb (l s) (ub s)) eqn:E2;
    cbn [andb negb lb ub l];
    try (apply Rleb_true in E1); try (apply Rleb_true in E2);
    repeat split; lra.
Qed.

(** Every round keeps the bracket ordered and between [lo] and [hi], and
    evaluates the cdf at an iterate inside the bracket; no more rounds are
    made than the loop bound allows; when the counter and the remaining
    rounds add up to 20, the loop is left through [break], in the state of
    the last round. *)
Lemma newton_bisection_invariant (remaining : nat) :
  forall it s final visited,
  newton_bisection line_cdf line_pdf t remaining it s = (final, visited) ->
  bracket_between lo hi s ->
  (length visited <= remaining)%nat /\
  Forall (fun s' => bracket_between lo hi s' /\ iterate_in_bracket s') visited /\
  bracket_between lo hi final /\
  ((0 < remaining)%nat -> (it + Z.of_nat remaining = 20)%Z ->
   In final visited).
Proof.
  induction remaining as [| remaining IH]; intros it s final visited Hrun Hs.
  - simpl in Hrun. injection Hrun as <- <-. simpl.
    repeat split; [lia | constructor | apply Hs | apply Hs | apply Hs | lia].
  - cbn [newton_bisection] in Hrun. cbv zeta in Hrun.
    destruct (reset_iterate_bracket s Hs) as (Hb & Hin).
    set (s1 := reset_iterate s) in *.
    destruct (Rltb (Rabs (line_cdf (l s1) - t)) 1e-5 || (it =? 19)%Z) eqn:Hbreak.
    + injection Hrun as <- <-. simpl.
      repeat split; try apply Hb; [lia | | now left].
      constructor; [now split | constructor].
    + apply orb_false_iff in Hbreak as [_ Hit]. apply Z.eqb_neq in Hit.
      set (s2 := mkSolverState
                   (lb (if Rltb 0 (line_cdf (l s1) - t)
                        then mkSolverState (lb s1) (l s1) (l s1)
                        else mkSolverState (l s1) (ub s1) (l s1)))
                   (ub (if Rltb 0 (line_cdf (l s1) - t)
                        then mkSolverState (lb s1) (l s1) (l s1)
                        else mkSolverState (l s1) (ub s1) (l s1)))
                   (l (if Rltb 0 (line_cdf (l s1) - t)
                       then mkSolverState (lb s1) (l s1) (l s1)
                       else mkSolverState (l s1) (ub s1) (l s1))
                    - (line_cdf (l s1) - t) / line_pdf (l s1))) in *.
      assert (Hs2 : bracket_between lo hi s2).
      { destruct Hb as (Hlo & Hord & Hhi). destruct Hin as (Hl & Hu).
        unfold s2, bracket_between in *. destruct (Rltb 0 _); cbn [lb ub l]; lra. }
      destruct (newton_bisection line_cdf line_pdf t remaining (it + 1) s2)
        as [final' visited'] eqn:Hrec.
      injection Hrun as <- <-.
      destruct (IH _ _ _ _ Hrec Hs2) as (Hlen & Hall & Hfinal & Hlast).
      split; [simpl; lia |]. split; [constructor; [now split | exact Hall] |].
      split; [exact Hfinal |].
      intros _ Hsum. right. apply Hlast; lia.
Qed.

Lemma initial_bracket_ordered (l0 l1 : R) :
  Rmin l0 l1 <= lb (initial_bracket l0 l1) /\
  lb (initial_bracket l0 l1) <= ub (initial_bracket l0 l1) /\
  ub (initial_bracket l0 l1) <= Rmax l0 l1.
Proof.
  unfold initial_bracket. cbv zeta.
  destruct (Rltb l1 l0) eqn:E; cbn [lb ub];
    [apply Rltb_true in E | apply Rltb_false in E];
    unfold Rmin, Rmax; destruct (Rle_dec l0 l1); lra.
Qed.

End SolverFacts.

(** The loop started from the initial bracket of [l0] and [l1]. *)
Lemma newton_bisection_from_initial (line_cdf line_pdf : R -> R) (t l0 l1 : R) :
  let run := newton_bisection line_cdf line_pdf t 20 0 (initial_bracket l0 l1) in
  let final := fst run in
  let visited := snd run in
  (1 <= length visited <= 20)%nat /\
  Forall (fun s => bracket_within l0 l1 s /\ iterate_in_bracket s) visited /\
  In final visited /\
  bracket_within l0 l1 final /\ iterate_in_bracket final.
Proof.
  intros run final visited.
  destruct (initial_bracket_ordered l0 l1) as (Hlo & Hord & Hhi).
  destruct (newton_bisection_invariant line_cdf line_pdf t (Rmin l0 l1) (Rmax l0 l1)
              20 0 (initial_bracket l0 l1) final visited)
    as (Hlen & Hall & Hfinal & Hlast).
  - unfold final, visited, run. now destruct (newton_bisection _ _ _ _ _ _).
  - repeat split; assumption.
  - assert (Hin : In final visited) by (apply Hlast; lia).
    assert (Hall' : Forall (fun s => bracket_within l0 l1 s /\ iterate_in_bracket s)
                           visited).
    { eapply Forall_impl; [| exact Hall]. intros s [Hb Hi]. split; assumption. }
    split; [| split; [exact Hall' | split; [exact Hin |]]].
    + split; [| exact Hlen]. destruct visited; [contradiction | simpl; lia].
    + rewrite Forall_forall in Hall'. now apply Hall'.
Qed.

(** The loop as the sampler calls it, on the line of the clipped edge. *)
Lemma sample_on_edge_bounded (v0o v1o : Vector3) (t : R) :
  let clipped := clip_to_tangent_plane v0o v1o in
  let l0 := snd (fst (edge_line (fst clipped) (snd clipped))) in
  let l1 := snd (edge_line (fst clipped) (snd clipped)) in
  let visited := snd (sample_on_edge v0o v1o t) in
  let final := snd (fst (sample_on_edge v0o v1o t)) in
  (1 <= length visited <= 20)%nat /\
  Forall (fun s => bracket_within l0 l1 s /\ iterate_in_bracket s) visited /\
  bracket_within l0 l1 final /\ iterate_in_bracket final.
Proof.
  cbv zeta. unfold sample_on_edge.
  destruct (clip_to_tangent_plane v0o v1o) as [c0 c1]. cbn [fst snd].
  destruct (edge_line c0 c1) as [[[[vo wt] d] l0] l1]. cbn [fst snd].
  match goal with
  | |- context [newton_bisection ?f ?g t 20 0 (initial_bracket l0 l1)] =>
      pose proof (newton_bisection_from_initial f g t l0 l1) as Hb;
      cbv zeta in Hb;
      destruct (newton_bisection f g t 20 0 (initial_bracket l0 l1))
        as [final visited]
  end.
  cbn [fst snd] in *. tauto.
Qed.


(** ** Secondary edge sampler: resampling weights *)

Section ResamplingFacts.

Local Open Scope R_scope.
Context `{Collaborators}.

(** What the code does: a candidate for which its own test [same_tri]
    holds gets weight 0. *)
Lemma candidate_weight_same_tri shapes edges edges_pmf shading_isect
    shading_point m_inv edge_id :
  same_tri (edges edge_id) shading_isect = true ->
  candidate_weight shapes edges edges_pmf shading_isect shading_point m_inv
    edge_id = 0.
Proof.
  intros Hsame. unfold candidate_weight. cbv zeta. rewrite Hsame.
  now rewrite andb_false_r.
Qed.

(** A candidate weight is never negative. *)
Lemma candidate_weight_nonneg shapes edges edges_pmf shading_isect
    shading_point m_inv edge_id :
  0 <= candidate_weight shapes edges edges_pmf shading_isect shading_point m_inv
         edge_id.
Proof.
  unfold candidate_weight. cbv zeta.
  destruct (_ && _ && _); [| lra]. destruct (Rltb 1e-10 _); [| lra].
  destruct (_ || _); [| lra]. destruct (clip_to_tangent_plane _ _).
  apply Rmax_r.
Qed.

(** A candidate that passes the three tests, is not degenerate and has
    both end points above the tangent plane is weighted by the line integral
    between its end parameters. *)
Lemma candidate_weight_above shapes edges edges_pmf shading_isect
    shading_point m_inv edge_id :
  let edge := edges edge_id in
  let v0o := mulMv m_inv (sub3 (get_v0 shapes edge) (position shading_point)) in
  let v1o := mulMv m_inv (sub3 (get_v1 shapes edge) (position shading_point)) in
  0 < edges_pmf edge_id ->
  is_silhouette shapes (position shading_point) edge = true ->
  same_tri edge shading_isect = false ->
  1e-10 < length_squared (sub3 (get_v1 shapes edge) (get_v0 shapes edge)) ->
  0 < vz v0o -> 0 < vz v1o ->
  forall vo wt d l0 l1, edge_line v0o v1o = (vo, wt, d, l0, l1) ->
  candidate_weight shapes edges edges_pmf shading_isect shading_point m_inv
    edge_id =
  Rmax ((line_integral d vo wt l1 - line_integral d vo wt l0) / edges_pmf edge_id) 0.
Proof.
  intros edge v0o v1o Hpmf Hsil Hsame Hlen Hz0 Hz1 vo wt d l0 l1 Hline.
  unfold candidate_weight. cbv zeta. fold edge.
  rewrite (proj2 (Rltb_true _ _) Hpmf), Hsil, Hsame. cbn [andb negb].
  rewrite (proj2 (Rltb_true _ _) Hlen). fold v0o v1o.
  rewrite (proj2 (Rltb_true _ _) Hz0). cbn [orb].
  unfold clip_to_tangent_plane.
  assert (E0 : Rltb (vz v0o) 0 = false) by (apply Rltb_false; lra).
  assert (E1 : Rltb (vz v1o) 0 = false) by (apply Rltb_false; lra).
  rewrite E0, E1. unfold edge_line in Hline. cbv zeta in Hline.
  injection Hline as <- <- <- <- <-. reflexivity.
Qed.

End ResamplingFacts.

Section TiltedTriangle.

Local Open Scope R_scope.

(** The isotropic frame for [tilted_wi] is the shading frame of the
    point. *)
Lemma tilted_isotropic_frame :
  isotropic_frame tilted_wi (frame_n tilted_frame) = tilted_frame.
Proof.
  assert (Hc : 0 < / sqrt 5) by (apply Rinv_0_lt_compat, sqrt_lt_R0; lra).
  unfold isotropic_frame, tilted_wi. cbv zeta. set (c := / sqrt 5) in *.
  assert (Hx : sub3 (scale3 c (mkVector3 2 0 1))
                    (scale3 (dot3 (scale3 c (mkVector3 2 0 1)) (frame_n tilted_frame))
                            (frame_n tilted_frame)) =
               mkVector3 (4 / 5 * c) 0 (- 3 / 5 * c)).
  { unfold sub3, scale3, dot3. simpl. f_equal; lra. }
  rewrite Hx.
  assert (Hlen : length3 (mkVector3 (4 / 5 * c) 0 (- 3 / 5 * c)) = c).
  { unfold length3, length_squared, dot3. simpl.
    replace (4 / 5 * c * (4 / 5 * c) + 0 * 0 + - 3 / 5 * c * (- 3 / 5 * c))
      with (c * c) by lra.
    apply sqrt_square. lra. }
  assert (Hn : normalize (mkVector3 (4 / 5 * c) 0 (- 3 / 5 * c)) =
               mkVector3 (4 / 5) 0 (- 3 / 5)).
  { unfold normalize. rewrite Hlen. unfold div3. simpl. f_equal; field; lra. }
  rewrite Hn. unfold tilted_frame, cross. simpl. f_equal. f_equal; lra.
Qed.

Lemma tilted_m_inv_rows :
  tilted_m_inv =
  mkMatrix3x3 (mkVector3 (4 / 5) 0 (- 3 / 5)) (mkVector3 0 1 0)
              (mkVector3 (3 / 5) 0 (4 / 5)).
Proof. unfold tilted_m_inv. now rewrite tilted_isotropic_frame. Qed.

Lemma tilted_v0o :
  mulMv tilted_m_inv
        (sub3 (get_v0 (fun _ => tilted_triangle) far_edge) (position tilted_point)) =
  mkVector3 (4 / 5) (-1) (3 / 5).
Proof. rewrite tilted_m_inv_rows. unfold mulMv, dot3, sub3. simpl. f_equal; lra. Qed.

Lemma tilted_v1o :
  mulMv tilted_m_inv
        (sub3 (get_v1 (fun _ => tilted_triangle) far_edge) (position tilted_point)) =
  mkVector3 (4 / 5) 1 (3 / 5).
Proof. rewrite tilted_m_inv_rows. unfold mulMv, dot3, sub3. simpl. f_equal; lra. Qed.

Lemma tilted_edge_line :
  edge_line (mkVector3 (4 / 5) (-1) (3 / 5)) (mkVector3 (4 / 5) 1 (3 / 5)) =
  (mkVector3 (4 / 5) 0 (3 / 5), mkVector3 0 1 0, 1, -1, 1).
Proof.
  unfold edge_line. cbv zeta.
  assert (Hdir : sub3 (mkVector3 (4 / 5) 1 (3 / 5)) (mkVector3 (4 / 5) (-1) (3 / 5)) =
                 mkVector3 0 2 0) by (unfold sub3; simpl; f_equal; lra).
  rewrite Hdir.
  assert (Hlen : length3 (mkVector3 0 2 0) = 2).
  { unfold length3, length_squared, dot3. simpl.
    replace (0 * 0 + 2 * 2 + 0 * 0) with (2 * 2) by lra. apply sqrt_square. lra. }
  assert (Hwt : normalize (mkVector3 0 2 0) = mkVector3 0 1 0).
  { unfold normalize. rewrite Hlen. unfold div3. simpl. f_equal; lra. }
  rewrite Hwt.
  assert (Hl0 : dot3 (mkVector3 (4 / 5) (-1) (3 / 5)) (mkVector3 0 1 0) = -1)
    by (unfold dot3; simpl; lra).
  assert (Hl1 : dot3 (mkVector3 (4 / 5) 1 (3 / 5)) (mkVector3 0 1 0) = 1)
    by (unfold dot3; simpl; lra).
  rewrite Hl0, Hl1.
  assert (Hvo : sub3 (mkVector3 (4 / 5) (-1) (3 / 5)) (scale3 (-1) (mkVector3 0 1 0)) =
                mkVector3 (4 / 5) 0 (3 / 5))
    by (unfold sub3, scale3; simpl; f_equal; lra).
  rewrite Hvo.
  assert (Hd : length3 (mkVector3 (4 / 5) 0 (3 / 5)) = 1).
  { unfold length3, length_squared, dot3. simpl.
    replace (4 / 5 * (4 / 5) + 0 * 0 + 3 / 5 * (3 / 5)) with 1 by lra.
    apply sqrt_1. }
  rewrite Hd. reflexivity.
Qed.

Lemma tilted_line_integral :
  line_integral 1 (mkVector3 (4 / 5) 0 (3 / 5)) (mkVector3 0 1 0) 1 -
  line_integral 1 (mkVector3 (4 / 5) 0 (3 / 5)) (mkVector3 0 1 0) (-1) =
  3 / 5 * (1 + PI / 2).
Proof.
  unfold line_integral. simpl.
  replace (1 / 1) with 1 by lra. replace (-1 / 1) with (- (1)) by lra.
  rewrite atan_opp, atan_1. lra.
Qed.

End TiltedTriangle.

Lemma tilted_candidate_weight :
  @candidate_weight flat_world (fun _ => tilted_triangle) (fun _ => far_edge)
    (fun _ => 1%R) hit_triangle_0 tilted_point tilted_m_inv 0 =
  (3 / 5 * (1 + PI / 2))%R.
Proof.
  assert (Hpos : (0 < 3 / 5 * (1 + PI / 2))%R) by (pose proof PI_RGT_0; lra).
  rewrite (@candidate_weight_above flat_world (fun _ => tilted_triangle)
             (fun _ => far_edge) (fun _ => 1%R) hit_triangle_0 tilted_point
             tilted_m_inv 0 ltac:(lra) eq_refl eq_refl)
    with (vo := mkVector3 (4 / 5) 0 (3 / 5)) (wt := mkVector3 0 1 0)
         (d := 1%R) (l0 := (-1)%R) (l1 := 1%R).
  - rewrite tilted_line_integral. unfold Rdiv at 1. rewrite Rinv_1, Rmult_1_r.
    apply Rmax_left. lra.
  - unfold length_squared, dot3, sub3. simpl. lra.
  - rewrite tilted_v0o. simpl. lra.
  - rewrite tilted_v1o. simpl. lra.
  - rewrite tilted_v0o, tilted_v1o. apply tilted_edge_line.
Qed.

Section ResamplingRun.

Local Open Scope R_scope.

Lemma running_sum_const (W : R) (l : list Z) :
  forall previous k, (k < length l)%nat ->
  nth k (running_sum previous (map (fun _ => W) l)) 0 = previous + INR (S k) * W.
Proof.
  induction l as [| a l IH]; intros previous k Hk; simpl in Hk; [lia |].
  destruct k as [| k].
  - simpl. lra.
  - cbn [map running_sum nth]. rewrite IH by lia. rewrite (S_INR (S k)). lra.
Qed.

(** With a single edge in the distribution every candidate falls on it. *)
Lemma single_edge_candidates (edge_sample : SecondaryEdgeSample) (sample_id : Z) :
  candidate_edge_id (fun _ => 0) 1 edge_sample sample_id = 0%Z.
Proof.
  unfold candidate_edge_id, thrust_upper_bound. cbv zeta. simpl.
  destruct (Rltb _ 0); reflexivity.
Qed.

(** The candidate on the shading triangle is the edge that resampling
    returns. *)
Lemma tilted_candidate_chosen :
  @resample_edge flat_world (fun _ => tilted_triangle) (fun _ => far_edge) 1
    (fun _ => 1) (fun _ => 0) first_sample hit_triangle_0 tilted_point
    tilted_m_inv = Some (0%Z, 1).
Proof.
  pose proof tilted_candidate_weight as Hw.
  assert (Hpos : 0 < 3 / 5 * (1 + PI / 2)) by (pose proof PI_RGT_0; lra).
  set (W := 3 / 5 * (1 + PI / 2)) in *.
  unfold resample_edge. cbv zeta.
  rewrite (map_ext _ (fun _ => 0%Z) (single_edge_candidates first_sample)).
  rewrite map_map. rewrite (map_ext _ (fun _ => W) (fun _ => Hw)).
  assert (Hlen : length (index_range M) = 64%nat) by reflexivity.
  rewrite running_sum_const by (rewrite Hlen; simpl; lia).
  assert (Htotal : 0 + INR (S (Z.to_nat (M - 1))) * W = 64 * W).
  { change (S (Z.to_nat (M - 1))) with 64%nat.
    rewrite (INR_IZR_INZ 64). change (Z.of_nat 64) with 64%Z. lra. }
  rewrite Htotal.
  assert (E : Rleb (64 * W) 0 = false) by (apply Rleb_false; lra).
  rewrite E.
  assert (Hpick : pick_candidate (resample_sel first_sample * (64 * W))
                    (running_sum 0 (map (fun _ => W) (index_range M))) 0 = 0%Z).
  { change (index_range M) with (0%Z :: map Z.of_nat (seq 1 63)).
    cbn [map running_sum pick_candidate].
    assert (E' : Rleb (resample_sel first_sample * (64 * W)) (0 + W) = true)
      by (apply Rleb_true; simpl; lra).
    now rewrite E'. }
  rewrite Hpick. cbn [Z.eqb Z.to_nat].
  change (index_range M) with (0%Z :: map Z.of_nat (seq 1 63)).
  cbn [map nth].
  assert (E2 : Rleb W 0 = false) by (apply Rleb_false; lra).
  rewrite E2. f_equal. f_equal. change (IZR M) with 64. field. lra.
Qed.

End ResamplingRun.

(** C1 fails on the code.  The candidate edge (1, 2) of shape 0 has
    triangle 0 as its face [f0], and the shading intersection is on triangle
    0 of shape 0: the candidate shares a triangle with it.  The sampler
    compares the triangle id with the vertex ids [v0] and [v1] of the edge,
    finds no match, gives the candidate the positive weight
    [3/5 * (1 + pi/2)], and resampling returns this very edge. *)
Theorem same_triangle_candidate_weighted :
  shares_triangle far_edge hit_triangle_0 = true /\
  same_tri far_edge hit_triangle_0 = false /\
  @candidate_weight flat_world (fun _ => tilted_triangle) (fun _ => far_edge)
    (fun _ => 1%R) hit_triangle_0 tilted_point tilted_m_inv 0 =
  (3 / 5 * (1 + PI / 2))%R /\
  (0 < 3 / 5 * (1 + PI / 2))%R /\
  @resample_edge flat_world (fun _ => tilted_triangle) (fun _ => far_edge) 1
    (fun _ => 1%R) (fun _ => 0%R) first_sample hit_triangle_0 tilted_point
    tilted_m_inv = Some (0, 1%R).
Proof.
  split; [reflexivity |]. split; [reflexivity |].
  split; [exact tilted_candidate_weight |].
  split; [pose proof PI_RGT_0; lra | exact tilted_candidate_chosen].
Qed.

(** A descent that finds an edge: the only leaf surrounds the shading
    point, its importance is [pi / 1e-6], and the leaf is returned with
    pmf 1. *)
Example around_roots_found :
  @sample_edge_roots flat_tree_world zero3 around_roots origin_point identity3
    (1 / 2) 0 = Some (0, 1%R).
Proof.
  assert (Hnot : is_bound_below_surface box_around origin_point = false).
  { apply not_true_is_false. intros Hb. apply is_bound_below_surface_iff in Hb.
    specialize (Hb 7 ltac:(lia)). unfold corner, dot3, sub3 in Hb. simpl in Hb. lra. }
  assert (Himp : @importance3 flat_tree_world (Leaf box_around 1 0) origin_point
                   identity3 = (PI * 1 / 1e-6)%R).
  { unfold importance3. cbn [node_bounds node_weighted_total_length]. rewrite Hnot.
    unfold importance_of_bounds. cbv zeta.
    assert (Hc : @compute_bounding_sphere flat_tree_world box_around =
                 mkSphere zero3 (0.5 * distance (p_min box_around) (p_max box_around))).
    { simpl. unfold scale3, add3, zero3. simpl. f_equal. f_equal; lra. }
    rewrite Hc. cbn [center radius].
    assert (Hd : distance_squared zero3 (position origin_point) = 0%R).
    { unfold distance_squared, length_squared, dot3, sub3. simpl. lra. }
    rewrite Hd.
    assert (Hin : @inside flat_tree_world
                    (mkSphere zero3 (0.5 * distance (p_min box_around) (p_max box_around)))
                    (position origin_point) = true).
    { change (Rleb (distance_squared zero3 (position origin_point))
                    (0.5 * distance (p_min box_around) (p_max box_around) *
                     (0.5 * distance (p_min box_around) (p_max box_around))) = true).
      rewrite Hd. apply Rleb_true. nra. }
    rewrite Hin. cbn [negb]. rewrite Rmax_right by lra. reflexivity. }
  unfold sample_edge_roots. cbv zeta. cbn [cs_bvh_root ncs_bvh_root around_roots].
  rewrite Himp. pose proof PI_RGT_0 as Hpi.
  assert (Hpos : (0 < PI * 1 / 1e-6)%R).
  { apply Rdiv_lt_0_compat; lra. }
  assert (E1 : Rleb (PI * 1 / 1e-6) 0 = false) by (apply Rleb_false; exact Hpos).
  rewrite E1. cbn [andb].
  assert (Hone : (PI * 1 / 1e-6 / (PI * 1 / 1e-6 + 0) = 1)%R) by (field; lra).
  rewrite Hone.
  assert (E2 : Rltb (1 / 2) 1 = true) by (apply Rltb_true; lra).
  rewrite E2. reflexivity.
Qed.

(* ================================================================= *)
(** * Part II, continued: properties of the rest of the file *)
(* ================================================================= *)

(** ** Comparers and merger *)

(** X1.  [edge_less_comparer] is a strict weak order, as [thrust::sort] requires:
    irreflexive, asymmetric and transitive; and [edge_equal_comparer] is its
    equivalence: two edges are equal for the merge exactly when neither is
    less than the other. *)
Theorem edge_comparers_strict_weak_order :
  (forall a, edge_less_comparer a a = false) /\
  (forall a b, edge_less_comparer a b = true -> edge_less_comparer b a = false) /\
  (forall a b c, edge_less_comparer a b = true -> edge_less_comparer b c = true ->
                 edge_less_comparer a c = true) /\
  (forall a b, edge_equal_comparer a b = true <->
               edge_less_comparer a b = false /\ edge_less_comparer b a = false).
Proof.
  unfold edge_less_comparer, edge_equal_comparer.
  split; [| split; [| split]].
  - intros a. rewrite Z.eqb_refl. apply Z.ltb_irrefl.
  - intros a b.
    destruct (edge_v0 a =? edge_v0 b) eqn:E1; destruct (edge_v0 b =? edge_v0 a) eqn:E2;
      rewrite ?Z.eqb_eq, ?Z.eqb_neq in *; rewrite ?Z.ltb_lt, ?Z.ltb_ge; lia.
  - intros a b c.
    destruct (edge_v0 a =? edge_v0 b) eqn:E1; destruct (edge_v0 b =? edge_v0 c) eqn:E2;
      destruct (edge_v0 a =? edge_v0 c) eqn:E3;
      rewrite ?Z.eqb_eq, ?Z.eqb_neq in *; rewrite ?Z.ltb_lt; lia.
  - intros a b. rewrite andb_true_iff.
    destruct (edge_v0 a =? edge_v0 b) eqn:E1; destruct (edge_v0 b =? edge_v0 a) eqn:E2;
      rewrite ?Z.eqb_eq, ?Z.eqb_neq in *; rewrite ?Z.ltb_ge, ?Z.eqb_eq; lia.
Qed.

(** ** Faces of merged edges *)

Lemma index_range_NoDup (n : Z) : NoDup (index_range n).
Proof.
  unfold index_range. apply Finite.Injective_map_NoDup; [| apply seq_NoDup].
  intros a b Hab. lia.
Qed.

Section MergedFaces.

Lemma fold_merger_last (gs : list Edge) :
  forall g, gs <> [] ->
  fold_left edge_merger gs g =
  mkEdge (edge_shape_id g) (edge_v0 g) (edge_v1 g) (edge_f0 g)
         (edge_f0 (last gs g)).
Proof.
  induction gs as [| e gs IH]; intros g Hne; [contradiction |].
  cbn [fold_left]. destruct gs as [| e' gs]; [reflexivity |].
  rewrite IH by discriminate. cbn [edge_merger edge_shape_id edge_v0 edge_v1 edge_f0].
  f_equal. f_equal. cbn [last]. clear IH Hne. revert e'.
  induction gs as [| e'' gs IH]; intros e'; [reflexivity |]. cbn [last]. apply IH.
Qed.

Lemma last_In {A : Type} (gs : list A) (g : A) : gs <> [] -> In (last gs g) gs.
Proof.
  induction gs as [| e gs IH]; intros Hne; [contradiction |].
  destruct gs as [| e' gs]; [now left |]. right. apply IH. discriminate.
Qed.

(** The fields that the collector gives to every edge. *)
Lemma collect_edges_fields (shape_id : Z) (shape : Shape) (e : Edge) :
  In e (collect_edges shape_id shape) ->
  edge_shape_id e = shape_id /\ 0 <= edge_f0 e < num_triangles shape /\
  edge_f1 e = -1 /\ edge_v0 e <= edge_v1 e.
Proof.
  intros Hin. apply collect_edges_In in Hin as (t & r & Ht & Hr & ->).
  rewrite edge_collector_slot by lia. simpl. repeat split; lia.
Qed.

Lemma merged_edge_run (sort : list Edge -> list Edge) (Hsort : sorts_edges sort)
    (shape_id : Z) (shape : Shape) (m : Edge) :
  In m (shape_edges sort shape_id shape) ->
  exists g gs,
    Permutation (occurrences m (collect_edges shape_id shape)) (g :: gs) /\
    m = fold_left edge_merger gs g.
Proof.
  intros Hm. unfold shape_edges in Hm.
  apply in_map_iff in Hm as (kv & <- & Hkv).
  destruct (Hsort (collect_edges shape_id shape)) as [Hperm Hsorted].
  destruct (reduce_by_key_runs _ Hsorted) as (Hruns & _).
  rewrite Forall_forall in Hruns.
  destruct (Hruns kv Hkv) as (g & gs & Hocc & Hg & Hval).
  exists g, gs. unfold write_aliased. split; [| exact Hval].
  assert (Hkey : edge_key (snd kv) = edge_key g)
    by now rewrite Hval, fold_merger_key.
  rewrite (occurrences_key_ext _ g _ Hkey), <- Hocc, Hg.
  apply Permutation_filter, Hperm.
Qed.

(** The sides that a merged edge comes from, as slots of the collector:
    the slots that carry its vertex pair, each once, the first of the run
    and the rest of the run in the order the sort left them. *)
Lemma merged_edge_slots (sort : list Edge -> list Edge) (Hsort : sorts_edges sort)
    (shape_id : Z) (shape : Shape) (m : Edge) :
  In m (shape_edges sort shape_id shape) ->
  exists i rest,
    NoDup (i :: rest) /\
    (forall k, In k (i :: rest) ->
       0 <= k < 3 * num_triangles shape /\
       edge_equal_comparer m (edge_collector shape_id shape k) = true) /\
    Permutation (occurrences m (collect_edges shape_id shape))
                (map (edge_collector shape_id shape) (i :: rest)) /\
    m = fold_left edge_merger (map (edge_collector shape_id shape) rest)
                  (edge_collector shape_id shape i).
Proof.
  intros Hm.
  destruct (merged_edge_run sort Hsort shape_id shape m Hm) as (g & gs & Hperm & Hval).
  unfold occurrences, collect_edges in Hperm. rewrite filter_map_swap in Hperm.
  apply Permutation_sym, Permutation_map_inv in Hperm as (slots & Hslots & Hperm).
  destruct slots as [| i rest]; [discriminate |].
  cbn [map] in Hslots. injection Hslots as -> ->.
  exists i, rest. split; [| split; [| split]].
  - eapply Permutation_NoDup; [exact Hperm |].
    apply NoDup_filter, index_range_NoDup.
  - intros k Hk. eapply Permutation_in in Hk; [| symmetry; exact Hperm].
    apply filter_In in Hk as [Hk Hkey]. apply index_range_In in Hk. tauto.
  - unfold occurrences, collect_edges. rewrite filter_map_swap.
    apply Permutation_map. exact Hperm.
  - exact Hval.
Qed.

Lemma last_map_in {A C : Type} (f : A -> C) (xs : list A) (d : C) (d' : A) :
  xs <> [] -> last (map f xs) d = f (last xs d').
Proof.
  induction xs as [| x xs IH]; intros Hne; [contradiction |].
  destruct xs as [| y xs]; [reflexivity |].
  change (last (map f (y :: xs)) d = f (last (y :: xs) d')). apply IH. discriminate.
Qed.

(** The face that the collector writes at a slot is the triangle of the
    slot. *)
Lemma edge_collector_f0 (shape_id : Z) (shape : Shape) (idx : Z) :
  edge_f0 (edge_collector shape_id shape idx) = Z.quot idx 3.
Proof.
  unfold edge_collector.
  destruct (Z.rem idx 3 =? 0); [reflexivity |].
  destruct (Z.rem idx 3 =? 1); reflexivity.
Qed.

(** Two sides of a triangle with three different vertex indices carry
    different vertex pairs. *)
Lemma nondegenerate_sides_differ (shape_id : Z) (shape : Shape) (t r r' : Z) :
  nondegenerate (get_indices shape t) -> 0 <= t -> 0 <= r < 3 -> 0 <= r' < 3 ->
  r <> r' ->
  edge_key (edge_collector shape_id shape (3 * t + r)) <>
  edge_key (edge_collector shape_id shape (3 * t + r')).
Proof.
  intros (H01 & H12 & H20) Ht Hr Hr' Hne.
  rewrite !edge_collector_slot by lia. unfold edge_key, triangle_side.
  cbn [edge_v0 edge_v1].
  assert (Hcases : (r = 0 \/ r = 1 \/ r = 2) /\ (r' = 0 \/ r' = 1 \/ r' = 2)) by lia.
  destruct Hcases as [[-> | [-> | ->]] [-> | [-> | ->]]]; try lia;
    cbn [Z.eqb Pos.eqb fst snd]; intros Heq; injection Heq as H1 H2; lia.
Qed.

End MergedFaces.

(** X2.  Whatever the number of triangle sides that carry a vertex pair, the
    merged edge of the pair belongs to the shape, its [f0] is the triangle
    of one of these sides, and [f1] is [-1] exactly when there is a single
    such side; with two or more sides, [f1] is the triangle of another one
    of them (the last one of the run): [f0] and [f1] are the triangles of
    two different slots of the collector that carry the vertex pair, so a
    pair with three or more sides keeps two of its triangles and drops the
    others; and when no triangle of the shape repeats a vertex index, [f0]
    and [f1] are two different triangles. *)
Theorem merged_edge_faces (sort : list Edge -> list Edge)
    (Hsort : sorts_edges sort) (shape_id : Z) (shape : Shape) (m : Edge) :
  In m (shape_edges sort shape_id shape) ->
  let sides := occurrences m (collect_edges shape_id shape) in
  edge_shape_id m = shape_id /\
  (1 <= length sides)%nat /\
  (exists a, In a sides /\ edge_f0 m = edge_f0 a) /\
  0 <= edge_f0 m < num_triangles shape /\
  (edge_f1 m = -1 <-> length sides = 1%nat) /\
  ((2 <= length sides)%nat ->
   exists b, In b sides /\ edge_f1 m = edge_f0 b /\
             0 <= edge_f1 m < num_triangles shape) /\
  ((2 <= length sides)%nat ->
   exists i j,
     0 <= i < 3 * num_triangles shape /\ 0 <= j < 3 * num_triangles shape /\
     i <> j /\
     edge_key (edge_collector shape_id shape i) = edge_key m /\
     edge_key (edge_collector shape_id shape j) = edge_key m /\
     edge_f0 m = Z.quot i 3 /\ edge_f1 m = Z.quot j 3) /\
  ((forall t, 0 <= t < num_triangles shape -> nondegenerate (get_indices shape t)) ->
   (2 <= length sides)%nat -> edge_f0 m <> edge_f1 m).
Proof.
  intros Hm sides.
  destruct (merged_edge_slots sort Hsort shape_id shape m Hm)
    as (i & rest & Hnodup & Hslots & Hperm & Hval).
  fold sides in Hperm.
  set (f := edge_collector shape_id shape) in *.
  assert (Hfields : forall k, In k (i :: rest) ->
            In (f k) sides /\
            edge_shape_id (f k) = shape_id /\ 0 <= edge_f0 (f k) < num_triangles shape /\
            edge_f1 (f k) = -1).
  { intros k Hk.
    assert (Hin : In (f k) sides).
    { eapply Permutation_in; [symmetry; exact Hperm |]. apply in_map. exact Hk. }
    split; [exact Hin |].
    unfold sides, occurrences in Hin. apply filter_In in Hin as [Hin _].
    destruct (collect_edges_fields shape_id shape (f k) Hin) as (H1 & H2 & H3 & _).
    tauto. }
  pose proof (Permutation_length Hperm) as Hlen. rewrite length_map in Hlen.
  cbn [length] in Hlen.
  destruct (Hfields i (or_introl eq_refl)) as (Hini & Hs & Hf0 & Hf1).
  destruct rest as [| j0 rest].
  - cbn [map fold_left] in Hval. subst m. cbn [length] in Hlen.
    split; [exact Hs |]. split; [lia |].
    split; [exists (f i); split; [exact Hini | reflexivity] |].
    split; [exact Hf0 |]. split; [split; [lia | intros _; exact Hf1] |].
    split; [lia |]. split; lia.
  - rewrite fold_merger_last in Hval by discriminate.
    rewrite (last_map_in f (j0 :: rest) (f i) i) in Hval by discriminate.
    set (j := last (j0 :: rest) i) in *.
    assert (Hj : In j (j0 :: rest)) by (apply last_In; discriminate).
    destruct (Hfields j (or_intror Hj)) as (Hinj & _ & Hj0 & _).
    assert (Hij : i <> j).
    { intros Heq. apply NoDup_cons_iff in Hnodup as [Hnot _].
      apply Hnot. rewrite Heq. exact Hj. }
    assert (Hkeys : forall k, In k (i :: j0 :: rest) -> edge_key (f k) = edge_key m).
    { intros k Hk. destruct (Hslots k Hk) as [_ Hkey].
      apply edge_equal_iff in Hkey. congruence. }
    assert (Hm0 : edge_f0 m = Z.quot i 3)
      by (rewrite Hval; cbn [edge_f0]; apply edge_collector_f0).
    assert (Hm1 : edge_f1 m = Z.quot j 3)
      by (rewrite Hval; cbn [edge_f1]; apply edge_collector_f0).
    assert (Hm0' : edge_f0 m = edge_f0 (f i)) by (rewrite Hval; reflexivity).
    assert (Hm1' : edge_f1 m = edge_f0 (f j)) by (rewrite Hval; reflexivity).
    assert (Hms : edge_shape_id m = shape_id) by (rewrite Hval; exact Hs).
    cbn [length] in Hlen.
    split; [exact Hms |]. split; [lia |].
    split; [exists (f i); split; [exact Hini | exact Hm0'] |].
    split; [rewrite Hm0'; exact Hf0 |].
    split; [split; [rewrite Hm1'; lia | lia] |].
    split; [intros _; exists (f j); split; [exact Hinj |];
            split; [exact Hm1' | rewrite Hm1'; exact Hj0] |].
    split.
    + intros _. exists i, j.
      split; [apply (Hslots i); now left |].
      split; [apply (Hslots j); right; exact Hj |].
      split; [exact Hij |].
      split; [apply Hkeys; now left |].
      split; [apply Hkeys; right; exact Hj |].
      split; [exact Hm0 | exact Hm1].
    + intros Hnd _ Hsame. rewrite Hm0, Hm1 in Hsame.
      destruct (Hslots i (or_introl eq_refl)) as [Hi _].
      destruct (Hslots j (or_intror Hj)) as [Hjr _].
      rewrite !Z.quot_div_nonneg in Hsame by lia.
      pose proof (Z.div_mod i 3 ltac:(lia)) as Ei.
      pose proof (Z.div_mod j 3 ltac:(lia)) as Ej.
      pose proof (Z.mod_pos_bound i 3 ltac:(lia)) as Bi.
      pose proof (Z.mod_pos_bound j 3 ltac:(lia)) as Bj.
      assert (Ht : 0 <= i / 3 < num_triangles shape).
      { split; [apply Z.div_pos; lia | apply Z.div_lt_upper_bound; lia]. }
      apply (nondegenerate_sides_differ shape_id shape (i / 3) (i mod 3) (j mod 3)
               (Hnd _ Ht)); try lia.
      replace (3 * (i / 3) + i mod 3) with i by lia.
      replace (3 * (i / 3) + j mod 3) with j by lia.
      fold f. rewrite (Hkeys i), (Hkeys j); [reflexivity | right; exact Hj | now left].
Qed.

(** The theorem above on the shared edge of the quad. *)
Lemma merged_edge_faces_witness :
  In (mkEdge 0 1 2 0 1) (shape_edges EdgeSort.sort 0 quad_mesh) /\
  0 <= edge_f0 (mkEdge 0 1 2 0 1) < num_triangles quad_mesh.
Proof.
  assert (Hin : In (mkEdge 0 1 2 0 1) (shape_edges EdgeSort.sort 0 quad_mesh)).
  { rewrite quad_edges. simpl. tauto. }
  split; [exact Hin |].
  apply (merged_edge_faces EdgeSort.sort mergesort_sorts_edges 0 quad_mesh _ Hin).
Defined.

(** ** The edge buffer of all shapes *)

Section EdgeBuffer.

Variable sort : list Edge -> list Edge.
Hypothesis Hsort : sorts_edges sort.

Lemma reduce_run_length (l : list Edge) :
  forall k v, (length (reduce_run k v l) <= S (length l))%nat.
Proof.
  induction l as [| e l IH]; intros k v; simpl; [lia |].
  destruct (edge_equal_comparer k e); [specialize (IH k (edge_merger v e)) |
                                       specialize (IH e e)]; simpl; lia.
Qed.

Lemma reduce_by_key_length (l : list Edge) :
  (length (reduce_by_key l) <= length l)%nat.
Proof. destruct l as [| e l]; simpl; [lia | apply reduce_run_length]. Qed.

Lemma shape_edges_length (shape_id : Z) (shape : Shape) :
  (length (shape_edges sort shape_id shape) <= Z.to_nat (3 * num_triangles shape))%nat.
Proof.
  unfold shape_edges. rewrite length_map.
  eapply Nat.le_trans; [apply reduce_by_key_length |].
  destruct (Hsort (collect_edges shape_id shape)) as [Hperm _].
  rewrite <- (Permutation_length Hperm).
  unfold collect_edges. rewrite length_map, index_range_length. lia.
Qed.

Lemma shape_edges_fields (shape_id : Z) (shape : Shape) (m : Edge) :
  In m (shape_edges sort shape_id shape) ->
  edge_shape_id m = shape_id /\ 0 <= edge_f0 m < num_triangles shape /\
  edge_v0 m <= edge_v1 m.
Proof.
  intros Hm.
  destruct (merged_edge_run sort Hsort shape_id shape m Hm) as (g & gs & Hperm & Hval).
  assert (Hg : In g (collect_edges shape_id shape)).
  { assert (H : In g (occurrences m (collect_edges shape_id shape)))
      by (eapply Permutation_in; [symmetry; exact Hperm | now left]).
    apply filter_In in H. tauto. }
  apply collect_edges_fields in Hg as (Hs & Hf & _ & Hv).
  assert (Hk : edge_key m = edge_key g) by (rewrite Hval; apply fold_merger_key).
  unfold edge_key in Hk. injection Hk as Hk0 Hk1.
  destruct gs as [| e gs].
  - simpl in Hval. subst m. auto.
  - rewrite fold_merger_last in Hval by discriminate. subst m. simpl in *. auto.
Qed.

Lemma shape_edges_NoDup (shape_id : Z) (shape : Shape) :
  NoDup (map global_key (shape_edges sort shape_id shape)).
Proof.
  destruct (Hsort (collect_edges shape_id shape)) as [_ Hsorted].
  destruct (reduce_by_key_runs _ Hsorted) as (_ & Hnd & _).
  rewrite <- (merged_keys _ Hsorted) in Hnd. fold (shape_edges sort shape_id shape) in Hnd.
  revert Hnd. generalize (shape_edges sort shape_id shape) as es.
  intros es. induction es as [| e es IH]; intros Hnd; [constructor |].
  cbn [map] in *. inversion Hnd as [| ? ? Hnin Hnd']; subst.
  constructor; [| now apply IH].
  intros Hin. apply Hnin. apply in_map_iff in Hin as (e' & Hk & He').
  apply in_map_iff. exists e'. split; [| exact He'].
  unfold global_key in Hk. unfold edge_key in *. congruence.
Qed.

Lemma num_total_triangles_from (shapes : list Shape) :
  forall total,
  fold_left (fun total shape => total + num_triangles shape) shapes total =
  total + num_total_triangles shapes.
Proof.
  unfold num_total_triangles.
  induction shapes as [| shape shapes IH]; intros total; cbn [fold_left]; [lia |].
  rewrite (IH (total + num_triangles shape)), (IH (0 + num_triangles shape)). lia.
Qed.

Lemma EdgeSampler_edges_from_spec (shapes : list Shape) :
  forall first,
  (forall shape, In shape shapes -> 0 <= num_triangles shape) ->
  let edges := EdgeSampler_edges_from sort first shapes in
  Z.of_nat (length edges) <= 3 * num_total_triangles shapes /\
  (forall e, In e edges ->
     first <= edge_shape_id e < first + Z.of_nat (length shapes) /\
     exists shape,
       nth_error shapes (Z.to_nat (edge_shape_id e - first)) = Some shape /\
       0 <= edge_f0 e < num_triangles shape /\ edge_v0 e <= edge_v1 e) /\
  NoDup (map global_key edges).
Proof.
  induction shapes as [| shape shapes IH]; intros first Hnt.
  - cbn. repeat split; [unfold num_total_triangles; simpl; lia | contradiction
                        | contradiction | contradiction | constructor].
  - cbn zeta. cbn [EdgeSampler_edges_from].
    assert (Hnt' : forall s, In s shapes -> 0 <= num_triangles s)
      by (intros s Hs; apply Hnt; now right).
    destruct (IH (first + 1) Hnt') as (Hlen & Hin & Hnd). cbv zeta in Hlen, Hin, Hnd.
    pose proof (Hnt shape (or_introl eq_refl)) as Hshape.
    split; [| split].
    + rewrite length_app. pose proof (shape_edges_length first shape).
      unfold num_total_triangles. cbn [fold_left].
      rewrite num_total_triangles_from. lia.
    + intros e He. apply in_app_or in He as [He | He].
      * apply shape_edges_fields in He as (Hs & Hf & Hv). rewrite Hs.
        cbn [length]. split; [lia |]. exists shape.
        replace (first - first) with 0 by lia. simpl. auto.
      * destruct (Hin e He) as (Hr & s & Hnth & Hf & Hv). cbn [length].
        split; [lia |]. exists s. split; [| auto].
        replace (Z.to_nat (edge_shape_id e - first))
          with (S (Z.to_nat (edge_shape_id e - (first + 1)))) by lia.
        exact Hnth.
    + rewrite map_app. apply NoDup_app.
      * apply shape_edges_NoDup.
      * exact Hnd.
      * intros k Hk1 Hk2.
        apply in_map_iff in Hk1 as (e1 & <- & He1).
        apply in_map_iff in Hk2 as (e2 & Hk & He2).
        apply shape_edges_fields in He1 as (Hs1 & _).
        destruct (Hin e2 He2) as (Hr & _).
        unfold global_key in Hk. injection Hk as Hk _. lia.
Qed.

End EdgeBuffer.

(** X3.  The edge buffer that the constructor fills, for shapes with
    non-negative triangle counts: the merged edges fit into the
    [3 * num_total_triangles] slots that were allocated; every edge carries
    the index of an existing shape, a triangle of that shape as [f0], and
    [v0 <= v1]; and no two edges of the buffer have the same shape and the
    same vertex pair. *)
Theorem edge_buffer_layout (sort : list Edge -> list Edge) (shapes : list Shape) :
  sorts_edges sort ->
  (forall shape, In shape shapes -> 0 <= num_triangles shape) ->
  let edges := EdgeSampler_edges sort shapes in
  Z.of_nat (length edges) <= 3 * num_total_triangles shapes /\
  (forall e, In e edges ->
     0 <= edge_shape_id e < Z.of_nat (length shapes) /\
     exists shape,
       nth_error shapes (Z.to_nat (edge_shape_id e)) = Some shape /\
       0 <= edge_f0 e < num_triangles shape /\ edge_v0 e <= edge_v1 e) /\
  NoDup (map global_key edges).
Proof.
  intros Hsort Hnt edges.
  destruct (EdgeSampler_edges_from_spec sort Hsort shapes 0 Hnt) as (Hlen & Hin & Hnd).
  split; [exact Hlen |]. split; [| exact Hnd].
  intros e He. destruct (Hin e He) as (Hr & shape & Hnth & Hrest).
  split; [lia |]. exists shape. rewrite Z.sub_0_r in Hnth. auto.
Qed.

(** The theorem above on a scene made of the quad and of the mesh with a
    repeated vertex index. *)
Lemma edge_buffer_layout_witness :
  Z.of_nat (length (EdgeSampler_edges EdgeSort.sort [quad_mesh; degenerate_mesh]))
  <= 3 * num_total_triangles [quad_mesh; degenerate_mesh].
Proof.
  apply (edge_buffer_layout EdgeSort.sort [quad_mesh; degenerate_mesh]
           mergesort_sorts_edges).
  intros shape [<- | [<- | []]]; simpl; lia.
Defined.

(** ** Selection of an edge by binary search in a cdf *)

Section SelectionFacts.

Local Open Scope R_scope.

Lemma upper_bound_from_spec (first : Buffer R) (x : R) (remaining : nat) :
  forall i,
  let r := upper_bound_from first x i remaining in
  (i <= r <= i + Z.of_nat remaining)%Z /\
  (forall j, (i <= j < r)%Z -> first j <= x) /\
  ((r < i + Z.of_nat remaining)%Z -> x < first r).
Proof.
  induction remaining as [| remaining IH]; intros i; cbn [upper_bound_from].
  - cbv zeta. split; [lia |]. split; intros; lia.
  - destruct (Rltb x (first i)) eqn:E.
    + apply Rltb_true in E. cbv zeta. split; [lia |].
      split; [intros; lia | intros _; exact E].
    + apply Rltb_false in E. destruct (IH (i + 1)%Z) as (Hr & Hle & Hgt).
      cbv zeta in *. split; [lia |]. split.
      * intros j Hj. destruct (Z.eq_dec j i) as [-> | Hne]; [exact E |].
        apply Hle. lia.
      * intros Hlt. apply Hgt. lia.
Qed.

Lemma thrust_upper_bound_spec (first : Buffer R) (n : Z) (x : R) :
  (0 <= n)%Z ->
  let r := thrust_upper_bound first n x in
  (0 <= r <= n)%Z /\
  (forall j, (0 <= j < r)%Z -> first j <= x) /\
  ((r < n)%Z -> x < first r).
Proof.
  intros Hn. unfold thrust_upper_bound.
  destruct (upper_bound_from_spec first x (Z.to_nat n) 0%Z) as (Hr & Hle & Hgt).
  cbv zeta in *. rewrite Z2Nat.id in * by lia. repeat split; try lia; auto.
Qed.

Lemma clampZ_range (v lo hi : Z) : (lo <= hi)%Z -> (lo <= clampZ v lo hi <= hi)%Z.
Proof.
  intros H. unfold clampZ.
  destruct (v <? lo)%Z eqn:E1; [lia |]. destruct (v >? hi)%Z eqn:E2; lia.
Qed.

End SelectionFacts.

(** Range and bracket of the selected edge on an ascending cdf. *)
Lemma select_edge_range_and_bracket (edges_cdf : Buffer R) (num_edges : Z) (u : R) :
  1 <= num_edges -> ascending edges_cdf num_edges -> (edges_cdf 0%Z <= u)%R ->
  let i := select_edge edges_cdf num_edges u in
  0 <= i < num_edges /\
  (edges_cdf i <= u)%R /\
  (i < num_edges - 1 -> (u < edges_cdf (i + 1)%Z)%R).
Proof.
  intros Hn Hasc H0 i.
  pose proof (clampZ_range (thrust_upper_bound edges_cdf num_edges u - 1) 0
                (num_edges - 1) ltac:(lia)) as Hrange.
  fold (select_edge edges_cdf num_edges u) in Hrange. fold i in Hrange.
  destruct (thrust_upper_bound_spec edges_cdf num_edges u ltac:(lia)) as (Hr & Hle & Hgt).
  cbv zeta in Hr, Hle, Hgt.
  set (r := thrust_upper_bound edges_cdf num_edges u) in *.
  assert (Hpos : 1 <= r).
  { destruct (Z_lt_ge_dec r 1) as [Hlt | Hge]; [| lia].
    assert (r = 0) by lia. assert (Hx : (u < edges_cdf r)%R) by (apply Hgt; lia).
    replace r with 0 in Hx by lia. lra. }
  assert (Hi : i = r - 1).
  { unfold i, select_edge. fold r. unfold clampZ.
    destruct (r - 1 <? 0) eqn:E1; [lia |]. destruct (r - 1 >? num_edges - 1) eqn:E2; lia. }
  split; [lia |]. split; [apply Hle; lia |].
  intros Hlt. replace (i + 1) with r by lia. apply Hgt. lia.
Qed.

(** X4.  The edge selected for a sample [u] is always an index of the buffer
    (for a buffer that is not empty).  On a cdf in ascending order that
    starts at or below [u], it is the one index [i] with
    [cdf[i] <= u] and [u < cdf[i+1]] (the second condition being dropped
    for the last edge): inverse transform sampling. *)
Theorem select_edge_inverts_cdf (edges_cdf : Buffer R) (num_edges : Z) (u : R) :
  1 <= num_edges ->
  let i := select_edge edges_cdf num_edges u in
  0 <= i < num_edges /\
  (ascending edges_cdf num_edges -> (edges_cdf 0%Z <= u)%R ->
   (edges_cdf i <= u)%R /\
   (i < num_edges - 1 -> (u < edges_cdf (i + 1)%Z)%R) /\
   (forall j, 0 <= j < num_edges -> (edges_cdf j <= u)%R ->
      (j < num_edges - 1 -> (u < edges_cdf (j + 1)%Z)%R) -> j = i)).
Proof.
  intros Hn i.
  pose proof (clampZ_range (thrust_upper_bound edges_cdf num_edges u - 1) 0
                (num_edges - 1) ltac:(lia)) as Hrange.
  fold (select_edge edges_cdf num_edges u) in Hrange. fold i in Hrange.
  split; [lia |]. intros Hasc H0.
  destruct (select_edge_range_and_bracket edges_cdf num_edges u Hn Hasc H0)
    as (_ & Hlow & Hup).
  fold i in Hlow, Hup.
  split; [exact Hlow |]. split; [exact Hup |].
  intros j Hj Hjl Hju.
  destruct (Z.lt_trichotomy j i) as [Hlt | [Heq | Hgt']]; [| exact Heq |].
  - exfalso. assert (Hc : (edges_cdf (j + 1)%Z <= edges_cdf i)%R) by (apply Hasc; lia).
    specialize (Hju ltac:(lia)). lra.
  - exfalso. assert (Hc : (edges_cdf (i + 1)%Z <= edges_cdf j)%R) by (apply Hasc; lia).
    specialize (Hup ltac:(lia)). lra.
Qed.

Lemma three_step_cdf_ascending : ascending three_step_cdf 3.
Proof.
  intros i j Hij Hj. unfold three_step_cdf.
  destruct (i =? 0) eqn:Ei0; destruct (j =? 0) eqn:Ej0;
    destruct (i =? 1) eqn:Ei1; destruct (j =? 1) eqn:Ej1;
    rewrite ?Z.eqb_eq, ?Z.eqb_neq in *; try lia; lra.
Qed.

(** The theorem above on the cdf with three steps: the sample 1/2 selects
    the middle edge. *)
Lemma select_edge_inverts_cdf_witness :
  select_edge three_step_cdf 3 (1 / 2) = 1.
Proof.
  destruct (select_edge_inverts_cdf three_step_cdf 3 (1 / 2) ltac:(lia))
    as (_ & Hinv).
  destruct Hinv as (_ & _ & Huniq).
  - exact three_step_cdf_ascending.
  - unfold three_step_cdf. simpl. lra.
  - symmetry. apply Huniq; [lia | unfold three_step_cdf; simpl; lra |].
    intros _. unfold three_step_cdf. simpl. lra.
Defined.

Lemma nth_map_in {A B : Type} (f : A -> B) (xs : list A) (d : B) (d' : A) (i : nat) :
  (i < length xs)%nat -> nth i (map f xs) d = f (nth i xs d').
Proof.
  intros Hi. rewrite (nth_indep _ d (f d')) by (rewrite length_map; exact Hi).
  apply map_nth.
Qed.

Section PrimaryTask.

Context `{Collaborators}.

(** The channel loop over any list of channels in [0, nd): the slot
    [2 nd idx + d] receives [upper d], the slot [2 nd idx + d + nd] receives
    [lower d], nothing else changes. *)
Lemma write_channels_spec (nd idx : Z) (upper lower : Z -> R) (ds : list Z) :
  (forall d, In d ds -> 0 <= d < nd) ->
  forall o,
  let o' := fold_left (write_channel nd idx upper lower) ds o in
  edge_records o' = edge_records o /\
  rays o' = rays o /\
  primary_ray_differentials o' = primary_ray_differentials o /\
  throughputs o' = throughputs o /\
  (forall i, channel_multipliers o' i =
     let d := i - 2 * nd * idx in
     if existsb (Z.eqb d) ds then upper d
     else if existsb (Z.eqb (d - nd)) ds then lower (d - nd)
     else channel_multipliers o i).
Proof.
  induction ds as [| d ds IH]; intros Hds o.
  - cbn. repeat split; reflexivity.
  - cbv zeta. cbn [fold_left].
    assert (Hds' : forall d', In d' ds -> 0 <= d' < nd)
      by (intros d' Hd'; apply Hds; now right).
    assert (Hd : 0 <= d < nd) by (apply Hds; now left).
    pose proof (IH Hds' (write_channel nd idx upper lower o d))
      as (Her & Hr & Hrd & Ht & Hcm).
    split; [rewrite Her; reflexivity |]. split; [rewrite Hr; reflexivity |].
    split; [rewrite Hrd; reflexivity |]. split; [rewrite Ht; reflexivity |].
    intros i. rewrite Hcm. cbv zeta. cbn [existsb].
    set (x := i - 2 * nd * idx).
    destruct (existsb (Z.eqb x) ds) eqn:E1.
    { rewrite orb_true_r. reflexivity. }
    rewrite orb_false_r.
    destruct (existsb (Z.eqb (x - nd)) ds) eqn:E2.
    { rewrite orb_true_r.
      apply existsb_exists in E2. destruct E2 as (d' & Hin & Heq).
      apply Z.eqb_eq in Heq. specialize (Hds' d' Hin).
      destruct (x =? d) eqn:E3; [apply Z.eqb_eq in E3; lia | reflexivity]. }
    rewrite orb_false_r.
    unfold write_channel, set_channel_multiplier, store.
    cbn [channel_multipliers].
    destruct (i =? 2 * nd * idx + d + nd) eqn:E3.
    + apply Z.eqb_eq in E3.
      destruct (x =? d) eqn:E4; [apply Z.eqb_eq in E4; lia |].
      destruct (x - nd =? d) eqn:E5; [| apply Z.eqb_neq in E5; lia].
      apply Z.eqb_eq in E5. now rewrite E5.
    + apply Z.eqb_neq in E3. destruct (i =? 2 * nd * idx + d) eqn:E4.
      * apply Z.eqb_eq in E4.
        destruct (x =? d) eqn:E5; [| apply Z.eqb_neq in E5; lia].
        apply Z.eqb_eq in E5. now rewrite E5.
      * apply Z.eqb_neq in E4.
        destruct (x =? d) eqn:E5; [apply Z.eqb_eq in E5; lia |].
        destruct (x - nd =? d) eqn:E6; [apply Z.eqb_eq in E6; lia | reflexivity].
Qed.

Lemma existsb_index_range (x n : Z) :
  existsb (Z.eqb x) (index_range n) = (0 <=? x) && (x <? n).
Proof.
  destruct ((0 <=? x) && (x <? n)) eqn:E.
  - apply existsb_exists. exists x. split; [| apply Z.eqb_refl].
    apply index_range_In. lia.
  - destruct (existsb (Z.eqb x) (index_range n)) eqn:E1; [| reflexivity].
    apply existsb_exists in E1. destruct E1 as (y & Hin & Heq).
    apply Z.eqb_eq in Heq. subst y. apply index_range_In in Hin. lia.
Qed.

Lemma write_channel_multipliers_spec (nd idx : Z) (upper lower : Z -> R)
    (o : PrimaryOutputs) :
  let o' := write_channel_multipliers nd idx upper lower o in
  edge_records o' = edge_records o /\
  rays o' = rays o /\
  primary_ray_differentials o' = primary_ray_differentials o /\
  throughputs o' = throughputs o /\
  (forall i, channel_multipliers o' i =
     let d := i - 2 * nd * idx in
     if (0 <=? d) && (d <? nd) then upper d
     else if (nd <=? d) && (d <? 2 * nd) then lower (d - nd)
     else channel_multipliers o i).
Proof.
  cbv zeta. unfold write_channel_multipliers.
  destruct (write_channels_spec nd idx upper lower (index_range nd)
              (fun d Hd => proj1 (index_range_In nd d) Hd) o)
    as (Her & Hr & Hrd & Ht & Hcm).
  repeat split; try assumption.
  intros i. rewrite Hcm. cbv zeta. rewrite !existsb_index_range.
  set (x := i - 2 * nd * idx).
  destruct ((0 <=? x) && (x <? nd)); [reflexivity |].
  replace ((0 <=? x - nd) && (x - nd <? nd)) with ((nd <=? x) && (x <? 2 * nd));
    [reflexivity |].
  destruct (nd <=? x) eqn:E1, (x <? 2 * nd) eqn:E2,
           (0 <=? x - nd) eqn:E3, (x - nd <? nd) eqn:E4; try reflexivity; lia.
Qed.

(** "Initialize output" as a set of slot writes. *)
Lemma primary_initialize_writes (channel_info : ChannelInfo) (idx : Z)
    (o : PrimaryOutputs) :
  primary_task_writes (num_total_dimensions channel_info) idx
    PrimaryEdgeRecord_init (make_ray zero3 zero3) (make_ray zero3 zero3)
    zero3 zero3 (fun _ => 0%R) (fun _ => 0%R) None
    o (primary_initialize channel_info idx o).
Proof.
  unfold primary_initialize. cbv zeta.
  set (nd := num_total_dimensions channel_info).
  set (o1 := set_throughput
               (set_throughput (set_edge_record o idx PrimaryEdgeRecord_init)
                  (2 * idx + 0) zero3) (2 * idx + 1) zero3).
  destruct (write_channel_multipliers_spec nd idx (fun _ => 0%R) (fun _ => 0%R) o1)
    as (Her & Hr & Hrd & Ht & Hcm).
  cbv zeta in Her, Hr, Hrd, Ht, Hcm.
  unfold primary_task_writes, set_ray.
  cbn [edge_records rays primary_ray_differentials throughputs channel_multipliers].
  rewrite Her, Hr, Hrd, Ht.
  unfold o1 at 1 2 3 4, set_throughput, set_edge_record.
  cbn [edge_records rays primary_ray_differentials throughputs channel_multipliers].
  unfold store.
  split; [reflexivity |].
  split; [intros i; destruct (i =? 2 * idx + 1) eqn:E1, (i =? 2 * idx + 0) eqn:E0;
          try reflexivity; lia |].
  split; [intros i; destruct (i =? 2 * idx + 1) eqn:E1, (i =? 2 * idx + 0) eqn:E0;
          try reflexivity; lia |].
  split; [| reflexivity].
  intros i. rewrite Hcm. reflexivity.
Qed.

(** The ray differential that the tail of the sampler stores for a sample
    whose record is [record]. *)
Lemma primary_ray_differential_writes (camera : Camera) (idx : Z)
    (record : PrimaryEdgeRecord) :
  exists rd, forall o, edge_records o idx = record ->
    let o' := primary_ray_differential camera idx o in
    edge_records o' = edge_records o /\
    rays o' = rays o /\
    throughputs o' = throughputs o /\
    channel_multipliers o' = channel_multipliers o /\
    (forall i, primary_ray_differentials o' i =
       if i =? idx then rd else primary_ray_differentials o i).
Proof.
  eexists. intros o Hrec. cbv zeta. unfold primary_ray_differential. cbv zeta.
  unfold set_ray_differential.
  cbn [edge_records rays primary_ray_differentials throughputs channel_multipliers].
  repeat split. intros i. unfold store. rewrite Hrec. reflexivity.
Qed.

(** The writes of a successful sample, on top of "Initialize output". *)
Lemma primary_success_writes (camera : Camera) (channel_info : ChannelInfo)
    (idx : Z) (record : PrimaryEdgeRecord) (ray_u ray_l : Ray)
    (w_u w_l : Vector3) (upper lower : Z -> R) :
  exists rd, forall o,
    primary_task_writes (num_total_dimensions channel_info) idx
      record ray_u ray_l w_u w_l upper lower (Some rd) o
      (primary_ray_differential camera idx
         (write_channel_multipliers (num_total_dimensions channel_info) idx
            upper lower
            (set_throughput
               (set_throughput
                  (set_ray
                     (set_ray
                        (set_edge_record (primary_initialize channel_info idx o)
                           idx record)
                        (2 * idx + 0) ray_u)
                     (2 * idx + 1) ray_l)
                  (2 * idx + 0) w_u)
               (2 * idx + 1) w_l))).
Proof.
  destruct (primary_ray_differential_writes camera idx record) as (rd & Hrd).
  exists rd. intros o.
  set (nd := num_total_dimensions channel_info).
  destruct (primary_initialize_writes channel_info idx o)
    as (Ier & Ir & It & Icm & Ird). fold nd in Icm.
  set (o0 := primary_initialize channel_info idx o) in *.
  set (o1 := set_throughput _ _ w_l).
  destruct (write_channel_multipliers_spec nd idx upper lower o1)
    as (Her & Hr & Hd & Ht & Hcm).
  cbv zeta in Her, Hr, Hd, Ht, Hcm.
  set (o2 := write_channel_multipliers nd idx upper lower o1) in *.
  assert (Hrec : edge_records o2 idx = record).
  { rewrite Her. unfold o1, set_throughput, set_ray, set_edge_record.
    cbn [edge_records]. apply store_same. }
  destruct (Hrd o2 Hrec) as (Per & Pr & Pt & Pcm & Pd).
  unfold primary_task_writes. rewrite Per, Pr, Pt, Pcm, Her, Hr, Ht.
  unfold o1 at 1 2 3, set_throughput, set_ray, set_edge_record.
  cbn [edge_records rays primary_ray_differentials throughputs channel_multipliers].
  unfold store.
  split; [intros i; destruct (i =? idx) eqn:E;
          [reflexivity | rewrite Ier, E; reflexivity] |].
  split.
  { intros i. rewrite Ir.
    destruct (i =? 2 * idx + 1) eqn:E1, (i =? 2 * idx + 0) eqn:E0;
      try reflexivity; lia. }
  split.
  { intros i. rewrite It.
    destruct (i =? 2 * idx + 1) eqn:E1, (i =? 2 * idx + 0) eqn:E0;
      try reflexivity; lia. }
  split.
  { intros i. rewrite Hcm. cbv zeta.
    unfold o1, set_throughput, set_ray, set_edge_record.
    cbn [channel_multipliers]. rewrite Icm. cbv zeta.
    destruct ((0 <=? i - 2 * nd * idx) && (i - 2 * nd * idx <? nd)); [reflexivity |].
    destruct ((nd <=? i - 2 * nd * idx) && (i - 2 * nd * idx <? 2 * nd));
      reflexivity. }
  intros i. rewrite Pd. destruct (i =? idx); [reflexivity |].
  rewrite Hd. unfold o1, set_throughput, set_ray, set_edge_record.
  cbn [primary_ray_differentials]. apply Ird.
Qed.

(** One task of the primary edge sampler as a set of slot writes: the
    values do not depend on the previous content of the buffers, the lower
    throughput and multipliers are the opposites of the upper ones. *)
Lemma primary_edge_sampler_writes (camera : Camera) (shapes : Buffer Shape)
    (edges_buffer : Buffer Edge) (num_edges : Z) (edges_pmf edges_cdf : Buffer R)
    (samples : Buffer PrimaryEdgeSample) (d_rendered_image : Buffer R)
    (channel_info : ChannelInfo) (idx : Z) :
  exists record ray_u ray_l w_u w_l upper lower rd,
    w_l = neg3 w_u /\
    (forall d, lower d = (- upper d)%R) /\
    forall o,
      primary_task_writes (num_total_dimensions channel_info) idx
        record ray_u ray_l w_u w_l upper lower rd o
        (primary_edge_sampler camera shapes edges_buffer num_edges edges_pmf
           edges_cdf samples d_rendered_image channel_info idx o).
Proof.
  assert (Hfail : exists record ray_u ray_l w_u w_l upper lower rd,
    w_l = neg3 w_u /\ (forall d : Z, lower d = (- upper d)%R) /\
    forall o, primary_task_writes (num_total_dimensions channel_info) idx
                record ray_u ray_l w_u w_l upper lower rd o
                (primary_initialize channel_info idx o)).
  { exists PrimaryEdgeRecord_init, (make_ray zero3 zero3), (make_ray zero3 zero3),
      zero3, zero3, (fun _ => 0%R), (fun _ => 0%R), None.
    split; [unfold neg3, zero3; cbn [vx vy vz]; f_equal; lra |].
    split; [intros d; lra |]. apply primary_initialize_writes. }
  unfold primary_edge_sampler. cbv zeta.
  set (edge_id := clampZ _ 0 (num_edges - 1)).
  destruct (project camera _ _) as [[v0_ss v1_ss] |]; [| exact Hfail].
  destruct (Rleb (edges_pmf edge_id) 0); [exact Hfail |].
  destruct (camera_fisheye camera); cbn [negb].
  - destruct (in_screen camera _); cbn [negb]; [| exact Hfail].
    match goal with
    | |- context [primary_ray_differential camera idx
           (write_channel_multipliers _ idx ?up ?lo
              (set_throughput (set_throughput
                 (set_ray (set_ray (set_edge_record _ idx ?rec) _ ?ru) _ ?rl)
                 _ ?wu) _ ?wl))] =>
        destruct (primary_success_writes camera channel_info idx rec ru rl wu wl up lo)
          as (rd & Hrd);
        exists rec, ru, rl, wu, wl, up, lo, (Some rd)
    end.
    split; [unfold neg3, scale3, div3, Rdiv; cbn [vx vy vz]; f_equal; ring |].
    split; [intros d; unfold Rdiv; ring | exact Hrd].
  - destruct (in_screen camera _); cbn [negb]; [| exact Hfail].
    match goal with
    | |- context [primary_ray_differential camera idx
           (write_channel_multipliers _ idx ?up ?lo
              (set_throughput (set_throughput
                 (set_ray (set_ray (set_edge_record _ idx ?rec) _ ?ru) _ ?rl)
                 _ ?wu) _ ?wl))] =>
        destruct (primary_success_writes camera channel_info idx rec ru rl wu wl up lo)
          as (rd & Hrd);
        exists rec, ru, rl, wu, wl, up, lo, (Some rd)
    end.
    split; [unfold neg3, scale3, div3, Rdiv; cbn [vx vy vz]; f_equal; ring |].
    split; [intros d; unfold Rdiv; ring | exact Hrd].
Qed.

Lemma same_primary_slots_refl nd idx (o : PrimaryOutputs) :
  same_primary_slots nd idx o o.
Proof. unfold same_primary_slots. repeat split; reflexivity. Qed.

Lemma same_primary_slots_trans nd idx (o1 o2 o3 : PrimaryOutputs) :
  same_primary_slots nd idx o1 o2 -> same_primary_slots nd idx o2 o3 ->
  same_primary_slots nd idx o1 o3.
Proof.
  intros (A1 & A2 & A3 & A4 & A5 & A6 & A7) (B1 & B2 & B3 & B4 & B5 & B6 & B7).
  unfold same_primary_slots.
  rewrite A1, A2, A3, A4, A5, A7. repeat split; try assumption.
  intros d Hd. rewrite A6 by exact Hd. now apply B6.
Qed.

(** A task writes no slot of another sample. *)
Lemma primary_edge_sampler_frame (camera : Camera) (shapes : Buffer Shape)
    (edges_buffer : Buffer Edge) (num_edges : Z) (edges_pmf edges_cdf : Buffer R)
    (samples : Buffer PrimaryEdgeSample) (d_rendered_image : Buffer R)
    (channel_info : ChannelInfo) (idx j : Z) (o : PrimaryOutputs) :
  j <> idx ->
  same_primary_slots (num_total_dimensions channel_info) j
    (primary_edge_sampler camera shapes edges_buffer num_edges edges_pmf
       edges_cdf samples d_rendered_image channel_info idx o) o.
Proof.
  intros Hne.
  destruct (primary_edge_sampler_writes camera shapes edges_buffer num_edges
              edges_pmf edges_cdf samples d_rendered_image channel_info idx)
    as (record & ray_u & ray_l & w_u & w_l & upper & lower & rd & _ & _ & Hw).
  destruct (Hw o) as (Her & Hr & Ht & Hcm & Hd).
  set (nd := num_total_dimensions channel_info) in *.
  unfold same_primary_slots. rewrite Her, !Hr, !Ht, Hd.
  assert (E : (j =? idx) = false) by (apply Z.eqb_neq; exact Hne). rewrite E.
  assert (E00 : (2 * j + 0 =? 2 * idx + 0) = false) by (apply Z.eqb_neq; lia).
  assert (E01 : (2 * j + 0 =? 2 * idx + 1) = false) by (apply Z.eqb_neq; lia).
  assert (E10 : (2 * j + 1 =? 2 * idx + 0) = false) by (apply Z.eqb_neq; lia).
  assert (E11 : (2 * j + 1 =? 2 * idx + 1) = false) by (apply Z.eqb_neq; lia).
  rewrite E00, E01, E10, E11.
  split; [reflexivity |]. split; [reflexivity |]. split; [reflexivity |].
  split; [reflexivity |]. split; [reflexivity |].
  split; [| destruct rd; reflexivity].
  intros d Hrange. rewrite Hcm. cbv zeta.
  assert (Hout : 2 * nd * j + d - 2 * nd * idx < 0 \/
                 2 * nd <= 2 * nd * j + d - 2 * nd * idx) by nia.
  destruct ((0 <=? 2 * nd * j + d - 2 * nd * idx) &&
            (2 * nd * j + d - 2 * nd * idx <? nd)) eqn:E1; [lia |].
  destruct ((nd <=? 2 * nd * j + d - 2 * nd * idx) &&
            (2 * nd * j + d - 2 * nd * idx <? 2 * nd)) eqn:E2; [lia | reflexivity].
Qed.

(** What a task leaves in the slots of its own sample depends on nothing
    but these slots. *)
Lemma primary_edge_sampler_local (camera : Camera) (shapes : Buffer Shape)
    (edges_buffer : Buffer Edge) (num_edges : Z) (edges_pmf edges_cdf : Buffer R)
    (samples : Buffer PrimaryEdgeSample) (d_rendered_image : Buffer R)
    (channel_info : ChannelInfo) (idx : Z) (o1 o2 : PrimaryOutputs) :
  same_primary_slots (num_total_dimensions channel_info) idx o1 o2 ->
  same_primary_slots (num_total_dimensions channel_info) idx
    (primary_edge_sampler camera shapes edges_buffer num_edges edges_pmf
       edges_cdf samples d_rendered_image channel_info idx o1)
    (primary_edge_sampler camera shapes edges_buffer num_edges edges_pmf
       edges_cdf samples d_rendered_image channel_info idx o2).
Proof.
  intros (_ & _ & _ & _ & _ & _ & Hsame).
  destruct (primary_edge_sampler_writes camera shapes edges_buffer num_edges
              edges_pmf edges_cdf samples d_rendered_image channel_info idx)
    as (record & ray_u & ray_l & w_u & w_l & upper & lower & rd & _ & _ & Hw).
  destruct (Hw o1) as (Her & Hr & Ht & Hcm & Hd).
  destruct (Hw o2) as (Her2 & Hr2 & Ht2 & Hcm2 & Hd2).
  set (nd := num_total_dimensions channel_info) in *.
  unfold same_primary_slots.
  rewrite Her, Her2, !Hr, !Hr2, !Ht, !Ht2, Hd, Hd2, !Z.eqb_refl.
  assert (E10 : (2 * idx + 1 =? 2 * idx + 0) = false) by (apply Z.eqb_neq; lia).
  rewrite E10.
  split; [reflexivity |]. split; [reflexivity |]. split; [reflexivity |].
  split; [reflexivity |]. split; [reflexivity |].
  split; [| destruct rd; [reflexivity | exact Hsame]].
  intros d Hrange. rewrite Hcm, Hcm2. cbv zeta.
  replace (2 * nd * idx + d - 2 * nd * idx) with d by lia.
  destruct ((0 <=? d) && (d <? nd)) eqn:E1; [reflexivity |].
  destruct ((nd <=? d) && (d <? 2 * nd)) eqn:E2; [reflexivity | lia].
Qed.

Lemma primary_tasks_frame (camera : Camera) (shapes : Buffer Shape)
    (edges_buffer : Buffer Edge) (num_edges : Z) (edges_pmf edges_cdf : Buffer R)
    (samples : Buffer PrimaryEdgeSample) (d_rendered_image : Buffer R)
    (channel_info : ChannelInfo) (j : Z) (ds : list Z) :
  ~ In j ds ->
  forall o,
  same_primary_slots (num_total_dimensions channel_info) j
    (fold_left (fun acc idx =>
                  primary_edge_sampler camera shapes edges_buffer num_edges
                    edges_pmf edges_cdf samples d_rendered_image channel_info idx acc)
               ds o) o.
Proof.
  induction ds as [| d ds IH]; intros Hnin o.
  - apply same_primary_slots_refl.
  - cbn [fold_left]. eapply same_primary_slots_trans.
    + apply IH. intros Hin. apply Hnin. now right.
    + apply primary_edge_sampler_frame. intros ->. apply Hnin. now left.
Qed.

Lemma primary_tasks_own (camera : Camera) (shapes : Buffer Shape)
    (edges_buffer : Buffer Edge) (num_edges : Z) (edges_pmf edges_cdf : Buffer R)
    (samples : Buffer PrimaryEdgeSample) (d_rendered_image : Buffer R)
    (channel_info : ChannelInfo) (j : Z) (ds : list Z) :
  NoDup ds -> In j ds ->
  forall o,
  same_primary_slots (num_total_dimensions channel_info) j
    (fold_left (fun acc idx =>
                  primary_edge_sampler camera shapes edges_buffer num_edges
                    edges_pmf edges_cdf samples d_rendered_image channel_info idx acc)
               ds o)
    (primary_edge_sampler camera shapes edges_buffer num_edges
       edges_pmf edges_cdf samples d_rendered_image channel_info j o).
Proof.
  induction ds as [| d ds IH]; intros Hnd Hin o; [contradiction |].
  inversion Hnd as [| ? ? Hnotin Hnd']; subst. cbn [fold_left].
  destruct (Z.eq_dec d j) as [-> | Hne].
  - apply primary_tasks_frame. exact Hnotin.
  - destruct Hin as [Heq | Hin]; [contradiction |].
    eapply same_primary_slots_trans; [apply IH; assumption |].
    apply primary_edge_sampler_local, primary_edge_sampler_frame.
    intros Heq. apply Hne. now symmetry.
Qed.

End PrimaryTask.

(** X6.  The two rays of a primary edge sample carry opposite weights,
    whatever the inputs and whether the sample succeeds or not: the
    throughput of the lower ray is the negation of the throughput of the
    upper ray, and each lower channel multiplier is the negation of the
    upper multiplier of the same channel. *)
Theorem primary_sampler_antithetic `{Collaborators}
    (camera : Camera) (shapes : Buffer Shape) (edges_buffer : Buffer Edge)
    (num_edges : Z) (edges_pmf edges_cdf : Buffer R)
    (samples : Buffer PrimaryEdgeSample) (d_rendered_image : Buffer R)
    (channel_info : ChannelInfo) (idx : Z) (o : PrimaryOutputs) :
  let nd := num_total_dimensions channel_info in
  let o' := primary_edge_sampler camera shapes edges_buffer num_edges edges_pmf
              edges_cdf samples d_rendered_image channel_info idx o in
  throughputs o' (2 * idx + 1) = neg3 (throughputs o' (2 * idx + 0)) /\
  forall d, 0 <= d < nd ->
    channel_multipliers o' (2 * nd * idx + d + nd) =
    (- channel_multipliers o' (2 * nd * idx + d)%Z)%R.
Proof.
  intros nd o'.
  destruct (primary_edge_sampler_writes camera shapes edges_buffer num_edges
              edges_pmf edges_cdf samples d_rendered_image channel_info idx)
    as (record & ray_u & ray_l & w_u & w_l & upper & lower & rd & Hw & Hm & Hwr).
  destruct (Hwr o) as (_ & _ & Ht & Hcm & _). fold nd in Hcm. fold o' in Ht, Hcm.
  split.
  - rewrite !Ht, !Z.eqb_refl.
    assert (E10 : (2 * idx + 1 =? 2 * idx + 0) = false) by (apply Z.eqb_neq; lia).
    rewrite E10. exact Hw.
  - intros d Hd. rewrite !Hcm. cbv zeta.
    replace (2 * nd * idx + d + nd - 2 * nd * idx) with (d + nd) by lia.
    replace (2 * nd * idx + d - 2 * nd * idx) with d by lia.
    destruct ((0 <=? d + nd) && (d + nd <? nd)) eqn:E1; [lia |].
    destruct ((nd <=? d + nd) && (d + nd <? 2 * nd)) eqn:E2; [| lia].
    destruct ((0 <=? d) && (d <? nd)) eqn:E3; [| lia].
    replace (d + nd - nd) with d by lia. apply Hm.
Qed.

(** X7.  The pass over all primary edge samples is free of interference
    between its tasks: after [sample_primary_edges], the slots of a sample
    [idx] in [0, num_samples) hold what the task of [idx] alone writes from
    the initial buffers, and the slots of any other index are what they
    were before the pass. *)
Theorem sample_primary_edges_independent `{Collaborators}
    (camera : Camera) (shapes : Buffer Shape) (edges_buffer : Buffer Edge)
    (num_edges : Z) (edges_pmf edges_cdf : Buffer R)
    (samples : Buffer PrimaryEdgeSample) (num_samples : Z)
    (d_rendered_image : Buffer R) (channel_info : ChannelInfo)
    (idx : Z) (o : PrimaryOutputs) :
  same_primary_slots (num_total_dimensions channel_info) idx
    (sample_primary_edges camera shapes edges_buffer num_edges edges_pmf edges_cdf
       samples num_samples d_rendered_image channel_info o)
    (if (0 <=? idx) && (idx <? num_samples)
     then primary_edge_sampler camera shapes edges_buffer num_edges edges_pmf
            edges_cdf samples d_rendered_image channel_info idx o
     else o).
Proof.
  unfold sample_primary_edges, parallel_for.
  destruct ((0 <=? idx) && (idx <? num_samples)) eqn:E.
  - apply primary_tasks_own; [apply index_range_NoDup |].
    apply index_range_In. lia.
  - apply primary_tasks_frame. rewrite index_range_In. lia.
Qed.

Lemma around_roots_well_formed : well_formed_roots 1 around_roots.
Proof.
  split; intros root Hroot; simpl in Hroot; [| discriminate].
  injection Hroot as <-. constructor; [lra | lia].
Qed.

(** ** Secondary edge sampler: the edge in the local frame *)

(** X10.  Clipping against the tangent plane.  For an edge with at least
    one end point strictly above the plane [z = 0] of the local frame (the
    sampler returns before the clipping otherwise), both end points of the
    clipped edge lie on the original segment and on or above the plane; an
    end point that was on or above the plane is kept, an end point that was
    below is moved onto the plane. *)
Theorem clip_to_tangent_plane_segment (v0o v1o : Vector3) :
  (0 < vz v0o \/ 0 < vz v1o)%R ->
  let a := fst (clip_to_tangent_plane v0o v1o) in
  let b := snd (clip_to_tangent_plane v0o v1o) in
  (0 <= vz a)%R /\ (0 <= vz b)%R /\
  (exists s, (0 <= s <= 1)%R /\ a = add3 v0o (scale3 s (sub3 v1o v0o))) /\
  (exists s, (0 <= s <= 1)%R /\ b = add3 v0o (scale3 s (sub3 v1o v0o))) /\
  ((vz v0o < 0)%R -> vz a = 0%R) /\
  ((vz v1o < 0)%R -> vz b = 0%R) /\
  ((0 <= vz v0o)%R -> a = v0o) /\
  ((0 <= vz v1o)%R -> b = v1o).
Proof.
  destruct v0o as [x0 y0 z0], v1o as [x1 y1 z1]. cbv zeta. cbn [vz].
  intros Habove. unfold clip_to_tangent_plane. cbv zeta. cbn [vz fst snd].
  destruct (Rltb z0 0) eqn:E0.
  - apply Rltb_true in E0. assert (H1 : (0 < z1)%R) by lra.
    assert (E1 : Rltb z1 0 = false) by (apply Rltb_false; lra). rewrite E1.
    unfold div3, sub3, scale3, add3. cbn [vx vy vz].
    assert (Hz : ((z1 * z0 - z0 * z1) / (z1 - z0) = 0)%R) by (field; lra).
    rewrite Hz.
    assert (Hs : (0 <= - z0 / (z1 - z0) <= 1)%R).
    { split.
      - apply Rdiv_nonneg; lra.
      - apply (Rmult_le_reg_r (z1 - z0)); [lra |].
        unfold Rdiv. rewrite Rmult_assoc, Rinv_l by lra. lra. }
    split; [lra |]. split; [lra |].
    split; [exists (- z0 / (z1 - z0))%R; split; [exact Hs |]; f_equal; field; lra |].
    split; [exists 1%R; split; [lra |]; f_equal; ring |].
    split; [reflexivity |]. split; [intros; lra |].
    split; [intros; lra | reflexivity].
  - apply Rltb_false in E0. destruct (Rltb z1 0) eqn:E1.
    + apply Rltb_true in E1. assert (H0 : (0 < z0)%R) by lra.
      unfold div3, sub3, scale3, add3. cbn [vx vy vz].
      assert (Hz : ((z1 * z0 - z0 * z1) / (z1 - z0) = 0)%R) by (field; lra).
      rewrite Hz.
      assert (Hs : (0 <= z0 / (z0 - z1) <= 1)%R).
      { split.
        - apply Rdiv_nonneg; lra.
        - apply (Rmult_le_reg_r (z0 - z1)); [lra |].
          unfold Rdiv. rewrite Rmult_assoc, Rinv_l by lra. lra. }
      split; [lra |]. split; [lra |].
      split; [exists 0%R; split; [lra |]; f_equal; ring |].
      split; [exists (z0 / (z0 - z1))%R; split; [exact Hs |]; f_equal; field; lra |].
      split; [intros; lra |]. split; [reflexivity |].
      split; [reflexivity | intros; lra].
    + apply Rltb_false in E1.
      unfold sub3, scale3, add3. cbn [vx vy vz].
      split; [lra |]. split; [lra |].
      split; [exists 0%R; split; [lra |]; f_equal; ring |].
      split; [exists 1%R; split; [lra |]; f_equal; ring |].
      split; [intros; lra |]. split; [intros; lra |].
      split; reflexivity.
Qed.

(** The theorem above on an edge that crosses the plane: the end point
    below the plane is moved to the crossing point. *)
Lemma clip_to_tangent_plane_segment_witness :
  vz (fst (clip_to_tangent_plane (mkVector3 0 0 (-1)) (mkVector3 2 0 1))) = 0%R /\
  snd (clip_to_tangent_plane (mkVector3 0 0 (-1)) (mkVector3 2 0 1)) = mkVector3 2 0 1.
Proof.
  destruct (clip_to_tangent_plane_segment (mkVector3 0 0 (-1)) (mkVector3 2 0 1))
    as (_ & _ & _ & _ & Ha & _ & _ & Hb).
  - right. cbn [vz]. lra.
  - split; [apply Ha | apply Hb]; cbn [vz]; lra.
Defined.

Section EdgeLineFacts.

Local Open Scope R_scope.

Lemma length3_positive (v : Vector3) : v <> zero3 -> 0 < length3 v.
Proof.
  intros Hne. unfold length3, length_squared, dot3. apply sqrt_lt_R0.
  destruct v as [x y z]. cbn [vx vy vz].
  destruct (Req_dec x 0) as [Hx | Hx]; [| nra].
  destruct (Req_dec y 0) as [Hy | Hy]; [| nra].
  destruct (Req_dec z 0) as [Hz | Hz]; [| nra].
  exfalso. apply Hne. unfold zero3. now subst.
Qed.

Lemma length3_square (v : Vector3) : length3 v * length3 v = dot3 v v.
Proof.
  unfold length3, length_squared. apply sqrt_sqrt.
  unfold dot3. nra.
Qed.

Lemma normalize_unit (v : Vector3) : v <> zero3 -> dot3 (normalize v) (normalize v) = 1.
Proof.
  intros Hne. pose proof (length3_positive v Hne) as Hpos.
  pose proof (length3_square v) as Hsq.
  unfold normalize, div3, dot3 in *. cbn [vx vy vz].
  set (len := length3 v) in *. field_simplify; [| lra].
  replace (vx v ^ 2 + vy v ^ 2 + vz v ^ 2) with (len * len) by (rewrite Hsq; ring).
  field. lra.
Qed.

Lemma dot3_normalize (v : Vector3) : v <> zero3 -> dot3 v (normalize v) = length3 v.
Proof.
  intros Hne. pose proof (length3_positive v Hne) as Hpos.
  pose proof (length3_square v) as Hsq.
  unfold normalize, div3, dot3 in *. cbn [vx vy vz].
  set (len := length3 v) in *.
  replace (vx v * (vx v / len) + vy v * (vy v / len) + vz v * (vz v / len))
    with ((vx v * vx v + vy v * vy v + vz v * vz v) / len) by (field; lra).
  rewrite <- Hsq. field. lra.
Qed.

Lemma scale_normalize (v : Vector3) :
  v <> zero3 -> scale3 (length3 v) (normalize v) = v.
Proof.
  intros Hne. pose proof (length3_positive v Hne) as Hpos.
  destruct v as [x y z]. unfold normalize, div3, scale3. cbn [vx vy vz].
  set (len := length3 _) in *. f_equal; field; lra.
Qed.

Lemma sub3_nonzero (a b : Vector3) : a <> b -> sub3 b a <> zero3.
Proof.
  intros Hne Hz. apply Hne. destruct a as [x0 y0 z0], b as [x1 y1 z1].
  unfold sub3, zero3 in Hz. cbn [vx vy vz] in Hz. injection Hz as Hx Hy Hz.
  f_equal; lra.
Qed.

(** The geometry of the line through two distinct points. *)
Lemma edge_line_facts (v0o v1o : Vector3) :
  v0o <> v1o ->
  let wt := normalize (sub3 v1o v0o) in
  let l0 := dot3 v0o wt in
  let l1 := dot3 v1o wt in
  let vo := sub3 v0o (scale3 l0 wt) in
  let d := length3 vo in
  dot3 wt wt = 1 /\
  dot3 vo wt = 0 /\
  l1 - l0 = distance v1o v0o /\
  l0 < l1 /\
  v0o = add3 vo (scale3 l0 wt) /\
  v1o = add3 vo (scale3 l1 wt) /\
  0 <= d /\
  d * d = dot3 vo vo /\
  forall t, length_squared (add3 vo (scale3 t wt)) = d * d + t * t.
Proof.
  intros Hne wt l0 l1 vo d.
  pose proof (sub3_nonzero v0o v1o Hne) as Hv.
  pose proof (normalize_unit _ Hv) as Hunit. fold wt in Hunit.
  pose proof (dot3_normalize _ Hv) as Hdot. fold wt in Hdot.
  pose proof (scale_normalize _ Hv) as Hscale. fold wt in Hscale.
  pose proof (length3_positive _ Hv) as Hpos.
  assert (Hdiff : l1 - l0 = length3 (sub3 v1o v0o)).
  { rewrite <- Hdot. unfold l0, l1, dot3, sub3. cbn [vx vy vz]. ring. }
  assert (Hperp : dot3 vo wt = 0).
  { assert (Hlin : dot3 vo wt = l0 - l0 * dot3 wt wt).
    { unfold vo, l0, dot3, sub3, scale3. cbn [vx vy vz]. ring. }
    rewrite Hlin, Hunit. ring. }
  assert (Hdd : d * d = dot3 vo vo) by apply length3_square.
  split; [exact Hunit |]. split; [exact Hperp |].
  split; [exact Hdiff |]. split; [lra |].
  split.
  { unfold vo. destruct v0o as [x0 y0 z0]. unfold add3, sub3, scale3.
    cbn [vx vy vz]. f_equal; ring. }
  split.
  { replace l1 with (l0 + length3 (sub3 v1o v0o)) by lra.
    assert (Hlin : add3 vo (scale3 (l0 + length3 (sub3 v1o v0o)) wt) =
                   add3 v0o (scale3 (length3 (sub3 v1o v0o)) wt)).
    { unfold vo, add3, sub3, scale3. cbn [vx vy vz]. f_equal; ring. }
    rewrite Hlin, Hscale. destruct v0o as [x0 y0 z0], v1o as [x1 y1 z1].
    unfold add3, sub3. cbn [vx vy vz]. f_equal; ring. }
  split; [unfold d, length3; apply sqrt_pos |].
  split; [exact Hdd |].
  intros t. rewrite Hdd. unfold length_squared.
  assert (Hlin : dot3 (add3 vo (scale3 t wt)) (add3 vo (scale3 t wt)) =
                 dot3 vo vo + 2 * t * dot3 vo wt + t * t * dot3 wt wt).
  { unfold dot3, add3, scale3. cbn [vx vy vz]. ring. }
  rewrite Hlin, Hperp, Hunit. ring.
Qed.

End EdgeLineFacts.

Section LineDistributionFacts.

Local Open Scope R_scope.

(** The sampler on an edge runs the solver on [line_cdf] and [line_pdf]. *)
Lemma sample_on_edge_solver (v0o v1o : Vector3) (t : R) :
  sample_on_edge v0o v1o t =
  let '(a, b) := clip_to_tangent_plane v0o v1o in
  let '(vo, wt, d, l0, l1) := edge_line a b in
  let '(final, visited) :=
    newton_bisection (line_cdf d vo wt l0 l1) (line_pdf d vo wt l0 l1) t 20 0
      (initial_bracket l0 l1) in
  (if Rleb (line_pdf d vo wt l0 l1 (l final)) 0 then None
   else Some (l final, line_pdf d vo wt l0 l1 (l final)),
   final, visited).
Proof. reflexivity. Qed.

(** The derivative of the line integral [I]. *)
Lemma line_integral_derivative (d : R) (vo wt : Vector3) (x : R) :
  0 < d ->
  derivable_pt_lim (line_integral d vo wt) x
    (2 * d * vz (add3 vo (scale3 x wt)) / ((d * d + x * x) * (d * d + x * x))).
Proof.
  intros Hd.
  set (G := mult_fct (fct_cte d) (plus_fct (fct_cte (d * d)) (mult_fct id id))).
  set (F := plus_fct
              (mult_fct
                 (plus_fct (div_fct id G)
                    (div_fct (comp atan (div_fct id (fct_cte d))) (fct_cte (d * d))))
                 (fct_cte (vz vo)))
              (mult_fct (div_fct (mult_fct id id) G) (fct_cte (vz wt)))).
  change (derivable_pt_lim F x
            (2 * d * vz (add3 vo (scale3 x wt)) / ((d * d + x * x) * (d * d + x * x)))).
  assert (Hsq : 0 < d * d + x * x) by nra.
  assert (HGx : G x <> 0).
  { unfold G, mult_fct, plus_fct, fct_cte, id. apply Rgt_not_eq.
    apply Rmult_lt_0_compat; assumption. }
  assert (HG : exists g, derivable_pt_lim G x g /\ g = 2 * d * x).
  { eexists. split.
    - unfold G. apply derivable_pt_lim_mult; [apply derivable_pt_lim_const |].
      apply derivable_pt_lim_plus; [apply derivable_pt_lim_const |].
      apply derivable_pt_lim_mult; apply derivable_pt_lim_id.
    - unfold mult_fct, plus_fct, fct_cte, id. ring. }
  destruct HG as (g & HG & Hg).
  assert (HF : exists v, derivable_pt_lim F x v /\
             v = 2 * d * vz (add3 vo (scale3 x wt)) /
                 ((d * d + x * x) * (d * d + x * x))).
  { eexists. split.
    - unfold F. apply derivable_pt_lim_plus.
      + apply derivable_pt_lim_mult; [| apply derivable_pt_lim_const].
        apply derivable_pt_lim_plus.
        * apply derivable_pt_lim_div; [apply derivable_pt_lim_id | exact HG | exact HGx].
        * apply derivable_pt_lim_div.
          -- apply derivable_pt_lim_comp.
             ++ apply derivable_pt_lim_div;
                  [apply derivable_pt_lim_id | apply derivable_pt_lim_const |].
                unfold fct_cte. lra.
             ++ apply derivable_pt_lim_atan.
          -- apply derivable_pt_lim_const.
          -- unfold fct_cte. nra.
      + apply derivable_pt_lim_mult; [| apply derivable_pt_lim_const].
        apply derivable_pt_lim_div; [| exact HG | exact HGx].
        apply derivable_pt_lim_mult; apply derivable_pt_lim_id.
    - rewrite Hg. unfold G, comp, div_fct, mult_fct, plus_fct, fct_cte, id, Rsqr.
      unfold add3, scale3. cbn [vx vy vz]. field.
      repeat split; lra. }
  destruct HF as (v & HF & ->). exact HF.
Qed.

End LineDistributionFacts.

(** X11.  The line through the (clipped) edge.  For two distinct end
    points, [wt] is a unit vector, [vo] is orthogonal to it (it is the point
    of the line closest to the shading point, at distance [d]), the end
    points are [vo + l0 wt] and [vo + l1 wt] with [l1 - l0] the length of the
    edge, so [l0 < l1] and the solver starts from the bracket [l0, l1]
    without swapping; and a point [vo + t wt] of the line is at squared
    distance [d d + t t], the [dist_sq] of [line_pdf]. *)
Theorem edge_line_geometry (v0o v1o vo wt : Vector3) (d l0 l1 : R) :
  v0o <> v1o ->
  edge_line v0o v1o = (vo, wt, d, l0, l1) ->
  dot3 wt wt = 1%R /\
  dot3 vo wt = 0%R /\
  v0o = add3 vo (scale3 l0 wt) /\
  v1o = add3 vo (scale3 l1 wt) /\
  (l1 - l0 = distance v1o v0o)%R /\
  (l0 < l1)%R /\
  (0 <= d)%R /\
  (forall t, length_squared (add3 vo (scale3 t wt)) = d * d + t * t)%R /\
  initial_bracket l0 l1 = mkSolverState l0 l1 (0.5 * (l0 + l1)).
Proof.
  intros Hne Hline. unfold edge_line in Hline. cbv zeta in Hline.
  injection Hline as <- <- <- <- <-.
  destruct (edge_line_facts v0o v1o Hne)
    as (Hunit & Hperp & Hdiff & Hlt & Hv0 & Hv1 & Hd & _ & Hdist).
  cbv zeta in Hunit, Hperp, Hdiff, Hlt, Hv0, Hv1, Hd, Hdist.
  repeat (split; [assumption |]).
  unfold initial_bracket. cbv zeta.
  match goal with |- context [Rltb ?a ?b] =>
    assert (E : Rltb a b = false) by (apply Rltb_false; lra)
  end.
  rewrite E. reflexivity.
Qed.

(** The theorem above on the boundary edge of the tilted triangle. *)
Lemma edge_line_geometry_witness :
  initial_bracket (-1) 1 = mkSolverState (-1) 1 (0.5 * (-1 + 1)).
Proof.
  apply (edge_line_geometry (mkVector3 (4 / 5) (-1) (3 / 5))
           (mkVector3 (4 / 5) 1 (3 / 5))
           (mkVector3 (4 / 5) 0 (3 / 5)) (mkVector3 0 1 0) 1 (-1) 1).
  - intros Heq. injection Heq as Hy. lra.
  - exact tilted_edge_line.
Defined.

(** [line_pdf] is the derivative of [line_cdf] at every point. *)
Lemma line_pdf_is_derivative_at (d : R) (vo wt : Vector3) (l0 l1 x : R) :
  (0 < d)%R ->
  line_integral d vo wt l1 <> line_integral d vo wt l0 ->
  derivable_pt_lim (line_cdf d vo wt l0 l1) x (line_pdf d vo wt l0 l1 x).
Proof.
  intros Hd Hnorm.
  set (N := (line_integral d vo wt l1 - line_integral d vo wt l0)%R).
  assert (HN : N <> 0%R) by (unfold N; lra).
  assert (Hsq : (0 < d * d + x * x)%R) by nra.
  pose proof (line_integral_derivative d vo wt x Hd) as HI.
  change (line_cdf d vo wt l0 l1)
    with (div_fct (minus_fct (line_integral d vo wt)
                             (fct_cte (line_integral d vo wt l0)))
                  (fct_cte N)).
  assert (Hex : exists v,
            derivable_pt_lim
              (div_fct (minus_fct (line_integral d vo wt)
                                  (fct_cte (line_integral d vo wt l0)))
                       (fct_cte N)) x v /\
            v = line_pdf d vo wt l0 l1 x).
  { eexists. split.
    - apply derivable_pt_lim_div;
        [apply derivable_pt_lim_minus; [exact HI | apply derivable_pt_lim_const]
        | apply derivable_pt_lim_const | exact HN].
    - unfold line_pdf. cbv zeta. fold N.
      unfold minus_fct, fct_cte, Rsqr. field. split; lra. }
  destruct Hex as (v & Hv & ->). exact Hv.
Qed.

(** X12.  The pdf along the edge is the derivative of the cdf.  For a line
    at a positive distance [d] from the shading point and a non-zero
    normalisation [I(l1) - I(l0)], [line_pdf] is at every [x] the derivative
    of [line_cdf], so the Newton step of the solver divides by the exact
    derivative; and [line_cdf] is 0 at [l0] and 1 at [l1]. *)
Theorem line_pdf_is_derivative (d : R) (vo wt : Vector3) (l0 l1 : R) :
  (0 < d)%R ->
  line_integral d vo wt l1 <> line_integral d vo wt l0 ->
  (forall x, derivable_pt_lim (line_cdf d vo wt l0 l1) x (line_pdf d vo wt l0 l1 x)) /\
  line_cdf d vo wt l0 l1 l0 = 0%R /\
  line_cdf d vo wt l0 l1 l1 = 1%R.
Proof.
  intros Hd Hnorm.
  set (N := (line_integral d vo wt l1 - line_integral d vo wt l0)%R).
  assert (HN : N <> 0%R) by (unfold N; lra).
  split; [| split].
  - intros x. now apply line_pdf_is_derivative_at.
  - unfold line_cdf. cbv zeta. fold N. field. exact HN.
  - unfold line_cdf. cbv zeta. fold N. unfold N. field. fold N. exact HN.
Qed.

(** The theorem above on the boundary edge of the tilted triangle. *)
Lemma line_pdf_is_derivative_witness :
  line_cdf 1 (mkVector3 (4 / 5) 0 (3 / 5)) (mkVector3 0 1 0) (-1) 1 1 = 1%R.
Proof.
  apply (line_pdf_is_derivative 1 (mkVector3 (4 / 5) 0 (3 / 5)) (mkVector3 0 1 0)
           (-1) 1).
  - lra.
  - pose proof tilted_line_integral as Hval. pose proof PI_RGT_0 as Hpi.
    intros Heq. rewrite Heq in Hval. lra.
Defined.

Section LineCdfFacts.

Local Open Scope R_scope.

Lemma line_integral_derivable (d : R) (vo wt : Vector3) :
  0 < d -> derivable (line_integral d vo wt).
Proof.
  intros Hd x.
  exists (2 * d * vz (add3 vo (scale3 x wt)) / ((d * d + x * x) * (d * d + x * x))).
  apply line_integral_derivative. exact Hd.
Qed.

(** Above the tangent plane between the two end points, the line integral
    does not decrease. *)
Lemma line_integral_increasing (d : R) (vo wt : Vector3) (l0 l1 : R) :
  0 < d -> l0 < l1 ->
  0 <= vz (add3 vo (scale3 l0 wt)) -> 0 <= vz (add3 vo (scale3 l1 wt)) ->
  forall x y, l0 <= x -> x <= y -> y <= l1 ->
  line_integral d vo wt x <= line_integral d vo wt y.
Proof.
  intros Hd Hlt Hz0 Hz1 x y Hx Hxy Hy.
  destruct (Req_dec x y) as [-> | Hne]; [lra |].
  apply (derive_increasing_interv_var l0 l1 (line_integral d vo wt)
           (line_integral_derivable d vo wt Hd) Hlt); try lra.
  intros t Ht.
  rewrite (derive_pt_eq_0 _ _ _ _ (line_integral_derivative d vo wt t Hd)).
  assert (Hz : 0 <= vz (add3 vo (scale3 t wt))).
  { unfold add3, scale3 in *. cbn [vx vy vz] in *.
    assert (Hc : (l1 - l0) * (vz vo + t * vz wt) =
                 (l1 - t) * (vz vo + l0 * vz wt) + (t - l0) * (vz vo + l1 * vz wt))
      by ring.
    assert (H0 : 0 <= (l1 - t) * (vz vo + l0 * vz wt))
      by (apply Rmult_le_pos; lra).
    assert (H1 : 0 <= (t - l0) * (vz vo + l1 * vz wt))
      by (apply Rmult_le_pos; lra).
    apply (Rmult_le_reg_l (l1 - l0)); [lra |]. rewrite Rmult_0_r. lra. }
  apply Rdiv_nonneg; [| nra].
  apply Rmult_le_pos; [lra | exact Hz].
Qed.

End LineCdfFacts.

(** X13.  The function inverted by the solver is a cumulative distribution
    on the initial bracket.  For a clipped edge (both end points on or above
    the tangent plane, and distinct) whose line is at a positive distance
    from the shading point and whose normalisation is not 0: the
    normalisation is positive, [line_pdf] is not negative between [l0] and
    [l1], [line_cdf] does not decrease there and goes from 0 to 1, and for
    every [t] in [0, 1] the equation [line_cdf l = t] has a solution in
    the bracket. *)
Theorem line_cdf_is_distribution (v0o v1o vo wt : Vector3) (d l0 l1 : R) :
  v0o <> v1o ->
  (0 <= vz v0o)%R -> (0 <= vz v1o)%R ->
  edge_line v0o v1o = (vo, wt, d, l0, l1) ->
  (0 < d)%R ->
  line_integral d vo wt l1 <> line_integral d vo wt l0 ->
  (0 < line_integral d vo wt l1 - line_integral d vo wt l0)%R /\
  (forall x, (l0 <= x <= l1)%R -> (0 <= line_pdf d vo wt l0 l1 x)%R) /\
  (forall x y, (l0 <= x)%R -> (x <= y)%R -> (y <= l1)%R ->
     (line_cdf d vo wt l0 l1 x <= line_cdf d vo wt l0 l1 y)%R) /\
  (forall x, (l0 <= x <= l1)%R -> (0 <= line_cdf d vo wt l0 l1 x <= 1)%R) /\
  (forall t, (0 <= t <= 1)%R ->
     exists x, (l0 <= x <= l1)%R /\ line_cdf d vo wt l0 l1 x = t).
Proof.
  intros Hne Hz0 Hz1 Hline Hd Hnorm.
  unfold edge_line in Hline. cbv zeta in Hline.
  destruct (edge_line_facts v0o v1o Hne)
    as (_ & _ & _ & Hlt & Hv0 & Hv1 & _ & _ & _).
  cbv zeta in Hlt, Hv0, Hv1.
  injection Hline as Hvo Hwt Hdd Hl0 Hl1.
  rewrite Hwt in Hl0, Hl1, Hlt, Hv0, Hv1, Hvo.
  rewrite Hl0 in Hlt, Hv0, Hv1, Hvo. rewrite Hl1 in Hlt, Hv1.
  rewrite Hvo in Hv0, Hv1.
  rewrite Hv0 in Hz0. rewrite Hv1 in Hz1.
  pose proof (line_integral_increasing d vo wt l0 l1 Hd Hlt Hz0 Hz1) as Hinc.
  set (I := line_integral d vo wt) in *.
  set (N := (I l1 - I l0)%R).
  assert (HN : (0 < N)%R).
  { pose proof (Hinc l0 l1 ltac:(lra) ltac:(lra) ltac:(lra)). unfold N. lra. }
  assert (Hcdf : forall x, line_cdf d vo wt l0 l1 x = ((I x - I l0) / N)%R)
    by reflexivity.
  assert (Hmono : forall x y, (l0 <= x)%R -> (x <= y)%R -> (y <= l1)%R ->
            (line_cdf d vo wt l0 l1 x <= line_cdf d vo wt l0 l1 y)%R).
  { intros x y Hx Hxy Hy. rewrite !Hcdf. unfold Rdiv.
    apply Rmult_le_compat_r; [left; now apply Rinv_0_lt_compat |].
    pose proof (Hinc x y Hx Hxy Hy). lra. }
  assert (H0 : line_cdf d vo wt l0 l1 l0 = 0%R) by (rewrite Hcdf; field; lra).
  assert (H1 : line_cdf d vo wt l0 l1 l1 = 1%R)
    by (rewrite Hcdf; unfold N; field; fold N; lra).
  split; [exact HN |]. split.
  { intros x Hx. unfold line_pdf. cbv zeta. fold I. fold N.
    assert (Hz : (0 <= vz (add3 vo (scale3 x wt)))%R).
    { unfold add3, scale3 in *. cbn [vx vy vz] in *.
      assert (Hc : ((l1 - l0) * (vz vo + x * vz wt) =
                    (l1 - x) * (vz vo + l0 * vz wt) +
                    (x - l0) * (vz vo + l1 * vz wt))%R) by ring.
      assert (Ha : (0 <= (l1 - x) * (vz vo + l0 * vz wt))%R)
        by (apply Rmult_le_pos; lra).
      assert (Hb : (0 <= (x - l0) * (vz vo + l1 * vz wt))%R)
        by (apply Rmult_le_pos; lra).
      apply (Rmult_le_reg_l (l1 - l0)); [lra |]. rewrite Rmult_0_r. lra. }
    assert (Hsq : (0 < d * d + x * x)%R) by nra.
    apply Rdiv_nonneg.
    - apply Rmult_le_pos; [lra | exact Hz].
    - left. apply Rmult_lt_0_compat; [apply Rmult_lt_0_compat |]; assumption. }
  split; [exact Hmono |]. split.
  { intros x Hx. split.
    - rewrite <- H0. apply Hmono; lra.
    - rewrite <- H1. apply Hmono; lra. }
  intros t Ht.
  set (f := fun x => (line_cdf d vo wt l0 l1 x - t)%R).
  assert (Hcont : continuity f).
  { intros x. apply derivable_continuous_pt.
    exists (line_pdf d vo wt l0 l1 x - 0)%R.
    apply (derivable_pt_lim_minus (line_cdf d vo wt l0 l1) (fct_cte t)).
    - apply line_pdf_is_derivative_at; [exact Hd | unfold N in HN; fold I; lra].
    - apply derivable_pt_lim_const. }
  destruct (IVT_cor f l0 l1 Hcont ltac:(lra)) as (x & Hx & Hfx).
  { unfold f. rewrite H0, H1. nra. }
  exists x. split; [exact Hx | unfold f in Hfx; lra].
Qed.

(** The theorem above on the boundary edge of the tilted triangle: the
    normalisation is positive. *)
Lemma line_cdf_is_distribution_witness :
  (0 < line_integral 1 (mkVector3 (4 / 5) 0 (3 / 5)) (mkVector3 0 1 0) 1 -
       line_integral 1 (mkVector3 (4 / 5) 0 (3 / 5)) (mkVector3 0 1 0) (-1))%R.
Proof.
  apply (line_cdf_is_distribution (mkVector3 (4 / 5) (-1) (3 / 5))
           (mkVector3 (4 / 5) 1 (3 / 5))
           (mkVector3 (4 / 5) 0 (3 / 5)) (mkVector3 0 1 0) 1 (-1) 1).
  - intros Heq. injection Heq as Hy. lra.
  - cbn [vz]. lra.
  - cbn [vz]. lra.
  - exact tilted_edge_line.
  - lra.
  - pose proof tilted_line_integral as Hval. pose proof PI_RGT_0 as Hpi.
    intros Heq. rewrite Heq in Hval. lra.
Defined.

(** ** Secondary edge sampler: importance resampling *)

Section ResamplingPick.

Local Open Scope R_scope.

Lemma running_sum_length (ws : list R) :
  forall previous, length (running_sum previous ws) = length ws.
Proof.
  induction ws as [| w ws IH]; intros previous; [reflexivity |].
  cbn [running_sum length]. now rewrite IH.
Qed.

(** An entry of the running sums is the previous entry plus the weight. *)
Lemma running_sum_step (ws : list R) :
  forall previous k, (k < length ws)%nat ->
  nth k (running_sum previous ws) 0 =
  match k with
  | O => previous
  | S k' => nth k' (running_sum previous ws) 0
  end + nth k ws 0.
Proof.
  induction ws as [| w ws IH]; intros previous k Hk; cbn [length] in Hk; [lia |].
  destruct k as [| k]; [reflexivity |].
  cbn [running_sum nth]. rewrite IH by lia.
  destruct k as [| k]; reflexivity.
Qed.

(** The scan for the first running sum that reaches [u]. *)
Lemma pick_candidate_spec (u : R) (resample_cdf : list R) :
  forall sample_id k,
  (k < length resample_cdf)%nat -> u <= nth k resample_cdf 0 ->
  let r := pick_candidate u resample_cdf sample_id in
  (sample_id <= r < sample_id + Z.of_nat (length resample_cdf))%Z /\
  u <= nth (Z.to_nat (r - sample_id)) resample_cdf 0 /\
  forall j, (j < Z.to_nat (r - sample_id))%nat -> nth j resample_cdf 0 < u.
Proof.
  induction resample_cdf as [| c rest IH]; intros sample_id k Hk Hu;
    cbn [length] in Hk; [lia |].
  cbv zeta. cbn [pick_candidate].
  destruct (Rleb u c) eqn:E.
  - apply Rleb_true in E. replace (sample_id - sample_id)%Z with 0%Z by lia.
    cbn [length Z.to_nat nth]. split; [lia |]. split; [exact E |].
    intros j Hj. lia.
  - apply Rleb_false in E. destruct k as [| k]; [cbn [nth] in Hu; lra |].
    cbn [nth] in Hu.
    destruct (IH (sample_id + 1)%Z k ltac:(lia) Hu) as (Hr & Hle & Hbelow).
    set (r := pick_candidate u rest (sample_id + 1)) in *.
    cbn [length]. split; [lia |].
    replace (Z.to_nat (r - sample_id)) with (S (Z.to_nat (r - (sample_id + 1))))
      by lia.
    cbn [nth]. split; [exact Hle |].
    intros [| j] Hj; [exact E |]. cbn [nth]. apply Hbelow. lia.
Qed.

(** Without a running sum that reaches [u] the scan ends with [-1]. *)
Lemma pick_candidate_none (u : R) (resample_cdf : list R) :
  forall sample_id,
  (forall k, (k < length resample_cdf)%nat -> nth k resample_cdf 0 < u) ->
  pick_candidate u resample_cdf sample_id = (-1)%Z.
Proof.
  induction resample_cdf as [| c rest IH]; intros sample_id Hall; [reflexivity |].
  cbn [pick_candidate].
  assert (E : Rleb u c = false).
  { apply Rleb_false. apply (Hall 0%nat). cbn [length]. lia. }
  rewrite E. apply IH. intros k Hk. apply (Hall (S k)). cbn [length]. lia.
Qed.

End ResamplingPick.

Section ResamplingFacts2.

Local Open Scope R_scope.
Context `{Collaborators}.

Lemma running_sum_ascending (ws : list R) :
  Forall (fun w => 0 <= w) ws ->
  forall previous j k, (j <= k)%nat -> (k < length ws)%nat ->
  nth j (running_sum previous ws) 0 <= nth k (running_sum previous ws) 0.
Proof.
  intros Hpos previous j k Hjk Hk. induction k as [| k IH].
  - replace j with 0%nat by lia. lra.
  - destruct (Nat.eq_dec j (S k)) as [-> | Hne]; [lra |].
    eapply Rle_trans; [apply IH; lia |].
    rewrite (running_sum_step ws previous (S k)) by lia.
    assert (0 <= nth (S k) ws 0).
    { rewrite Forall_forall in Hpos. apply Hpos, nth_In. lia. }
    lra.
Qed.

(** A candidate with a positive weight has passed the three tests. *)
Lemma candidate_weight_positive shapes edges_buffer edges_pmf shading_isect
    shading_point m_inv edge_id :
  0 < candidate_weight shapes edges_buffer edges_pmf shading_isect shading_point
        m_inv edge_id ->
  0 < edges_pmf edge_id /\
  is_silhouette shapes (position shading_point) (edges_buffer edge_id) = true /\
  same_tri (edges_buffer edge_id) shading_isect = false.
Proof.
  unfold candidate_weight. cbv zeta.
  destruct (Rltb 0 (edges_pmf edge_id)) eqn:E1; [| cbn [andb]; intros; lra].
  destruct (is_silhouette _ _ _) eqn:E2; [| cbn [andb]; intros; lra].
  destruct (same_tri _ _) eqn:E3; [cbn [andb negb]; intros; lra |].
  intros _. apply Rltb_true in E1. repeat split; assumption.
Qed.

Lemma candidate_edge_id_range edges_cdf num_edges edge_sample sample_id :
  (1 <= num_edges)%Z ->
  (0 <= candidate_edge_id edges_cdf num_edges edge_sample sample_id < num_edges)%Z.
Proof.
  intros Hn. unfold candidate_edge_id. cbv zeta.
  pose proof (clampZ_range
                (thrust_upper_bound edges_cdf num_edges
                   (modulo (edge_sel edge_sample + IZR sample_id / IZR M) 1) - 1)
                0 (num_edges - 1) ltac:(lia)).
  lia.
Qed.

End ResamplingFacts2.

(** What a successful resampling returns. *)
Lemma resample_edge_sound_facts `{Collaborators}
    (shapes : Buffer Shape) (edges_buffer : Buffer Edge) (num_edges : Z)
    (edges_pmf edges_cdf : Buffer R) (edge_sample : SecondaryEdgeSample)
    (shading_isect : Intersection) (shading_point : SurfacePoint)
    (m_inv : Matrix3x3) (chosen : Z) (w : R) :
  1 <= num_edges ->
  resample_edge shapes edges_buffer num_edges edges_pmf edges_cdf edge_sample
    shading_isect shading_point m_inv = Some (chosen, w) ->
  0 <= chosen < num_edges /\
  (0 < edges_pmf chosen)%R /\
  is_silhouette shapes (position shading_point) (edges_buffer chosen) = true /\
  same_tri (edges_buffer chosen) shading_isect = false /\
  (0 < candidate_weight shapes edges_buffer edges_pmf shading_isect shading_point
         m_inv chosen)%R /\
  (0 < w)%R.
Proof.
  intros Hn Hres. unfold resample_edge in Hres. cbv zeta in Hres.
  set (edge_ids := map (candidate_edge_id edges_cdf num_edges edge_sample)
                       (index_range M)) in *.
  set (cw := candidate_weight shapes edges_buffer edges_pmf shading_isect
               shading_point m_inv) in *.
  set (resample_cdf := running_sum 0 (map cw edge_ids)) in *.
  set (total := nth (Z.to_nat (M - 1)) resample_cdf 0%R) in *.
  destruct (Rleb total 0) eqn:Etotal; [discriminate |].
  apply Rleb_false in Etotal.
  set (rid := pick_candidate (resample_sel edge_sample * total) resample_cdf 0) in *.
  destruct (rid =? -1) eqn:Erid; [discriminate |]. apply Z.eqb_neq in Erid.
  destruct (Rleb (nth (Z.to_nat rid) (map cw edge_ids) 0%R) 0) eqn:Ew;
    [discriminate |].
  apply Rleb_false in Ew.
  match type of Hres with
  | Some (?a, ?b) = _ =>
      assert (Hchosen : a = chosen) by congruence;
      assert (Hw : b = w) by congruence
  end.
  clear Hres.
  assert (Hlen : length edge_ids = 64%nat).
  { unfold edge_ids. rewrite length_map, index_range_length. reflexivity. }
  assert (Hrid : (Z.to_nat rid < length edge_ids)%nat).
  { destruct (Nat.lt_ge_cases (Z.to_nat rid) (length edge_ids)) as [Hlt | Hge];
      [exact Hlt |].
    rewrite nth_overflow in Ew by (rewrite length_map; exact Hge). lra. }
  rewrite (nth_map_in cw edge_ids 0%R 0%Z _ Hrid) in Ew.
  rewrite (nth_map_in cw edge_ids 0%R 0%Z _ Hrid) in Hw.
  rewrite Hchosen in Ew, Hw.
  assert (Hin : In chosen edge_ids).
  { rewrite <- Hchosen. apply nth_In. exact Hrid. }
  unfold edge_ids in Hin. apply in_map_iff in Hin as (sample_id & Hid & _).
  destruct (candidate_weight_positive _ _ _ _ _ _ _ Ew) as (Hpmf & Hsil & Hsame).
  split; [rewrite <- Hid; now apply candidate_edge_id_range |].
  split; [exact Hpmf |]. split; [exact Hsil |]. split; [exact Hsame |].
  split; [exact Ew |].
  rewrite <- Hw. apply Rdiv_lt_0_compat.
  - apply Rdiv_lt_0_compat; [exact Etotal |]. change (IZR M) with 64%R. lra.
  - apply Rmult_lt_0_compat; assumption.
Qed.

(** X14.  An edge returned by importance resampling is a usable edge.  When
    the resampling branch of the secondary sampler returns an edge (for a
    buffer with at least one edge), the edge id is a valid index, the edge
    has a strictly positive pmf, is a silhouette edge for the shading point
    and has passed the same-triangle test, its candidate weight is strictly
    positive, and so is the sample weight that is returned with it. *)
Theorem resample_edge_sound `{Collaborators}
    (shapes : Buffer Shape) (edges_buffer : Buffer Edge) (num_edges : Z)
    (edges_pmf edges_cdf : Buffer R) (edge_sample : SecondaryEdgeSample)
    (shading_isect : Intersection) (shading_point : SurfacePoint)
    (m_inv : Matrix3x3) (chosen : Z) (w : R) :
  1 <= num_edges ->
  resample_edge shapes edges_buffer num_edges edges_pmf edges_cdf edge_sample
    shading_isect shading_point m_inv = Some (chosen, w) ->
  0 <= chosen < num_edges /\
  (0 < edges_pmf chosen)%R /\
  is_silhouette shapes (position shading_point) (edges_buffer chosen) = true /\
  same_tri (edges_buffer chosen) shading_isect = false /\
  (0 < candidate_weight shapes edges_buffer edges_pmf shading_isect shading_point
         m_inv chosen)%R /\
  (0 < w)%R.
Proof. apply resample_edge_sound_facts. Qed.

(** The theorem above on the boundary edge of the tilted triangle. *)
Lemma resample_edge_sound_witness :
  same_tri far_edge hit_triangle_0 = false.
Proof.
  apply (@resample_edge_sound flat_world (fun _ => tilted_triangle)
           (fun _ => far_edge) 1 (fun _ => 1%R) (fun _ => 0%R) first_sample
           hit_triangle_0 tilted_point tilted_m_inv 0 1 ltac:(lia)
           tilted_candidate_chosen).
Defined.

(** X15.  Importance resampling returns an edge whenever it can.  When the
    sum of the candidate weights is positive, every resampling selector in
    (0, 1] leads to a candidate: the scan of the running sums ends at an
    index in [0, M) whose weight is positive, so that neither the test
    "just in case" nor the read of [edge_weights[-1]] happens; a selector
    above 1 finds no candidate. *)
Theorem resample_edge_complete `{Collaborators}
    (shapes : Buffer Shape) (edges_buffer : Buffer Edge) (num_edges : Z)
    (edges_pmf edges_cdf : Buffer R) (edge_sample : SecondaryEdgeSample)
    (shading_isect : Intersection) (shading_point : SurfacePoint)
    (m_inv : Matrix3x3) :
  (0 < resample_total shapes edges_buffer num_edges edges_pmf edges_cdf edge_sample
         shading_isect shading_point m_inv)%R ->
  ((0 < resample_sel edge_sample <= 1)%R ->
   exists chosen w,
     resample_edge shapes edges_buffer num_edges edges_pmf edges_cdf edge_sample
       shading_isect shading_point m_inv = Some (chosen, w)) /\
  ((1 < resample_sel edge_sample)%R ->
   resample_edge shapes edges_buffer num_edges edges_pmf edges_cdf edge_sample
     shading_isect shading_point m_inv = None).
Proof.
  unfold resample_total, resample_edge. cbv zeta.
  set (edge_ids := map (candidate_edge_id edges_cdf num_edges edge_sample)
                       (index_range M)).
  set (cw := candidate_weight shapes edges_buffer edges_pmf shading_isect
               shading_point m_inv).
  set (ws := map cw edge_ids).
  set (resample_cdf := running_sum 0 ws).
  set (total := nth (Z.to_nat (M - 1)) resample_cdf 0%R).
  intros Htotal.
  assert (E : Rleb total 0 = false) by (apply Rleb_false; exact Htotal).
  rewrite E.
  assert (Hlen : length ws = 64%nat).
  { unfold ws, edge_ids. rewrite !length_map, index_range_length. reflexivity. }
  assert (Hlen' : length resample_cdf = 64%nat).
  { unfold resample_cdf. rewrite running_sum_length. exact Hlen. }
  assert (Hpos : Forall (fun w => (0 <= w)%R) ws).
  { unfold ws. apply Forall_map, Forall_forall. intros id _.
    apply candidate_weight_nonneg. }
  split.
  - intros Hsel.
    set (u := (resample_sel edge_sample * total)%R).
    assert (Hu : (0 < u <= total)%R) by (unfold u; nra).
    destruct (pick_candidate_spec u resample_cdf 0 (Z.to_nat (M - 1)))
      as (Hr & Hle & Hbelow).
    { rewrite Hlen'. change (Z.to_nat (M - 1)) with 63%nat. lia. }
    { fold total. lra. }
    set (rid := pick_candidate u resample_cdf 0) in *.
    rewrite Z.sub_0_r in Hle, Hbelow. rewrite Hlen' in Hr.
    assert (Erid : (rid =? -1) = false) by (apply Z.eqb_neq; lia).
    rewrite Erid.
    assert (Hw : (0 < nth (Z.to_nat rid) ws 0)%R).
    { pose proof (running_sum_step ws 0 (Z.to_nat rid) ltac:(lia)) as Hstep.
      fold resample_cdf in Hstep.
      destruct (Z.to_nat rid) as [| k] eqn:Ek.
      - lra.
      - specialize (Hbelow k ltac:(lia)). lra. }
    apply Rleb_false in Hw. rewrite Hw. eauto.
  - intros Hsel.
    set (u := (resample_sel edge_sample * total)%R).
    assert (Hu : (total < u)%R) by (unfold u; nra).
    rewrite pick_candidate_none; [reflexivity |].
    intros k Hk. rewrite Hlen' in Hk.
    eapply Rle_lt_trans; [| exact Hu].
    unfold total, resample_cdf. apply running_sum_ascending; [exact Hpos | |].
    + change (Z.to_nat (M - 1)) with 63%nat. lia.
    + rewrite Hlen. change (Z.to_nat (M - 1)) with 63%nat. lia.
Qed.

Lemma tilted_resample_total (edge_sample : SecondaryEdgeSample) :
  @resample_total flat_world (fun _ => tilted_triangle) (fun _ => far_edge) 1
    (fun _ => 1%R) (fun _ => 0%R) edge_sample hit_triangle_0 tilted_point
    tilted_m_inv = (64 * (3 / 5 * (1 + PI / 2)))%R.
Proof.
  pose proof tilted_candidate_weight as Hw.
  set (W := (3 / 5 * (1 + PI / 2))%R) in *.
  unfold resample_total. cbv zeta.
  rewrite (map_ext _ (fun _ => 0%Z) (single_edge_candidates edge_sample)).
  rewrite map_map. rewrite (map_ext _ (fun _ => W) (fun _ => Hw)).
  assert (Hlen : length (index_range M) = 64%nat) by reflexivity.
  rewrite running_sum_const by (rewrite Hlen; simpl; lia).
  change (S (Z.to_nat (M - 1))) with 64%nat.
  rewrite (INR_IZR_INZ 64). change (Z.of_nat 64) with 64%Z. lra.
Qed.

(** The theorem above on the boundary edge of the tilted triangle, with
    the resampling selector in the middle. *)
Lemma resample_edge_complete_witness :
  exists chosen w,
    @resample_edge flat_world (fun _ => tilted_triangle) (fun _ => far_edge) 1
      (fun _ => 1%R) (fun _ => 0%R) middle_sample hit_triangle_0 tilted_point
      tilted_m_inv = Some (chosen, w).
Proof.
  apply (@resample_edge_complete flat_world (fun _ => tilted_triangle)
           (fun _ => far_edge) 1 (fun _ => 1%R) (fun _ => 0%R) middle_sample
           hit_triangle_0 tilted_point tilted_m_inv).
  - rewrite tilted_resample_total. pose proof PI_RGT_0. lra.
  - cbn [resample_sel middle_sample]. lra.
Defined.

(** ** Jacobian of the ray-plane intersection *)

Section RayPlaneFacts.

Local Open Scope R_scope.

Lemma derivable_pt_lim_ext (f g : R -> R) (x v : R) :
  (forall s, f s = g s) -> derivable_pt_lim f x v -> derivable_pt_lim g x v.
Proof.
  intros Heq Hf eps Heps. destruct (Hf eps Heps) as (delta & Hdelta).
  exists delta. intros h Hh Hlt. rewrite <- !Heq. now apply Hdelta.
Qed.

(** One coordinate of the intersection point along a line of directions. *)
Lemma hit_coordinate_derivative (o k a b u v : R) :
  a <> 0 ->
  derivable_pt_lim (fun s => o + k / (a + s * b) * (u + s * v)) 0
    (k / a * (v - b / a * u)).
Proof.
  intros Ha.
  set (den := plus_fct (fct_cte a) (mult_fct id (fct_cte b))).
  set (num := plus_fct (fct_cte u) (mult_fct id (fct_cte v))).
  set (F := plus_fct (fct_cte o) (mult_fct (div_fct (fct_cte k) den) num)).
  change (derivable_pt_lim F 0 (k / a * (v - b / a * u))).
  assert (Hden0 : den 0 <> 0).
  { unfold den, plus_fct, mult_fct, fct_cte, id. rewrite Rmult_0_l, Rplus_0_r.
    exact Ha. }
  assert (Hex : exists w, derivable_pt_lim F 0 w /\ w = k / a * (v - b / a * u)).
  { eexists. split.
    - unfold F. apply derivable_pt_lim_plus; [apply derivable_pt_lim_const |].
      apply derivable_pt_lim_mult.
      + apply derivable_pt_lim_div; [apply derivable_pt_lim_const | | exact Hden0].
        unfold den. apply derivable_pt_lim_plus; [apply derivable_pt_lim_const |].
        apply derivable_pt_lim_mult;
          [apply derivable_pt_lim_id | apply derivable_pt_lim_const].
      + unfold num. apply derivable_pt_lim_plus; [apply derivable_pt_lim_const |].
        apply derivable_pt_lim_mult;
          [apply derivable_pt_lim_id | apply derivable_pt_lim_const].
    - unfold den, num, div_fct, plus_fct, mult_fct, fct_cte, id, Rsqr.
      rewrite !Rmult_0_l, !Rplus_0_r. field. exact Ha. }
  destruct Hex as (w & Hw & ->). exact Hw.
Qed.

Lemma Rabs_lower_nonzero (a : R) : Rltb (Rabs a) 1e-10 = false -> a <> 0.
Proof.
  intros E Ha. apply Rltb_false in E. rewrite Ha, Rabs_R0 in E. lra.
Qed.

End RayPlaneFacts.

(** The vector returned by [intersect_jacobian] is orthogonal to the
    normal [n]. *)
Lemma intersect_jacobian_orthogonal (org dir p n l : Vector3) :
  dot3 (intersect_jacobian org dir p n l) n = 0%R.
Proof.
  unfold intersect_jacobian. cbv zeta.
  destruct (Rltb (Rabs (dot3 dir n)) 1e-10) eqn:E.
  { unfold dot3, zero3. cbn [vx vy vz]. ring. }
  pose proof (Rabs_lower_nonzero _ E) as Ha.
  destruct (Rleb _ 0).
  { unfold dot3, zero3. cbn [vx vy vz]. ring. }
  set (t := (- (dot3 org n + - dot3 p n) / dot3 dir n)%R).
  assert (Hlin : dot3 (scale3 t (sub3 l (scale3 (dot3 l n / dot3 dir n) dir))) n =
                 (t * (dot3 l n - dot3 l n / dot3 dir n * dot3 dir n))%R).
  { unfold dot3, scale3, sub3. cbn [vx vy vz]. ring. }
  rewrite Hlin. field. exact Ha.
Qed.

(** The coordinates of [intersect_jacobian] as derivatives. *)
Lemma intersect_jacobian_derivatives (org dir p n l : Vector3) :
  (1e-10 <= Rabs (dot3 dir n))%R ->
  (0 < ray_plane_t org dir p n)%R ->
  derivable_pt_lim
    (fun s => vx (ray_plane_intersection org (add3 dir (scale3 s l)) p n)) 0
    (vx (intersect_jacobian org dir p n l)) /\
  derivable_pt_lim
    (fun s => vy (ray_plane_intersection org (add3 dir (scale3 s l)) p n)) 0
    (vy (intersect_jacobian org dir p n l)) /\
  derivable_pt_lim
    (fun s => vz (ray_plane_intersection org (add3 dir (scale3 s l)) p n)) 0
    (vz (intersect_jacobian org dir p n l)).
Proof.
  intros Habs Ht.
  assert (Ha : dot3 dir n <> 0%R).
  { intros Hz. rewrite Hz, Rabs_R0 in Habs. lra. }
  assert (E1 : Rltb (Rabs (dot3 dir n)) 1e-10 = false) by (apply Rltb_false; lra).
  assert (E2 : Rleb (- (dot3 org n + - dot3 p n) / dot3 dir n) 0 = false)
    by (apply Rleb_false; exact Ht).
  unfold intersect_jacobian. cbv zeta. rewrite E1, E2.
  set (k := (- (dot3 org n + - dot3 p n))%R).
  set (a := dot3 dir n) in *. set (b := dot3 l n).
  assert (Hden : forall s, dot3 (add3 dir (scale3 s l)) n = (a + s * b)%R).
  { intros s. unfold a, b, dot3, add3, scale3. cbn [vx vy vz]. ring. }
  unfold ray_plane_intersection, ray_plane_t. cbv zeta. fold k.
  unfold scale3, sub3, add3. cbn [vx vy vz].
  split; [| split].
  - apply (derivable_pt_lim_ext
             (fun s => (vx org + k / (a + s * b) * (vx dir + s * vx l))%R)).
    + intros s. rewrite <- Hden. unfold add3, scale3. cbn [vx vy vz]. reflexivity.
    + apply hit_coordinate_derivative. exact Ha.
  - apply (derivable_pt_lim_ext
             (fun s => (vy org + k / (a + s * b) * (vy dir + s * vy l))%R)).
    + intros s. rewrite <- Hden. unfold add3, scale3. cbn [vx vy vz]. reflexivity.
    + apply hit_coordinate_derivative. exact Ha.
  - apply (derivable_pt_lim_ext
             (fun s => (vz org + k / (a + s * b) * (vz dir + s * vz l))%R)).
    + intros s. rewrite <- Hden. unfold add3, scale3. cbn [vx vy vz]. reflexivity.
    + apply hit_coordinate_derivative. exact Ha.
Qed.

(** X16.  [intersect_jacobian] is the derivative it is named after, and
    it is tangent to the plane.  For all arguments the returned vector is
    orthogonal to the normal [n].  When the ray is not parallel to the plane
    ([|dir . n| >= 1e-10]) and hits it in front of its origin ([t > 0]),
    each coordinate of the returned vector is the derivative at [s = 0] of
    that coordinate of the intersection point of the plane with the ray from
    [org] in direction [dir + s l]. *)
Theorem intersect_jacobian_is_derivative (org dir p n l : Vector3) :
  dot3 (intersect_jacobian org dir p n l) n = 0%R /\
  ((1e-10 <= Rabs (dot3 dir n))%R ->
   (0 < ray_plane_t org dir p n)%R ->
   derivable_pt_lim
     (fun s => vx (ray_plane_intersection org (add3 dir (scale3 s l)) p n)) 0
     (vx (intersect_jacobian org dir p n l)) /\
   derivable_pt_lim
     (fun s => vy (ray_plane_intersection org (add3 dir (scale3 s l)) p n)) 0
     (vy (intersect_jacobian org dir p n l)) /\
   derivable_pt_lim
     (fun s => vz (ray_plane_intersection org (add3 dir (scale3 s l)) p n)) 0
     (vz (intersect_jacobian org dir p n l))).
Proof.
  split; [apply intersect_jacobian_orthogonal |].
  apply intersect_jacobian_derivatives.
Qed.

(** The theorem above for a ray that goes straight up to the plane
    [z = 1], turned towards [+x]. *)
Lemma intersect_jacobian_is_derivative_witness :
  derivable_pt_lim
    (fun s => vx (ray_plane_intersection zero3
                    (add3 (mkVector3 0 0 1) (scale3 s (mkVector3 1 0 0)))
                    (mkVector3 0 0 1) (mkVector3 0 0 1))) 0
    (vx (intersect_jacobian zero3 (mkVector3 0 0 1) (mkVector3 0 0 1)
           (mkVector3 0 0 1) (mkVector3 1 0 0))).
Proof.
  apply (intersect_jacobian_is_derivative zero3 (mkVector3 0 0 1) (mkVector3 0 0 1)
           (mkVector3 0 0 1) (mkVector3 1 0 0)).
  - unfold dot3. cbn [vx vy vz].
    replace (0 * 0 + 0 * 0 + 1 * 1)%R with 1%R by lra. rewrite Rabs_R1. lra.
  - unfold ray_plane_t, dot3, zero3. cbn [vx vy vz].
    replace (- (0 * 0 + 0 * 0 + 0 * 1 + - (0 * 0 + 0 * 0 + 1 * 1)) /
             (0 * 0 + 0 * 0 + 1 * 1))%R with 1%R by (field; lra).
    lra.
Defined.

(** ** The pass over the secondary edge throughputs *)

Section SecondaryPass.

Context `{Collaborators}.

Lemma secondary_tasks_spec (scene : FlattenScene) (active_pixels : Buffer Z)
    (shading_points : Buffer SurfacePoint) (edge_isects : Buffer Intersection)
    (edge_surface_points : Buffer SurfacePoint)
    (edge_records : Buffer SecondaryEdgeRecord) (tasks : list Z) :
  NoDup tasks ->
  forall (edge_throughputs : Buffer Vector3) (slot : Z),
  fold_left
    (fun acc idx =>
       secondary_edge_weights_updater scene active_pixels shading_points
         edge_isects edge_surface_points edge_records idx acc)
    tasks edge_throughputs slot =
  let idx := slot / 2 in
  if existsb (Z.eqb idx) tasks &&
     negb (edge_shape_id (secondary_edge (edge_records idx)) <? 0)
  then update_throughput scene (edge_isects slot) (edge_surface_points slot)
         (shading_points (active_pixels idx)) (edge_records idx)
         (edge_throughputs slot)
  else edge_throughputs slot.
Proof.
  induction tasks as [| d tasks IH]; intros Hnd edge_throughputs slot;
    [reflexivity |].
  inversion Hnd as [| ? ? Hnotin Hnd']; subst.
  cbn [fold_left]. rewrite (IH Hnd'). cbv zeta. cbn [existsb].
  destruct (slot / 2 =? d) eqn:Ed.
  - apply Z.eqb_eq in Ed.
    assert (Hnot : existsb (Z.eqb (slot / 2)) tasks = false).
    { destruct (existsb (Z.eqb (slot / 2)) tasks) eqn:E; [| reflexivity].
      apply existsb_exists in E as (y & Hin & Hy). apply Z.eqb_eq in Hy.
      exfalso. apply Hnotin. congruence. }
    rewrite Hnot. cbn [andb orb].
    unfold secondary_edge_weights_updater. cbv zeta. rewrite Ed.
    destruct (edge_shape_id (secondary_edge (edge_records d)) <? 0);
      [reflexivity |].
    cbn [negb].
    assert (Hslot : slot = 2 * d + 0 \/ slot = 2 * d + 1).
    { pose proof (Z.div_mod slot 2 ltac:(lia)) as Hdm.
      pose proof (Z.mod_pos_bound slot 2 ltac:(lia)) as Hb. lia. }
    destruct Hslot as [-> | ->].
    + rewrite store_other by lia. rewrite store_same. reflexivity.
    + rewrite store_same. rewrite store_other by lia. reflexivity.
  - apply Z.eqb_neq in Ed. cbn [orb].
    rewrite secondary_edge_weights_updater_frame; [reflexivity | |];
      intros ->; apply Ed.
    + replace (2 * d + 0) with (0 + d * 2) by lia.
      rewrite Z.div_add by lia. reflexivity.
    + replace (2 * d + 1) with (1 + d * 2) by lia.
      rewrite Z.div_add by lia. reflexivity.
Qed.

End SecondaryPass.

(** X18.  The pass over the secondary edge throughputs transforms every
    slot exactly once, with the data of its own sample.  After
    [update_secondary_edge_weights], the slot [s] of sample [idx = s / 2]
    holds [update_throughput] applied to its previous content when [idx] is
    one of the active pixels and the edge record of [idx] holds an edge
    ([shape_id >= 0]); every other slot holds what it held before. *)
Theorem update_secondary_edge_weights_slotwise `{Collaborators}
    (scene : FlattenScene) (active_pixels : Buffer Z) (num_active_pixels : Z)
    (shading_points : Buffer SurfacePoint) (edge_isects : Buffer Intersection)
    (edge_surface_points : Buffer SurfacePoint)
    (edge_records : Buffer SecondaryEdgeRecord)
    (edge_throughputs : Buffer Vector3) (slot : Z) :
  update_secondary_edge_weights scene active_pixels num_active_pixels
    shading_points edge_isects edge_surface_points edge_records
    edge_throughputs slot =
  let idx := slot / 2 in
  if (0 <=? idx) && (idx <? num_active_pixels) &&
     negb (edge_shape_id (secondary_edge (edge_records idx)) <? 0)
  then update_throughput scene (edge_isects slot) (edge_surface_points slot)
         (shading_points (active_pixels idx)) (edge_records idx)
         (edge_throughputs slot)
  else edge_throughputs slot.
Proof.
  unfold update_secondary_edge_weights, parallel_for.
  rewrite (secondary_tasks_spec scene active_pixels shading_points edge_isects
             edge_surface_points edge_records (index_range num_active_pixels)
             (index_range_NoDup num_active_pixels)).
  cbv zeta. rewrite existsb_index_range. reflexivity.
Qed.

(** ** Derivatives of the secondary edges *)

Section GradFacts.

Local Open Scope R_scope.

Lemma Reqb_true (a b : R) : Reqb a b = true <-> a = b.
Proof. unfold Reqb. destruct (Req_dec_T a b); split; intros; easy. Qed.

Lemma Reqb_false (a b : R) : Reqb a b = false <-> a <> b.
Proof. unfold Reqb. destruct (Req_dec_T a b); split; intros; easy. Qed.

Lemma add3_zero_r (a : Vector3) : add3 a zero3 = a.
Proof. destruct a. unfold add3, zero3. cbn [vx vy vz]. f_equal; ring. Qed.

Lemma add3_zero_l (a : Vector3) : add3 zero3 a = a.
Proof. destruct a. unfold add3, zero3. cbn [vx vy vz]. f_equal; ring. Qed.

Lemma add3_assoc (a b c : Vector3) : add3 (add3 a b) c = add3 a (add3 b c).
Proof. unfold add3. cbn [vx vy vz]. f_equal; ring. Qed.

(** The gradient of the edge function with respect to the shading point
    and to the two end points of the edge, as [grad] computes them. *)
Lemma edge_volume_gradients (p v0 v1 x h : Vector3) :
  let d0 := sub3 v0 p in
  let d1 := sub3 v1 p in
  let dp := add3 (add3 (cross d1 d0) (cross (sub3 x p) d1)) (cross d0 (sub3 x p)) in
  let dv0 := cross d1 (sub3 x p) in
  let dv1 := cross (sub3 x p) d0 in
  edge_volume (add3 p h) v0 v1 x - edge_volume p v0 v1 x = dot3 dp h /\
  edge_volume p (add3 v0 h) v1 x - edge_volume p v0 v1 x = dot3 dv0 h /\
  edge_volume p v0 (add3 v1 h) x - edge_volume p v0 v1 x = dot3 dv1 h.
Proof.
  cbv zeta. unfold edge_volume, dot3, cross, add3, sub3. cbn [vx vy vz].
  repeat split; ring.
Qed.

End GradFacts.

(** X19.  The lambda [grad] of the secondary derivative accumulator adds
    exact gradients.  Started from zero sums, it leaves in [dcolor_dp],
    [dcolor_dv0] and [dcolor_dv1] the contribution times the gradients of the
    edge function [(x - p) . ((v0 - p) x (v1 - p))] with respect to the
    shading point [p] and to the end points [v0] and [v1]: the edge function
    is affine in each of them, and a displacement [h] of one of them changes
    it by exactly the dot product of the gradient with [h].  On other sums
    it adds the same three vectors. *)
Theorem grad_is_gradient (v0 v1 p x : Vector3) (edge_contrib : R) :
  let g := grad v0 v1 p x edge_contrib (zero3, zero3, zero3) in
  (forall h,
     dot3 (fst (fst g)) h =
       (edge_contrib * (edge_volume (add3 p h) v0 v1 x - edge_volume p v0 v1 x))%R /\
     dot3 (snd (fst g)) h =
       (edge_contrib * (edge_volume p (add3 v0 h) v1 x - edge_volume p v0 v1 x))%R /\
     dot3 (snd g) h =
       (edge_contrib * (edge_volume p v0 (add3 v1 h) x - edge_volume p v0 v1 x))%R) /\
  (forall dcolor_dp dcolor_dv0 dcolor_dv1,
     grad v0 v1 p x edge_contrib (dcolor_dp, dcolor_dv0, dcolor_dv1) =
     (add3 dcolor_dp (fst (fst g)), add3 dcolor_dv0 (snd (fst g)),
      add3 dcolor_dv1 (snd g))).
Proof.
  cbv zeta. unfold grad. cbv zeta.
  destruct (Reqb edge_contrib 0) eqn:E.
  - apply Reqb_true in E. subst edge_contrib. cbn [fst snd]. split.
    + intros h. unfold dot3, zero3. cbn [vx vy vz]. repeat split; ring.
    + intros a b c. now rewrite !add3_zero_r.
  - cbn [fst snd]. split.
    + intros h.
      destruct (edge_volume_gradients p v0 v1 x h) as (Hp & H0 & H1).
      cbv zeta in Hp, H0, H1. rewrite Hp, H0, H1.
      unfold dot3, add3, scale3, zero3. cbn [vx vy vz]. repeat split; ring.
    + intros a b c. now rewrite !add3_zero_l.
Qed.

Section AccumulatorFacts.

Context `{DerivativeCollaborators}.
Variable shapes : Buffer Shape.
Variable active_pixels : Buffer Z.
Variable shading_points : Buffer SurfacePoint.
Variable edge_records : Buffer SecondaryEdgeRecord.
Variable edge_surface_points : Buffer Vector3.
Variable edge_contribs : Buffer R.

Lemma add_to_position_zero (point : SurfacePoint) :
  add_to_position point zero3 = point.
Proof.
  destruct point. unfold add_to_position. cbn [position geom_normal shading_frame].
  now rewrite add3_zero_r.
Qed.

Lemma add_to_position_add (point : SurfacePoint) (a b : Vector3) :
  add_to_position (add_to_position point a) b = add_to_position point (add3 a b).
Proof.
  unfold add_to_position. cbn [position geom_normal shading_frame].
  now rewrite add3_assoc.
Qed.

(** One task on the two buffers. *)
Lemma accumulator_task (idx : Z) (d_points : Buffer SurfacePoint)
    (d_vertices : Buffer (DVertex DVertexOther)) :
  let bufs := secondary_edge_derivatives_accumulator shapes active_pixels
                shading_points edge_records edge_surface_points edge_contribs
                idx (d_points, d_vertices) in
  (forall q, fst bufs q =
     if q =? active_pixels idx
     then add_to_position (d_points q)
            (position_contribution shapes active_pixels shading_points
               edge_records edge_surface_points edge_contribs idx)
     else d_points q) /\
  (forall slot, snd bufs slot =
     if slot / 2 =? idx
     then accumulated_vertex shapes active_pixels shading_points edge_records
            edge_surface_points edge_contribs slot
     else d_vertices slot).
Proof.
  cbv zeta. unfold secondary_edge_derivatives_accumulator, position_contribution.
  cbv zeta.
  assert (Hslots : forall slot, (slot / 2 =? idx) = true ->
            slot = 2 * idx + 0 \/ slot = 2 * idx + 1).
  { intros slot E. apply Z.eqb_eq in E.
    pose proof (Z.div_mod slot 2 ltac:(lia)) as Hdm.
    pose proof (Z.mod_pos_bound slot 2 ltac:(lia)) as Hb. lia. }
  assert (Hother : forall slot, (slot / 2 =? idx) = false ->
            slot <> 2 * idx + 0 /\ slot <> 2 * idx + 1).
  { intros slot E. apply Z.eqb_neq in E. split; intros ->; apply E.
    - replace (2 * idx + 0) with (0 + idx * 2) by lia.
      rewrite Z.div_add by lia. reflexivity.
    - replace (2 * idx + 1) with (1 + idx * 2) by lia.
      rewrite Z.div_add by lia. reflexivity. }
  assert (Hdiv0 : (2 * idx + 0) / 2 = idx).
  { replace (2 * idx + 0) with (0 + idx * 2) by lia.
    rewrite Z.div_add by lia. reflexivity. }
  assert (Hdiv1 : (2 * idx + 1) / 2 = idx).
  { replace (2 * idx + 1) with (1 + idx * 2) by lia.
    rewrite Z.div_add by lia. reflexivity. }
  destruct (edge_shape_id (secondary_edge (edge_records idx)) <? 0) eqn:Evalid.
  - cbn [fst snd]. split.
    + intros q. destruct (q =? active_pixels idx);
        [now rewrite add_to_position_zero | reflexivity].
    + intros slot. destruct (slot / 2 =? idx) eqn:E.
      * unfold accumulated_vertex. cbv zeta.
        apply Z.eqb_eq in E. rewrite E, Evalid.
        apply Z.eqb_eq in E. destruct (Hslots slot E) as [-> | ->].
        -- rewrite store_other by lia. apply store_same.
        -- apply store_same.
      * destruct (Hother slot E) as (H0 & H1). now rewrite !store_other.
  - destruct (secondary_edge_gradients shapes active_pixels shading_points
                edge_records edge_surface_points edge_contribs idx)
      as [[dcolor_dp dcolor_dv0] dcolor_dv1] eqn:Hg.
    cbn [fst snd]. split.
    + intros q. unfold store. destruct (q =? active_pixels idx) eqn:E;
        [| reflexivity].
      apply Z.eqb_eq in E. now rewrite E.
    + intros slot. destruct (slot / 2 =? idx) eqn:E.
      * unfold accumulated_vertex. cbv zeta.
        pose proof E as E'. apply Z.eqb_eq in E'. rewrite E', Evalid, Hg.
        cbn [fst snd].
        destruct (Hslots slot E) as [-> | ->].
        -- rewrite Z.eqb_refl. rewrite store_other by lia. rewrite store_same.
           rewrite store_other by lia. rewrite store_same. reflexivity.
        -- assert (Ene : (2 * idx + 1 =? 2 * idx + 0) = false)
             by (apply Z.eqb_neq; lia).
           rewrite Ene. rewrite store_same.
           rewrite store_other by lia. rewrite store_same. reflexivity.
      * destruct (Hother slot E) as (H0 & H1). now rewrite !store_other.
Qed.

(** A list of tasks without repetition on the two buffers. *)
Lemma accumulator_tasks (tasks : list Z) :
  NoDup tasks ->
  forall (d_points : Buffer SurfacePoint)
         (d_vertices : Buffer (DVertex DVertexOther)),
  let bufs :=
    fold_left
      (fun acc idx =>
         secondary_edge_derivatives_accumulator shapes active_pixels
           shading_points edge_records edge_surface_points edge_contribs idx acc)
      tasks (d_points, d_vertices) in
  (forall q, fst bufs q =
     add_to_position (d_points q)
       (sum3 (map (position_contribution shapes active_pixels shading_points
                     edge_records edge_surface_points edge_contribs)
                  (filter (fun idx => q =? active_pixels idx) tasks)))) /\
  (forall slot, snd bufs slot =
     if existsb (Z.eqb (slot / 2)) tasks
     then accumulated_vertex shapes active_pixels shading_points edge_records
            edge_surface_points edge_contribs slot
     else d_vertices slot).
Proof.
  induction tasks as [| d tasks IH]; intros Hnd d_points d_vertices.
  - cbn. split; [intros q; now rewrite add_to_position_zero | reflexivity].
  - inversion Hnd as [| ? ? Hnotin Hnd']; subst. cbv zeta. cbn [fold_left].
    destruct (accumulator_task d d_points d_vertices) as (Hp & Hv).
    cbv zeta in Hp, Hv.
    destruct (secondary_edge_derivatives_accumulator shapes active_pixels
                shading_points edge_records edge_surface_points edge_contribs d
                (d_points, d_vertices)) as [d_points1 d_vertices1].
    cbn [fst snd] in Hp, Hv.
    destruct (IH Hnd' d_points1 d_vertices1) as (IHp & IHv).
    cbv zeta in IHp, IHv. split.
    + intros q. rewrite IHp, Hp. cbn [filter].
      destruct (q =? active_pixels d); [| reflexivity].
      cbn [map sum3 fold_right]. apply add_to_position_add.
    + intros slot. rewrite IHv, Hv. cbn [existsb].
      destruct (slot / 2 =? d) eqn:E; [| reflexivity].
      cbn [orb]. destruct (existsb (Z.eqb (slot / 2)) tasks); reflexivity.
Qed.

End AccumulatorFacts.

(** X20.  The accumulation of the secondary edge derivatives.  After
    [accumulate_secondary_edge_derivatives], the derivative stored for a
    shading point is its previous value with its position increased by the
    sum of [dcolor_dp] over the samples of that pixel that hold an edge (in
    exact arithmetic the order of the additions does not matter), its other
    members being untouched; the slot of [d_vertices] of a sample in
    [0, num_active_pixels) holds the value-initialised [DVertex] if the
    sample has no edge and otherwise the shape and the vertex of the edge
    with the sum [dcolor_dv0] or [dcolor_dv1]; the other slots are unchanged. *)
Theorem accumulate_secondary_edge_derivatives_sums `{DerivativeCollaborators}
    (shapes : Buffer Shape) (active_pixels : Buffer Z) (num_active_pixels : Z)
    (shading_points : Buffer SurfacePoint)
    (edge_records : Buffer SecondaryEdgeRecord)
    (edge_surface_points : Buffer Vector3) (edge_contribs : Buffer R)
    (d_points : Buffer SurfacePoint) (d_vertices : Buffer (DVertex DVertexOther)) :
  let bufs := accumulate_secondary_edge_derivatives shapes active_pixels
                num_active_pixels shading_points edge_records
                edge_surface_points edge_contribs (d_points, d_vertices) in
  (forall q, fst bufs q =
     add_to_position (d_points q)
       (sum3 (map (position_contribution shapes active_pixels shading_points
                     edge_records edge_surface_points edge_contribs)
                  (filter (fun idx => q =? active_pixels idx)
                          (index_range num_active_pixels))))) /\
  (forall slot, snd bufs slot =
     if (0 <=? slot / 2) && (slot / 2 <? num_active_pixels)
     then accumulated_vertex shapes active_pixels shading_points edge_records
            edge_surface_points edge_contribs slot
     else d_vertices slot).
Proof.
  cbv zeta. unfold accumulate_secondary_edge_derivatives, parallel_for.
  destruct (accumulator_tasks shapes active_pixels shading_points edge_records
              edge_surface_points edge_contribs (index_range num_active_pixels)
              (index_range_NoDup num_active_pixels) d_points d_vertices)
    as (Hp & Hv).
  cbv zeta in Hp, Hv. split; [exact Hp |].
  intros slot. rewrite Hv, existsb_index_range. reflexivity.
Qed.

(** ** Derivatives of the primary edges *)

(** X21.  Equation 8.  For a camera that is not a fisheye camera, the two
    vectors passed to [d_project] are the edge contribution times the exact
    gradients of the edge function on the screen with respect to the two
    projected end points: the edge function is affine in each end point, and
    a displacement [h] of an end point changes it by the dot product of the
    gradient with [h].  For an edge point [v0 + t (v1 - v0)] on the edge, as
    the primary sampler records it, the contribution is split between the
    end points in the ratio [(1 - t) : t], along the normal of the edge. *)
Theorem screen_space_derivatives_equation_8 `{Collaborators}
    (camera : Camera) (v0_ss v1_ss edge_pt : Vector2) (edge_contrib : R) :
  camera_fisheye camera = false ->
  let g := screen_space_derivatives camera v0_ss v1_ss edge_pt edge_contrib in
  (forall h,
     (v2x (fst g) * v2x h + v2y (fst g) * v2y h =
      edge_contrib * (edge_function (add2 v0_ss h) v1_ss edge_pt -
                      edge_function v0_ss v1_ss edge_pt))%R /\
     (v2x (snd g) * v2x h + v2y (snd g) * v2y h =
      edge_contrib * (edge_function v0_ss (add2 v1_ss h) edge_pt -
                      edge_function v0_ss v1_ss edge_pt))%R) /\
  (forall t, edge_pt = add2 v0_ss (scale2 t (sub2 v1_ss v0_ss)) ->
     let normal := mkVector2 (v2y v1_ss - v2y v0_ss) (v2x v0_ss - v2x v1_ss) in
     fst g = scale2 ((1 - t) * edge_contrib) normal /\
     snd g = scale2 (t * edge_contrib) normal).
Proof.
  intros Hcam. cbv zeta. unfold screen_space_derivatives. rewrite Hcam.
  cbn [negb fst snd]. split.
  - intros h. unfold edge_function, add2, scale2. cbn [v2x v2y]. split; ring.
  - intros t ->. unfold add2, sub2, scale2. cbn [v2x v2y]. split; f_equal; ring.
Qed.

(** The theorem above for the orthographic camera, at the middle of the
    edge from (0, 0) to (2, 0): each end point receives half of the
    contribution. *)
Lemma screen_space_derivatives_equation_8_witness :
  fst (@screen_space_derivatives flat_world tt (mkVector2 0 0) (mkVector2 2 0)
         (mkVector2 1 0) 1) =
  scale2 ((1 - 1 / 2) * 1) (mkVector2 (0 - 0) (0 - 2)).
Proof.
  apply (@screen_space_derivatives_equation_8 flat_world tt (mkVector2 0 0)
           (mkVector2 2 0) (mkVector2 1 0) 1 eq_refl).
  unfold add2, sub2, scale2. cbn [v2x v2y]. f_equal; lra.
Defined.

Section PrimaryDerivativeTasks.

Context `{PrimaryDerivativeCollaborators}.
Variable camera : Camera.
Variable shapes : Buffer Shape.
Variable edge_records : Buffer PrimaryEdgeRecord.
Variable edge_contribs : Buffer R.

(** One task writes the two vertex slots and the camera slot of its record,
    with values that do not depend on the buffers. *)
Lemma primary_derivatives_task (idx : Z) :
  exists d_v0 d_v1 d_camera,
  forall (d_vertices : Buffer (DVertex DVertexOther)) (d_cameras : Buffer DCameraInst),
    primary_edge_derivatives_computer camera shapes edge_records edge_contribs idx
      (d_vertices, d_cameras) =
    (store (store d_vertices (2 * idx + 0) d_v0) (2 * idx + 1) d_v1,
     store d_cameras idx d_camera).
Proof.
  unfold primary_edge_derivatives_computer. cbv zeta.
  destruct (edge_shape_id (primary_edge (edge_records idx)) <? 0);
    [do 3 eexists; intros; reflexivity |].
  destruct (project camera _ _) as [[v0_ss v1_ss] |];
    [| do 3 eexists; intros; reflexivity].
  destruct (screen_space_derivatives camera v0_ss v1_ss _ _) as [d_v0_ss d_v1_ss].
  destruct (d_project camera _ _ _ _ _ _ _ _ _) as [[d_camera d_v0_v] d_v1_v].
  do 3 eexists; intros; reflexivity.
Qed.

Lemma primary_derivatives_tasks (tasks : list Z) :
  forall (d_vertices : Buffer (DVertex DVertexOther)) (d_cameras : Buffer DCameraInst),
  let task := primary_edge_derivatives_computer camera shapes edge_records
                edge_contribs in
  let bufs := fold_left (fun acc idx => task idx acc) tasks (d_vertices, d_cameras) in
  (forall slot, fst bufs slot =
     if existsb (Z.eqb (slot / 2)) tasks
     then fst (task (slot / 2) (d_vertices, d_cameras)) slot
     else d_vertices slot) /\
  (forall i, snd bufs i =
     if existsb (Z.eqb i) tasks
     then snd (task i (d_vertices, d_cameras)) i
     else d_cameras i).
Proof.
  induction tasks as [| d tasks IH]; intros d_vertices d_cameras.
  - cbn. split; reflexivity.
  - cbv zeta. cbn [fold_left].
    destruct (primary_derivatives_task d) as (d_v0 & d_v1 & d_camera & Htask).
    rewrite Htask.
    destruct (IH (store (store d_vertices (2 * d + 0) d_v0) (2 * d + 1) d_v1)
                 (store d_cameras d d_camera)) as (IHv & IHc).
    cbv zeta in IHv, IHc. split.
    + intros slot. rewrite IHv. cbn [existsb].
      destruct (primary_derivatives_task (slot / 2))
        as (e_v0 & e_v1 & e_camera & Hslot).
      rewrite !Hslot. cbn [fst].
      assert (Hs : slot = 2 * (slot / 2) + 0 \/ slot = 2 * (slot / 2) + 1).
      { pose proof (Z.div_mod slot 2 ltac:(lia)) as Hdm.
        pose proof (Z.mod_pos_bound slot 2 ltac:(lia)) as Hb. lia. }
      assert (Hown : forall b : Buffer (DVertex DVertexOther),
                store (store b (2 * (slot / 2) + 0) e_v0) (2 * (slot / 2) + 1) e_v1 slot =
                if slot =? 2 * (slot / 2) + 1 then e_v1 else e_v0).
      { intros b. unfold store. destruct (slot =? 2 * (slot / 2) + 1) eqn:E1;
          [reflexivity |].
        destruct (slot =? 2 * (slot / 2) + 0) eqn:E0; [reflexivity |]. lia. }
      rewrite !Hown.
      destruct (slot / 2 =? d) eqn:E.
      * cbn [orb]. destruct (existsb (Z.eqb (slot / 2)) tasks); [reflexivity |].
        apply Z.eqb_eq in E. rewrite <- E in Htask.
        pose proof (Htask d_vertices d_cameras) as Ht.
        rewrite Hslot in Ht. rewrite <- E.
        assert (Hf : forall s,
                  store (store d_vertices (2 * (slot / 2) + 0) e_v0)
                        (2 * (slot / 2) + 1) e_v1 s =
                  store (store d_vertices (2 * (slot / 2) + 0) d_v0)
                        (2 * (slot / 2) + 1) d_v1 s)
          by (intros s; pose proof (f_equal fst Ht) as Hf'; cbn [fst] in Hf';
              now rewrite Hf').
        rewrite <- Hf. apply Hown.
      * cbn [orb]. destruct (existsb (Z.eqb (slot / 2)) tasks); [reflexivity |].
        apply Z.eqb_neq in E. rewrite !store_other; [reflexivity | |];
          intros ->; apply E.
        -- replace (2 * d + 0) with (0 + d * 2) by lia.
           rewrite Z.div_add by lia. reflexivity.
        -- replace (2 * d + 1) with (1 + d * 2) by lia.
           rewrite Z.div_add by lia. reflexivity.
    + intros i. rewrite IHc. cbn [existsb].
      destruct (primary_derivatives_task i) as (e_v0 & e_v1 & e_camera & Hi).
      rewrite !Hi. cbn [snd]. rewrite !store_same.
      destruct (i =? d) eqn:E.
      * cbn [orb]. destruct (existsb (Z.eqb i) tasks); [reflexivity |].
        apply Z.eqb_eq in E. subst i.
        pose proof (Htask d_vertices d_cameras) as Ht. rewrite Hi in Ht.
        rewrite store_same.
        assert (Hc : store d_cameras d e_camera d = store d_cameras d d_camera d)
          by (pose proof (f_equal snd Ht) as Hc'; cbn [snd] in Hc'; now rewrite Hc').
        rewrite !store_same in Hc. now symmetry.
      * cbn [orb]. destruct (existsb (Z.eqb i) tasks); [reflexivity |].
        apply Z.eqb_neq in E. now rewrite store_other.
Qed.

End PrimaryDerivativeTasks.

(** X22.  The tasks of [compute_primary_edge_derivatives] do not
    interfere.  After the pass, the two vertex slots and the camera slot of a
    record [idx] in [0, num_records) hold what the task of [idx] alone writes
    (these values do not depend on the previous content of the buffers), and
    every other slot holds what it held before. *)
Theorem compute_primary_edge_derivatives_independent
    `{PrimaryDerivativeCollaborators}
    (camera : Camera) (shapes : Buffer Shape)
    (edge_records : Buffer PrimaryEdgeRecord) (num_records : Z)
    (edge_contribs : Buffer R)
    (d_vertices : Buffer (DVertex DVertexOther)) (d_cameras : Buffer DCameraInst) :
  let task := primary_edge_derivatives_computer camera shapes edge_records
                edge_contribs in
  let bufs := compute_primary_edge_derivatives camera shapes edge_records
                num_records edge_contribs (d_vertices, d_cameras) in
  (forall slot, fst bufs slot =
     if (0 <=? slot / 2) && (slot / 2 <? num_records)
     then fst (task (slot / 2) (d_vertices, d_cameras)) slot
     else d_vertices slot) /\
  (forall i, snd bufs i =
     if (0 <=? i) && (i <? num_records)
     then snd (task i (d_vertices, d_cameras)) i
     else d_cameras i).
Proof.
  cbv zeta. unfold compute_primary_edge_derivatives, parallel_for.
  destruct (primary_derivatives_tasks camera shapes edge_records edge_contribs
              (index_range num_records) d_vertices d_cameras) as (Hv & Hc).
  cbv zeta in Hv, Hc. split.
  - intros slot. rewrite Hv, existsb_index_range. reflexivity.
  - intros i. rewrite Hc, existsb_index_range. reflexivity.
Qed.

(** ** Table lookups *)

(** X23.  The two table lookups of the file stay inside their tables.  For
    tables with at least one row, whatever the arguments, [get_sphere_tab]
    reads [ltc::tabSphere] at an index in [0, N N) and [get_ltc_matrix]
    reads [ltc::tabM] at an index in [0, size size): both coordinates are
    clamped before the index is formed. *)
Theorem table_lookups_in_bounds `{MaterialCollaborators} `{TreeCollaborators}
    (cos_theta form_factor : R) (material : Material)
    (surface_point : SurfacePoint) (wi : Vector3) (min_rough : R) :
  1 <= tab_sphere_size ->
  1 <= ltc_size ->
  (0 <= sphere_tab_index cos_theta form_factor < tab_sphere_size * tab_sphere_size /\
   get_sphere_tab cos_theta form_factor =
   tabSphere (sphere_tab_index cos_theta form_factor)) /\
  (0 <= ltc_matrix_index material surface_point wi min_rough < ltc_size * ltc_size /\
   get_ltc_matrix material surface_point wi min_rough =
   tabM (ltc_matrix_index material surface_point wi min_rough)).
Proof.
  intros HN Hsize. split.
  - split; [| reflexivity].
    unfold sphere_tab_index. cbv zeta.
    set (N := tab_sphere_size) in *.
    pose proof (clampZ_range
                  (truncate (cos_theta * 0.5 + 0.5 * IZR (N - 1))) 0 (N - 1)
                  ltac:(lia)) as Hu.
    pose proof (clampZ_range (truncate (form_factor * IZR (N - 1))) 0 (N - 1)
                  ltac:(lia)) as Hv.
    nia.
  - split; [| reflexivity].
    unfold ltc_matrix_index. cbv zeta.
    set (N := ltc_size) in *.
    match goal with
    | |- 0 <= clampZ ?a 0 (N - 1) + clampZ ?b 0 (N - 1) * N < _ =>
        pose proof (clampZ_range a 0 (N - 1) ltac:(lia)) as Hr;
        pose proof (clampZ_range b 0 (N - 1) ltac:(lia)) as Ht
    end.
    nia.
Qed.

(** The theorem above on the tables with a single entry. *)
Lemma table_lookups_in_bounds_witness :
  @sphere_tab_index flat_tree_world 2 3 = 0 /\
  @ltc_matrix_index flat_world flat_materials tt origin_point (mkVector3 0 0 1) 0 = 0.
Proof.
  destruct (@table_lookups_in_bounds flat_world flat_materials flat_tree_world
              2 3 tt origin_point (mkVector3 0 0 1) 0)
    as ((Hs & _) & (Hm & _)).
  - simpl. lia.
  - simpl. lia.
  - simpl in Hs, Hm. lia.
Defined.



(** ** The secondary edge sampler as a whole *)

Section SecondaryTask.

Context `{MaterialCollaborators}.
Context `{TreeCollaborators}.

(** "Initialize output" as a set of slot writes. *)
Lemma secondary_initialize_writes (idx : Z) (min_rough : R) (o : SecondaryOutputs) :
  secondary_task_writes idx SecondaryEdgeRecord_init
    (make_ray zero3 zero3) (make_ray zero3 zero3) zero3 zero3 min_rough None
    o (secondary_initialize idx min_rough o).
Proof.
  unfold secondary_task_writes, secondary_initialize. cbv zeta.
  cbn [sec_edge_records sec_rays sec_bsdf_differentials sec_new_throughputs
       sec_edge_min_roughness].
  unfold store.
  split; [reflexivity |].
  split; [intros i; destruct (i =? 2 * idx + 1) eqn:E1, (i =? 2 * idx + 0) eqn:E0;
          try reflexivity; lia |].
  split; [intros i; destruct (i =? 2 * idx + 1) eqn:E1, (i =? 2 * idx + 0) eqn:E0;
          try reflexivity; lia |].
  split; [| reflexivity].
  intros i. destruct (i =? 2 * idx + 1) eqn:E1, (i =? 2 * idx + 0) eqn:E0;
    try reflexivity; lia.
Qed.

(** The writes of a successful sample, on top of "Initialize output". *)
Lemma secondary_success_writes (idx : Z) (min_rough : R)
    (record : SecondaryEdgeRecord) (ray_u ray_l : Ray) (nt_u nt_l : Vector3)
    (b : RayDifferential) (o : SecondaryOutputs) :
  let o1 := secondary_initialize idx min_rough o in
  secondary_task_writes idx record ray_u ray_l nt_u nt_l min_rough (Some b) o
    (mkSecondaryOutputs
       (store (sec_edge_records o1) idx record)
       (store (store (sec_rays o1) (2 * idx + 0) ray_u) (2 * idx + 1) ray_l)
       (store (store (sec_bsdf_differentials o1) (2 * idx + 0) b) (2 * idx + 1) b)
       (store (store (sec_new_throughputs o1) (2 * idx + 0) nt_u) (2 * idx + 1) nt_l)
       (sec_edge_min_roughness o1)).
Proof.
  cbv zeta. unfold secondary_task_writes, secondary_initialize. cbv zeta.
  cbn [sec_edge_records sec_rays sec_bsdf_differentials sec_new_throughputs
       sec_edge_min_roughness].
  unfold store.
  split; [intros i; destruct (i =? idx); reflexivity |].
  split; [intros i; destruct (i =? 2 * idx + 1) eqn:E1, (i =? 2 * idx + 0) eqn:E0;
          try reflexivity; lia |].
  split; [intros i; destruct (i =? 2 * idx + 1) eqn:E1, (i =? 2 * idx + 0) eqn:E0;
          try reflexivity; lia |].
  split; intros i; destruct (i =? 2 * idx + 1) eqn:E1, (i =? 2 * idx + 0) eqn:E0;
    try reflexivity; lia.
Qed.

(** One task of the secondary edge sampler as a set of slot writes: the
    values do not depend on the previous content of the buffers; either the
    sample failed and the values are the initial ones, or an edge was chosen
    and recorded. *)
Lemma secondary_edge_sampler_writes (shapes : Buffer Shape)
    (materials : Buffer Material) (edges_buffer : Buffer Edge) (num_edges : Z)
    (cam_org : Vector3) (edges_pmf : option (Buffer R)) (edges_cdf : Buffer R)
    (edge_tree_roots : EdgeTreeRoots) (active_pixels : Buffer Z)
    (edge_samples : Buffer SecondaryEdgeSample) (incoming_rays : Buffer Ray)
    (incoming_ray_differentials : Buffer RayDifferential)
    (shading_isects : Buffer Intersection) (shading_points : Buffer SurfacePoint)
    (throughputs_buffer : Buffer Vector3) (min_roughness : Buffer R)
    (d_rendered_image : Buffer R) (channel_info : ChannelInfo) (idx : Z) :
  let pixel_id := active_pixels idx in
  let shading_point := shading_points pixel_id in
  exists record ray_u ray_l nt_u nt_l bd,
    nt_l = neg3 nt_u /\
    ((record = SecondaryEdgeRecord_init /\
      ray_u = make_ray zero3 zero3 /\ ray_l = make_ray zero3 zero3 /\
      nt_u = zero3 /\ bd = None) \/
     (exists edge_id sample_p mwt_value tmin dir_u dir_l b,
        record = mkSecondaryEdgeRecord (edges_buffer edge_id) sample_p mwt_value /\
        is_silhouette shapes (position shading_point) (edges_buffer edge_id) = true /\
        ray_u = make_ray_tmin (position shading_point) dir_u tmin /\
        ray_l = make_ray_tmin (position shading_point) dir_l tmin /\
        bd = Some b)) /\
    forall o,
      secondary_task_writes idx record ray_u ray_l nt_u nt_l
        (min_roughness pixel_id) bd o
        (secondary_edge_sampler shapes materials edges_buffer num_edges cam_org
           edges_pmf edges_cdf edge_tree_roots active_pixels edge_samples
           incoming_rays incoming_ray_differentials shading_isects
           shading_points throughputs_buffer min_roughness d_rendered_image
           channel_info idx o).
Proof.
  cbv zeta.
  set (pixel_id := active_pixels idx).
  set (shading_point := shading_points pixel_id).
  set (min_rough := min_roughness pixel_id).
  assert (Hfail : exists record ray_u ray_l nt_u nt_l bd,
    nt_l = neg3 nt_u /\
    ((record = SecondaryEdgeRecord_init /\
      ray_u = make_ray zero3 zero3 /\ ray_l = make_ray zero3 zero3 /\
      nt_u = zero3 /\ bd = None) \/
     (exists edge_id sample_p mwt_value tmin dir_u dir_l b,
        record = mkSecondaryEdgeRecord (edges_buffer edge_id) sample_p mwt_value /\
        is_silhouette shapes (position shading_point) (edges_buffer edge_id) = true /\
        ray_u = make_ray_tmin (position shading_point) dir_u tmin /\
        ray_l = make_ray_tmin (position shading_point) dir_l tmin /\
        bd = Some b)) /\
    forall o, secondary_task_writes idx record ray_u ray_l nt_u nt_l min_rough bd o
                (secondary_initialize idx min_rough o)).
  { exists SecondaryEdgeRecord_init, (make_ray zero3 zero3), (make_ray zero3 zero3),
      zero3, zero3, None.
    split; [unfold neg3, zero3; cbn [vx vy vz]; f_equal; lra |].
    split; [left; repeat split |]. apply secondary_initialize_writes. }
  unfold secondary_edge_sampler. cbv zeta.
  fold pixel_id. fold shading_point. fold min_rough.
  destruct (Rltb 1e-2 min_rough); [exact Hfail |].
  destruct (ltc_setup _ _ _ _ _) as [[[m m_inv] m_pmf] |]; [| exact Hfail].
  destruct (select_secondary_edge _ _ _ _ _ _ _ _ _ _ _)
    as [[edge_id edge_sample_weight] |]; [| exact Hfail].
  destruct (is_silhouette shapes (position shading_point) (edges_buffer edge_id))
    eqn:Hsil; cbn [negb]; [| exact Hfail].
  destruct (Rleb _ 0 && Rleb _ 0); [exact Hfail |].
  destruct (clip_to_tangent_plane _ _) as [v0c v1c].
  destruct (edge_line v0c v1c) as [[[[vo wt] d] l0] l1].
  destruct (fst (fst (sample_on_edge _ _ _))) as [[l_final line_pdf_l] |];
    [| exact Hfail].
  destruct (Rltb (sum _) 1e-6); [exact Hfail |].
  match goal with
  | |- context [mkSecondaryOutputs
                  (store _ idx ?rec)
                  (store (store _ _ ?ru) _ ?rl)
                  (store (store _ _ ?b) _ ?b)
                  (store (store _ _ ?nt) _ (neg3 ?nt)) _] =>
      exists rec, ru, rl, nt, (neg3 nt), (Some b)
  end.
  split; [reflexivity |]. split.
  - right. do 7 eexists. split; [reflexivity |]. split; [exact Hsil |].
    split; [reflexivity |]. split; reflexivity.
  - intros o. apply secondary_success_writes.
Qed.

Lemma same_secondary_slots_refl idx (o : SecondaryOutputs) :
  same_secondary_slots idx o o.
Proof. unfold same_secondary_slots. repeat split; reflexivity. Qed.

Lemma same_secondary_slots_trans idx (o1 o2 o3 : SecondaryOutputs) :
  same_secondary_slots idx o1 o2 -> same_secondary_slots idx o2 o3 ->
  same_secondary_slots idx o1 o3.
Proof.
  intros (A1 & A2) (B1 & B2). split; [congruence |].
  intros r Hr. destruct (A2 r Hr) as (Aa & Ab & Ac & Ad).
  destruct (B2 r Hr) as (Ba & Bb & Bc & Bd).
  repeat split; congruence.
Qed.

(** A generic pass of tasks that are slot writes of this kind. *)
Lemma secondary_writes_frame idx j record ray_u ray_l nt_u nt_l min_rough bd
    (o o' : SecondaryOutputs) :
  secondary_task_writes idx record ray_u ray_l nt_u nt_l min_rough bd o o' ->
  j <> idx -> same_secondary_slots j o' o.
Proof.
  intros (Hr & Hy & Ht & Hm & Hb) Hne. split.
  - rewrite Hr. assert (E : (j =? idx) = false) by (apply Z.eqb_neq; exact Hne).
    now rewrite E.
  - intros r Hrange.
    assert (E0 : (2 * j + r =? 2 * idx + 0) = false) by (apply Z.eqb_neq; lia).
    assert (E1 : (2 * j + r =? 2 * idx + 1) = false) by (apply Z.eqb_neq; lia).
    rewrite Hy, Ht, Hm, Hb, E0, E1. cbn [orb].
    repeat split; try reflexivity. destruct bd; reflexivity.
Qed.

Lemma secondary_writes_local idx record ray_u ray_l nt_u nt_l min_rough bd
    (o1 o1' o2 o2' : SecondaryOutputs) :
  secondary_task_writes idx record ray_u ray_l nt_u nt_l min_rough bd o1 o1' ->
  secondary_task_writes idx record ray_u ray_l nt_u nt_l min_rough bd o2 o2' ->
  same_secondary_slots idx o1 o2 -> same_secondary_slots idx o1' o2'.
Proof.
  intros (Hr & Hy & Ht & Hm & Hb) (Hr2 & Hy2 & Ht2 & Hm2 & Hb2) (_ & Hsame).
  split.
  - rewrite Hr, Hr2, Z.eqb_refl. reflexivity.
  - intros r Hrange. destruct (Hsame r Hrange) as (_ & _ & _ & Hbd).
    rewrite Hy, Hy2, Ht, Ht2, Hm, Hm2, Hb, Hb2.
    assert (Hcase : r = 0 \/ r = 1) by lia.
    destruct Hcase as [-> | ->].
    + rewrite !Z.eqb_refl. cbn [orb]. repeat split; try reflexivity.
      destruct bd; [reflexivity | exact Hbd].
    + assert (E : (2 * idx + 1 =? 2 * idx + 0) = false) by (apply Z.eqb_neq; lia).
      rewrite E, !Z.eqb_refl. cbn [orb]. repeat split; try reflexivity.
      destruct bd; [reflexivity | exact Hbd].
Qed.

End SecondaryTask.

(** X26.  The outcome of one secondary edge sample.  Whatever the inputs,
    after the task of sample [idx] both slots of [edge_min_roughness] hold
    the minimal roughness of the pixel, the throughput of the lower ray is
    the negation of the throughput of the upper ray, and one of two cases
    holds.  Either the sample failed: the record is the value-initialised
    record, both rays are zero rays, both throughputs are zero and the ray
    differentials of the sample are not written.  Or an edge was sampled:
    the record holds an edge of the edge buffer that is a silhouette edge
    for the shading point, the two rays start at the shading point with the
    same minimal distance, and the two ray differentials are equal. *)
Theorem secondary_sampler_outcome `{MaterialCollaborators} `{TreeCollaborators}
    (shapes : Buffer Shape)
    (materials : Buffer Material) (edges_buffer : Buffer Edge) (num_edges : Z)
    (cam_org : Vector3) (edges_pmf : option (Buffer R)) (edges_cdf : Buffer R)
    (edge_tree_roots : EdgeTreeRoots) (active_pixels : Buffer Z)
    (edge_samples : Buffer SecondaryEdgeSample) (incoming_rays : Buffer Ray)
    (incoming_ray_differentials : Buffer RayDifferential)
    (shading_isects : Buffer Intersection) (shading_points : Buffer SurfacePoint)
    (throughputs_buffer : Buffer Vector3) (min_roughness : Buffer R)
    (d_rendered_image : Buffer R) (channel_info : ChannelInfo) (idx : Z)
    (o : SecondaryOutputs) :
  let pixel_id := active_pixels idx in
  let shading_point := shading_points pixel_id in
  let o' := secondary_edge_sampler shapes materials edges_buffer num_edges cam_org
              edges_pmf edges_cdf edge_tree_roots active_pixels edge_samples
              incoming_rays incoming_ray_differentials shading_isects
              shading_points throughputs_buffer min_roughness d_rendered_image
              channel_info idx o in
  sec_edge_min_roughness o' (2 * idx + 0) = min_roughness pixel_id /\
  sec_edge_min_roughness o' (2 * idx + 1) = min_roughness pixel_id /\
  sec_new_throughputs o' (2 * idx + 1) = neg3 (sec_new_throughputs o' (2 * idx + 0)) /\
  ((sec_edge_records o' idx = SecondaryEdgeRecord_init /\
    sec_rays o' (2 * idx + 0) = make_ray zero3 zero3 /\
    sec_rays o' (2 * idx + 1) = make_ray zero3 zero3 /\
    sec_new_throughputs o' (2 * idx + 0) = zero3 /\
    sec_new_throughputs o' (2 * idx + 1) = zero3 /\
    (forall i, sec_bsdf_differentials o' i = sec_bsdf_differentials o i)) \/
   (exists edge_id tmin dir_u dir_l,
      secondary_edge (sec_edge_records o' idx) = edges_buffer edge_id /\
      is_silhouette shapes (position shading_point) (edges_buffer edge_id) = true /\
      sec_rays o' (2 * idx + 0) = make_ray_tmin (position shading_point) dir_u tmin /\
      sec_rays o' (2 * idx + 1) = make_ray_tmin (position shading_point) dir_l tmin /\
      sec_bsdf_differentials o' (2 * idx + 0) =
      sec_bsdf_differentials o' (2 * idx + 1))).
Proof.
  intros pixel_id shading_point o'.
  destruct (secondary_edge_sampler_writes shapes materials edges_buffer num_edges
              cam_org edges_pmf edges_cdf edge_tree_roots active_pixels
              edge_samples incoming_rays incoming_ray_differentials
              shading_isects shading_points throughputs_buffer min_roughness
              d_rendered_image channel_info idx)
    as (record & ray_u & ray_l & nt_u & nt_l & bd & Hnt & Hcase & Hw).
  cbv zeta in Hcase, Hw. fold pixel_id in Hcase, Hw. fold shading_point in Hcase.
  destruct (Hw o) as (Hr & Hy & Ht & Hm & Hb). fold o' in Hr, Hy, Ht, Hm, Hb.
  assert (E10 : (2 * idx + 1 =? 2 * idx + 0) = false) by (apply Z.eqb_neq; lia).
  rewrite !Hm, !Ht, !Hy, Hr, !Hb, !Z.eqb_refl, E10. cbn [orb].
  split; [reflexivity |]. split; [reflexivity |]. split; [exact Hnt |].
  destruct Hcase as [(-> & -> & -> & Hz & ->)
                    | (edge_id & sample_p & mwt_value & tmin & dir_u & dir_l & b &
                       -> & Hsil & -> & -> & ->)].
  - left. subst nt_u. rewrite Hnt.
    repeat split; try reflexivity.
    + unfold neg3, zero3. cbn [vx vy vz]. f_equal; lra.
    + intros i. apply Hb.
  - right. exists edge_id, tmin, dir_u, dir_l.
    cbn [secondary_edge]. repeat split; try reflexivity. exact Hsil.
Qed.

Section SecondaryPassFacts.

Context `{MaterialCollaborators}.
Context `{TreeCollaborators}.
Variable task : Z -> SecondaryOutputs -> SecondaryOutputs.
Hypothesis task_writes :
  forall idx, exists record ray_u ray_l nt_u nt_l min_rough bd,
  forall o, secondary_task_writes idx record ray_u ray_l nt_u nt_l min_rough bd
              o (task idx o).

Lemma secondary_tasks_frame (j : Z) (tasks : list Z) :
  ~ In j tasks ->
  forall o,
  same_secondary_slots j (fold_left (fun acc idx => task idx acc) tasks o) o.
Proof.
  induction tasks as [| d tasks IH]; intros Hnin o.
  - apply same_secondary_slots_refl.
  - cbn [fold_left]. eapply same_secondary_slots_trans.
    + apply IH. intros Hin. apply Hnin. now right.
    + destruct (task_writes d)
        as (record & ray_u & ray_l & nt_u & nt_l & min_rough & bd & Hw).
      eapply secondary_writes_frame; [apply Hw |].
      intros ->. apply Hnin. now left.
Qed.

Lemma secondary_tasks_own (j : Z) (tasks : list Z) :
  NoDup tasks -> In j tasks ->
  forall o,
  same_secondary_slots j (fold_left (fun acc idx => task idx acc) tasks o)
    (task j o).
Proof.
  induction tasks as [| d tasks IH]; intros Hnd Hin o; [contradiction |].
  inversion Hnd as [| ? ? Hnotin Hnd']; subst. cbn [fold_left].
  destruct (Z.eq_dec d j) as [-> | Hne].
  - apply secondary_tasks_frame. exact Hnotin.
  - destruct Hin as [Heq | Hin]; [contradiction |].
    eapply same_secondary_slots_trans; [apply IH; assumption |].
    destruct (task_writes j)
      as (record & ray_u & ray_l & nt_u & nt_l & min_rough & bd & Hw).
    eapply secondary_writes_local; [apply Hw | apply Hw |].
    destruct (task_writes d)
      as (record' & ray_u' & ray_l' & nt_u' & nt_l' & min_rough' & bd' & Hw').
    eapply secondary_writes_frame; [apply Hw' |].
    intros Heq. apply Hne. now symmetry.
Qed.

End SecondaryPassFacts.

(** X27.  The tasks of [sample_secondary_edges] do not interfere.  After
    the pass, the slots of a sample [idx] in [0, num_active_pixels) (record,
    two rays, two throughputs, two minimal roughnesses, two ray
    differentials) hold what the task of [idx] alone writes from the initial
    buffers, and the slots of every other index are unchanged. *)
Theorem sample_secondary_edges_independent
    `{MaterialCollaborators} `{TreeCollaborators}
    (shapes : Buffer Shape)
    (materials : Buffer Material) (edges_buffer : Buffer Edge) (num_edges : Z)
    (cam_org : Vector3) (edges_pmf : option (Buffer R)) (edges_cdf : Buffer R)
    (edge_tree_roots : EdgeTreeRoots) (active_pixels : Buffer Z)
    (num_active_pixels : Z)
    (edge_samples : Buffer SecondaryEdgeSample) (incoming_rays : Buffer Ray)
    (incoming_ray_differentials : Buffer RayDifferential)
    (shading_isects : Buffer Intersection) (shading_points : Buffer SurfacePoint)
    (throughputs_buffer : Buffer Vector3) (min_roughness : Buffer R)
    (d_rendered_image : Buffer R) (channel_info : ChannelInfo) (idx : Z)
    (o : SecondaryOutputs) :
  same_secondary_slots idx
    (sample_secondary_edges shapes materials edges_buffer num_edges cam_org
       edges_pmf edges_cdf edge_tree_roots active_pixels num_active_pixels
       edge_samples incoming_rays incoming_ray_differentials shading_isects
       shading_points throughputs_buffer min_roughness d_rendered_image
       channel_info o)
    (if (0 <=? idx) && (idx <? num_active_pixels)
     then secondary_edge_sampler shapes materials edges_buffer num_edges cam_org
            edges_pmf edges_cdf edge_tree_roots active_pixels edge_samples
            incoming_rays incoming_ray_differentials shading_isects
            shading_points throughputs_buffer min_roughness d_rendered_image
            channel_info idx o
     else o).
Proof.
  unfold sample_secondary_edges, parallel_for.
  set (task := secondary_edge_sampler shapes materials edges_buffer num_edges
                 cam_org edges_pmf edges_cdf edge_tree_roots active_pixels
                 edge_samples incoming_rays incoming_ray_differentials
                 shading_isects shading_points throughputs_buffer min_roughness
                 d_rendered_image channel_info).
  assert (Hwrites : forall i, exists record ray_u ray_l nt_u nt_l min_rough bd,
            forall o0, secondary_task_writes i record ray_u ray_l nt_u nt_l
                         min_rough bd o0 (task i o0)).
  { intros i.
    destruct (secondary_edge_sampler_writes shapes materials edges_buffer
                num_edges cam_org edges_pmf edges_cdf edge_tree_roots
                active_pixels edge_samples incoming_rays
                incoming_ray_differentials shading_isects shading_points
                throughputs_buffer min_roughness d_rendered_image channel_info i)
      as (record & ray_u & ray_l & nt_u & nt_l & bd & _ & _ & Hw).
    exists record, ray_u, ray_l, nt_u, nt_l, (min_roughness (active_pixels i)), bd.
    exact Hw. }
  destruct ((0 <=? idx) && (idx <? num_active_pixels)) eqn:E.
  - apply (secondary_tasks_own task Hwrites); [apply index_range_NoDup |].
    apply index_range_In. lia.
  - apply (secondary_tasks_frame task Hwrites). rewrite index_range_In. lia.
Qed.

(** ** Hybrid bisection and Newton iteration: the solution stays bracketed *)

Section SolverRoot.

Local Open Scope R_scope.
Variables line_cdf line_pdf : R -> R.
Variable t : R.

Lemma reset_iterate_brackets_target (s : SolverState) :
  brackets_target line_cdf t s -> brackets_target line_cdf t (reset_iterate s).
Proof.
  unfold brackets_target, reset_iterate.
  destruct (negb _); cbn [lb ub]; tauto.
Qed.

(** Every round keeps the target between the values of the cdf at the ends
    of the bracket; the loop is left with the cdf within [1e-5] of the
    target, or after the last of the rounds that the loop bound allows. *)
Lemma newton_bisection_keeps_target (remaining : nat) :
  forall it s final visited,
  newton_bisection line_cdf line_pdf t remaining it s = (final, visited) ->
  brackets_target line_cdf t s ->
  brackets_target line_cdf t final /\
  Forall (brackets_target line_cdf t) visited /\
  ((0 < remaining)%nat -> (it + Z.of_nat remaining = 20)%Z ->
   Rabs (line_cdf (l final) - t) < 1e-5 \/ length visited = remaining).
Proof.
  induction remaining as [| remaining IH]; intros it s final visited Hrun Hs.
  - cbn [newton_bisection] in Hrun.
    assert (Hf : s = final) by congruence.
    assert (Hv : visited = []) by congruence.
    subst. split; [exact Hs |]. split; [constructor | lia].
  - cbn [newton_bisection] in Hrun. cbv zeta in Hrun.
    pose proof (reset_iterate_brackets_target s Hs) as Hs1.
    set (s1 := reset_iterate s) in *.
    destruct (Rltb (Rabs (line_cdf (l s1) - t)) 1e-5) eqn:Eacc.
    + cbn [orb] in Hrun.
      assert (Hf : s1 = final) by congruence.
      assert (Hv : visited = [s1]) by congruence.
      subst final visited. apply Rltb_true in Eacc.
      split; [exact Hs1 |]. split; [constructor; [exact Hs1 | constructor] |].
      intros _ _. now left.
    + cbn [orb] in Hrun. destruct (it =? 19)%Z eqn:Eit.
      * assert (Hf : s1 = final) by congruence.
        assert (Hv : visited = [s1]) by congruence.
        subst final visited. apply Z.eqb_eq in Eit.
        split; [exact Hs1 |]. split; [constructor; [exact Hs1 | constructor] |].
        intros _ Hsum. right. cbn [length]. lia.
      * apply Z.eqb_neq in Eit.
        match type of Hrun with
        | (let '(f, v) := newton_bisection _ _ _ _ _ ?s2 in _) = _ =>
            set (s' := s2) in *
        end.
        destruct (newton_bisection line_cdf line_pdf t remaining (it + 1) s')
          as [final' visited'] eqn:Hrec.
        assert (Hf : final' = final) by congruence.
        assert (Hv : visited = s1 :: visited') by congruence.
        subst final' visited.
        assert (Hs' : brackets_target line_cdf t s').
        { unfold s', brackets_target in *.
          destruct (Rltb 0 (line_cdf (l s1) - t)) eqn:Eval; cbn [lb ub].
          - apply Rltb_true in Eval. lra.
          - apply Rltb_false in Eval. lra. }
        destruct (IH (it + 1)%Z s' final visited' Hrec Hs') as (Hfin & Hall & Hexit).
        split; [exact Hfin |]. split; [constructor; assumption |].
        intros _ Hsum. destruct Hexit as [Hacc | Hlen]; [lia | lia | now left |].
        right. cbn [length]. lia.
Qed.

End SolverRoot.

(** X28.  The solver never loses the solution.  Whatever the cdf and its
    derivative, if the target [t] lies between the values of the cdf at the
    two ends of the initial bracket (as it does for the cdf of a clipped
    edge and [t] in [0, 1]), then it lies between the values of the cdf
    at the ends of the bracket in every round and at the exit; the loop is
    left with [line_cdf(l)] within [1e-5] of [t], or after 20 rounds; and if
    the cdf is continuous, the final bracket contains a solution of
    [line_cdf(x) = t]. *)
Theorem newton_bisection_keeps_solution (line_cdf line_pdf : R -> R) (t l0 l1 : R) :
  (line_cdf (Rmin l0 l1) <= t <= line_cdf (Rmax l0 l1))%R ->
  let run := newton_bisection line_cdf line_pdf t 20 0 (initial_bracket l0 l1) in
  let final := fst run in
  let visited := snd run in
  brackets_target line_cdf t final /\
  Forall (brackets_target line_cdf t) visited /\
  ((Rabs (line_cdf (l final) - t) < 1e-5)%R \/ length visited = 20%nat) /\
  (continuity line_cdf ->
   exists x, (lb final <= x <= ub final)%R /\ line_cdf x = t).
Proof.
  intros Ht run final visited.
  assert (Hinit : brackets_target line_cdf t (initial_bracket l0 l1)).
  { unfold brackets_target, initial_bracket. cbv zeta.
    destruct (Rltb l1 l0) eqn:E; cbn [lb ub].
    - apply Rltb_true in E. rewrite Rmin_right, Rmax_left in Ht by lra. exact Ht.
    - apply Rltb_false in E. rewrite Rmin_left, Rmax_right in Ht by lra. exact Ht. }
  destruct (newton_bisection_keeps_target line_cdf line_pdf t 20 0
              (initial_bracket l0 l1) final visited) as (Hfin & Hall & Hexit).
  { unfold final, visited, run. now destruct (newton_bisection _ _ _ _ _ _). }
  { exact Hinit. }
  split; [exact Hfin |]. split; [exact Hall |].
  split; [apply Hexit; lia |].
  intros Hcont.
  destruct (newton_bisection_from_initial line_cdf line_pdf t l0 l1)
    as (_ & _ & _ & (_ & Hord & _) & _).
  fold run in Hord. fold final in Hord.
  destruct (IVT_cor (fun x => (line_cdf x - t)%R) (lb final) (ub final))
    as (x & Hx & Hfx).
  - intros x. apply continuity_pt_minus; [apply Hcont |].
    apply continuity_pt_const. intros a b. reflexivity.
  - exact Hord.
  - unfold brackets_target in Hfin.
    assert (H1 : (line_cdf (lb final) - t <= 0)%R) by lra.
    assert (H2 : (0 <= line_cdf (ub final) - t)%R) by lra.
    nra.
  - exists x. split; [exact Hx | lra].
Qed.

(** The theorem above for the identity as cdf on [0, 1] and the target
    1/2: the solver stops in its first round, at the midpoint. *)
Lemma newton_bisection_keeps_solution_witness :
  brackets_target (fun x => x) (1 / 2)
    (fst (newton_bisection (fun x => x) (fun _ => 1%R) (1 / 2) 20 0
            (initial_bracket 0 1))).
Proof.
  apply (newton_bisection_keeps_solution (fun x => x) (fun _ => 1%R) (1 / 2) 0 1).
  rewrite Rmin_left, Rmax_right by lra. lra.
Defined.

(** ** Primary edge sampler: a successful sample *)

(** X29.  A primary edge sample that succeeds with a camera that is not a
    fisheye camera (the projection succeeds, the pmf of the selected edge
    is positive and the sampled point is on the screen).  The record holds
    the selected edge and the point [v0 + t (v1 - v0)] of its projection;
    the pixel of that point has coordinates inside the image, so that for an
    image of at least one pixel every read [d_rendered_image[nd (yi w + xi)
    + d]] with [d] in [0, nd) is inside the image; the upper channel
    multipliers are these values divided by the pmf of the edge, the lower
    ones their opposites, and the upper throughput is the colour read at the
    radiance dimension divided by the pmf. *)
Theorem primary_sampler_success_values `{Collaborators}
    (camera : Camera) (shapes : Buffer Shape) (edges_buffer : Buffer Edge)
    (num_edges : Z) (edges_pmf edges_cdf : Buffer R)
    (samples : Buffer PrimaryEdgeSample) (d_rendered_image : Buffer R)
    (channel_info : ChannelInfo) (idx : Z) (o : PrimaryOutputs)
    (v0_ss v1_ss : Vector2) :
  let nd := num_total_dimensions channel_info in
  let rd := radiance_dimension channel_info in
  let sample := samples idx in
  let edge_id := select_edge edges_cdf num_edges (primary_edge_sel sample) in
  let edge := edges_buffer edge_id in
  let edge_pt := add2 v0_ss (scale2 (primary_t sample) (sub2 v1_ss v0_ss)) in
  let width := camera_width camera in
  let height := camera_height camera in
  let xi := clampZ (truncate (v2x edge_pt * IZR width)) 0 (width - 1) in
  let yi := clampZ (truncate (v2y edge_pt * IZR height)) 0 (height - 1) in
  let pixel := nd * (yi * width + xi) in
  let o' := primary_edge_sampler camera shapes edges_buffer num_edges edges_pmf
              edges_cdf samples d_rendered_image channel_info idx o in
  camera_fisheye camera = false ->
  project camera (get_v0 shapes edge) (get_v1 shapes edge) = Some (v0_ss, v1_ss) ->
  (0 < edges_pmf edge_id)%R ->
  in_screen camera edge_pt = true ->
  1 <= width -> 1 <= height ->
  edge_records o' idx = mkPrimaryEdgeRecord edge edge_pt /\
  0 <= xi < width /\ 0 <= yi < height /\
  throughputs o' (2 * idx + 0) =
    div3 (mkVector3 (d_rendered_image (pixel + rd + 0))
                    (d_rendered_image (pixel + rd + 1))
                    (d_rendered_image (pixel + rd + 2)))
         (edges_pmf edge_id) /\
  (forall d, 0 <= d < nd ->
     0 <= pixel + d < nd * (width * height) /\
     channel_multipliers o' (2 * nd * idx + d) =
       (d_rendered_image (pixel + d)%Z / edges_pmf edge_id)%R /\
     channel_multipliers o' (2 * nd * idx + d + nd) =
       (- d_rendered_image (pixel + d)%Z / edges_pmf edge_id)%R).
Proof.
  intros nd rd sample edge_id edge edge_pt width height xi yi pixel o'
         Hcam Hproj Hpmf Hscreen Hw Hh.
  assert (Hxi : 0 <= xi < width)
    by (pose proof (clampZ_range (truncate (v2x edge_pt * IZR width)) 0 (width - 1)
                      ltac:(lia)); unfold xi; lia).
  assert (Hyi : 0 <= yi < height)
    by (pose proof (clampZ_range (truncate (v2y edge_pt * IZR height)) 0 (height - 1)
                      ltac:(lia)); unfold yi; lia).
  assert (E : Rleb (edges_pmf edge_id) 0 = false) by (apply Rleb_false; exact Hpmf).
  unfold o', primary_edge_sampler. cbv zeta.
  fold sample. fold (select_edge edges_cdf num_edges (primary_edge_sel sample)).
  fold edge_id. fold edge. rewrite Hproj, E, Hcam. cbn [negb].
  fold edge_pt. rewrite Hscreen. cbn [negb].
  fold width height. fold xi yi. fold nd rd. fold pixel.
  match goal with
  | |- context [primary_ray_differential camera idx
         (write_channel_multipliers _ idx ?up ?lo
            (set_throughput (set_throughput
               (set_ray (set_ray (set_edge_record _ idx ?rec) _ ?ru) _ ?rl)
               _ ?wu) _ ?wl))] =>
      destruct (primary_success_writes camera channel_info idx rec ru rl wu wl up lo)
        as (rdiff & Hwrites)
  end.
  destruct (Hwrites o) as (Her & _ & Ht & Hcm & _). fold nd in Hcm.
  rewrite Her, Ht, !Z.eqb_refl.
  split; [reflexivity |]. split; [exact Hxi |]. split; [exact Hyi |].
  split; [reflexivity |].
  intros d Hd. split.
  { assert (Hcell : 0 <= yi * width + xi <= width * height - 1) by nia.
    unfold pixel. set (cell := yi * width + xi) in *.
    set (cells := width * height) in *. nia. }
  rewrite !Hcm. cbv zeta.
  replace (2 * nd * idx + d - 2 * nd * idx) with d by lia.
  replace (2 * nd * idx + d + nd - 2 * nd * idx) with (d + nd) by lia.
  assert (E1 : (0 <=? d) && (d <? nd) = true) by lia.
  assert (E2 : (0 <=? d + nd) && (d + nd <? nd) = false) by lia.
  assert (E3 : (nd <=? d + nd) && (d + nd <? 2 * nd) = true) by lia.
  rewrite E1, E2, E3. replace (d + nd - nd) with d by lia.
  split; reflexivity.
Qed.

(** The theorem above on the first edge of the quad seen by the
    orthographic camera, sampled at its middle. *)
Lemma primary_sampler_success_values_witness :
  let o' := @primary_edge_sampler flat_world tt (fun _ => quad_mesh)
              (fun _ => mkEdge 0 0 1 0 (-1)) 1 (fun _ => 1%R) (fun _ => 0%R)
              (fun _ => mkPrimaryEdgeSample 0 (1 / 2)) (fun _ => 1%R)
              (mkChannelInfo 3 0) 0 stale_outputs in
  primary_edge (edge_records o' 0) = mkEdge 0 0 1 0 (-1).
Proof.
  intros o'.
  pose proof (@primary_sampler_success_values flat_world tt (fun _ => quad_mesh)
                (fun _ => mkEdge 0 0 1 0 (-1)) 1 (fun _ => 1%R) (fun _ => 0%R)
                (fun _ => mkPrimaryEdgeSample 0 (1 / 2)) (fun _ => 1%R)
                (mkChannelInfo 3 0) 0 stale_outputs
                (mkVector2 (vx (get_v0 (fun _ => quad_mesh) (mkEdge 0 0 1 0 (-1))))
                           (vy (get_v0 (fun _ => quad_mesh) (mkEdge 0 0 1 0 (-1)))))
                (mkVector2 (vx (get_v1 (fun _ => quad_mesh) (mkEdge 0 0 1 0 (-1))))
                           (vy (get_v1 (fun _ => quad_mesh) (mkEdge 0 0 1 0 (-1)))))
                eq_refl eq_refl ltac:(lra) eq_refl ltac:(simpl; lia)
                ltac:(simpl; lia)) as (Hrec & _).
  fold o' in Hrec. rewrite Hrec. reflexivity.
Defined.

(** ** Secondary edge sampler: the chosen edge is an edge of the buffer *)

Section SelectedEdge.

Context `{TreeCollaborators}.
Context {B : Type}.
Variable importance : BVHNode B -> SurfacePoint -> Matrix3x3 -> R.
Variable num_edges : Z.

(** The descent from a node ends on a leaf under the node: whatever the
    importances, the sample and the pmf are, the result is [-1] or the edge
    id of a leaf.  No fact of arithmetic enters the proof. *)
Lemma sample_edge_leaf_id (node : BVHNode B) :
  well_formed num_edges node ->
  forall (p : SurfacePoint) (m_inv : Matrix3x3) (sample pmf : R) (id : Z) (pmf' : R),
  sample_edge importance node p m_inv sample pmf = Some (id, pmf') ->
  id = -1 \/ (In id (leaf_ids node) /\ 0 <= id < num_edges).
Proof.
  induction 1 as [bounds w e Hw He | bounds w child0 child1 Hw H0 IH0 H1 IH1];
    intros p m_inv sample pmf id pmf' Hrun.
  - cbn [sample_edge node_edge_id] in Hrun.
    replace (e =? -1) with false in Hrun by (symmetry; apply Z.eqb_neq; lia).
    cbn [negb] in Hrun. injection Hrun as <- <-.
    right. split; [now left | exact He].
  - cbn [sample_edge node_edge_id] in Hrun. rewrite Z.eqb_refl in Hrun.
    cbn [negb] in Hrun. cbn [leaf_ids].
    destruct (Rleb (importance child0 p m_inv) 0 && Rleb (importance child1 p m_inv) 0).
    + injection Hrun as <- <-. now left.
    + match type of Hrun with
      | context [if ?c then _ else _] => destruct c
      end.
      * destruct (IH0 _ _ _ _ _ _ Hrun) as [Hm | [Hin Hr]]; [now left | right].
        split; [apply in_or_app; now left | exact Hr].
      * destruct (IH1 _ _ _ _ _ _ Hrun) as [Hm | [Hin Hr]]; [now left | right].
        split; [apply in_or_app; now right | exact Hr].
Qed.

End SelectedEdge.

(** The same for the descent over the two roots. *)
Lemma sample_edge_roots_leaf_id `{TreeCollaborators} (cam_org : Vector3)
    (roots : EdgeTreeRoots) (p : SurfacePoint) (m_inv : Matrix3x3)
    (num_edges : Z) (sample pmf0 : R) (id : Z) (pmf : R) :
  well_formed_roots num_edges roots ->
  sample_edge_roots cam_org roots p m_inv sample pmf0 = Some (id, pmf) ->
  id = -1 \/ (In id (roots_leaf_ids roots) /\ 0 <= id < num_edges).
Proof.
  intros [Hcs Hncs] Hrun. unfold sample_edge_roots in Hrun. cbv zeta in Hrun.
  unfold roots_leaf_ids.
  match type of Hrun with
  | context [if ?c then _ else _] => destruct c
  end; [injection Hrun as <- <-; now left |].
  match type of Hrun with
  | context [if ?c then _ else _] => destruct c
  end.
  - destruct (cs_bvh_root roots) as [root |]; [| discriminate].
    destruct (sample_edge_leaf_id importance3 num_edges root (Hcs root eq_refl)
                _ _ _ _ _ _ Hrun) as [Hm | [Hin Hr]]; [now left | right].
    split; [apply in_or_app; now left | exact Hr].
  - destruct (ncs_bvh_root roots) as [root |]; [| discriminate].
    destruct (sample_edge_leaf_id (importance6 cam_org) num_edges root
                (Hncs root eq_refl) _ _ _ _ _ _ Hrun) as [Hm | [Hin Hr]];
      [now left | right].
    split; [apply in_or_app; now right | exact Hr].
Qed.

(** X30.  The edge chosen by the secondary sampler is an edge of the
    buffer.  With at least one edge and a tree whose leaves hold edge ids
    of the buffer, whichever of the two ways of choosing is taken
    (importance resampling when [edges_pmf] is not null, the descent over
    the edge tree otherwise) and whatever the selectors are, a chosen edge
    id is a valid index into the edge buffer, so that the read of
    [edges[edge_id]] that follows is in bounds; after resampling the edge
    sample weight is strictly positive.  The part on the descent uses no
    fact of arithmetic: it holds as well when the importances are rounded,
    infinite or NaN. *)
Theorem select_secondary_edge_valid `{Collaborators} `{TreeCollaborators}
    (shapes : Buffer Shape) (edges_buffer : Buffer Edge)
    (num_edges : Z) (cam_org : Vector3) (edges_pmf : option (Buffer R))
    (edges_cdf : Buffer R) (edge_tree_roots : EdgeTreeRoots)
    (edge_sample : SecondaryEdgeSample) (shading_isect : Intersection)
    (shading_point : SurfacePoint) (m_inv : Matrix3x3)
    (edge_id : Z) (edge_sample_weight : R) :
  1 <= num_edges ->
  well_formed_roots num_edges edge_tree_roots ->
  select_secondary_edge shapes edges_buffer num_edges cam_org edges_pmf edges_cdf
    edge_tree_roots edge_sample shading_isect shading_point m_inv =
    Some (edge_id, edge_sample_weight) ->
  0 <= edge_id < num_edges /\
  (edges_pmf <> None -> (0 < edge_sample_weight)%R).
Proof.
  intros Hn Hwf Hres. unfold select_secondary_edge in Hres.
  destruct edges_pmf as [pmf_buffer |].
  - destruct (resample_edge_sound_facts shapes edges_buffer num_edges pmf_buffer
                edges_cdf edge_sample shading_isect shading_point m_inv edge_id
                edge_sample_weight Hn Hres) as (Hid & _ & _ & _ & _ & Hw).
    split; [exact Hid | intros _; exact Hw].
  - cbv zeta in Hres.
    destruct (sample_edge_roots cam_org edge_tree_roots shading_point m_inv
                (edge_sel edge_sample) 0) as [[id pmf] |] eqn:Hrun;
      [| discriminate].
    destruct (id =? -1) eqn:Eid; [discriminate |].
    apply Z.eqb_neq in Eid. injection Hres as <- <-.
    destruct (sample_edge_roots_leaf_id cam_org edge_tree_roots shading_point
                m_inv num_edges (edge_sel edge_sample) 0 id pmf Hwf Hrun)
      as [Hm | [_ Hr]]; [contradiction |].
    split; [exact Hr | intros Hnone; now contradiction Hnone].
Qed.

(** The theorem above on the tree whose only leaf surrounds the shading
    point, without resampling distribution. *)
Lemma select_secondary_edge_valid_witness :
  @select_secondary_edge flat_world flat_tree_world
    (fun _ => tilted_triangle) (fun _ => far_edge) 1 zero3 None (fun _ => 0%R)
    around_roots (mkSecondaryEdgeSample (1 / 2) 0 0 0) hit_triangle_0 origin_point
    identity3 = Some (0, (1 / 1)%R) /\
  0 <= 0 < 1.
Proof.
  assert (Hsel : @select_secondary_edge flat_world flat_tree_world
            (fun _ => tilted_triangle) (fun _ => far_edge) 1 zero3 None
            (fun _ => 0%R) around_roots (mkSecondaryEdgeSample (1 / 2) 0 0 0)
            hit_triangle_0 origin_point identity3 = Some (0, (1 / 1)%R)).
  { unfold select_secondary_edge. cbv zeta. cbn [edge_sel].
    rewrite around_roots_found. reflexivity. }
  split; [exact Hsel |].
  apply (@select_secondary_edge_valid flat_world flat_tree_world
           (fun _ => tilted_triangle) (fun _ => far_edge) 1 zero3 None
           (fun _ => 0%R) around_roots (mkSecondaryEdgeSample (1 / 2) 0 0 0)
           hit_triangle_0 origin_point identity3 0 (1 / 1)%R);
    [lia | exact around_roots_well_formed | exact Hsel].
Defined.

(** ** The order of the roots of the cubic *)

(** X17.  The order in which [solve_cubic] returns its three values.  For
    all coefficients, the second component of the result is the smallest of
    the three, the value that [ltc_sphere_integral] takes as [e2]; the two
    swaps at the end of the function leave one exception, a result whose
    first and third components are equal and smaller than the second. *)
Theorem solve_cubic_second_smallest `{TreeCollaborators} (c0 c1 c2 c3 : R) :
  let roots := solve_cubic c0 c1 c2 c3 in
  ((vy roots <= vx roots)%R /\ (vy roots <= vz roots)%R) \/
  (vx roots = vz roots /\ (vx roots < vy roots)%R).
Proof.
  cbv zeta. unfold solve_cubic. cbv zeta.
  match goal with
  | |- context [if Rltb (vx ?r) (vy ?r) && Rltb (vx ?r) (vz ?r) then _ else _] =>
      generalize r
  end.
  intros [x y z]. cbn [vx vy vz].
  destruct (Rltb x y) eqn:Exy; destruct (Rltb x z) eqn:Exz; cbn [andb vx vy vz];
    try (apply Rltb_true in Exy); try (apply Rltb_false in Exy);
    try (apply Rltb_true in Exz); try (apply Rltb_false in Exz).
  - left. lra.
  - destruct (Rltb z x) eqn:Ezx; destruct (Rltb z y) eqn:Ezy; cbn [andb vx vy vz];
      try (apply Rltb_true in Ezx); try (apply Rltb_false in Ezx);
      try (apply Rltb_true in Ezy); try (apply Rltb_false in Ezy).
    + left. lra.
    + left. lra.
    + right. split; lra.
    + left. lra.
  - destruct (Rltb z x) eqn:Ezx; destruct (Rltb z y) eqn:Ezy; cbn [andb vx vy vz];
      try (apply Rltb_true in Ezx); try (apply Rltb_false in Ezx);
      try (apply Rltb_true in Ezy); try (apply Rltb_false in Ezy);
      left; lra.
  - destruct (Rltb z x) eqn:Ezx; destruct (Rltb z y) eqn:Ezy; cbn [andb vx vy vz];
      try (apply Rltb_true in Ezx); try (apply Rltb_false in Ezx);
      try (apply Rltb_true in Ezy); try (apply Rltb_false in Ezy);
      left; lra.
Qed.

(* ================================================================= *)
(** ** The descent over the edge tree in binary64 arithmetic *)
(* ================================================================= *)

Section Binary64Descent.

Import PrimFloat.
Import Binary64.
Local Open Scope Z_scope.

(** The descent from a node ends on a leaf, whatever the importance
    function returns (NaN and infinities included) and whatever the sample
    is: the result is [-1] or the edge id of a leaf under the node. *)
Lemma binary64_sample_edge_leaf {B : Type}
    (importance : BVHNode B -> SurfacePoint -> Matrix3x3 -> Real)
    (num_edges : Z) (node : BVHNode B) :
  leaves_in_range num_edges node ->
  forall (p : SurfacePoint) (m_inv : Matrix3x3) (sample pmf : Real),
  exists id pmf',
    Binary64.sample_edge importance node p m_inv sample pmf = Some (id, pmf') /\
    (id = -1 \/ (In id (leaf_ids node) /\ 0 <= id < num_edges)).
Proof.
  induction 1 as [bounds w e He | bounds w child0 child1 H0 IH0 H1 IH1];
    intros p m_inv sample pmf.
  - exists e, pmf. cbn [Binary64.sample_edge node_edge_id].
    replace (e =? -1) with false by (symmetry; apply Z.eqb_neq; lia).
    cbn [negb leaf_ids]. split; [reflexivity |]. right. split; [now left | exact He].
  - cbn [Binary64.sample_edge node_edge_id]. rewrite Z.eqb_refl. cbn [negb leaf_ids].
    destruct ((importance child0 p m_inv <=? 0)%float &&
              (importance child1 p m_inv <=? 0)%float).
    + exists (-1), pmf. split; [reflexivity | now left].
    + match goal with
      | |- context [if ?c then _ else _] => destruct c
      end.
      * match goal with
        | |- context [Binary64.sample_edge importance child0 p m_inv ?s ?q] =>
            destruct (IH0 p m_inv s q) as (id & pmf' & Hrun & Hid)
        end.
        exists id, pmf'. split; [exact Hrun |].
        destruct Hid as [Hm | [Hin Hr]]; [now left | right].
        split; [apply in_or_app; now left | exact Hr].
      * match goal with
        | |- context [Binary64.sample_edge importance child1 p m_inv ?s ?q] =>
            destruct (IH1 p m_inv s q) as (id & pmf' & Hrun & Hid)
        end.
        exists id, pmf'. split; [exact Hrun |].
        destruct Hid as [Hm | [Hin Hr]]; [now left | right].
        split; [apply in_or_app; now right | exact Hr].
Qed.

Lemma three_edge_roots_in_range : roots_in_range 3 three_edge_roots.
Proof.
  split; intros root Hroot; [| discriminate].
  injection Hroot as <-. unfold three_edges, near_edges.
  repeat constructor; lia.
Qed.

(** C2.  A descent that returns an edge with pmf 0.  In the scene with
    three edges, with the shading point at the origin, the identity as
    inverse transform and the largest sample below 16/17, the share of the
    first child of the root: the sample is in [0, 1), the descent enters
    the first child, the rescaled sample [sample * (imp0 + imp1) / imp0]
    rounds to 1, which is not below the share 1 of edge 0 among the two
    edges of that child, and the descent returns edge 1 with the pmf
    [16/17 * (1 - 1) = 0].  Edge 1 lies under the tangent plane and has
    importance 0.  This holds for all functions [cos] and [atan2], sphere
    tables and directional bounds, none of which this descent reaches. *)
Theorem sample_edge_roots_zero_pmf (cos : Real -> Real) (atan2 : Real -> Real -> Real)
    (intersect : Sphere -> AABB3 -> bool)
    (coordinate_system : Vector3 -> Vector3 * Vector3)
    (tab_sphere_size : Z) (tabSphere : Buffer Real)
    (int_of_unrepresentable : Real -> Z) (cam_org : Vector3) :
  let world := midpoint_spheres cos atan2 intersect coordinate_system
                 tab_sphere_size tabSphere int_of_unrepresentable in
  roots_in_range 3 three_edge_roots /\
  (0 <=? sample_below_share)%float = true /\
  (sample_below_share <? 1)%float = true /\
  (let imp0 := @Binary64.importance3 world near_edges origin_point identity3 in
   let imp1 := @Binary64.importance3 world edge_2_leaf origin_point identity3 in
   (sample_below_share <? imp0 / (imp0 + imp1))%float = true /\
   (sample_below_share * (imp0 + imp1) / imp0)%float = 1%float) /\
  @Binary64.sample_edge_roots world cam_org three_edge_roots origin_point
    identity3 sample_below_share 0%float = Some (1, 0%float) /\
  @Binary64.is_bound_below_surface (node_bounds edge_1_leaf) origin_point = true /\
  @Binary64.importance3 world edge_1_leaf origin_point identity3 = 0%float.
Proof.
  intros world. split; [exact three_edge_roots_in_range |].
  repeat split; vm_compute; reflexivity.
Qed.

(** X31.  In binary64 arithmetic the descent over the two roots ends on a
    leaf: for a tree whose leaves hold edge ids of the buffer and whose
    inner nodes hold [-1], for every shading point, transform, sample and
    initial pmf, NaN and infinities included, a returned edge id is [-1]
    or the id of a leaf of the tree, hence a valid index into the edge
    buffer; and when neither root is null the descent does return, without
    dereferencing a null pointer. *)
Theorem binary64_descent_returns_leaf `{Binary64.TreeCollaborators}
    (cam_org : Vector3) (roots : EdgeTreeRoots) (p : SurfacePoint)
    (m_inv : Matrix3x3) (num_edges : Z) (sample pmf0 : Real) :
  roots_in_range num_edges roots ->
  (forall id pmf,
     Binary64.sample_edge_roots cam_org roots p m_inv sample pmf0 = Some (id, pmf) ->
     id = -1 \/ (In id (roots_leaf_ids roots) /\ 0 <= id < num_edges)) /\
  (cs_bvh_root roots <> None -> ncs_bvh_root roots <> None ->
   exists id pmf,
     Binary64.sample_edge_roots cam_org roots p m_inv sample pmf0 = Some (id, pmf)).
Proof.
  intros [Hcs Hncs]. unfold Binary64.sample_edge_roots, roots_leaf_ids. cbv zeta.
  destruct (cs_bvh_root roots) as [cs |], (ncs_bvh_root roots) as [ncs |];
    (split; [intros id pmf Hrun | intros Hc Hn; try congruence]);
    repeat match type of Hrun with
           | context [if ?c then _ else _] => destruct c
           end;
    repeat match goal with
           | |- context [if ?c then _ else _] => destruct c
           end;
    try discriminate;
    try (injection Hrun as <- <-; now left);
    try (eexists _, _; reflexivity);
    try match type of Hrun with
        | Binary64.sample_edge ?imp ?root p m_inv ?s ?q = _ =>
            let Hwf := fresh "Hwf" in
            first [assert (Hwf : leaves_in_range num_edges root)
                     by (apply Hcs; reflexivity)
                  | assert (Hwf : leaves_in_range num_edges root)
                     by (apply Hncs; reflexivity)];
            destruct (binary64_sample_edge_leaf imp num_edges root Hwf p m_inv s q)
              as (id' & pmf' & Hrun' & Hid);
            rewrite Hrun in Hrun'; injection Hrun' as <- <-;
            destruct Hid as [Hm | [Hin Hr]]; [now left | right];
            split; [| exact Hr];
            first [apply in_or_app; left; exact Hin
                  | apply in_or_app; right; exact Hin
                  | rewrite app_nil_r; exact Hin
                  | exact Hin]
        end;
    try match goal with
        | |- exists id pmf, Binary64.sample_edge ?imp ?root p m_inv ?s ?q = _ =>
            let Hwf := fresh "Hwf" in
            first [assert (Hwf : leaves_in_range num_edges root)
                     by (apply Hcs; reflexivity)
                  | assert (Hwf : leaves_in_range num_edges root)
                     by (apply Hncs; reflexivity)];
            destruct (binary64_sample_edge_leaf imp num_edges root Hwf p m_inv s q)
              as (id' & pmf' & Hrun' & _);
            exists id', pmf'; exact Hrun'
        end.
Qed.

(** The theorem above on the scene with three edges. *)
Lemma binary64_descent_returns_leaf_witness :
  roots_in_range 3 three_edge_roots /\
  forall id pmf,
    @Binary64.sample_edge_roots bare_tree_world (mkVector3 0 0 1)%float three_edge_roots
      origin_point identity3 sample_below_share 0%float = Some (id, pmf) ->
    id = -1 \/ (In id (roots_leaf_ids three_edge_roots) /\ 0 <= id < 3).
Proof.
  split; [exact three_edge_roots_in_range |].
  exact (proj1 (@binary64_descent_returns_leaf bare_tree_world (mkVector3 0 0 1)%float
                  three_edge_roots origin_point identity3 3 sample_below_share 0%float
                  three_edge_roots_in_range)).
Defined.

End Binary64Descent.
